(** * PyQMRI: IRGN reconstruction, signal models and their numerics

    A shallow embedding of [pyqmri/irgn/reco.py] (class [ModelReco]), of the
    diffusion-tensor signal models [pyqmri/models/DiffdirLL.py] and
    [mbpq/_models/Diffdir.py], and of the forward signal of [IRLL_Model.py].

    Numbers.  A NumPy float is modelled as an extended real [fl]: a finite
    value is an exact real number (rounding and overflow are not modelled) and
    the three non-finite values [PInf], [NInf], [NaN] follow the IEEE rules
    for the operations the code uses (there is one zero, taken as positive).
    A complex number is a pair of such floats, with NumPy's product and
    quotient algorithms.

    Arrays.  An n-dimensional array keeps its first axis as a list and has
    the remaining axes flattened, so an array of unknowns [x[U,S,Y,X]] is a
    [list (list cfl)] with one row per unknown. *)

From Stdlib Require Import Reals Lra Lia List Bool ZArith Arith.
Import ListNotations.

Set Implicit Arguments.

(* ================================================================== *)
(** * Extended reals: the values of a float *)
(* ================================================================== *)

Module Fl.

Local Open Scope R_scope.

Inductive fl : Type :=
| Fin (r : R)
| PInf
| NInf
| NaN.

(** Sign of a real: [Lt] negative, [Eq] zero, [Gt] positive. *)
Definition sgn (r : R) : comparison :=
  match total_order_T r 0 with
  | inleft (left _) => Lt
  | inleft (right _) => Eq
  | inright _ => Gt
  end.

Definition isfinite (a : fl) : bool :=
  match a with Fin _ => true | _ => false end.

Definition isnan (a : fl) : bool :=
  match a with NaN => true | _ => false end.

Definition opp (a : fl) : fl :=
  match a with
  | Fin r => Fin (- r)
  | PInf => NInf
  | NInf => PInf
  | NaN => NaN
  end.

Definition add (a b : fl) : fl :=
  match a, b with
  | Fin x, Fin y => Fin (x + y)
  | NaN, _ | _, NaN => NaN
  | PInf, NInf | NInf, PInf => NaN
  | PInf, _ | _, PInf => PInf
  | NInf, _ | _, NInf => NInf
  end.

Definition sub (a b : fl) : fl := add a (opp b).

(** An infinity carrying the sign [s] (NaN for the sign of zero). *)
Definition inf_of (s : comparison) : fl :=
  match s with Gt => PInf | Lt => NInf | Eq => NaN end.

Definition flip (s : comparison) : comparison :=
  match s with Gt => Lt | Lt => Gt | Eq => Eq end.

Definition mul (a b : fl) : fl :=
  match a, b with
  | Fin x, Fin y => Fin (x * y)
  | NaN, _ | _, NaN => NaN
  | PInf, PInf | NInf, NInf => PInf
  | PInf, NInf | NInf, PInf => NInf
  | Fin x, PInf | PInf, Fin x => inf_of (sgn x)
  | Fin x, NInf | NInf, Fin x => inf_of (flip (sgn x))
  end.

(** Division: a finite value over zero is an infinity of its sign, [0/0] and
    [inf/inf] are NaN, a finite value over an infinity is zero. *)
Definition div (a b : fl) : fl :=
  match a, b with
  | Fin x, Fin y =>
      match sgn y with
      | Eq => inf_of (sgn x)
      | _ => Fin (x / y)
      end
  | NaN, _ | _, NaN => NaN
  | Fin _, PInf | Fin _, NInf => Fin 0
  | PInf, Fin y => match sgn y with Lt => NInf | _ => PInf end
  | NInf, Fin y => match sgn y with Lt => PInf | _ => NInf end
  | _, _ => NaN
  end.

Definition abs (a : fl) : fl :=
  match a with
  | Fin r => Fin (Rabs r)
  | PInf | NInf => PInf
  | NaN => NaN
  end.

Definition sqrt (a : fl) : fl :=
  match a with
  | Fin r => match sgn r with Lt => NaN | _ => Fin (R_sqrt.sqrt r) end
  | PInf => PInf
  | NInf | NaN => NaN
  end.

Definition exp (a : fl) : fl :=
  match a with
  | Fin r => Fin (Rtrigo_def.exp r)
  | PInf => PInf
  | NInf => Fin 0
  | NaN => NaN
  end.

Definition cos (a : fl) : fl :=
  match a with Fin r => Fin (Rtrigo_def.cos r) | _ => NaN end.

Definition sin (a : fl) : fl :=
  match a with Fin r => Fin (Rtrigo_def.sin r) | _ => NaN end.

(** [x ** n] for a natural exponent, by repeated products ([x ** 0 = 1]
    for every [x], NaN included, as the IEEE [pow]). *)
Fixpoint pow (a : fl) (n : nat) : fl :=
  match n with
  | O => Fin 1
  | S k => mul a (pow a k)
  end.

(** Comparisons: every comparison with NaN is false. *)
Definition leb (a b : fl) : bool :=
  match a, b with
  | NaN, _ | _, NaN => false
  | NInf, _ => true
  | _, PInf => true
  | Fin x, Fin y => if Rle_dec x y then true else false
  | _, _ => false
  end.

Definition ltb (a b : fl) : bool :=
  match a, b with
  | NaN, _ | _, NaN => false
  | PInf, _ => false
  | _, NInf => false
  | Fin x, Fin y => if Rlt_dec x y then true else false
  | _, _ => true
  end.

Definition geb (a b : fl) : bool := leb b a.
Definition gtb (a b : fl) : bool := ltb b a.

Definition eqb (a b : fl) : bool :=
  match a, b with
  | Fin x, Fin y => if Req_dec_T x y then true else false
  | PInf, PInf | NInf, NInf => true
  | _, _ => false
  end.

(** [np.minimum] and [np.maximum]: NaN if either operand is NaN. *)
Definition minimum (a b : fl) : fl :=
  match a, b with
  | NaN, _ | _, NaN => NaN
  | _, _ => if leb a b then a else b
  end.

Definition maximum (a b : fl) : fl :=
  match a, b with
  | NaN, _ | _, NaN => NaN
  | _, _ => if leb a b then b else a
  end.

(** The real number a finite float stands for (0 for the others). *)
Definition to_R (a : fl) : R :=
  match a with Fin r => r | _ => 0 end.

Definition of_nat (n : nat) : fl := Fin (INR n).
Definition of_Z (z : Z) : fl := Fin (IZR z).

End Fl.

Export Fl (fl, Fin, PInf, NInf, NaN).

(* ================================================================== *)
(** * Complex floats, with NumPy's product and quotient *)
(* ================================================================== *)

Module Cfl.

Record cfl : Type := mkC { cre : fl; cim : fl }.

(** A real scalar promoted to a complex one, as NumPy does before it
    combines a real with a complex operand. *)
Definition of_real (r : fl) : cfl := mkC r (Fin 0%R).

Definition czero : cfl := mkC (Fin 0%R) (Fin 0%R).

Definition cisfinite (z : cfl) : bool :=
  Fl.isfinite (cre z) && Fl.isfinite (cim z).

Definition cneg (z : cfl) : cfl := mkC (Fl.opp (cre z)) (Fl.opp (cim z)).
Definition cconj (z : cfl) : cfl := mkC (cre z) (Fl.opp (cim z)).

Definition cadd (z w : cfl) : cfl :=
  mkC (Fl.add (cre z) (cre w)) (Fl.add (cim z) (cim w)).

Definition csub (z w : cfl) : cfl :=
  mkC (Fl.sub (cre z) (cre w)) (Fl.sub (cim z) (cim w)).

(** [(a+bi)(c+di) = (ac - bd) + (ad + bc)i], computed as written. *)
Definition cmul (z w : cfl) : cfl :=
  mkC (Fl.sub (Fl.mul (cre z) (cre w)) (Fl.mul (cim z) (cim w)))
      (Fl.add (Fl.mul (cre z) (cim w)) (Fl.mul (cim z) (cre w))).

(** NumPy's complex quotient (Smith's algorithm). *)
Definition cdiv (z w : cfl) : cfl :=
  let in2r_abs := Fl.abs (cre w) in
  let in2i_abs := Fl.abs (cim w) in
  if Fl.geb in2r_abs in2i_abs then
    if Fl.eqb in2r_abs (Fin 0%R) && Fl.eqb in2i_abs (Fin 0%R) then
      mkC (Fl.div (cre z) in2r_abs) (Fl.div (cim z) in2r_abs)
    else
      let rat := Fl.div (cim w) (cre w) in
      let scl := Fl.div (Fin 1%R) (Fl.add (cre w) (Fl.mul (cim w) rat)) in
      mkC (Fl.mul (Fl.add (cre z) (Fl.mul (cim z) rat)) scl)
          (Fl.mul (Fl.sub (cim z) (Fl.mul (cre z) rat)) scl)
  else
    let rat := Fl.div (cre w) (cim w) in
    let scl := Fl.div (Fin 1%R) (Fl.add (cim w) (Fl.mul (cre w) rat)) in
    mkC (Fl.mul (Fl.add (Fl.mul (cre z) rat) (cim z)) scl)
        (Fl.mul (Fl.sub (Fl.mul (cim z) rat) (cre z)) scl).

(** [np.abs] of a complex number: [hypot], infinite as soon as one part is. *)
Definition cabs (z : cfl) : fl :=
  match cre z, cim z with
  | PInf, _ | NInf, _ | _, PInf | _, NInf => PInf
  | a, b => Fl.sqrt (Fl.add (Fl.mul a a) (Fl.mul b b))
  end.

(** [z ** 2]: NumPy squares by one product. *)
Definition csq (z : cfl) : cfl := cmul z z.

(** [z ** n] for a natural exponent. *)
Fixpoint cpow_nat (z : cfl) (n : nat) : cfl :=
  match n with
  | O => of_real (Fin 1%R)
  | S k => cmul z (cpow_nat z k)
  end.

(** [np.exp] on a complex number: [e^a (cos b + i sin b)]. *)
Definition cexp (z : cfl) : cfl :=
  mkC (Fl.mul (Fl.exp (cre z)) (Fl.cos (cim z)))
      (Fl.mul (Fl.exp (cre z)) (Fl.sin (cim z))).

(** Principal argument of [a + bi] for finite parts. *)
Definition arg (a b : R) : R :=
  match Fl.sgn a with
  | Gt => atan (b / a)
  | Lt => match Fl.sgn b with
          | Lt => atan (b / a) - PI
          | _ => atan (b / a) + PI
          end
  | Eq => match Fl.sgn b with
          | Gt => PI / 2
          | Lt => - (PI / 2)
          | Eq => 0
          end
  end%R.

(** [z ** p] for a real exponent [p]: the principal value in polar form,
    [1] for [p = 0] and [z] itself for [z = 0]; a non-finite operand gives
    NaN (of such a power only its non-finiteness is modelled). *)
Definition cpow_real (z : cfl) (p : fl) : cfl :=
  match cre z, cim z, p with
  | Fin a, Fin b, Fin e =>
      match Fl.sgn e with
      | Eq => of_real (Fin 1%R)
      | _ =>
        match Fl.sgn a, Fl.sgn b with
        | Eq, Eq => z
        | _, _ =>
          let len := Rpower (R_sqrt.sqrt (a * a + b * b)) e in
          let phase := (arg a b * e)%R in
          mkC (Fin (len * Rtrigo_def.cos phase)) (Fin (len * Rtrigo_def.sin phase))
        end
      end
  | _, _, _ => mkC NaN NaN
  end.

(** Element filter [S[~np.isfinite(S)] = 0]. *)
Definition zero_nonfinite (z : cfl) : cfl :=
  if cisfinite z then z else czero.

End Cfl.

Export Cfl (cfl, mkC, cre, cim).

Declare Scope cfl_scope.
Delimit Scope cfl_scope with cfl.
Bind Scope cfl_scope with cfl.
Notation "z +c w" := (Cfl.cadd z w) (at level 50, left associativity) : cfl_scope.
Notation "z -c w" := (Cfl.csub z w) (at level 50, left associativity) : cfl_scope.
Notation "z *c w" := (Cfl.cmul z w) (at level 40, left associativity) : cfl_scope.
Notation "z /c w" := (Cfl.cdiv z w) (at level 40, left associativity) : cfl_scope.
Notation "-c z" := (Cfl.cneg z) (at level 35, right associativity) : cfl_scope.
Abbreviation rc := Cfl.of_real.

Declare Scope fl_scope.
Delimit Scope fl_scope with fl.
Bind Scope fl_scope with fl.
Notation "a + b" := (Fl.add a b) : fl_scope.
Notation "a - b" := (Fl.sub a b) : fl_scope.
Notation "a * b" := (Fl.mul a b) : fl_scope.
Notation "a / b" := (Fl.div a b) : fl_scope.
Notation "- a" := (Fl.opp a) : fl_scope.

(* ================================================================== *)
(** * Arrays *)
(* ================================================================== *)

Module Arr.

Local Open Scope cfl_scope.

(** A vector of complex floats and an array with its first axis kept. *)
Definition vec := list cfl.
Definition arr := list (list cfl).

(** [a[i]] along the first axis and the element [a[i, v]]; the shapes are
    the ones the code requires, an index outside them reads zero. *)
Definition row (a : arr) (i : nat) : vec := nth i a [].
Definition at2 (a : arr) (i v : nat) : cfl := nth v (row a i) Cfl.czero.

Definition rget (l : list fl) (i : nat) : fl := nth i l (Fin 0%R).

(** Element-wise operations of equal-shaped operands. *)
Fixpoint vzip (f : cfl -> cfl -> cfl) (a b : vec) : vec :=
  match a, b with
  | x :: a', y :: b' => f x y :: vzip f a' b'
  | _, _ => []
  end.

Fixpoint azip (f : cfl -> cfl -> cfl) (a b : arr) : arr :=
  match a, b with
  | x :: a', y :: b' => vzip f x y :: azip f a' b'
  | _, _ => []
  end.

Definition asub (a b : arr) : arr := azip Cfl.csub a b.
Definition amap (f : cfl -> cfl) (a : arr) : arr := map (map f) a.

(** Scaling of a vector by a real scalar, in place: [v *= s], [v /= s]. *)
Definition vscale (v : vec) (s : fl) : vec := map (fun z => z *c rc s) v.
Definition vunscale (v : vec) (s : fl) : vec := map (fun z => z /c rc s) v.

(** Sums start from zero and run left to right. *)
Definition fsum (l : list fl) : fl := fold_left Fl.add l (Fin 0%R).
Definition csum (l : vec) : cfl := fold_left Cfl.cadd l Cfl.czero.

Definition flat (a : arr) : vec := List.concat a.

(** [np.linalg.norm(a, axis=-1)] on one row: the square root of the sum
    of [(conj(z) * z).real]. *)
Definition norm_axis (v : vec) : fl :=
  Fl.sqrt (fsum (map (fun z => cre (Cfl.cconj z *c z)) v)).

(** [np.linalg.norm(a)] of a complex array: the square root of
    [a.real . a.real + a.imag . a.imag] over the flattened array. *)
Definition norm (a : arr) : fl :=
  let f := flat a in
  Fl.sqrt (Fl.add (fsum (map (fun z => Fl.mul (cre z) (cre z)) f))
                  (fsum (map (fun z => Fl.mul (cim z) (cim z)) f))).

(** [clarray.vdot(a, b)]: the sum of [conj(a) * b] over all elements. *)
Definition vdot (a b : arr) : cfl :=
  csum (vzip (fun x y => Cfl.cconj x *c y) (flat a) (flat b)).

(** [clarray.sum(a)] and [clarray.sum(abs(a))]. *)
Definition asum (a : arr) : cfl := csum (flat a).
Definition asum_abs (a : arr) : fl := fsum (map Cfl.cabs (flat a)).

(** [np.nan_to_num]: NaN becomes zero, an infinity the largest finite
    value of its sign ([fmax], the dtype's largest float). *)
Definition nan_to_num_fl (fmax : R) (a : fl) : fl :=
  match a with
  | Fin r => Fin r
  | PInf => Fin fmax
  | NInf => Fin (- fmax)
  | NaN => Fin 0%R
  end.

Definition nan_to_num_c (fmax : R) (z : cfl) : cfl :=
  mkC (nan_to_num_fl fmax (cre z)) (nan_to_num_fl fmax (cim z)).

Definition all_finite (v : vec) : Prop := Forall (fun z => Cfl.cisfinite z = true) v.

End Arr.

Export Arr (vec, arr).

(* ================================================================== *)
(** * Signal models *)
(* ================================================================== *)

(** The box and real constraint of one unknown ([constraint] of
    [IRLL_Model.py]; [update] divides both bounds by the scale). *)
Module Constraint.

Record constraint : Type := mk { min : fl; max : fl; real : bool }.

Definition update (c : constraint) (scale : fl) : constraint :=
  mk (Fl.div (min c) scale) (Fl.div (max c) scale) (real c).

End Constraint.

Export Constraint (constraint).

(** What [ModelReco] asks of a signal model (the abstract methods of
    [BaseModel], with the mutable [uk_scale] passed explicitly). *)
Class SignalModel (M : Type) : Type := {
  model_guess : M -> arr;
  execute_forward : M -> list fl -> arr -> arr;
  execute_gradient : M -> list fl -> arr -> list arr;
  model_rescale : M -> list fl -> arr -> arr
}.

(** ** The Cholesky-parametrized tensor model, [pyqmri/models/DiffdirLL.py] *)
Module DiffdirLL.

Import Arr.
Local Open Scope cfl_scope.

Record Model : Type := mkModel {
  NScan : nat;
  b : list fl;                      (* b value of each scan *)
  dir : list (fl * fl * fl);        (* diffusion direction of each scan *)
  uk_scale : list fl;
  phase : arr;                      (* [NScan] x voxels *)
  guess : arr;
  constraints : list constraint
}.

Definition sq (a : fl) : fl := Fl.mul a a.

(** [__init__]: seven unknowns, all scales 1, [M0] complex in [0, 10]
    and the six Cholesky factors real in [-10, 10]. *)
Definition init_uk_scale : list fl := repeat (Fin 1%R) 7.

Definition init_constraints (s : nat -> fl) : list constraint :=
  [ Constraint.mk (Fl.div (Fin 0%R) (s 0%nat)) (Fl.div (Fin 10%R) (s 0%nat)) false;
    Constraint.mk (Fl.div (Fin (-10)%R) (s 1%nat)) (Fl.div (Fin 10%R) (s 1%nat)) true;
    Constraint.mk (Fl.div (Fin (-10)%R) (s 2%nat)) (Fl.div (Fin 10%R) (s 2%nat)) true;
    Constraint.mk (Fl.div (Fin (-10)%R) (s 3%nat)) (Fl.div (Fin 10%R) (s 3%nat)) true;
    Constraint.mk (Fl.div (Fin (-10)%R) (s 4%nat)) (Fl.div (Fin 10%R) (s 4%nat)) true;
    Constraint.mk (Fl.div (Fin (-10)%R) (s 5%nat)) (Fl.div (Fin 10%R) (s 5%nat)) true;
    Constraint.mk (Fl.div (Fin (-10)%R) (s 6%nat)) (Fl.div (Fin 10%R) (s 6%nat)) true ].

Section Element.

(** One scan and one voxel: the scales [s], the scan's b value and
    direction, and the seven unknowns [x 0 .. x 6] of the voxel. *)
Variable s : nat -> fl.
Variables bn d0 d1 d2 : fl.
Variable ph : cfl.
Variable x : nat -> cfl.

Definition ADC : cfl :=
  Cfl.csq (x 1%nat) *c rc (sq (s 1%nat)) *c rc (sq d0)
  +c (Cfl.csq (x 2%nat) *c rc (sq (s 2%nat)) +c
      Cfl.csq (x 3%nat) *c rc (sq (s 3%nat))) *c rc (sq d1)
  +c (Cfl.csq (x 4%nat) *c rc (sq (s 4%nat)) +c
      Cfl.csq (x 5%nat) *c rc (sq (s 5%nat)) +c
      Cfl.csq (x 6%nat) *c rc (sq (s 6%nat))) *c rc (sq d2)
  +c rc (Fin 2%R) *c (x 2%nat *c rc (s 2%nat) *c x 1%nat *c rc (s 1%nat)) *c rc d0 *c rc d1
  +c rc (Fin 2%R) *c (x 4%nat *c rc (s 4%nat) *c x 1%nat *c rc (s 1%nat)) *c rc d0 *c rc d2
  +c rc (Fin 2%R) *c (x 2%nat *c rc (s 2%nat) *c x 4%nat *c rc (s 4%nat) +c
                    x 6%nat *c rc (s 6%nat) *c x 3%nat *c rc (s 3%nat)) *c rc d1 *c rc d2.

(** The signal before the non-finite filter. *)
Definition signal : cfl :=
  x 0%nat *c rc (s 0%nat) *c Cfl.cexp (-c ADC *c rc bn) *c ph.

Definition forward_elem : cfl := Cfl.zero_nonfinite signal.

Definition grad_M0 : cfl := rc (s 0%nat) *c Cfl.cexp (-c ADC *c rc bn) *c ph.

Definition grad_ADC_x : cfl :=
  -c x 0%nat *c rc bn *c grad_M0 *c
  (rc (Fin 2%R) *c x 1%nat *c rc (sq (s 1%nat)) *c rc (sq d0) +c
   rc (Fl.mul (Fin 2%R) (s 1%nat)) *c x 2%nat *c rc (s 2%nat) *c rc d0 *c rc d1 +c
   rc (Fl.mul (Fin 2%R) (s 1%nat)) *c x 4%nat *c rc (s 4%nat) *c rc d0 *c rc d2).

Definition grad_ADC_xy : cfl :=
  -c x 0%nat *c rc bn *c grad_M0 *c
  (rc (Fin 2%R) *c x 1%nat *c rc (s 1%nat) *c rc (s 2%nat) *c rc d0 *c rc d1 +c
   rc (Fin 2%R) *c x 2%nat *c rc (sq (s 2%nat)) *c rc (sq d1) +c
   rc (Fl.mul (Fin 2%R) (s 2%nat)) *c x 4%nat *c rc (s 4%nat) *c rc d1 *c rc d2).

Definition grad_ADC_y : cfl :=
  -c x 0%nat *c rc bn *c grad_M0 *c
  (rc (Fin 2%R) *c x 3%nat *c rc (sq (s 3%nat)) *c rc (sq d1) +c
   rc (Fl.mul (Fin 2%R) (s 3%nat)) *c x 6%nat *c rc (s 6%nat) *c rc d1 *c rc d2).

Definition grad_ADC_xz : cfl :=
  -c x 0%nat *c rc bn *c grad_M0 *c
  (rc (Fin 2%R) *c x 1%nat *c rc (s 1%nat) *c rc (s 4%nat) *c rc d0 *c rc d2 +c
   rc (Fin 2%R) *c x 2%nat *c rc (s 2%nat) *c rc (s 4%nat) *c rc d1 *c rc d2 +c
   rc (Fin 2%R) *c x 4%nat *c rc (sq (s 4%nat)) *c rc (sq d2)).

Definition grad_ADC_z : cfl :=
  rc (Fin (-2)%R) *c x 5%nat *c rc (sq (s 5%nat)) *c
  x 0%nat *c rc bn *c rc (sq d2) *c grad_M0.

Definition grad_ADC_yz : cfl :=
  -c x 0%nat *c rc bn *c grad_M0 *c
  (rc (Fin 2%R) *c x 3%nat *c rc (s 3%nat) *c rc (s 6%nat) *c rc d1 *c rc d2 +c
   rc (Fin 2%R) *c x 6%nat *c rc (sq (s 6%nat)) *c rc (sq d2)).

(** The seven partial derivatives before the filter, in the order of the
    returned array. *)
Definition grad_raw : list cfl :=
  [grad_M0; grad_ADC_x; grad_ADC_xy; grad_ADC_y; grad_ADC_xz; grad_ADC_z;
   grad_ADC_yz].

Definition gradient_elem : list cfl := map Cfl.zero_nonfinite grad_raw.

(** [rescale] at one voxel: [M0] scaled, the tensor entries recombined
    from the scaled Cholesky factors (real parts, stored as complex). *)
Definition rescale_elem : list cfl :=
  [ x 0%nat *c rc (s 0%nat);
    rc (Fl.mul (cre (Cfl.csq (x 1%nat))) (sq (s 1%nat)));
    rc (cre (x 2%nat *c rc (s 2%nat) *c x 1%nat *c rc (s 1%nat)));
    rc (cre (Cfl.csq (x 2%nat) *c rc (sq (s 2%nat)) +c
           Cfl.csq (x 3%nat) *c rc (sq (s 3%nat))));
    rc (cre (x 4%nat *c rc (s 4%nat) *c x 1%nat *c rc (s 1%nat)));
    rc (cre (Cfl.csq (x 4%nat) *c rc (sq (s 4%nat)) +c
           Cfl.csq (x 5%nat) *c rc (sq (s 5%nat)) +c
           Cfl.csq (x 6%nat) *c rc (sq (s 6%nat))));
    rc (cre (x 2%nat *c rc (s 2%nat) *c x 4%nat *c rc (s 4%nat) +c
           x 6%nat *c rc (s 6%nat) *c x 3%nat *c rc (s 3%nat))) ].

End Element.

(** Lifting to the arrays: scan [n] along the first axis of the signal,
    unknown [u] along the first axis of [x] and of the Jacobian. *)
Definition nvox (x : arr) : nat := length (row x 0).
Definition dir0 (m : Model) (n : nat) : fl := fst (fst (nth n (dir m) (Fin 0%R, Fin 0%R, Fin 0%R))).
Definition dir1 (m : Model) (n : nat) : fl := snd (fst (nth n (dir m) (Fin 0%R, Fin 0%R, Fin 0%R))).
Definition dir2 (m : Model) (n : nat) : fl := snd (nth n (dir m) (Fin 0%R, Fin 0%R, Fin 0%R)).

Definition forward_with (m : Model) (s : list fl) (x : arr) : arr :=
  map (fun n =>
         map (fun v =>
                forward_elem (rget s) (rget (b m) n) (dir0 m n) (dir1 m n)
                             (dir2 m n) (at2 (phase m) n v) (fun u => at2 x u v))
             (seq 0 (nvox x)))
      (seq 0 (NScan m)).

Definition gradient_with (m : Model) (s : list fl) (x : arr) : list arr :=
  map (fun u =>
         map (fun n =>
                map (fun v =>
                       nth u (gradient_elem (rget s) (rget (b m) n) (dir0 m n)
                                (dir1 m n) (dir2 m n) (at2 (phase m) n v)
                                (fun k => at2 x k v)) Cfl.czero)
                    (seq 0 (nvox x)))
             (seq 0 (NScan m)))
      (seq 0 7).

Definition rescale_with (s : list fl) (x : arr) : arr :=
  map (fun u =>
         map (fun v => nth u (rescale_elem (rget s) (fun k => at2 x k v)) Cfl.czero)
             (seq 0 (nvox x)))
      (seq 0 7).

Definition _execute_forward_3D (m : Model) (x : arr) : arr :=
  forward_with m (uk_scale m) x.
Definition _execute_gradient_3D (m : Model) (x : arr) : list arr :=
  gradient_with m (uk_scale m) x.
Definition rescale (m : Model) (x : arr) : arr := rescale_with (uk_scale m) x.

(** ** [computeInitialGuess] *)

(** [np.angle]: [arctan2 (imag, real)], with the values of the standard
    at the infinities. *)
Definition angle (z : cfl) : fl :=
  match cim z, cre z with
  | NaN, _ | _, NaN => NaN
  | Fin y, Fin x => Fin (Cfl.arg x y)
  | Fin _, PInf => Fin 0%R
  | Fin y, NInf => match Fl.sgn y with Lt => Fin (- PI)%R | _ => Fin PI end
  | PInf, Fin _ => Fin (PI / 2)%R
  | NInf, Fin _ => Fin (- (PI / 2))%R
  | PInf, PInf => Fin (PI / 4)%R
  | NInf, PInf => Fin (- (PI / 4))%R
  | PInf, NInf => Fin (3 * PI / 4)%R
  | NInf, NInf => Fin (- (3 * PI / 4))%R
  end.

(** [1j] *)
Definition imag_unit : cfl := mkC (Fin 0%R) (Fin 1%R).

(** [np.exp(1j*(np.angle(img) - np.angle(img[0])))] at scan [n], voxel [v]. *)
Definition phase_elem (images : arr) (n v : nat) : cfl :=
  Cfl.cexp (imag_unit *c
            rc (Fl.sub (angle (at2 images n v)) (angle (at2 images 0 v)))).

(** [1 * np.ones(...)] and [0 * ADC] *)
Definition ones (k : nat) : vec := repeat (rc (Fin 1%R) *c mkC (Fin 1%R) (Fin 0%R)) k.
Definition zero_times (w : vec) : vec := map (fun z => rc (Fin 0%R) *c z) w.

(** The phase and the guess are assigned; [b0] is the b0 image of the
    data file when there is one.  [np.array] refuses rows of different
    shapes: [None] stands for its [ValueError]. *)
Definition computeInitialGuess (m : Model) (b0 : option vec) (images : arr)
  : option Model :=
  let k := length (row images 0) in
  let ph := map (fun n => map (fun v => phase_elem images n v) (seq 0 k))
                (seq 0 (length images)) in
  let test_M0 := match b0 with Some w => w | None => row images 0 end in
  let ADC := ones k in
  if Nat.eqb (length test_M0) k then
    Some (mkModel (NScan m) (b m) (dir m) (uk_scale m) ph
            [ vunscale test_M0 (rget (uk_scale m) 0);
              ADC; zero_times ADC; ADC; zero_times ADC; ADC; zero_times ADC ]
            (constraints m))
  else None.

(** The model as [ModelReco] uses it, the scales being the current ones. *)
#[global] Instance signal_model : SignalModel Model := {
  model_guess := guess;
  execute_forward := forward_with;
  execute_gradient := gradient_with;
  model_rescale := fun _ s x => rescale_with s x
}.

End DiffdirLL.

(** ** The tensor model with linear entries, [mbpq/_models/Diffdir.py] *)
Module Diffdir.

Import Arr.
Local Open Scope cfl_scope.

Record Model : Type := mkModel {
  NScan : nat;
  b : list fl;
  dir : list (fl * fl * fl);
  uk_scale : list fl;
  phase : arr;
  guess : arr;
  constraints : list constraint
}.

Definition sq (a : fl) : fl := Fl.mul a a.

Section Element.

Variable s : nat -> fl.
Variables bn d0 d1 d2 : fl.
Variable ph : cfl.
Variable x : nat -> cfl.

Definition ADC : cfl :=
  x 1%nat *c rc (s 1%nat) *c rc (sq d0) +c
  x 3%nat *c rc (s 3%nat) *c rc (sq d1) +c
  x 5%nat *c rc (s 5%nat) *c rc (sq d2) +c
  rc (Fin 2%R) *c x 2%nat *c rc (s 2%nat) *c rc d0 *c rc d1 +c
  rc (Fin 2%R) *c x 4%nat *c rc (s 4%nat) *c rc d0 *c rc d2 +c
  rc (Fin 2%R) *c x 6%nat *c rc (s 6%nat) *c rc d1 *c rc d2.

Definition signal : cfl :=
  x 0%nat *c rc (s 0%nat) *c Cfl.cexp (-c ADC *c rc bn) *c ph.

Definition forward_elem : cfl := Cfl.zero_nonfinite signal.

Definition grad_M0 : cfl := rc (s 0%nat) *c Cfl.cexp (-c ADC *c rc bn) *c ph.

Definition grad_ADC_x : cfl :=
  x 0%nat *c grad_M0 *c rc (Fl.mul (Fl.mul (Fl.opp (s 1%nat)) (sq d0)) bn).

Definition grad_ADC_xy : cfl :=
  x 0%nat *c grad_M0 *c
  rc (Fl.mul (Fl.mul (Fl.mul (Fl.mul (Fin (-2)%R) (s 2%nat)) d0) d1) bn).

Definition grad_ADC_y : cfl :=
  x 0%nat *c grad_M0 *c rc (Fl.mul (Fl.mul (Fl.opp (s 3%nat)) (sq d1)) bn).

Definition grad_ADC_xz : cfl :=
  x 0%nat *c grad_M0 *c
  rc (Fl.mul (Fl.mul (Fl.mul (Fl.mul (Fin (-2)%R) (s 4%nat)) d0) d2) bn).

Definition grad_ADC_z : cfl :=
  x 0%nat *c grad_M0 *c rc (Fl.mul (Fl.mul (Fl.opp (s 5%nat)) (sq d2)) bn).

Definition grad_ADC_yz : cfl :=
  x 0%nat *c grad_M0 *c
  rc (Fl.mul (Fl.mul (Fl.mul (Fl.mul (Fin (-2)%R) (s 6%nat)) d1) d2) bn).

Definition grad_raw : list cfl :=
  [grad_M0; grad_ADC_x; grad_ADC_xy; grad_ADC_y; grad_ADC_xz; grad_ADC_z;
   grad_ADC_yz].

Definition gradient_elem : list cfl := map Cfl.zero_nonfinite grad_raw.

End Element.

Definition nvox (x : arr) : nat := length (row x 0).
Definition dir0 (m : Model) (n : nat) : fl := fst (fst (nth n (dir m) (Fin 0%R, Fin 0%R, Fin 0%R))).
Definition dir1 (m : Model) (n : nat) : fl := snd (fst (nth n (dir m) (Fin 0%R, Fin 0%R, Fin 0%R))).
Definition dir2 (m : Model) (n : nat) : fl := snd (nth n (dir m) (Fin 0%R, Fin 0%R, Fin 0%R)).

Definition _execute_forward_3D (m : Model) (x : arr) : arr :=
  map (fun n =>
         map (fun v =>
                forward_elem (rget (uk_scale m)) (rget (b m) n) (dir0 m n)
                             (dir1 m n) (dir2 m n) (at2 (phase m) n v)
                             (fun u => at2 x u v))
             (seq 0 (nvox x)))
      (seq 0 (NScan m)).

Definition _execute_gradient_3D (m : Model) (x : arr) : list arr :=
  map (fun u =>
         map (fun n =>
                map (fun v =>
                       nth u (gradient_elem (rget (uk_scale m)) (rget (b m) n)
                                (dir0 m n) (dir1 m n) (dir2 m n)
                                (at2 (phase m) n v) (fun k => at2 x k v))
                           Cfl.czero)
                    (seq 0 (nvox x)))
             (seq 0 (NScan m)))
      (seq 0 7).

End Diffdir.

(** ** The inversion-recovery Look-Locker model, [IRLL_Model.py] *)
Module IRLL.

Import Arr.
Local Open Scope cfl_scope.

Record IRLL_Model : Type := mkModel {
  NLL : nat;
  Nproj : nat;
  Nproj_measured : Z;
  TR : fl;
  tau : fl;
  td : fl;
  scale : fl;
  M0_sc : fl;
  T1_sc : fl;
  sin_phi : vec;                    (* one value per voxel *)
  cos_phi : vec
}.

(** [z ** k] for an integer [k]: repeated products, and the reciprocal of
    them for a negative [k]. *)
Definition cpow_int (z : cfl) (k : Z) : cfl :=
  match k with
  | Zneg p => rc (Fin 1%R) /c Cfl.cpow_nat z (Pos.to_nat p)
  | _ => Cfl.cpow_nat z (Z.to_nat k)
  end.

Section Element.

Variable m : IRLL_Model.
Variables sinp cosp : cfl.          (* sin_phi, cos_phi at the voxel *)
Variables x0 x1 : cfl.              (* x[0], x[1] at the voxel *)

Definition Efit : cfl := x1 *c rc (T1_sc m).
Definition Etau : cfl := Cfl.cpow_real Efit (Fl.div (tau m) (scale m)).
Definition Etr : cfl := Cfl.cpow_real Efit (Fl.div (TR m) (scale m)).
Definition Etd : cfl := Cfl.cpow_real Efit (Fl.div (td m) (scale m)).

Definition F : cfl := (rc (Fin 1%R) -c Etau) /c (rc (Fin 1%R) -c Etau *c cosp).

Definition Q : cfl :=
  (-c Etr *c Etd *c F *c
     (-c cpow_int (Etau *c cosp) (Nproj_measured m - 1) +c rc (Fin 1%R)) *c cosp
   +c Etr *c Etd -c rc (Fin 2%R) *c Etd +c rc (Fin 1%R))
  /c (Etr *c Etd *c cpow_int (Etau *c cosp) (Nproj_measured m - 1) *c cosp
      +c rc (Fin 1%R)).

Definition Q_F : cfl := Q -c F.

(** [S[i, j]] of the double loop, with [n = i*Nproj + j + 1]. *)
Definition S_elem (i j : nat) : cfl :=
  let n := (Z.of_nat i * Z.of_nat (Nproj m) + Z.of_nat j + 1)%Z in
  x0 *c rc (M0_sc m) *c (cpow_int (Etau *c cosp) (n - 1) *c Q_F +c F) *c sinp.

(** [np.mean(S, axis=1)] at scan [i]: the sum over the projections
    divided by their number. *)
Definition mean_elem (i : nat) : cfl :=
  csum (map (S_elem i) (seq 0 (Nproj m))) /c rc (Fl.of_nat (Nproj m)).

End Element.

(** [execute_forward_3D]: the mean is returned as it is. *)
Definition execute_forward_3D (m : IRLL_Model) (x : arr) : arr :=
  map (fun i =>
         map (fun v =>
                mean_elem m (nth v (sin_phi m) Cfl.czero)
                          (nth v (cos_phi m) Cfl.czero) (at2 x 0 v) (at2 x 1 v) i)
             (seq 0 (length (row x 0))))
      (seq 0 (NLL m)).

End IRLL.

(* ================================================================== *)
(** * The IRGN driver, [pyqmri/irgn/reco.py] *)
(* ================================================================== *)

Module Reco.

Import Arr.
Local Open Scope cfl_scope.

(** The configuration dictionary [irgn_par]. *)
Record irgn_par_t : Type := mkIrgn {
  start_iters : nat;
  max_iters : nat;
  max_gn_it : nat;
  tol : fl;
  stag : fl;
  lambd : fl;
  gamma : fl;
  gamma_min : fl;
  gamma_dec : fl;
  omega : fl;
  omega_min : fl;
  omega_dec : fl;
  delta : fl;
  delta_max : fl;
  delta_inc : fl;
  display_iterations : bool
}.

(** The entries of [par] the driver reads. *)
Record par_t : Type := mkPar {
  unknowns : nat;
  unknowns_TGV : nat;
  unknowns_H1 : nat;
  NScan : nat;
  NSlice : nat;
  dimY : nat;
  dimX : nat;
  dz : fl;
  SNR_est : fl;
  C : arr                           (* coil sensitivities, one row per coil *)
}.

(** One write of [savetofile]: the dataset name's prefix and iteration,
    the array stored and the attribute (the objective value). *)
Record h5_entry : Type := mkEntry {
  h5_tv : bool;
  h5_it : nat;
  h5_data : arr;
  h5_attr : fl
}.

(** The fields of a [ModelReco] object. [M] is the signal model, whose
    mutable [uk_scale] and [constraints] are kept beside it. *)
Record ModelReco (M : Type) : Type := mkReco {
  par : par_t;
  irgn_par : irgn_par_t;
  imagespace : bool;
  model : M;
  uk_scale : list fl;
  constraints : list constraint;
  data : arr;
  _fval_old : fl;
  _fval : fl;
  _fval_init : fl;
  _ratio : list fl;
  op_ratio : list fl;               (* the ratio held by [grad_op] *)
  gn_res : list fl;
  grad_x : list arr;
  grad_buf : list arr;
  step_val : arr;
  r : arr;
  z1 : arr;
  z2 : arr;
  v : arr;
  tau : fl;
  beta_line : fl;
  theta_line : fl;
  s_delta : fl;                     (* self.delta *)
  s_delta_max : fl;                 (* self.delta_max *)
  s_gamma : fl;                     (* self.gamma *)
  s_omega : fl;                     (* self.omega *)
  min_const : list fl;
  max_const : list fl;
  real_const : list bool;
  h5file : list h5_entry
}.


(** Assignments to single entries of [irgn_par] and to single fields. *)
Definition set_lambd (p : irgn_par_t) (a : fl) : irgn_par_t :=
  mkIrgn (start_iters p) (max_iters p) (max_gn_it p) (tol p) (stag p) a (gamma p) (gamma_min p) (gamma_dec p) (omega p) (omega_min p) (omega_dec p) (delta p) (delta_max p) (delta_inc p) (display_iterations p).
Definition set_gamma (p : irgn_par_t) (a : fl) : irgn_par_t :=
  mkIrgn (start_iters p) (max_iters p) (max_gn_it p) (tol p) (stag p) (lambd p) a (gamma_min p) (gamma_dec p) (omega p) (omega_min p) (omega_dec p) (delta p) (delta_max p) (delta_inc p) (display_iterations p).
Definition set_omega (p : irgn_par_t) (a : fl) : irgn_par_t :=
  mkIrgn (start_iters p) (max_iters p) (max_gn_it p) (tol p) (stag p) (lambd p) (gamma p) (gamma_min p) (gamma_dec p) a (omega_min p) (omega_dec p) (delta p) (delta_max p) (delta_inc p) (display_iterations p).
Definition set_delta (p : irgn_par_t) (a : fl) : irgn_par_t :=
  mkIrgn (start_iters p) (max_iters p) (max_gn_it p) (tol p) (stag p) (lambd p) (gamma p) (gamma_min p) (gamma_dec p) (omega p) (omega_min p) (omega_dec p) a (delta_max p) (delta_inc p) (display_iterations p).
Definition set_delta_max (p : irgn_par_t) (a : fl) : irgn_par_t :=
  mkIrgn (start_iters p) (max_iters p) (max_gn_it p) (tol p) (stag p) (lambd p) (gamma p) (gamma_min p) (gamma_dec p) (omega p) (omega_min p) (omega_dec p) (delta p) a (delta_inc p) (display_iterations p).
Definition with_irgn_par (M : Type) (st : ModelReco M) (a : irgn_par_t) : ModelReco M :=
  mkReco (par st) a (imagespace st) (model st) (uk_scale st) (constraints
    st) (data st) (_fval_old st) (_fval st) (_fval_init st) (_ratio st)
    (op_ratio st) (gn_res st) (grad_x st) (grad_buf st) (step_val st) (r st)
    (z1 st) (z2 st) (v st) (tau st) (beta_line st) (theta_line st) (s_delta
    st) (s_delta_max st) (s_gamma st) (s_omega st) (min_const st) (max_const
    st) (real_const st) (h5file st).
Definition with_uk_scale (M : Type) (st : ModelReco M) (a : list fl) : ModelReco M :=
  mkReco (par st) (irgn_par st) (imagespace st) (model st) a (constraints
    st) (data st) (_fval_old st) (_fval st) (_fval_init st) (_ratio st)
    (op_ratio st) (gn_res st) (grad_x st) (grad_buf st) (step_val st) (r st)
    (z1 st) (z2 st) (v st) (tau st) (beta_line st) (theta_line st) (s_delta
    st) (s_delta_max st) (s_gamma st) (s_omega st) (min_const st) (max_const
    st) (real_const st) (h5file st).
Definition with_constraints (M : Type) (st : ModelReco M) (a : list constraint) : ModelReco M :=
  mkReco (par st) (irgn_par st) (imagespace st) (model st) (uk_scale st) a
    (data st) (_fval_old st) (_fval st) (_fval_init st) (_ratio st)
    (op_ratio st) (gn_res st) (grad_x st) (grad_buf st) (step_val st) (r st)
    (z1 st) (z2 st) (v st) (tau st) (beta_line st) (theta_line st) (s_delta
    st) (s_delta_max st) (s_gamma st) (s_omega st) (min_const st) (max_const
    st) (real_const st) (h5file st).
Definition with_fval_old (M : Type) (st : ModelReco M) (a : fl) : ModelReco M :=
  mkReco (par st) (irgn_par st) (imagespace st) (model st) (uk_scale st)
    (constraints st) (data st) a (_fval st) (_fval_init st) (_ratio st)
    (op_ratio st) (gn_res st) (grad_x st) (grad_buf st) (step_val st) (r st)
    (z1 st) (z2 st) (v st) (tau st) (beta_line st) (theta_line st) (s_delta
    st) (s_delta_max st) (s_gamma st) (s_omega st) (min_const st) (max_const
    st) (real_const st) (h5file st).
Definition with_fval (M : Type) (st : ModelReco M) (a : fl) : ModelReco M :=
  mkReco (par st) (irgn_par st) (imagespace st) (model st) (uk_scale st)
    (constraints st) (data st) (_fval_old st) a (_fval_init st) (_ratio st)
    (op_ratio st) (gn_res st) (grad_x st) (grad_buf st) (step_val st) (r st)
    (z1 st) (z2 st) (v st) (tau st) (beta_line st) (theta_line st) (s_delta
    st) (s_delta_max st) (s_gamma st) (s_omega st) (min_const st) (max_const
    st) (real_const st) (h5file st).
Definition with_fval_init (M : Type) (st : ModelReco M) (a : fl) : ModelReco M :=
  mkReco (par st) (irgn_par st) (imagespace st) (model st) (uk_scale st)
    (constraints st) (data st) (_fval_old st) (_fval st) a (_ratio st)
    (op_ratio st) (gn_res st) (grad_x st) (grad_buf st) (step_val st) (r st)
    (z1 st) (z2 st) (v st) (tau st) (beta_line st) (theta_line st) (s_delta
    st) (s_delta_max st) (s_gamma st) (s_omega st) (min_const st) (max_const
    st) (real_const st) (h5file st).
Definition with_op_ratio (M : Type) (st : ModelReco M) (a : list fl) : ModelReco M :=
  mkReco (par st) (irgn_par st) (imagespace st) (model st) (uk_scale st)
    (constraints st) (data st) (_fval_old st) (_fval st) (_fval_init st)
    (_ratio st) a (gn_res st) (grad_x st) (grad_buf st) (step_val st) (r st)
    (z1 st) (z2 st) (v st) (tau st) (beta_line st) (theta_line st) (s_delta
    st) (s_delta_max st) (s_gamma st) (s_omega st) (min_const st) (max_const
    st) (real_const st) (h5file st).
Definition with_gn_res (M : Type) (st : ModelReco M) (a : list fl) : ModelReco M :=
  mkReco (par st) (irgn_par st) (imagespace st) (model st) (uk_scale st)
    (constraints st) (data st) (_fval_old st) (_fval st) (_fval_init st)
    (_ratio st) (op_ratio st) a (grad_x st) (grad_buf st) (step_val st) (r
    st) (z1 st) (z2 st) (v st) (tau st) (beta_line st) (theta_line st)
    (s_delta st) (s_delta_max st) (s_gamma st) (s_omega st) (min_const st)
    (max_const st) (real_const st) (h5file st).
Definition with_grad_x (M : Type) (st : ModelReco M) (a : list arr) : ModelReco M :=
  mkReco (par st) (irgn_par st) (imagespace st) (model st) (uk_scale st)
    (constraints st) (data st) (_fval_old st) (_fval st) (_fval_init st)
    (_ratio st) (op_ratio st) (gn_res st) a (grad_buf st) (step_val st) (r
    st) (z1 st) (z2 st) (v st) (tau st) (beta_line st) (theta_line st)
    (s_delta st) (s_delta_max st) (s_gamma st) (s_omega st) (min_const st)
    (max_const st) (real_const st) (h5file st).
Definition with_grad_buf (M : Type) (st : ModelReco M) (a : list arr) : ModelReco M :=
  mkReco (par st) (irgn_par st) (imagespace st) (model st) (uk_scale st)
    (constraints st) (data st) (_fval_old st) (_fval st) (_fval_init st)
    (_ratio st) (op_ratio st) (gn_res st) (grad_x st) a (step_val st) (r st)
    (z1 st) (z2 st) (v st) (tau st) (beta_line st) (theta_line st) (s_delta
    st) (s_delta_max st) (s_gamma st) (s_omega st) (min_const st) (max_const
    st) (real_const st) (h5file st).
Definition with_step_val (M : Type) (st : ModelReco M) (a : arr) : ModelReco M :=
  mkReco (par st) (irgn_par st) (imagespace st) (model st) (uk_scale st)
    (constraints st) (data st) (_fval_old st) (_fval st) (_fval_init st)
    (_ratio st) (op_ratio st) (gn_res st) (grad_x st) (grad_buf st) a (r st)
    (z1 st) (z2 st) (v st) (tau st) (beta_line st) (theta_line st) (s_delta
    st) (s_delta_max st) (s_gamma st) (s_omega st) (min_const st) (max_const
    st) (real_const st) (h5file st).
Definition with_r (M : Type) (st : ModelReco M) (a : arr) : ModelReco M :=
  mkReco (par st) (irgn_par st) (imagespace st) (model st) (uk_scale st)
    (constraints st) (data st) (_fval_old st) (_fval st) (_fval_init st)
    (_ratio st) (op_ratio st) (gn_res st) (grad_x st) (grad_buf st)
    (step_val st) a (z1 st) (z2 st) (v st) (tau st) (beta_line st)
    (theta_line st) (s_delta st) (s_delta_max st) (s_gamma st) (s_omega st)
    (min_const st) (max_const st) (real_const st) (h5file st).
Definition with_z1 (M : Type) (st : ModelReco M) (a : arr) : ModelReco M :=
  mkReco (par st) (irgn_par st) (imagespace st) (model st) (uk_scale st)
    (constraints st) (data st) (_fval_old st) (_fval st) (_fval_init st)
    (_ratio st) (op_ratio st) (gn_res st) (grad_x st) (grad_buf st)
    (step_val st) (r st) a (z2 st) (v st) (tau st) (beta_line st)
    (theta_line st) (s_delta st) (s_delta_max st) (s_gamma st) (s_omega st)
    (min_const st) (max_const st) (real_const st) (h5file st).
Definition with_z2 (M : Type) (st : ModelReco M) (a : arr) : ModelReco M :=
  mkReco (par st) (irgn_par st) (imagespace st) (model st) (uk_scale st)
    (constraints st) (data st) (_fval_old st) (_fval st) (_fval_init st)
    (_ratio st) (op_ratio st) (gn_res st) (grad_x st) (grad_buf st)
    (step_val st) (r st) (z1 st) a (v st) (tau st) (beta_line st)
    (theta_line st) (s_delta st) (s_delta_max st) (s_gamma st) (s_omega st)
    (min_const st) (max_const st) (real_const st) (h5file st).
Definition with_v (M : Type) (st : ModelReco M) (a : arr) : ModelReco M :=
  mkReco (par st) (irgn_par st) (imagespace st) (model st) (uk_scale st)
    (constraints st) (data st) (_fval_old st) (_fval st) (_fval_init st)
    (_ratio st) (op_ratio st) (gn_res st) (grad_x st) (grad_buf st)
    (step_val st) (r st) (z1 st) (z2 st) a (tau st) (beta_line st)
    (theta_line st) (s_delta st) (s_delta_max st) (s_gamma st) (s_omega st)
    (min_const st) (max_const st) (real_const st) (h5file st).
Definition with_tau (M : Type) (st : ModelReco M) (a : fl) : ModelReco M :=
  mkReco (par st) (irgn_par st) (imagespace st) (model st) (uk_scale st)
    (constraints st) (data st) (_fval_old st) (_fval st) (_fval_init st)
    (_ratio st) (op_ratio st) (gn_res st) (grad_x st) (grad_buf st)
    (step_val st) (r st) (z1 st) (z2 st) (v st) a (beta_line st) (theta_line
    st) (s_delta st) (s_delta_max st) (s_gamma st) (s_omega st) (min_const
    st) (max_const st) (real_const st) (h5file st).
Definition with_beta_line (M : Type) (st : ModelReco M) (a : fl) : ModelReco M :=
  mkReco (par st) (irgn_par st) (imagespace st) (model st) (uk_scale st)
    (constraints st) (data st) (_fval_old st) (_fval st) (_fval_init st)
    (_ratio st) (op_ratio st) (gn_res st) (grad_x st) (grad_buf st)
    (step_val st) (r st) (z1 st) (z2 st) (v st) (tau st) a (theta_line st)
    (s_delta st) (s_delta_max st) (s_gamma st) (s_omega st) (min_const st)
    (max_const st) (real_const st) (h5file st).
Definition with_theta_line (M : Type) (st : ModelReco M) (a : fl) : ModelReco M :=
  mkReco (par st) (irgn_par st) (imagespace st) (model st) (uk_scale st)
    (constraints st) (data st) (_fval_old st) (_fval st) (_fval_init st)
    (_ratio st) (op_ratio st) (gn_res st) (grad_x st) (grad_buf st)
    (step_val st) (r st) (z1 st) (z2 st) (v st) (tau st) (beta_line st) a
    (s_delta st) (s_delta_max st) (s_gamma st) (s_omega st) (min_const st)
    (max_const st) (real_const st) (h5file st).
Definition with_s_delta (M : Type) (st : ModelReco M) (a : fl) : ModelReco M :=
  mkReco (par st) (irgn_par st) (imagespace st) (model st) (uk_scale st)
    (constraints st) (data st) (_fval_old st) (_fval st) (_fval_init st)
    (_ratio st) (op_ratio st) (gn_res st) (grad_x st) (grad_buf st)
    (step_val st) (r st) (z1 st) (z2 st) (v st) (tau st) (beta_line st)
    (theta_line st) a (s_delta_max st) (s_gamma st) (s_omega st) (min_const
    st) (max_const st) (real_const st) (h5file st).
Definition with_s_delta_max (M : Type) (st : ModelReco M) (a : fl) : ModelReco M :=
  mkReco (par st) (irgn_par st) (imagespace st) (model st) (uk_scale st)
    (constraints st) (data st) (_fval_old st) (_fval st) (_fval_init st)
    (_ratio st) (op_ratio st) (gn_res st) (grad_x st) (grad_buf st)
    (step_val st) (r st) (z1 st) (z2 st) (v st) (tau st) (beta_line st)
    (theta_line st) (s_delta st) a (s_gamma st) (s_omega st) (min_const st)
    (max_const st) (real_const st) (h5file st).
Definition with_s_gamma (M : Type) (st : ModelReco M) (a : fl) : ModelReco M :=
  mkReco (par st) (irgn_par st) (imagespace st) (model st) (uk_scale st)
    (constraints st) (data st) (_fval_old st) (_fval st) (_fval_init st)
    (_ratio st) (op_ratio st) (gn_res st) (grad_x st) (grad_buf st)
    (step_val st) (r st) (z1 st) (z2 st) (v st) (tau st) (beta_line st)
    (theta_line st) (s_delta st) (s_delta_max st) a (s_omega st) (min_const
    st) (max_const st) (real_const st) (h5file st).
Definition with_s_omega (M : Type) (st : ModelReco M) (a : fl) : ModelReco M :=
  mkReco (par st) (irgn_par st) (imagespace st) (model st) (uk_scale st)
    (constraints st) (data st) (_fval_old st) (_fval st) (_fval_init st)
    (_ratio st) (op_ratio st) (gn_res st) (grad_x st) (grad_buf st)
    (step_val st) (r st) (z1 st) (z2 st) (v st) (tau st) (beta_line st)
    (theta_line st) (s_delta st) (s_delta_max st) (s_gamma st) a (min_const
    st) (max_const st) (real_const st) (h5file st).
Definition with_min_const (M : Type) (st : ModelReco M) (a : list fl) : ModelReco M :=
  mkReco (par st) (irgn_par st) (imagespace st) (model st) (uk_scale st)
    (constraints st) (data st) (_fval_old st) (_fval st) (_fval_init st)
    (_ratio st) (op_ratio st) (gn_res st) (grad_x st) (grad_buf st)
    (step_val st) (r st) (z1 st) (z2 st) (v st) (tau st) (beta_line st)
    (theta_line st) (s_delta st) (s_delta_max st) (s_gamma st) (s_omega st)
    a (max_const st) (real_const st) (h5file st).
Definition with_max_const (M : Type) (st : ModelReco M) (a : list fl) : ModelReco M :=
  mkReco (par st) (irgn_par st) (imagespace st) (model st) (uk_scale st)
    (constraints st) (data st) (_fval_old st) (_fval st) (_fval_init st)
    (_ratio st) (op_ratio st) (gn_res st) (grad_x st) (grad_buf st)
    (step_val st) (r st) (z1 st) (z2 st) (v st) (tau st) (beta_line st)
    (theta_line st) (s_delta st) (s_delta_max st) (s_gamma st) (s_omega st)
    (min_const st) a (real_const st) (h5file st).
Definition with_real_const (M : Type) (st : ModelReco M) (a : list bool) : ModelReco M :=
  mkReco (par st) (irgn_par st) (imagespace st) (model st) (uk_scale st)
    (constraints st) (data st) (_fval_old st) (_fval st) (_fval_init st)
    (_ratio st) (op_ratio st) (gn_res st) (grad_x st) (grad_buf st)
    (step_val st) (r st) (z1 st) (z2 st) (v st) (tau st) (beta_line st)
    (theta_line st) (s_delta st) (s_delta_max st) (s_gamma st) (s_omega st)
    (min_const st) (max_const st) a (h5file st).
Definition with_h5file (M : Type) (st : ModelReco M) (a : list h5_entry) : ModelReco M :=
  mkReco (par st) (irgn_par st) (imagespace st) (model st) (uk_scale st)
    (constraints st) (data st) (_fval_old st) (_fval st) (_fval_init st)
    (_ratio st) (op_ratio st) (gn_res st) (grad_x st) (grad_buf st)
    (step_val st) (r st) (z1 st) (z2 st) (v st) (tau st) (beta_line st)
    (theta_line st) (s_delta st) (s_delta_max st) (s_gamma st) (s_omega st)
    (min_const st) (max_const st) (real_const st) a.

(** The collaborators that are not part of [reco.py]: the linear
    operators of [pyqmri.operator], the non-uniform FFT, the OpenCL
    kernels of [self._prg] (each returns the content written to its
    output buffer), the content of a buffer allocated by [empty_like],
    and the largest finite float. *)
Record Backend : Type := mkBackend {
  op_fwd : arr -> arr -> list arr -> arr;
  op_adj : arr -> arr -> list arr -> arr;
  op_adjKyk1 : arr -> arr -> arr -> list arr -> list fl -> arr;
  op_fwdoop : arr -> arr -> list arr -> arr;
  grad_op_fwd : list fl -> arr -> arr;
  grad_op_adj : list fl -> arr -> arr;
  grad_op_updateRatio : list fl -> arr -> list fl;
  symgrad_op_fwd : arr -> arr;
  FT : arr -> arr;
  prg_update_primal :
    arr -> arr -> arr -> fl -> fl -> fl -> list fl -> list fl -> list bool ->
    nat -> arr;
  prg_update_v : arr -> arr -> fl -> arr;
  prg_update_z1 :
    arr -> arr -> arr -> arr -> arr -> fl -> fl -> fl -> nat -> nat -> fl -> arr;
  prg_update_z1_tv : arr -> arr -> arr -> fl -> fl -> fl -> nat -> nat -> fl -> arr;
  prg_update_z2 : arr -> arr -> arr -> fl -> fl -> fl -> nat -> arr;
  prg_update_Kyk2 : arr -> arr -> nat -> fl -> arr;
  prg_update_r : arr -> arr -> arr -> arr -> fl -> fl -> fl -> arr;
  prg_update_primal_explicit :
    arr -> arr -> arr -> arr -> fl -> fl -> fl -> list fl -> list fl ->
    list bool -> nat -> arr;
  empty_like : arr -> arr;
  fmax : R
}.

(** The Python exceptions raised by the code of [reco.py] that is
    modelled.  The calls into h5py, pyopencl and the operators are taken
    to succeed: an exception of theirs (such as the one [create_dataset]
    raises for a name the file already holds) is outside the model. *)
Inductive exn : Type :=
| NotImplementedError
| AttributeError
| UnboundLocalError.

(** How a call ends: it returns, it raises (the object is left as it
    was at the raise), or the bound on the line-search steps ran out. *)
Inductive outcome (A : Type) : Type :=
| Returned (a : A)
| Raised (e : exn) (a : A)
| OutOfFuel.

Arguments Returned {A} a.
Arguments Raised {A} e a.
Arguments OutOfFuel {A}.

Definition zeros (rows cols : nat) : arr := repeat (repeat Cfl.czero cols) rows.
Definition zeros_like (a : arr) : arr := amap (fun _ => Cfl.czero) a.

(** [a[i] := x] along the first axis. *)
Fixpoint upd {A : Type} (l : list A) (i : nat) (x : A) : list A :=
  match l, i with
  | [], _ => []
  | _ :: l', O => x :: l'
  | y :: l', S j => y :: upd l' j x
  end.

Section Driver.

Context {M : Type} {SM : SignalModel M} (B : Backend).

Definition coil_buf (st : ModelReco M) : arr :=
  if imagespace st then [] else C (par st).

(** ** [_eval_const] *)
Definition _eval_const (st : ModelReco M) : ModelReco M :=
  let st1 := with_min_const st (map Constraint.min (constraints st)) in
  let st2 := with_max_const st1 (map Constraint.max (constraints st)) in
  with_real_const st2 (map Constraint.real (constraints st)).

(** ** [_update_reg_par] *)
Definition _update_reg_par (st : ModelReco M) (result : arr) (ign : nat)
  : ModelReco M :=
  let p0 := irgn_par st in
  let p1 := set_delta_max p0
              (Fl.mul (Fl.div (s_delta_max st) (Fin 1000%R)) (norm result)) in
  let p2 := set_delta p1
              (Fl.minimum
                 (Fl.mul (Fl.mul (Fl.div (s_delta st) (Fin 1000%R)) (norm result))
                         (Fl.pow (delta_inc p1) ign))
                 (delta_max p1)) in
  let p3 := set_gamma p2
              (Fl.maximum (Fl.mul (s_gamma st) (Fl.pow (gamma_dec p2) ign))
                          (gamma_min p2)) in
  let p4 := set_omega p3
              (Fl.maximum (Fl.mul (s_omega st) (Fl.pow (omega_dec p3) ign))
                          (omega_min p3)) in
  with_irgn_par st p4.

(** ** [_balance_model_gradients] *)

(** The norm of each unknown's Jacobian slice, flattened. *)
Definition grad_norms (st : ModelReco M) : list fl :=
  map (fun u => norm_axis (flat (nth u (grad_x st) [])))
      (seq 0 (unknowns (par st))).

Definition balance_scale (st : ModelReco M) : list fl :=
  map (fun nrm =>
         Fl.div (Fl.div (Fin 1000%R) (Fl.sqrt (Fl.of_nat (unknowns (par st))))) nrm)
      (grad_norms st).

(** The body of the loop over [uk]. *)
Definition balance_uk (scale : list fl) (acc : ModelReco M * arr) (uk : nat)
  : ModelReco M * arr :=
  let (st, result) := acc in
  let st1 := with_constraints st
               (upd (constraints st) uk
                    (Constraint.update (nth uk (constraints st)
                                            (Constraint.mk (Fin 0%R) (Fin 0%R) false))
                                       (rget scale uk))) in
  let result1 := upd result uk (vscale (row result uk) (rget (uk_scale st1) uk)) in
  let st2 := with_grad_x st1
               (upd (grad_x st1) uk
                    (map (fun rw => vunscale rw (rget (uk_scale st1) uk))
                         (nth uk (grad_x st1) []))) in
  let st3 := with_uk_scale st2
               (upd (uk_scale st2) uk
                    (Fl.mul (rget (uk_scale st2) uk) (rget scale uk))) in
  let result2 := upd result1 uk (vunscale (row result1 uk) (rget (uk_scale st3) uk)) in
  let st4 := with_grad_x st3
               (upd (grad_x st3) uk
                    (map (fun rw => vscale rw (rget (uk_scale st3) uk))
                         (nth uk (grad_x st3) []))) in
  (st4, result2).

Definition _balance_model_gradients (st : ModelReco M) (result : arr) (ind : nat)
  : ModelReco M * arr :=
  let scale := balance_scale st in
  if Nat.eqb (ind mod 1) 0 then
    fold_left (balance_uk scale) (seq 0 (unknowns (par st))) (st, result)
  else (st, result).

(** ** [_setup_reg_tmp_arrays] *)
Definition nvox4 (st : ModelReco M) : nat :=
  NSlice (par st) * dimY (par st) * dimX (par st) * 4.
Definition nvox8 (st : ModelReco M) : nat :=
  NSlice (par st) * dimY (par st) * dimX (par st) * 8.

Definition L_tgv : fl :=
  Fl.mul (Fin (1 / 2)%R) (Fl.add (Fin 18%R) (Fl.sqrt (Fin 33%R))).

Definition _setup_reg_tmp_arrays (st : ModelReco M) (TV : Z) : ModelReco M :=
  let st1 := with_r st (zeros_like (data st)) in
  let st2 := with_z1 st1 (zeros (unknowns (par st1)) (nvox4 st1)) in
  if Z.eqb TV 1 then
    let st3 := with_tau st2 (Fl.div (Fin 1%R) (Fl.sqrt (Fin 8%R))) in
    let st4 := with_beta_line st3 (Fin 400%R) in
    with_theta_line st4 (Fin 1%R)
  else if Z.eqb TV 0 then
    let st3 := with_tau st2 (Fl.div (Fin 1%R) (Fl.sqrt L_tgv)) in
    let st4 := with_beta_line st3 (Fin 400%R) in
    let st5 := with_theta_line st4 (Fin 1%R) in
    let st6 := with_v st5 (zeros (unknowns_TGV (par st5)) (nvox4 st5)) in
    with_z2 st6 (zeros (unknowns_TGV (par st6)) (nvox8 st6))
  else
    let st3 := with_tau st2 (Fl.div (Fin 1%R) (Fl.sqrt L_tgv)) in
    let st4 := with_beta_line st3 (Fin 1%R) in
    let st5 := with_theta_line st4 (Fin 1%R) in
    let st6 := with_v st5 (zeros (unknowns (par st5)) (nvox4 st5)) in
    with_z2 st6 (zeros (unknowns (par st6)) (nvox8 st6)).

(** ** [savetofile]: one dataset and one attribute appended.  The file
    is the list of the datasets written to it, and the write is taken to
    succeed. *)
Definition savetofile (st : ModelReco M) (myit : nat) (result : arr) (TV : Z)
  : ModelReco M :=
  with_h5file st
    (h5file st ++ [mkEntry (negb (Z.eqb TV 0)) myit result (_fval st)]).

(** ** The function value, [_calc_residual_kspace] and
    [_calc_residual_imagespace] *)

(** [step_val[:, None, ...] * par["C"]]: every scan times every coil. *)
Definition coil_mul (step : arr) (coils : arr) : arr :=
  map (fun s => List.concat (map (fun c => vzip Cfl.cmul s c) coils)) step.

Definition sq (a : fl) : fl := Fl.mul a a.

Definition fval_of (st : ModelReco M) (resid grad : arr) (TV : Z) : fl :=
  let p := irgn_par st in
  let U := unknowns_TGV (par st) in
  if Z.eqb TV 1 then
    (Fl.div (lambd p) (Fin 2%R) * sq (norm resid)
     + gamma p * asum_abs (firstn U grad)
     + Fl.div (omega p) (Fin 2%R) * sq (norm (skipn U grad)))%fl
  else
    let sym_grad := symgrad_op_fwd B (v st) in
    (Fl.div (lambd p) (Fin 2%R) * sq (norm resid)
     + gamma p * asum_abs (asub (firstn U grad) (v st))
     + gamma p * Fin 2%R * asum_abs sym_grad
     + Fl.div (omega p) (Fin 2%R) * sq (norm (skipn U grad)))%fl.

Definition store_fval (st : ModelReco M) (f : fl) (GN_it : nat) : ModelReco M :=
  let st1 := with_fval st f in
  if Nat.eqb GN_it 0 then with_fval_init st1 (_fval st1) else st1.

Definition _calc_residual_kspace (st : ModelReco M) (x data : arr) (GN_it : nat)
  (TV : Z) : ModelReco M :=
  let grad := grad_op_fwd B (op_ratio st) x in
  let b := FT B (coil_mul (step_val st) (C (par st))) in
  store_fval st (fval_of st (asub data b) grad TV) GN_it.

Definition _calc_residual_imagespace (st : ModelReco M) (x data : arr)
  (GN_it : nat) (TV : Z) : ModelReco M :=
  let grad := grad_op_fwd B (op_ratio st) x in
  store_fval st (fval_of st (asub data (step_val st)) grad TV) GN_it.

Definition calc_residual (st : ModelReco M) (x data : arr) (GN_it : nat) (TV : Z)
  : ModelReco M :=
  if imagespace st then _calc_residual_imagespace st x data GN_it TV
  else _calc_residual_kspace st x data GN_it TV.

End Driver.

(** The local variables of an inner solve ([tgv_solve_3D],
    [tgv_solve_3D_explicit], [tv_solve_3D]): the saddle-point state, its
    buffers and the step sizes.  A variant leaves the variables it does
    not have untouched. *)
Module PD.

Record t : Type := mk {
  x : arr;
  x_new : arr;
  xk : arr;
  r : arr;
  r_new : arr;
  z1 : arr;
  z1_new : arr;
  z2 : arr;
  z2_new : arr;
  v : arr;
  v_new : arr;
  res : arr;
  Kyk1 : arr;
  Kyk1_new : arr;
  Kyk2 : arr;
  Kyk2_new : arr;
  gradx : arr;
  gradx_xold : arr;
  symgrad_v : arr;
  symgrad_v_vold : arr;
  Axold : arr;
  Ax : arr;
  AT : arr;
  ATd : arr;
  tau : fl;
  tau_new : fl;
  theta_line : fl;
  beta_line : fl;
  ynorm : fl;
  lhs : fl;
  primal : fl;
  primal_new : fl;
  dual : fl;
  gap : fl;
  gap_old : fl;
  gap_init : fl;
  gap_min : fl
}.

Definition with_x (p : t) (a : arr) : t :=
  mk a (x_new p) (xk p) (r p) (r_new p) (z1 p) (z1_new p) (z2 p) (z2_new p)
    (v p) (v_new p) (res p) (Kyk1 p) (Kyk1_new p) (Kyk2 p) (Kyk2_new p)
    (gradx p) (gradx_xold p) (symgrad_v p) (symgrad_v_vold p) (Axold p) (Ax
    p) (AT p) (ATd p) (tau p) (tau_new p) (theta_line p) (beta_line p)
    (ynorm p) (lhs p) (primal p) (primal_new p) (dual p) (gap p) (gap_old p)
    (gap_init p) (gap_min p).
Definition with_x_new (p : t) (a : arr) : t :=
  mk (x p) a (xk p) (r p) (r_new p) (z1 p) (z1_new p) (z2 p) (z2_new p) (v
    p) (v_new p) (res p) (Kyk1 p) (Kyk1_new p) (Kyk2 p) (Kyk2_new p) (gradx
    p) (gradx_xold p) (symgrad_v p) (symgrad_v_vold p) (Axold p) (Ax p) (AT
    p) (ATd p) (tau p) (tau_new p) (theta_line p) (beta_line p) (ynorm p)
    (lhs p) (primal p) (primal_new p) (dual p) (gap p) (gap_old p) (gap_init
    p) (gap_min p).
Definition with_xk (p : t) (a : arr) : t :=
  mk (x p) (x_new p) a (r p) (r_new p) (z1 p) (z1_new p) (z2 p) (z2_new p)
    (v p) (v_new p) (res p) (Kyk1 p) (Kyk1_new p) (Kyk2 p) (Kyk2_new p)
    (gradx p) (gradx_xold p) (symgrad_v p) (symgrad_v_vold p) (Axold p) (Ax
    p) (AT p) (ATd p) (tau p) (tau_new p) (theta_line p) (beta_line p)
    (ynorm p) (lhs p) (primal p) (primal_new p) (dual p) (gap p) (gap_old p)
    (gap_init p) (gap_min p).
Definition with_r (p : t) (a : arr) : t :=
  mk (x p) (x_new p) (xk p) a (r_new p) (z1 p) (z1_new p) (z2 p) (z2_new p)
    (v p) (v_new p) (res p) (Kyk1 p) (Kyk1_new p) (Kyk2 p) (Kyk2_new p)
    (gradx p) (gradx_xold p) (symgrad_v p) (symgrad_v_vold p) (Axold p) (Ax
    p) (AT p) (ATd p) (tau p) (tau_new p) (theta_line p) (beta_line p)
    (ynorm p) (lhs p) (primal p) (primal_new p) (dual p) (gap p) (gap_old p)
    (gap_init p) (gap_min p).
Definition with_r_new (p : t) (a : arr) : t :=
  mk (x p) (x_new p) (xk p) (r p) a (z1 p) (z1_new p) (z2 p) (z2_new p) (v
    p) (v_new p) (res p) (Kyk1 p) (Kyk1_new p) (Kyk2 p) (Kyk2_new p) (gradx
    p) (gradx_xold p) (symgrad_v p) (symgrad_v_vold p) (Axold p) (Ax p) (AT
    p) (ATd p) (tau p) (tau_new p) (theta_line p) (beta_line p) (ynorm p)
    (lhs p) (primal p) (primal_new p) (dual p) (gap p) (gap_old p) (gap_init
    p) (gap_min p).
Definition with_z1 (p : t) (a : arr) : t :=
  mk (x p) (x_new p) (xk p) (r p) (r_new p) a (z1_new p) (z2 p) (z2_new p)
    (v p) (v_new p) (res p) (Kyk1 p) (Kyk1_new p) (Kyk2 p) (Kyk2_new p)
    (gradx p) (gradx_xold p) (symgrad_v p) (symgrad_v_vold p) (Axold p) (Ax
    p) (AT p) (ATd p) (tau p) (tau_new p) (theta_line p) (beta_line p)
    (ynorm p) (lhs p) (primal p) (primal_new p) (dual p) (gap p) (gap_old p)
    (gap_init p) (gap_min p).
Definition with_z1_new (p : t) (a : arr) : t :=
  mk (x p) (x_new p) (xk p) (r p) (r_new p) (z1 p) a (z2 p) (z2_new p) (v p)
    (v_new p) (res p) (Kyk1 p) (Kyk1_new p) (Kyk2 p) (Kyk2_new p) (gradx p)
    (gradx_xold p) (symgrad_v p) (symgrad_v_vold p) (Axold p) (Ax p) (AT p)
    (ATd p) (tau p) (tau_new p) (theta_line p) (beta_line p) (ynorm p) (lhs
    p) (primal p) (primal_new p) (dual p) (gap p) (gap_old p) (gap_init p)
    (gap_min p).
Definition with_z2 (p : t) (a : arr) : t :=
  mk (x p) (x_new p) (xk p) (r p) (r_new p) (z1 p) (z1_new p) a (z2_new p)
    (v p) (v_new p) (res p) (Kyk1 p) (Kyk1_new p) (Kyk2 p) (Kyk2_new p)
    (gradx p) (gradx_xold p) (symgrad_v p) (symgrad_v_vold p) (Axold p) (Ax
    p) (AT p) (ATd p) (tau p) (tau_new p) (theta_line p) (beta_line p)
    (ynorm p) (lhs p) (primal p) (primal_new p) (dual p) (gap p) (gap_old p)
    (gap_init p) (gap_min p).
Definition with_z2_new (p : t) (a : arr) : t :=
  mk (x p) (x_new p) (xk p) (r p) (r_new p) (z1 p) (z1_new p) (z2 p) a (v p)
    (v_new p) (res p) (Kyk1 p) (Kyk1_new p) (Kyk2 p) (Kyk2_new p) (gradx p)
    (gradx_xold p) (symgrad_v p) (symgrad_v_vold p) (Axold p) (Ax p) (AT p)
    (ATd p) (tau p) (tau_new p) (theta_line p) (beta_line p) (ynorm p) (lhs
    p) (primal p) (primal_new p) (dual p) (gap p) (gap_old p) (gap_init p)
    (gap_min p).
Definition with_v (p : t) (a : arr) : t :=
  mk (x p) (x_new p) (xk p) (r p) (r_new p) (z1 p) (z1_new p) (z2 p) (z2_new
    p) a (v_new p) (res p) (Kyk1 p) (Kyk1_new p) (Kyk2 p) (Kyk2_new p)
    (gradx p) (gradx_xold p) (symgrad_v p) (symgrad_v_vold p) (Axold p) (Ax
    p) (AT p) (ATd p) (tau p) (tau_new p) (theta_line p) (beta_line p)
    (ynorm p) (lhs p) (primal p) (primal_new p) (dual p) (gap p) (gap_old p)
    (gap_init p) (gap_min p).
Definition with_v_new (p : t) (a : arr) : t :=
  mk (x p) (x_new p) (xk p) (r p) (r_new p) (z1 p) (z1_new p) (z2 p) (z2_new
    p) (v p) a (res p) (Kyk1 p) (Kyk1_new p) (Kyk2 p) (Kyk2_new p) (gradx p)
    (gradx_xold p) (symgrad_v p) (symgrad_v_vold p) (Axold p) (Ax p) (AT p)
    (ATd p) (tau p) (tau_new p) (theta_line p) (beta_line p) (ynorm p) (lhs
    p) (primal p) (primal_new p) (dual p) (gap p) (gap_old p) (gap_init p)
    (gap_min p).
Definition with_res (p : t) (a : arr) : t :=
  mk (x p) (x_new p) (xk p) (r p) (r_new p) (z1 p) (z1_new p) (z2 p) (z2_new
    p) (v p) (v_new p) a (Kyk1 p) (Kyk1_new p) (Kyk2 p) (Kyk2_new p) (gradx
    p) (gradx_xold p) (symgrad_v p) (symgrad_v_vold p) (Axold p) (Ax p) (AT
    p) (ATd p) (tau p) (tau_new p) (theta_line p) (beta_line p) (ynorm p)
    (lhs p) (primal p) (primal_new p) (dual p) (gap p) (gap_old p) (gap_init
    p) (gap_min p).
Definition with_Kyk1 (p : t) (a : arr) : t :=
  mk (x p) (x_new p) (xk p) (r p) (r_new p) (z1 p) (z1_new p) (z2 p) (z2_new
    p) (v p) (v_new p) (res p) a (Kyk1_new p) (Kyk2 p) (Kyk2_new p) (gradx
    p) (gradx_xold p) (symgrad_v p) (symgrad_v_vold p) (Axold p) (Ax p) (AT
    p) (ATd p) (tau p) (tau_new p) (theta_line p) (beta_line p) (ynorm p)
    (lhs p) (primal p) (primal_new p) (dual p) (gap p) (gap_old p) (gap_init
    p) (gap_min p).
Definition with_Kyk1_new (p : t) (a : arr) : t :=
  mk (x p) (x_new p) (xk p) (r p) (r_new p) (z1 p) (z1_new p) (z2 p) (z2_new
    p) (v p) (v_new p) (res p) (Kyk1 p) a (Kyk2 p) (Kyk2_new p) (gradx p)
    (gradx_xold p) (symgrad_v p) (symgrad_v_vold p) (Axold p) (Ax p) (AT p)
    (ATd p) (tau p) (tau_new p) (theta_line p) (beta_line p) (ynorm p) (lhs
    p) (primal p) (primal_new p) (dual p) (gap p) (gap_old p) (gap_init p)
    (gap_min p).
Definition with_Kyk2 (p : t) (a : arr) : t :=
  mk (x p) (x_new p) (xk p) (r p) (r_new p) (z1 p) (z1_new p) (z2 p) (z2_new
    p) (v p) (v_new p) (res p) (Kyk1 p) (Kyk1_new p) a (Kyk2_new p) (gradx
    p) (gradx_xold p) (symgrad_v p) (symgrad_v_vold p) (Axold p) (Ax p) (AT
    p) (ATd p) (tau p) (tau_new p) (theta_line p) (beta_line p) (ynorm p)
    (lhs p) (primal p) (primal_new p) (dual p) (gap p) (gap_old p) (gap_init
    p) (gap_min p).
Definition with_Kyk2_new (p : t) (a : arr) : t :=
  mk (x p) (x_new p) (xk p) (r p) (r_new p) (z1 p) (z1_new p) (z2 p) (z2_new
    p) (v p) (v_new p) (res p) (Kyk1 p) (Kyk1_new p) (Kyk2 p) a (gradx p)
    (gradx_xold p) (symgrad_v p) (symgrad_v_vold p) (Axold p) (Ax p) (AT p)
    (ATd p) (tau p) (tau_new p) (theta_line p) (beta_line p) (ynorm p) (lhs
    p) (primal p) (primal_new p) (dual p) (gap p) (gap_old p) (gap_init p)
    (gap_min p).
Definition with_gradx (p : t) (a : arr) : t :=
  mk (x p) (x_new p) (xk p) (r p) (r_new p) (z1 p) (z1_new p) (z2 p) (z2_new
    p) (v p) (v_new p) (res p) (Kyk1 p) (Kyk1_new p) (Kyk2 p) (Kyk2_new p) a
    (gradx_xold p) (symgrad_v p) (symgrad_v_vold p) (Axold p) (Ax p) (AT p)
    (ATd p) (tau p) (tau_new p) (theta_line p) (beta_line p) (ynorm p) (lhs
    p) (primal p) (primal_new p) (dual p) (gap p) (gap_old p) (gap_init p)
    (gap_min p).
Definition with_gradx_xold (p : t) (a : arr) : t :=
  mk (x p) (x_new p) (xk p) (r p) (r_new p) (z1 p) (z1_new p) (z2 p) (z2_new
    p) (v p) (v_new p) (res p) (Kyk1 p) (Kyk1_new p) (Kyk2 p) (Kyk2_new p)
    (gradx p) a (symgrad_v p) (symgrad_v_vold p) (Axold p) (Ax p) (AT p)
    (ATd p) (tau p) (tau_new p) (theta_line p) (beta_line p) (ynorm p) (lhs
    p) (primal p) (primal_new p) (dual p) (gap p) (gap_old p) (gap_init p)
    (gap_min p).
Definition with_symgrad_v (p : t) (a : arr) : t :=
  mk (x p) (x_new p) (xk p) (r p) (r_new p) (z1 p) (z1_new p) (z2 p) (z2_new
    p) (v p) (v_new p) (res p) (Kyk1 p) (Kyk1_new p) (Kyk2 p) (Kyk2_new p)
    (gradx p) (gradx_xold p) a (symgrad_v_vold p) (Axold p) (Ax p) (AT p)
    (ATd p) (tau p) (tau_new p) (theta_line p) (beta_line p) (ynorm p) (lhs
    p) (primal p) (primal_new p) (dual p) (gap p) (gap_old p) (gap_init p)
    (gap_min p).
Definition with_symgrad_v_vold (p : t) (a : arr) : t :=
  mk (x p) (x_new p) (xk p) (r p) (r_new p) (z1 p) (z1_new p) (z2 p) (z2_new
    p) (v p) (v_new p) (res p) (Kyk1 p) (Kyk1_new p) (Kyk2 p) (Kyk2_new p)
    (gradx p) (gradx_xold p) (symgrad_v p) a (Axold p) (Ax p) (AT p) (ATd p)
    (tau p) (tau_new p) (theta_line p) (beta_line p) (ynorm p) (lhs p)
    (primal p) (primal_new p) (dual p) (gap p) (gap_old p) (gap_init p)
    (gap_min p).
Definition with_Axold (p : t) (a : arr) : t :=
  mk (x p) (x_new p) (xk p) (r p) (r_new p) (z1 p) (z1_new p) (z2 p) (z2_new
    p) (v p) (v_new p) (res p) (Kyk1 p) (Kyk1_new p) (Kyk2 p) (Kyk2_new p)
    (gradx p) (gradx_xold p) (symgrad_v p) (symgrad_v_vold p) a (Ax p) (AT
    p) (ATd p) (tau p) (tau_new p) (theta_line p) (beta_line p) (ynorm p)
    (lhs p) (primal p) (primal_new p) (dual p) (gap p) (gap_old p) (gap_init
    p) (gap_min p).
Definition with_Ax (p : t) (a : arr) : t :=
  mk (x p) (x_new p) (xk p) (r p) (r_new p) (z1 p) (z1_new p) (z2 p) (z2_new
    p) (v p) (v_new p) (res p) (Kyk1 p) (Kyk1_new p) (Kyk2 p) (Kyk2_new p)
    (gradx p) (gradx_xold p) (symgrad_v p) (symgrad_v_vold p) (Axold p) a
    (AT p) (ATd p) (tau p) (tau_new p) (theta_line p) (beta_line p) (ynorm
    p) (lhs p) (primal p) (primal_new p) (dual p) (gap p) (gap_old p)
    (gap_init p) (gap_min p).
Definition with_AT (p : t) (a : arr) : t :=
  mk (x p) (x_new p) (xk p) (r p) (r_new p) (z1 p) (z1_new p) (z2 p) (z2_new
    p) (v p) (v_new p) (res p) (Kyk1 p) (Kyk1_new p) (Kyk2 p) (Kyk2_new p)
    (gradx p) (gradx_xold p) (symgrad_v p) (symgrad_v_vold p) (Axold p) (Ax
    p) a (ATd p) (tau p) (tau_new p) (theta_line p) (beta_line p) (ynorm p)
    (lhs p) (primal p) (primal_new p) (dual p) (gap p) (gap_old p) (gap_init
    p) (gap_min p).
Definition with_ATd (p : t) (a : arr) : t :=
  mk (x p) (x_new p) (xk p) (r p) (r_new p) (z1 p) (z1_new p) (z2 p) (z2_new
    p) (v p) (v_new p) (res p) (Kyk1 p) (Kyk1_new p) (Kyk2 p) (Kyk2_new p)
    (gradx p) (gradx_xold p) (symgrad_v p) (symgrad_v_vold p) (Axold p) (Ax
    p) (AT p) a (tau p) (tau_new p) (theta_line p) (beta_line p) (ynorm p)
    (lhs p) (primal p) (primal_new p) (dual p) (gap p) (gap_old p) (gap_init
    p) (gap_min p).
Definition with_tau (p : t) (a : fl) : t :=
  mk (x p) (x_new p) (xk p) (r p) (r_new p) (z1 p) (z1_new p) (z2 p) (z2_new
    p) (v p) (v_new p) (res p) (Kyk1 p) (Kyk1_new p) (Kyk2 p) (Kyk2_new p)
    (gradx p) (gradx_xold p) (symgrad_v p) (symgrad_v_vold p) (Axold p) (Ax
    p) (AT p) (ATd p) a (tau_new p) (theta_line p) (beta_line p) (ynorm p)
    (lhs p) (primal p) (primal_new p) (dual p) (gap p) (gap_old p) (gap_init
    p) (gap_min p).
Definition with_tau_new (p : t) (a : fl) : t :=
  mk (x p) (x_new p) (xk p) (r p) (r_new p) (z1 p) (z1_new p) (z2 p) (z2_new
    p) (v p) (v_new p) (res p) (Kyk1 p) (Kyk1_new p) (Kyk2 p) (Kyk2_new p)
    (gradx p) (gradx_xold p) (symgrad_v p) (symgrad_v_vold p) (Axold p) (Ax
    p) (AT p) (ATd p) (tau p) a (theta_line p) (beta_line p) (ynorm p) (lhs
    p) (primal p) (primal_new p) (dual p) (gap p) (gap_old p) (gap_init p)
    (gap_min p).
Definition with_theta_line (p : t) (a : fl) : t :=
  mk (x p) (x_new p) (xk p) (r p) (r_new p) (z1 p) (z1_new p) (z2 p) (z2_new
    p) (v p) (v_new p) (res p) (Kyk1 p) (Kyk1_new p) (Kyk2 p) (Kyk2_new p)
    (gradx p) (gradx_xold p) (symgrad_v p) (symgrad_v_vold p) (Axold p) (Ax
    p) (AT p) (ATd p) (tau p) (tau_new p) a (beta_line p) (ynorm p) (lhs p)
    (primal p) (primal_new p) (dual p) (gap p) (gap_old p) (gap_init p)
    (gap_min p).
Definition with_beta_line (p : t) (a : fl) : t :=
  mk (x p) (x_new p) (xk p) (r p) (r_new p) (z1 p) (z1_new p) (z2 p) (z2_new
    p) (v p) (v_new p) (res p) (Kyk1 p) (Kyk1_new p) (Kyk2 p) (Kyk2_new p)
    (gradx p) (gradx_xold p) (symgrad_v p) (symgrad_v_vold p) (Axold p) (Ax
    p) (AT p) (ATd p) (tau p) (tau_new p) (theta_line p) a (ynorm p) (lhs p)
    (primal p) (primal_new p) (dual p) (gap p) (gap_old p) (gap_init p)
    (gap_min p).
Definition with_ynorm (p : t) (a : fl) : t :=
  mk (x p) (x_new p) (xk p) (r p) (r_new p) (z1 p) (z1_new p) (z2 p) (z2_new
    p) (v p) (v_new p) (res p) (Kyk1 p) (Kyk1_new p) (Kyk2 p) (Kyk2_new p)
    (gradx p) (gradx_xold p) (symgrad_v p) (symgrad_v_vold p) (Axold p) (Ax
    p) (AT p) (ATd p) (tau p) (tau_new p) (theta_line p) (beta_line p) a
    (lhs p) (primal p) (primal_new p) (dual p) (gap p) (gap_old p) (gap_init
    p) (gap_min p).
Definition with_lhs (p : t) (a : fl) : t :=
  mk (x p) (x_new p) (xk p) (r p) (r_new p) (z1 p) (z1_new p) (z2 p) (z2_new
    p) (v p) (v_new p) (res p) (Kyk1 p) (Kyk1_new p) (Kyk2 p) (Kyk2_new p)
    (gradx p) (gradx_xold p) (symgrad_v p) (symgrad_v_vold p) (Axold p) (Ax
    p) (AT p) (ATd p) (tau p) (tau_new p) (theta_line p) (beta_line p)
    (ynorm p) a (primal p) (primal_new p) (dual p) (gap p) (gap_old p)
    (gap_init p) (gap_min p).
Definition with_primal (p : t) (a : fl) : t :=
  mk (x p) (x_new p) (xk p) (r p) (r_new p) (z1 p) (z1_new p) (z2 p) (z2_new
    p) (v p) (v_new p) (res p) (Kyk1 p) (Kyk1_new p) (Kyk2 p) (Kyk2_new p)
    (gradx p) (gradx_xold p) (symgrad_v p) (symgrad_v_vold p) (Axold p) (Ax
    p) (AT p) (ATd p) (tau p) (tau_new p) (theta_line p) (beta_line p)
    (ynorm p) (lhs p) a (primal_new p) (dual p) (gap p) (gap_old p)
    (gap_init p) (gap_min p).
Definition with_primal_new (p : t) (a : fl) : t :=
  mk (x p) (x_new p) (xk p) (r p) (r_new p) (z1 p) (z1_new p) (z2 p) (z2_new
    p) (v p) (v_new p) (res p) (Kyk1 p) (Kyk1_new p) (Kyk2 p) (Kyk2_new p)
    (gradx p) (gradx_xold p) (symgrad_v p) (symgrad_v_vold p) (Axold p) (Ax
    p) (AT p) (ATd p) (tau p) (tau_new p) (theta_line p) (beta_line p)
    (ynorm p) (lhs p) (primal p) a (dual p) (gap p) (gap_old p) (gap_init p)
    (gap_min p).
Definition with_dual (p : t) (a : fl) : t :=
  mk (x p) (x_new p) (xk p) (r p) (r_new p) (z1 p) (z1_new p) (z2 p) (z2_new
    p) (v p) (v_new p) (res p) (Kyk1 p) (Kyk1_new p) (Kyk2 p) (Kyk2_new p)
    (gradx p) (gradx_xold p) (symgrad_v p) (symgrad_v_vold p) (Axold p) (Ax
    p) (AT p) (ATd p) (tau p) (tau_new p) (theta_line p) (beta_line p)
    (ynorm p) (lhs p) (primal p) (primal_new p) a (gap p) (gap_old p)
    (gap_init p) (gap_min p).
Definition with_gap (p : t) (a : fl) : t :=
  mk (x p) (x_new p) (xk p) (r p) (r_new p) (z1 p) (z1_new p) (z2 p) (z2_new
    p) (v p) (v_new p) (res p) (Kyk1 p) (Kyk1_new p) (Kyk2 p) (Kyk2_new p)
    (gradx p) (gradx_xold p) (symgrad_v p) (symgrad_v_vold p) (Axold p) (Ax
    p) (AT p) (ATd p) (tau p) (tau_new p) (theta_line p) (beta_line p)
    (ynorm p) (lhs p) (primal p) (primal_new p) (dual p) a (gap_old p)
    (gap_init p) (gap_min p).
Definition with_gap_old (p : t) (a : fl) : t :=
  mk (x p) (x_new p) (xk p) (r p) (r_new p) (z1 p) (z1_new p) (z2 p) (z2_new
    p) (v p) (v_new p) (res p) (Kyk1 p) (Kyk1_new p) (Kyk2 p) (Kyk2_new p)
    (gradx p) (gradx_xold p) (symgrad_v p) (symgrad_v_vold p) (Axold p) (Ax
    p) (AT p) (ATd p) (tau p) (tau_new p) (theta_line p) (beta_line p)
    (ynorm p) (lhs p) (primal p) (primal_new p) (dual p) (gap p) a (gap_init
    p) (gap_min p).
Definition with_gap_init (p : t) (a : fl) : t :=
  mk (x p) (x_new p) (xk p) (r p) (r_new p) (z1 p) (z1_new p) (z2 p) (z2_new
    p) (v p) (v_new p) (res p) (Kyk1 p) (Kyk1_new p) (Kyk2 p) (Kyk2_new p)
    (gradx p) (gradx_xold p) (symgrad_v p) (symgrad_v_vold p) (Axold p) (Ax
    p) (AT p) (ATd p) (tau p) (tau_new p) (theta_line p) (beta_line p)
    (ynorm p) (lhs p) (primal p) (primal_new p) (dual p) (gap p) (gap_old p)
    a (gap_min p).
Definition with_gap_min (p : t) (a : fl) : t :=
  mk (x p) (x_new p) (xk p) (r p) (r_new p) (z1 p) (z1_new p) (z2 p) (z2_new
    p) (v p) (v_new p) (res p) (Kyk1 p) (Kyk1_new p) (Kyk2 p) (Kyk2_new p)
    (gradx p) (gradx_xold p) (symgrad_v p) (symgrad_v_vold p) (Axold p) (Ax
    p) (AT p) (ATd p) (tau p) (tau_new p) (theta_line p) (beta_line p)
    (ynorm p) (lhs p) (primal p) (primal_new p) (dual p) (gap p) (gap_old p)
    (gap_init p) a.

End PD.

Section Solvers.

Context {M : Type} (B : Backend).

(** ** The Python wrappers of the kernels *)

Definition update_primal (st : ModelReco M) (x Kyk xk : arr) (tau delta : fl) : arr :=
  prg_update_primal B x Kyk xk tau (Fl.div tau delta)
    (Fl.div (Fin 1%R) (Fl.add (Fin 1%R) (Fl.div tau delta)))
    (min_const st) (max_const st) (real_const st) (unknowns (par st)).

Definition update_v (v Kyk2 : arr) (tau : fl) : arr := prg_update_v B v Kyk2 tau.

Definition update_z1 (st : ModelReco M) (z gx gx_ vx vx_ : arr)
  (sigma theta alpha omega : fl) : arr :=
  prg_update_z1 B z gx gx_ vx vx_ sigma theta (Fl.div (Fin 1%R) alpha)
    (unknowns_TGV (par st)) (unknowns_H1 (par st))
    (Fl.div (Fin 1%R) (Fl.add (Fin 1%R) (Fl.div sigma omega))).

Definition update_z1_tv (st : ModelReco M) (z gx gx_ : arr)
  (sigma theta alpha omega : fl) : arr :=
  prg_update_z1_tv B z gx gx_ sigma theta (Fl.div (Fin 1%R) alpha)
    (unknowns_TGV (par st)) (unknowns_H1 (par st))
    (Fl.div (Fin 1%R) (Fl.add (Fin 1%R) (Fl.div sigma omega))).

Definition update_z2 (st : ModelReco M) (z gx gx_ : arr) (sigma theta beta : fl)
  : arr :=
  prg_update_z2 B z gx gx_ sigma theta (Fl.div (Fin 1%R) beta)
    (unknowns_TGV (par st)).

Definition update_Kyk2 (st : ModelReco M) (u z : arr) : arr :=
  prg_update_Kyk2 B u z (unknowns_TGV (par st)) (dz (par st)).

Definition update_r (r A A_ res : arr) (sigma theta lambd : fl) : arr :=
  prg_update_r B r A A_ res sigma theta
    (Fl.div (Fin 1%R) (Fl.add (Fin 1%R) (Fl.div sigma lambd))).

Definition update_primal_explicit (st : ModelReco M) (x Kyk xk ATd : arr)
  (tau delta lambd : fl) : arr :=
  prg_update_primal_explicit B x Kyk xk ATd tau (Fl.div (Fin 1%R) delta) lambd
    (min_const st) (max_const st) (real_const st) (unknowns (par st)).

(** ** Constants of the solvers *)
Definition mu_line : fl := Fin (1 / 2)%R.
Definition delta_line : fl := Fin 1%R.
Definition alpha_of (st : ModelReco M) : fl := gamma (irgn_par st).
Definition beta_of (st : ModelReco M) : fl := Fl.mul (gamma (irgn_par st)) (Fin 2%R).
Definition mu_of (st : ModelReco M) : fl := Fl.div (Fin 1%R) (delta (irgn_par st)).

(** [(d . d)] of a difference, [clarray.vdot(a - b, a - b)]. *)
Definition vdot_diff (a b : arr) : cfl := vdot (asub a b) (asub a b).

(** [(z ** (1 / 2)).real] *)
Definition sqrt_real (z : cfl) : fl := cre (Cfl.cpow_real z (Fin (1 / 2)%R)).

(** The step sizes proposed at the start of an iteration. *)
Definition propose_steps (st : ModelReco M) (p : PD.t) : PD.t :=
  let beta_new :=
    Fl.mul (PD.beta_line p) (Fl.add (Fin 1%R) (Fl.mul (mu_of st) (PD.tau p))) in
  let tau_new :=
    Fl.mul (PD.tau p)
      (Fl.sqrt (Fl.mul (Fl.div (PD.beta_line p) beta_new)
                       (Fl.add (Fin 1%R) (PD.theta_line p)))) in
  PD.with_beta_line (PD.with_tau_new p tau_new) beta_new.

(** ** [tgv_solve_3D] *)

(** The state at the entry of the loop. *)
Definition tgv_init (st : ModelReco M) (x res : arr) : PD.t :=
  let r0 := zeros_like (r st) in
  let z10 := zeros_like (z1 st) in
  let z20 := zeros_like (z2 st) in
  let v0 := zeros_like (v st) in
  PD.mk x (empty_like B x) x
        r0 (empty_like B r0) z10 (empty_like B z10) z20 (empty_like B z20)
        v0 (empty_like B v0) res
        (op_adjKyk1 B r0 z10 (coil_buf st) (grad_buf st) (_ratio st))
        (empty_like B x)
        (update_Kyk2 st z20 z10) (empty_like B z10)
        (empty_like B z10) (grad_op_fwd B (op_ratio st) x)
        (empty_like B z20) (symgrad_op_fwd B v0)
        (op_fwd B x (coil_buf st) (grad_buf st)) (empty_like B res)
        [] []
        (tau st) (Fin 0%R) (theta_line st) (beta_line st)
        (Fin 0%R) (Fin 0%R) (Fin 0%R) (Fin 0%R) (Fin 0%R) (Fin 0%R) (Fin 0%R)
        (Fin 0%R) (Fin 0%R).

(** One pass of the body of [while True], up to the two norms. *)
Definition tgv_trial (st : ModelReco M) (p : PD.t) : PD.t :=
  let p := PD.with_theta_line p (Fl.div (PD.tau_new p) (PD.tau p)) in
  let sigma := Fl.mul (PD.beta_line p) (PD.tau_new p) in
  let p := PD.with_z1_new p
             (update_z1 st (PD.z1 p) (PD.gradx p) (PD.gradx_xold p) (PD.v_new p)
                        (PD.v p) sigma (PD.theta_line p) (alpha_of st)
                        (omega (irgn_par st))) in
  let p := PD.with_z2_new p
             (update_z2 st (PD.z2 p) (PD.symgrad_v p) (PD.symgrad_v_vold p)
                        sigma (PD.theta_line p) (beta_of st)) in
  let p := PD.with_r_new p
             (update_r (PD.r p) (PD.Ax p) (PD.Axold p) (PD.res p) sigma
                       (PD.theta_line p) (lambd (irgn_par st))) in
  let p := PD.with_Kyk1_new p
             (op_adjKyk1 B (PD.r_new p) (PD.z1_new p) (coil_buf st) (grad_buf st)
                         (_ratio st)) in
  let p := PD.with_Kyk2_new p (update_Kyk2 st (PD.z2_new p) (PD.z1_new p)) in
  let p := PD.with_ynorm p
             (sqrt_real (vdot_diff (PD.r_new p) (PD.r p) +c
                         vdot_diff (PD.z1_new p) (PD.z1 p) +c
                         vdot_diff (PD.z2_new p) (PD.z2 p))) in
  PD.with_lhs p
    (Fl.mul (Fl.mul (Fl.sqrt (PD.beta_line p)) (PD.tau_new p))
            (sqrt_real (vdot_diff (PD.Kyk1_new p) (PD.Kyk1 p) +c
                        vdot_diff (PD.Kyk2_new p) (PD.Kyk2 p)))).

(** The test that leaves the [while True] loop. *)
Definition accepted (p : PD.t) : bool :=
  Fl.leb (PD.lhs p) (Fl.mul (PD.ynorm p) delta_line).

(** The step taken on a rejection. *)
Definition halve (p : PD.t) : PD.t :=
  PD.with_tau_new p (Fl.mul (PD.tau_new p) mu_line).

(** [while True]: at most [fuel] passes. *)
Fixpoint tgv_line_search (fuel : nat) (st : ModelReco M) (p : PD.t)
  : option PD.t :=
  match fuel with
  | O => None
  | S f =>
      let p1 := tgv_trial st p in
      if accepted p1 then Some p1 else tgv_line_search f st (halve p1)
  end.

(** The simultaneous assignment after the line search. *)
Definition tgv_swap (p : PD.t) : PD.t :=
  let q := PD.with_Kyk1 p (PD.Kyk1_new p) in
  let q := PD.with_Kyk1_new q (PD.Kyk1 p) in
  let q := PD.with_Kyk2 q (PD.Kyk2_new p) in
  let q := PD.with_Kyk2_new q (PD.Kyk2 p) in
  let q := PD.with_Axold q (PD.Ax p) in
  let q := PD.with_Ax q (PD.Axold p) in
  let q := PD.with_z1 q (PD.z1_new p) in
  let q := PD.with_z1_new q (PD.z1 p) in
  let q := PD.with_z2 q (PD.z2_new p) in
  let q := PD.with_z2_new q (PD.z2 p) in
  let q := PD.with_r q (PD.r_new p) in
  let q := PD.with_r_new q (PD.r p) in
  let q := PD.with_gradx_xold q (PD.gradx p) in
  let q := PD.with_gradx q (PD.gradx_xold p) in
  let q := PD.with_symgrad_v_vold q (PD.symgrad_v p) in
  let q := PD.with_symgrad_v q (PD.symgrad_v_vold p) in
  PD.with_tau q (PD.tau_new p).

(** Primal and dual objective of the check made every 50 iterations. *)
Definition tgv_primal (st : ModelReco M) (p : PD.t) : fl :=
  let U := unknowns_TGV (par st) in
  let delta := delta (irgn_par st) in
  let common :=
    rc (Fl.div (lambd (irgn_par st)) (Fin 2%R)) *c vdot_diff (PD.Axold p) (PD.res p)
    +c rc (Fl.mul (alpha_of st)
                  (asum_abs (asub (if Nat.ltb 0 (unknowns_H1 (par st))
                                   then firstn U (PD.gradx p) else PD.gradx p)
                                  (PD.v p))))
    +c rc (Fl.mul (beta_of st) (asum_abs (PD.symgrad_v p)))
    +c rc (Fl.div (Fin 1%R) (Fl.mul (Fin 2%R) delta)) *c
       vdot_diff (PD.x_new p) (PD.xk p) in
  if Nat.ltb 0 (unknowns_H1 (par st)) then
    cre (common +c rc (Fl.div (omega (irgn_par st)) (Fin 2%R)) *c
                   vdot (skipn U (PD.gradx p)) (skipn U (PD.gradx p)))
  else cre common.

Definition tgv_dual (st : ModelReco M) (p : PD.t) : fl :=
  let U := unknowns_TGV (par st) in
  let delta := delta (irgn_par st) in
  let nK := amap Cfl.cneg (PD.Kyk1 p) in
  let common :=
    rc (Fl.div (Fl.opp delta) (Fin 2%R)) *c vdot nK nK
    -c vdot (PD.xk p) nK +c asum (PD.Kyk2 p)
    -c rc (Fl.div (Fin 1%R) (Fl.mul (Fin 2%R) (lambd (irgn_par st)))) *c
       vdot (PD.r p) (PD.r p)
    -c vdot (PD.res p) (PD.r p) in
  if Nat.ltb 0 (unknowns_H1 (par st)) then
    cre (common -c rc (Fl.div (Fin 1%R) (Fl.mul (Fin 2%R) (omega (irgn_par st)))) *c
                   vdot (skipn U (PD.z1 p)) (skipn U (PD.z1 p)))
  else cre common.

(** What the solver stores and returns when it ends with [x_new]. *)
Definition tgv_finish (st : ModelReco M) (p : PD.t) (vfinal xfinal : arr)
  : ModelReco M * arr :=
  (with_z2 (with_z1 (with_r (with_v st vfinal) (PD.r p)) (PD.z1 p)) (PD.z2 p),
   xfinal).

(** The check of iteration [i] (a multiple of 50): [inl] when the
    function returns, [inr] with the updated variables otherwise. *)
Definition tgv_check (st : ModelReco M) (p : PD.t) (i : nat)
  : (ModelReco M * arr) + PD.t :=
  let p := PD.with_primal_new p (tgv_primal st p) in
  let p := PD.with_dual p (tgv_dual st p) in
  let p := PD.with_gap p (Fl.abs (Fl.sub (PD.primal_new p) (PD.dual p))) in
  let p := if Nat.eqb i 0 then PD.with_gap_init p (PD.gap p) else p in
  if Fl.ltb (Fl.div (Fl.abs (Fl.sub (PD.primal p) (PD.primal_new p))) (_fval_init st))
            (tol (irgn_par st))
  then inl (tgv_finish st p (PD.v_new p) (PD.x_new p))
  else if Fl.gtb (PD.gap p) (Fl.mul (PD.gap_old p) (stag (irgn_par st)))
          && Nat.ltb 1 i
  then inl (tgv_finish st p (PD.v_new p) (PD.x_new p))
  else if Fl.ltb (Fl.abs (Fl.div (Fl.sub (PD.gap p) (PD.gap_old p)) (PD.gap_init p)))
                 (tol (irgn_par st))
  then inl (tgv_finish st p (PD.v_new p) (PD.x_new p))
  else inr (PD.with_gap_old (PD.with_primal p (PD.primal_new p)) (PD.gap p)).

(** The part of an iteration before the line search. *)
Definition tgv_pre (st : ModelReco M) (p : PD.t) : PD.t :=
  let p := PD.with_x_new p
             (update_primal st (PD.x p) (PD.Kyk1 p) (PD.xk p) (PD.tau p)
                            (delta (irgn_par st))) in
  let p := PD.with_v_new p (update_v (PD.v p) (PD.Kyk2 p) (PD.tau p)) in
  let p := propose_steps st p in
  let p := PD.with_gradx p (grad_op_fwd B (op_ratio st) (PD.x_new p)) in
  let p := PD.with_symgrad_v p (symgrad_op_fwd B (PD.v_new p)) in
  PD.with_Ax p (op_fwd B (PD.x_new p) (coil_buf st) (grad_buf st)).

Definition swap_xv (p : PD.t) : PD.t :=
  let q := PD.with_x p (PD.x_new p) in
  let q := PD.with_x_new q (PD.x p) in
  let q := PD.with_v q (PD.v_new p) in
  PD.with_v_new q (PD.v p).

(** [for i in range(iters)], from iteration [i] with [n] iterations left;
    [None] when a line search uses up [fuel] passes. *)
Fixpoint tgv_loop (fuel : nat) (st : ModelReco M) (p : PD.t) (n i : nat)
  : option (ModelReco M * arr) :=
  match n with
  | O => Some (tgv_finish st p (PD.v p) (PD.x p))
  | S n' =>
      match tgv_line_search fuel st (tgv_pre st p) with
      | None => None
      | Some p1 =>
          let p2 := tgv_swap p1 in
          if Nat.eqb (i mod 50) 0 then
            match tgv_check st p2 i with
            | inl ret => Some ret
            | inr p3 => tgv_loop fuel st (swap_xv p3) n' (S i)
            end
          else tgv_loop fuel st (swap_xv p2) n' (S i)
      end
  end.

Definition tgv_solve_3D (fuel : nat) (st : ModelReco M) (x res : arr) (iters : nat)
  : option (ModelReco M * arr) :=
  let st1 := _eval_const st in
  tgv_loop fuel st1 (tgv_init st1 x res) iters 0.

(** ** [tv_solve_3D] *)

Definition tv_init (st : ModelReco M) (x res : arr) : PD.t :=
  let r0 := zeros_like (r st) in
  let z10 := zeros_like (z1 st) in
  PD.mk x (empty_like B x) x
        r0 (empty_like B r0) z10 (empty_like B z10) [] []
        [] [] res
        (op_adjKyk1 B r0 z10 (coil_buf st) (grad_buf st) (_ratio st))
        (empty_like B x)
        [] []
        (empty_like B z10) (empty_like B z10)
        [] []
        (op_fwd B x (coil_buf st) (grad_buf st)) (empty_like B res)
        [] []
        (tau st) (Fin 0%R) (theta_line st) (beta_line st)
        (Fin 0%R) (Fin 0%R) (Fin 0%R) (Fin 0%R) (Fin 0%R) (Fin 0%R) (Fin 0%R)
        (Fin 0%R) (Fin 0%R).

Definition tv_trial (st : ModelReco M) (p : PD.t) : PD.t :=
  let p := PD.with_theta_line p (Fl.div (PD.tau_new p) (PD.tau p)) in
  let sigma := Fl.mul (PD.beta_line p) (PD.tau_new p) in
  let p := PD.with_z1_new p
             (update_z1_tv st (PD.z1 p) (PD.gradx p) (PD.gradx_xold p) sigma
                           (PD.theta_line p) (alpha_of st) (omega (irgn_par st))) in
  let p := PD.with_r_new p
             (update_r (PD.r p) (PD.Ax p) (PD.Axold p) (PD.res p) sigma
                       (PD.theta_line p) (lambd (irgn_par st))) in
  let p := PD.with_Kyk1_new p
             (op_adjKyk1 B (PD.r_new p) (PD.z1_new p) (coil_buf st) (grad_buf st)
                         (_ratio st)) in
  let p := PD.with_ynorm p
             (sqrt_real (vdot_diff (PD.r_new p) (PD.r p) +c
                         vdot_diff (PD.z1_new p) (PD.z1 p))) in
  PD.with_lhs p
    (Fl.mul (Fl.mul (Fl.sqrt (PD.beta_line p)) (PD.tau_new p))
            (sqrt_real (vdot_diff (PD.Kyk1_new p) (PD.Kyk1 p)))).

Fixpoint tv_line_search (fuel : nat) (st : ModelReco M) (p : PD.t)
  : option PD.t :=
  match fuel with
  | O => None
  | S f =>
      let p1 := tv_trial st p in
      if accepted p1 then Some p1 else tv_line_search f st (halve p1)
  end.

Definition tv_swap (p : PD.t) : PD.t :=
  let q := PD.with_Kyk1 p (PD.Kyk1_new p) in
  let q := PD.with_Kyk1_new q (PD.Kyk1 p) in
  let q := PD.with_Axold q (PD.Ax p) in
  let q := PD.with_Ax q (PD.Axold p) in
  let q := PD.with_z1 q (PD.z1_new p) in
  let q := PD.with_z1_new q (PD.z1 p) in
  let q := PD.with_r q (PD.r_new p) in
  let q := PD.with_r_new q (PD.r p) in
  let q := PD.with_gradx_xold q (PD.gradx p) in
  let q := PD.with_gradx q (PD.gradx_xold p) in
  PD.with_tau q (PD.tau_new p).

Definition tv_primal (st : ModelReco M) (p : PD.t) : fl :=
  let U := unknowns_TGV (par st) in
  let delta := delta (irgn_par st) in
  let common :=
    rc (Fl.div (lambd (irgn_par st)) (Fin 2%R)) *c vdot_diff (PD.Axold p) (PD.res p)
    +c rc (Fl.mul (alpha_of st) (asum_abs (firstn U (PD.gradx p))))
    +c rc (Fl.div (Fin 1%R) (Fl.mul (Fin 2%R) delta)) *c
       vdot_diff (PD.x_new p) (PD.xk p) in
  if Nat.ltb 0 (unknowns_H1 (par st)) then
    cre (common +c rc (Fl.div (omega (irgn_par st)) (Fin 2%R)) *c
                   vdot (skipn U (PD.gradx p)) (skipn U (PD.gradx p)))
  else cre common.

Definition tv_dual (st : ModelReco M) (p : PD.t) : fl :=
  let U := unknowns_TGV (par st) in
  let delta := delta (irgn_par st) in
  let nK := amap Cfl.cneg (PD.Kyk1 p) in
  let common :=
    rc (Fl.div (Fl.opp delta) (Fin 2%R)) *c vdot nK nK
    -c vdot (PD.xk p) nK
    -c rc (Fl.div (Fin 1%R) (Fl.mul (Fin 2%R) (lambd (irgn_par st)))) *c
       vdot (PD.r p) (PD.r p)
    -c vdot (PD.res p) (PD.r p) in
  if Nat.ltb 0 (unknowns_H1 (par st)) then
    cre (common -c rc (Fl.div (Fin 1%R) (Fl.mul (Fin 2%R) (omega (irgn_par st)))) *c
                   vdot (skipn U (PD.z1 p)) (skipn U (PD.z1 p)))
  else cre common.

Definition tv_finish (st : ModelReco M) (p : PD.t) (xfinal : arr)
  : ModelReco M * arr :=
  (with_z1 (with_r st (PD.r p)) (PD.z1 p), xfinal).

Definition tv_check (st : ModelReco M) (p : PD.t) (i : nat)
  : (ModelReco M * arr) + PD.t :=
  let p := PD.with_primal_new p (tv_primal st p) in
  let p := PD.with_dual p (tv_dual st p) in
  let p := PD.with_gap p (Fl.abs (Fl.sub (PD.primal_new p) (PD.dual p))) in
  let p := if Nat.eqb i 0 then PD.with_gap_init p (PD.gap p) else p in
  if Fl.ltb (Fl.div (Fl.abs (Fl.sub (PD.primal p) (PD.primal_new p))) (_fval_init st))
            (tol (irgn_par st))
  then inl (tv_finish st p (PD.x_new p))
  else if Fl.gtb (PD.gap p) (Fl.mul (PD.gap_old p) (stag (irgn_par st)))
          && Nat.ltb 1 i
  then inl (tv_finish st p (PD.x_new p))
  else if Fl.ltb (Fl.abs (Fl.div (Fl.sub (PD.gap p) (PD.gap_old p)) (PD.gap_init p)))
                 (tol (irgn_par st))
  then inl (tv_finish st p (PD.x_new p))
  else inr (PD.with_gap_old (PD.with_primal p (PD.primal_new p)) (PD.gap p)).

Definition tv_pre (st : ModelReco M) (p : PD.t) : PD.t :=
  let p := PD.with_x_new p
             (update_primal st (PD.x p) (PD.Kyk1 p) (PD.xk p) (PD.tau p)
                            (delta (irgn_par st))) in
  let p := propose_steps st p in
  let p := PD.with_gradx p (grad_op_fwd B (op_ratio st) (PD.x_new p)) in
  let p := PD.with_gradx_xold p (grad_op_fwd B (op_ratio st) (PD.x p)) in
  PD.with_Ax p (op_fwd B (PD.x_new p) (coil_buf st) (grad_buf st)).

Definition swap_x (p : PD.t) : PD.t :=
  PD.with_x_new (PD.with_x p (PD.x_new p)) (PD.x p).

Fixpoint tv_loop (fuel : nat) (st : ModelReco M) (p : PD.t) (n i : nat)
  : option (ModelReco M * arr) :=
  match n with
  | O => Some (tv_finish st p (PD.x p))
  | S n' =>
      match tv_line_search fuel st (tv_pre st p) with
      | None => None
      | Some p1 =>
          let p2 := tv_swap p1 in
          if Nat.eqb (i mod 50) 0 then
            match tv_check st p2 i with
            | inl ret => Some ret
            | inr p3 => tv_loop fuel st (swap_x p3) n' (S i)
            end
          else tv_loop fuel st (swap_x p2) n' (S i)
      end
  end.

Definition tv_solve_3D (fuel : nat) (st : ModelReco M) (x res : arr) (iters : nat)
  : option (ModelReco M * arr) :=
  let st1 := _eval_const st in
  tv_loop fuel st1 (tv_init st1 x res) iters 0.

(** ** [tgv_solve_3D_explicit] *)

(** [self._set_scale(x)] is the first call of the function.  The class
    defines no [_set_scale] and nothing assigns one to the object (the
    call is the only occurrence of the name), so the attribute lookup
    raises [AttributeError], with the object as it was. *)
Definition _set_scale (st : ModelReco M) (x : arr) : outcome (ModelReco M) :=
  Raised AttributeError st.

Definition explicit_init (st : ModelReco M) (x res : arr) : PD.t :=
  let z10 := z1 st in
  let z20 := z2 st in
  let v0 := v st in
  PD.mk x (empty_like B x) x
        [] [] z10 (empty_like B z10) z20 (empty_like B z20)
        v0 (empty_like B v0) res
        (grad_op_adj B (op_ratio st) z10) (empty_like B x)
        (update_Kyk2 st z20 z10) (empty_like B z10)
        (empty_like B z10) (empty_like B z10)
        (empty_like B z20) (empty_like B z20)
        [] []
        (op_fwd B x (coil_buf st) (grad_buf st))
        (op_adj B x (coil_buf st) (grad_buf st))
        (tau st) (Fin 0%R) (theta_line st) (beta_line st)
        (Fin 0%R) (Fin 0%R) (Fin 0%R) (Fin 0%R) (Fin 0%R) (Fin 0%R) (Fin 0%R)
        (Fin 0%R) (Fin 0%R).

Definition explicit_trial (st : ModelReco M) (p : PD.t) : PD.t :=
  let p := PD.with_theta_line p (Fl.div (PD.tau_new p) (PD.tau p)) in
  let sigma := Fl.mul (PD.beta_line p) (PD.tau_new p) in
  let p := PD.with_z1_new p
             (update_z1 st (PD.z1 p) (PD.gradx p) (PD.gradx_xold p) (PD.v_new p)
                        (PD.v p) sigma (PD.theta_line p) (alpha_of st)
                        (omega (irgn_par st))) in
  let p := PD.with_z2_new p
             (update_z2 st (PD.z2 p) (PD.symgrad_v p) (PD.symgrad_v_vold p)
                        sigma (PD.theta_line p) (beta_of st)) in
  let p := PD.with_Kyk1_new p (grad_op_adj B (op_ratio st) (PD.z1_new p)) in
  let p := PD.with_Kyk2_new p (update_Kyk2 st (PD.z2_new p) (PD.z1_new p)) in
  let p := PD.with_ynorm p
             (sqrt_real (vdot_diff (PD.z1_new p) (PD.z1 p) +c
                         vdot_diff (PD.z2_new p) (PD.z2 p))) in
  PD.with_lhs p
    (Fl.mul (Fl.mul (Fl.mul (Fin 100%R) (Fl.sqrt (PD.beta_line p))) (PD.tau_new p))
            (sqrt_real (vdot_diff (PD.Kyk1_new p) (PD.Kyk1 p) +c
                        vdot_diff (PD.Kyk2_new p) (PD.Kyk2 p)))).

Fixpoint explicit_line_search (fuel : nat) (st : ModelReco M) (p : PD.t)
  : option PD.t :=
  match fuel with
  | O => None
  | S f =>
      let p1 := explicit_trial st p in
      if accepted p1 then Some p1 else explicit_line_search f st (halve p1)
  end.

Definition explicit_swap (p : PD.t) : PD.t :=
  let q := PD.with_Kyk1 p (PD.Kyk1_new p) in
  let q := PD.with_Kyk1_new q (PD.Kyk1 p) in
  let q := PD.with_Kyk2 q (PD.Kyk2_new p) in
  let q := PD.with_Kyk2_new q (PD.Kyk2 p) in
  let q := PD.with_z1 q (PD.z1_new p) in
  let q := PD.with_z1_new q (PD.z1 p) in
  let q := PD.with_z2 q (PD.z2_new p) in
  let q := PD.with_z2_new q (PD.z2 p) in
  PD.with_tau q (PD.tau_new p).

Definition explicit_primal (st : ModelReco M) (p : PD.t) : fl :=
  let U := unknowns_TGV (par st) in
  cre (rc (Fl.div (lambd (irgn_par st)) (Fin 2%R)) *c vdot_diff (PD.AT p) (PD.res p)
       +c rc (Fl.mul (alpha_of st) (asum_abs (asub (firstn U (PD.gradx p)) (PD.v p))))
       +c rc (Fl.mul (beta_of st) (asum_abs (PD.symgrad_v p)))
       +c rc (Fl.div (Fin 1%R) (Fl.mul (Fin 2%R) (delta (irgn_par st)))) *c
          vdot_diff (PD.x_new p) (PD.xk p)).

Definition explicit_dual (st : ModelReco M) (p : PD.t) : fl :=
  let nK := amap Cfl.cneg (PD.Kyk1 p) in
  cre (rc (Fl.div (Fl.opp (delta (irgn_par st))) (Fin 2%R)) *c vdot nK nK
       -c vdot (PD.xk p) nK +c asum (PD.Kyk2 p)).

Definition explicit_finish (st : ModelReco M) (p : PD.t) (vfinal xfinal : arr)
  : ModelReco M * arr :=
  (with_z2 (with_z1 (with_v st vfinal) (PD.z1 p)) (PD.z2 p), xfinal).

Definition explicit_check (st : ModelReco M) (p : PD.t) (i : nat)
  : (ModelReco M * arr) + PD.t :=
  let bound :=
    Fl.mul (Fl.mul (lambd (irgn_par st)) (Fl.of_nat (NSlice (par st))))
           (tol (irgn_par st)) in
  let p := PD.with_primal_new p (explicit_primal st p) in
  let p := PD.with_dual p (explicit_dual st p) in
  let p := PD.with_gap p (Fl.abs (Fl.sub (PD.primal_new p) (PD.dual p))) in
  let p := if Nat.eqb i 0 then PD.with_gap_min p (PD.gap p) else p in
  if Fl.ltb (Fl.abs (Fl.sub (PD.primal p) (PD.primal_new p))) bound
  then inl (explicit_finish st p (PD.v_new p) (PD.x_new p))
  else if Fl.gtb (PD.gap p) (Fl.mul (PD.gap_min p) (stag (irgn_par st)))
          && Nat.ltb 1 i
  then inl (explicit_finish st p (PD.v_new p) (PD.x p))
  else if Fl.ltb (Fl.abs (Fl.sub (PD.gap p) (PD.gap_min p))) bound && Nat.ltb 1 i
  then inl (explicit_finish st p (PD.v_new p) (PD.x_new p))
  else inr (PD.with_gap_min (PD.with_primal p (PD.primal_new p))
                            (Fl.minimum (PD.gap p) (PD.gap_min p))).

Definition explicit_pre (st : ModelReco M) (p : PD.t) : PD.t :=
  let p := PD.with_AT p (op_adj B (PD.x_new p) (coil_buf st) (grad_buf st)) in
  let p := PD.with_x_new p
             (update_primal_explicit st (PD.x p) (PD.Kyk1 p) (PD.xk p) (PD.ATd p)
                                     (PD.tau p) (delta (irgn_par st))
                                     (lambd (irgn_par st))) in
  let p := PD.with_v_new p (update_v (PD.v p) (PD.Kyk2 p) (PD.tau p)) in
  let p := propose_steps st p in
  let p := PD.with_gradx p (grad_op_fwd B (op_ratio st) (PD.x_new p)) in
  let p := PD.with_gradx_xold p (grad_op_fwd B (op_ratio st) (PD.x p)) in
  let p := PD.with_symgrad_v p (symgrad_op_fwd B (PD.v_new p)) in
  let p := PD.with_symgrad_v_vold p (symgrad_op_fwd B (PD.v p)) in
  PD.with_AT p (op_fwd B (PD.x_new p) (coil_buf st) (grad_buf st)).

Fixpoint explicit_loop (fuel : nat) (st : ModelReco M) (p : PD.t) (n i : nat)
  : option (ModelReco M * arr) :=
  match n with
  | O => Some (explicit_finish st p (PD.v p) (PD.x p))
  | S n' =>
      match explicit_line_search fuel st (explicit_pre st p) with
      | None => None
      | Some p1 =>
          let p2 := explicit_swap p1 in
          if Nat.eqb (i mod 50) 0 then
            match explicit_check st p2 i with
            | inl ret => Some ret
            | inr p3 => explicit_loop fuel st (swap_xv p3) n' (S i)
            end
          else explicit_loop fuel st (swap_xv p2) n' (S i)
      end
  end.

(** The function as it is written: the statements after the call of
    [_set_scale] are those of [explicit_init] and [explicit_loop], which
    no call reaches. *)
Definition tgv_solve_3D_explicit (fuel : nat) (st : ModelReco M) (x res : arr)
  (iters : nat) : outcome (ModelReco M * arr) :=
  match _set_scale st x with
  | Returned st0 =>
      let st1 := _eval_const st0 in
      match explicit_loop fuel st1 (explicit_init st1 x res) iters 0 with
      | Some ret => Returned ret
      | None => OutOfFuel
      end
  | Raised e st0 => Raised e (st0, x)
  | OutOfFuel => OutOfFuel
  end.

End Solvers.

Section Loop.

Context {M : Type} {SM : SignalModel M} (B : Backend).

Definition aadd (a b : arr) : arr := azip Cfl.cadd a b.

Definition nan_to_num (a : arr) : arr := amap (nan_to_num_c (fmax B)) a.

(** Lifting of an inner solve into an outcome. *)
Definition of_solve (o : option (ModelReco M * arr)) : outcome (ModelReco M * arr) :=
  match o with
  | Some ret => Returned ret
  | None => OutOfFuel
  end.

(** ** [_irgn_solve_3D_kspace]: for a [TV] other than 0 and 1 the call
    [x.get()] on the host array raises before the solver is entered. *)
Definition _irgn_solve_3D_kspace (fuel : nat) (st : ModelReco M) (x : arr)
  (iters : nat) (data : arr) (GN_it : nat) (TV : Z)
  : outcome (ModelReco M * arr) :=
  let b := FT B (coil_mul (step_val st) (C (par st))) in
  let res := aadd (asub data b) (op_fwdoop B x (coil_buf st) (grad_buf st)) in
  let st1 := _calc_residual_kspace B st x data GN_it TV in
  if Z.eqb TV 1 then of_solve (tv_solve_3D B fuel st1 x res iters)
  else if Z.eqb TV 0 then of_solve (tgv_solve_3D B fuel st1 x res iters)
  else Raised AttributeError (st1, x).

(** ** [_irgn_solve_3D_imagespace] *)
Definition _irgn_solve_3D_imagespace (fuel : nat) (st : ModelReco M) (x : arr)
  (iters : nat) (data : arr) (GN_it : nat) (TV : Z)
  : outcome (ModelReco M * arr) :=
  let res := aadd (asub data (step_val st)) (op_fwdoop B x [] (grad_buf st)) in
  let st1 := _calc_residual_imagespace B st x data GN_it TV in
  if Z.eqb TV 1 then of_solve (tv_solve_3D B fuel st1 x res iters)
  else if Z.eqb TV 0 then of_solve (tgv_solve_3D B fuel st1 x res iters)
  else Returned (st1, x).

Definition irgn_solve_3D (fuel : nat) (st : ModelReco M) (x : arr) (iters : nat)
  (data : arr) (GN_it : nat) (TV : Z) : outcome (ModelReco M * arr) :=
  if imagespace st then _irgn_solve_3D_imagespace fuel st x iters data GN_it TV
  else _irgn_solve_3D_kspace fuel st x iters data GN_it TV.

(** ** The body of the Gauss-Newton loop of [_execute_3D] *)

(** From the Jacobian to the regularization parameters. *)
Definition gn_linearize (st : ModelReco M) (result : arr) (ign : nat)
  : ModelReco M * arr :=
  let st1 := with_grad_x st
               (map nan_to_num (execute_gradient (model st) (uk_scale st) result)) in
  let (st2, result2) := _balance_model_gradients st1 result ign in
  let st3 := with_op_ratio st2 (grad_op_updateRatio B (op_ratio st2) result2) in
  let st4 := with_step_val st3
               (nan_to_num (execute_forward (model st3) (uk_scale st3) result2)) in
  let st5 := with_grad_buf st4 (grad_x st4) in
  (_update_reg_par st5 result2 ign, result2).

(** How one iteration of the loop ends. *)
Inductive gn_step : Type :=
| Continue (st : ModelReco M) (result : arr) (iters : nat)
| Break (st : ModelReco M) (result : arr)
| StepRaised (e : exn) (st : ModelReco M)
| StepOutOfFuel.

Definition gn_body (fuel : nat) (st : ModelReco M) (result : arr) (iters ign : nat)
  (TV : Z) : gn_step :=
  let (st1, result1) := gn_linearize st result ign in
  match irgn_solve_3D fuel st1 result1 iters (data st1) ign TV with
  | OutOfFuel => StepOutOfFuel
  | Raised e (st2, _) => StepRaised e st2
  | Returned (st2, result2) =>
      let iters2 := Nat.min (iters * 2) (max_iters (irgn_par st2)) in
      let st3 := with_gn_res st2 (gn_res st2 ++ [_fval st2]) in
      if Fl.ltb (Fl.div (Fl.abs (Fl.sub (_fval_old st3) (_fval st3))) (_fval_init st3))
                (tol (irgn_par st3))
      then
        let st4 := calc_residual B st3 result2 (data st3) (ign + 1) TV in
        Break (savetofile st4 ign (model_rescale (model st4) (uk_scale st4) result2) TV)
              result2
      else
        let st4 := with_fval_old st3 (_fval st3) in
        Continue (savetofile st4 ign (model_rescale (model st4) (uk_scale st4) result2)
                             TV)
                 result2 iters2
  end.

(** [for ign in range(max_gn_it)] from iteration [ign] with [n] iterations
    left, followed by the last [calc_residual]. *)
Fixpoint gn_loop (fuel : nat) (st : ModelReco M) (result : arr) (iters ign n : nat)
  (TV : Z) : outcome (ModelReco M) :=
  match n with
  | O => Returned (calc_residual B st result (data st) ign TV)
  | S n' =>
      match gn_body fuel st result iters ign TV with
      | StepOutOfFuel => OutOfFuel
      | StepRaised e st' => Raised e st'
      | Break st' result' =>
          Returned (calc_residual B st' result' (data st') (ign + 1) TV)
      | Continue st' result' iters' => gn_loop fuel st' result' iters' (S ign) n' TV
      end
  end.

(** ** [_execute_3D]: with no iteration to run, the last line reads the
    loop variable before it was ever assigned. *)
Definition _execute_3D (fuel : nat) (st : ModelReco M) (TV : Z)
  : outcome (ModelReco M) :=
  let iters := start_iters (irgn_par st) in
  let result := model_guess (model st) in
  let st1 := _setup_reg_tmp_arrays st TV in
  match max_gn_it (irgn_par st1) with
  | O => Raised UnboundLocalError st1
  | S _ => gn_loop fuel st1 result iters 0 (max_gn_it (irgn_par st1)) TV
  end.

(** ** [execute] *)

(** The assignments made before [_execute_3D]. *)
Definition execute_prologue (st : ModelReco M) : ModelReco M :=
  let st1 := with_irgn_par st
               (set_lambd (irgn_par st)
                          (Fl.mul (lambd (irgn_par st)) (SNR_est (par st)))) in
  let st2 := with_s_delta st1 (delta (irgn_par st1)) in
  let st3 := with_s_delta_max st2 (delta_max (irgn_par st2)) in
  let st4 := with_s_gamma st3 (gamma (irgn_par st3)) in
  with_s_omega st4 (omega (irgn_par st4)).

Definition execute (fuel : nat) (st : ModelReco M) (TV : Z) (imagespace : Z)
  (reco_2D : Z) : outcome (ModelReco M) :=
  if negb (Z.eqb reco_2D 0) then Raised NotImplementedError st
  else _execute_3D fuel (execute_prologue st) TV.

(** The states in which the Gauss-Newton loop, started from [st0] with
    [result0] and [iters0], enters its iteration [k]. *)
Inductive Reach (fuel : nat) (TV : Z) (st0 : ModelReco M) (result0 : arr)
  (iters0 : nat) : nat -> ModelReco M -> arr -> nat -> Prop :=
| Reach_first : Reach fuel TV st0 result0 iters0 0 st0 result0 iters0
| Reach_next k st result iters st' result' iters' :
    Reach fuel TV st0 result0 iters0 k st result iters ->
    gn_body fuel st result iters k TV = Continue st' result' iters' ->
    Reach fuel TV st0 result0 iters0 (S k) st' result' iters'.

End Loop.

End Reco.

(* ================================================================== *)
(** * Notions used to state the properties *)
(* ================================================================== *)

Module Spec.

Import Arr.
Local Open Scope R_scope.

(** Complex numbers over the reals. *)
Definition Cx : Type := (R * R)%type.

Definition emb (z : Cx) : cfl := mkC (Fin (fst z)) (Fin (snd z)).
Definition to_C (z : cfl) : Cx := (Fl.to_R (cre z), Fl.to_R (cim z)).

Definition Cadd (z w : Cx) : Cx := (fst z + fst w, snd z + snd w).
Definition Cneg (z : Cx) : Cx := (- fst z, - snd z).
Definition Cmul (z w : Cx) : Cx :=
  (fst z * fst w - snd z * snd w, fst z * snd w + snd z * fst w).
Definition Cscal (a : R) (z : Cx) : Cx := (a * fst z, a * snd z).
Definition Cexp (z : Cx) : Cx := (exp (fst z) * cos (snd z), exp (fst z) * sin (snd z)).

(** A finite float, a finite complex float, a finite real-valued one. *)
Definition is_fin (a : fl) : Prop := exists r, a = Fin r.
Definition is_cfin (z : cfl) : Prop := exists a b, z = mkC (Fin a) (Fin b).
Definition is_real (z : cfl) : Prop := exists a, z = mkC (Fin a) (Fin 0).

(** The Euclidean norm of a list of complex numbers. *)
Definition sumsq (l : list Cx) : R :=
  fold_right (fun z acc => fst z * fst z + snd z * snd z + acc) 0 l.
Definition norm2 (l : list Cx) : R := sqrt (sumsq l).

Definition vec_C (v : vec) : list Cx := map to_C v.
Definition arr_C (a : arr) : list Cx := map to_C (flat a).

Definition vec_finite (v : vec) : Prop := Forall is_cfin v.
Definition arr_finite (a : arr) : Prop := Forall is_cfin (flat a).

(** Small real matrices as lists of rows. *)
Definition dot (u w : list R) : R :=
  fold_right Rplus 0 (map (fun p => fst p * snd p) (combine u w)).

(** [A A^T]: entry [(i, j)] is the product of rows [i] and [j]. *)
Definition mul_transpose (A : list (list R)) : list (list R) :=
  map (fun ri => map (fun rj => dot ri rj) A) A.

Definition entry (A : list (list R)) (i j : nat) : R := nth j (nth i A []) 0.

Definition symmetric3 (A : list (list R)) : Prop :=
  forall i j, (i < 3)%nat -> (j < 3)%nat -> entry A i j = entry A j i.

(** [w^T A w] *)
Definition quad (A : list (list R)) (w : list R) : R := dot w (map (fun ri => dot ri w) A).

Definition psd3 (A : list (list R)) : Prop :=
  forall w1 w2 w3, 0 <= quad A [w1; w2; w3].

(** The lower-triangular factor made of the six scaled unknowns
    [a u = x[u] * uk_scale[u]]. *)
Definition cholesky_factor (a : nat -> R) : list (list R) :=
  [ [a 1%nat; 0; 0];
    [a 2%nat; a 3%nat; 0];
    [a 4%nat; a 6%nat; a 5%nat] ].

(** The tensor assembled from the array returned by [rescale]: the
    diagonal is [ADC_x, ADC_y, ADC_z] (rows 1, 3, 5), the off-diagonal
    entries [ADC_xy, ADC_xz, ADC_yz] (rows 2, 4, 6). *)
Definition tensor_at (out : arr) (v : nat) : list (list cfl) :=
  [ [at2 out 1 v; at2 out 2 v; at2 out 4 v];
    [at2 out 2 v; at2 out 3 v; at2 out 6 v];
    [at2 out 4 v; at2 out 6 v; at2 out 5 v] ].

(** ** First-order expansions of functions of several complex variables *)

Definition C0 : Cx := (0, 0).
Definition C1 : Cx := (1, 0).
Definition Csub (z w : Cx) : Cx := (fst z - fst w, snd z - snd w).

(** The modulus, and the sum of the absolute values of the two parts. *)
Definition Cabs (z : Cx) : R := sqrt (fst z * fst z + snd z * snd z).
Definition m1 (z : Cx) : R := Rabs (fst z) + Rabs (snd z).

(** Sums over the first [n] coordinates. *)
Fixpoint Csum (n : nat) (f : nat -> Cx) : Cx :=
  match n with
  | O => C0
  | S k => Cadd (Csum k f) (f k)
  end.

Fixpoint M1 (n : nat) (d : nat -> Cx) : R :=
  match n with
  | O => 0
  | S k => M1 k d + m1 (d k)
  end.

Definition shift (x d : nat -> Cx) : nat -> Cx := fun u => Cadd (x u) (d u).

(** What is left of [f (x + d)] after its first-order expansion at [x]
    with the partial derivatives [g]. *)
Definition remainder (n : nat) (f : (nat -> Cx) -> Cx) (x g d : nat -> Cx) : Cx :=
  Csub (Csub (f (shift x d)) (f x)) (Csum n (fun u => Cmul (g u) (d u))).

(** [f (x + d) = f x + sum_u g u * d u + o(|d|)] in the first [n]
    coordinates, with the sum norm and with the Euclidean norm. *)
Definition differential (n : nat) (f : (nat -> Cx) -> Cx) (x g : nat -> Cx) : Prop :=
  forall eps, 0 < eps ->
  exists delta, 0 < delta /\
    forall d, M1 n d < delta -> m1 (remainder n f x g d) <= eps * M1 n d.

Definition first_order (n : nat) (f : (nat -> Cx) -> Cx) (x g : nat -> Cx) : Prop :=
  forall eps, 0 < eps ->
  exists delta, 0 < delta /\
    forall d, norm2 (map d (seq 0 n)) < delta ->
              Cabs (remainder n f x g d) <= eps * norm2 (map d (seq 0 n)).

End Spec.

(* ================================================================== *)
(** * Properties *)
(* ================================================================== *)

Unset Implicit Arguments.

(** ** Arithmetic on finite values *)

Module FlFacts.

Local Open Scope R_scope.

Lemma sgn_pos (r : R) : 0 < r -> Fl.sgn r = Gt.
Proof.
  intros H. unfold Fl.sgn.
  destruct (total_order_T r 0) as [[Hlt | Heq] | Hgt]; try reflexivity; lra.
Qed.

Lemma sgn_neg (r : R) : r < 0 -> Fl.sgn r = Lt.
Proof.
  intros H. unfold Fl.sgn.
  destruct (total_order_T r 0) as [[Hlt | Heq] | Hgt]; try reflexivity; lra.
Qed.

Lemma sgn_zero : Fl.sgn 0 = Eq.
Proof.
  unfold Fl.sgn.
  destruct (total_order_T 0 0) as [[Hlt | Heq] | Hgt]; try reflexivity; lra.
Qed.

Lemma sgn_Eq (r : R) : Fl.sgn r = Eq -> r = 0.
Proof.
  unfold Fl.sgn.
  destruct (total_order_T r 0) as [[Hlt | Heq] | Hgt]; intros H;
    try discriminate; assumption.
Qed.

Lemma div_fin (a b : R) : b <> 0 -> Fl.div (Fin a) (Fin b) = Fin (a / b).
Proof.
  intros Hb. unfold Fl.div.
  destruct (Fl.sgn b) eqn:E; try reflexivity.
  apply sgn_Eq in E. contradiction.
Qed.

Lemma sqrt_fin (a : R) : 0 <= a -> Fl.sqrt (Fin a) = Fin (sqrt a).
Proof.
  intros Ha. unfold Fl.sqrt.
  destruct (Fl.sgn a) eqn:E; try reflexivity.
  unfold Fl.sgn in E.
  destruct (total_order_T a 0) as [[Hlt | Heq] | Hgt]; try discriminate; lra.
Qed.

Lemma leb_fin (a b : R) : Fl.leb (Fin a) (Fin b) = true <-> a <= b.
Proof.
  simpl. destruct (Rle_dec a b); split; intros; try assumption;
    try reflexivity; try discriminate; contradiction.
Qed.

Lemma ltb_fin (a b : R) : Fl.ltb (Fin a) (Fin b) = true <-> a < b.
Proof.
  simpl. destruct (Rlt_dec a b); split; intros; try assumption;
    try reflexivity; try discriminate; contradiction.
Qed.

Lemma pow_fin (a : R) (n : nat) : Fl.pow (Fin a) n = Fin (a ^ n).
Proof.
  induction n as [| n IH]; simpl.
  - reflexivity.
  - rewrite IH. reflexivity.
Qed.

Lemma minimum_fin (a b : R) : Fl.minimum (Fin a) (Fin b) = Fin (Rmin a b).
Proof.
  unfold Fl.minimum, Fl.leb, Rmin.
  destruct (Rle_dec a b); reflexivity.
Qed.

Lemma maximum_fin (a b : R) : Fl.maximum (Fin a) (Fin b) = Fin (Rmax a b).
Proof.
  unfold Fl.maximum, Fl.leb, Rmax.
  destruct (Rle_dec a b); reflexivity.
Qed.

End FlFacts.

(** ** Lists and arrays *)

Module ArrFacts.

Import Arr.

Lemma nth_map_seq (A : Type) (f : nat -> A) (n i : nat) (d : A) :
  (i < n)%nat -> nth i (map f (seq 0 n)) d = f i.
Proof.
  intros Hi.
  rewrite (nth_indep (map f (seq 0 n)) d (f 0%nat)).
  - rewrite map_nth. rewrite seq_nth by assumption. reflexivity.
  - rewrite length_map, length_seq. assumption.
Qed.

Lemma at2_map_seq (f : nat -> nat -> cfl) (n k u v : nat) :
  (u < n)%nat -> (v < k)%nat ->
  at2 (map (fun i => map (fun j => f i j) (seq 0 k)) (seq 0 n)) u v = f u v.
Proof.
  intros Hu Hv. unfold at2, row.
  rewrite nth_map_seq by assumption.
  apply nth_map_seq. assumption.
Qed.

End ArrFacts.

(** ** The Cholesky-parametrized model *)

Module DiffdirLLFacts.

Import Arr Spec.
Local Open Scope R_scope.

Lemma rescale_at (s : list fl) (x : arr) (u v : nat) :
  (u < 7)%nat -> (v < DiffdirLL.nvox x)%nat ->
  at2 (DiffdirLL.rescale_with s x) u v =
  nth u (DiffdirLL.rescale_elem (rget s) (fun k => at2 x k v)) Cfl.czero.
Proof.
  intros Hu Hv. unfold DiffdirLL.rescale_with.
  apply (ArrFacts.at2_map_seq
           (fun i j => nth i (DiffdirLL.rescale_elem (rget s) (fun k => at2 x k j))
                           Cfl.czero)); assumption.
Qed.

Lemma quad_cholesky (a : nat -> R) (w1 w2 w3 : R) :
  quad (mul_transpose (cholesky_factor a)) [w1; w2; w3] =
  (a 1%nat * w1 + a 2%nat * w2 + a 4%nat * w3) ^ 2
  + (a 3%nat * w2 + a 6%nat * w3) ^ 2 + (a 5%nat * w3) ^ 2.
Proof.
  unfold quad, mul_transpose, cholesky_factor, dot. simpl. ring.
Qed.

Lemma cholesky_product_symmetric (a : nat -> R) :
  symmetric3 (mul_transpose (cholesky_factor a)).
Proof.
  intros i j Hi Hj.
  destruct i as [| [| [| i]]]; try lia;
  destruct j as [| [| [| j]]]; try lia;
  unfold entry, mul_transpose, cholesky_factor, dot; simpl; ring.
Qed.

Lemma cholesky_product_psd (a : nat -> R) :
  psd3 (mul_transpose (cholesky_factor a)).
Proof.
  intros w1 w2 w3. rewrite quad_cholesky.
  pose proof (pow2_ge_0 (a 1%nat * w1 + a 2%nat * w2 + a 4%nat * w3)).
  pose proof (pow2_ge_0 (a 3%nat * w2 + a 6%nat * w3)).
  pose proof (pow2_ge_0 (a 5%nat * w3)).
  lra.
Qed.

(** C9.  For the Cholesky-parametrized model, at every voxel whose
    unknowns [x[1..6]] are finite and real-valued (scales finite), the 3x3
    matrix assembled from the components returned by [rescale] is [L L^T]
    for the lower-triangular [L] made of the scaled factors
    [x[u] * uk_scale[u]]; it is symmetric and positive semidefinite, and
    [__init__] flags exactly the six factors as real. *)
Theorem rescale_is_cholesky_product (m : DiffdirLL.Model) (x : arr) (v : nat) :
  (v < DiffdirLL.nvox x)%nat ->
  (forall u, (1 <= u <= 6)%nat -> is_real (at2 x u v)) ->
  (forall u, (1 <= u <= 6)%nat -> is_fin (rget (DiffdirLL.uk_scale m) u)) ->
  let a := fun u =>
             Fl.to_R (cre (at2 x u v)) * Fl.to_R (rget (DiffdirLL.uk_scale m) u) in
  let T := mul_transpose (cholesky_factor a) in
  tensor_at (DiffdirLL.rescale m x) v = map (map (fun t => rc (Fin t))) T
  /\ symmetric3 T
  /\ psd3 T
  /\ map Constraint.real (DiffdirLL.init_constraints (rget DiffdirLL.init_uk_scale))
     = [false; true; true; true; true; true; true].
Proof.
  intros Hv Hx Hs a T.
  split; [| split; [apply cholesky_product_symmetric
                   | split; [apply cholesky_product_psd | reflexivity]]].
  subst T a. unfold tensor_at, DiffdirLL.rescale.
  rewrite !rescale_at by (assumption || lia).
  destruct (Hx 1%nat ltac:(lia)) as [a1 E1].
  destruct (Hx 2%nat ltac:(lia)) as [a2 E2].
  destruct (Hx 3%nat ltac:(lia)) as [a3 E3].
  destruct (Hx 4%nat ltac:(lia)) as [a4 E4].
  destruct (Hx 5%nat ltac:(lia)) as [a5 E5].
  destruct (Hx 6%nat ltac:(lia)) as [a6 E6].
  destruct (Hs 1%nat ltac:(lia)) as [s1 F1].
  destruct (Hs 2%nat ltac:(lia)) as [s2 F2].
  destruct (Hs 3%nat ltac:(lia)) as [s3 F3].
  destruct (Hs 4%nat ltac:(lia)) as [s4 F4].
  destruct (Hs 5%nat ltac:(lia)) as [s5 F5].
  destruct (Hs 6%nat ltac:(lia)) as [s6 F6].
  unfold DiffdirLL.rescale_elem, mul_transpose, cholesky_factor, dot.
  rewrite E1, E2, E3, E4, E5, E6, F1, F2, F3, F4, F5, F6.
  simpl.
  repeat (f_equal; try ring).
Qed.

End DiffdirLLFacts.

(** ** The non-finite filter of the models *)

Module FilterFacts.

Import Arr Spec.

(** Every entry of an array satisfies [P]. *)
Definition all_entries (P : cfl -> Prop) (a : arr) : Prop := Forall (Forall P) a.

Definition finite (z : cfl) : Prop := Cfl.cisfinite z = true.

Lemma zero_nonfinite_finite (z : cfl) : finite (Cfl.zero_nonfinite z).
Proof.
  unfold finite, Cfl.zero_nonfinite.
  destruct (Cfl.cisfinite z) eqn:E.
  - exact E.
  - reflexivity.
Qed.

Lemma zero_nonfinite_keeps (z : cfl) :
  finite z -> Cfl.zero_nonfinite z = z.
Proof.
  unfold finite, Cfl.zero_nonfinite. intros H. rewrite H. reflexivity.
Qed.

Lemma zero_nonfinite_zeroes (z : cfl) :
  Cfl.cisfinite z = false -> Cfl.zero_nonfinite z = Cfl.czero.
Proof.
  unfold Cfl.zero_nonfinite. intros H. rewrite H. reflexivity.
Qed.

Lemma all_entries_map2 (P : cfl -> Prop) (f : nat -> nat -> cfl) (rows cols : list nat) :
  (forall n v, P (f n v)) ->
  all_entries P (map (fun n => map (fun v => f n v) cols) rows).
Proof.
  intros H. unfold all_entries.
  apply Forall_forall. intros rw Hrw.
  apply in_map_iff in Hrw. destruct Hrw as [n [<- _]].
  apply Forall_forall. intros z Hz.
  apply in_map_iff in Hz. destruct Hz as [v [<- _]].
  apply H.
Qed.

Lemma nth_filtered_finite (l : list cfl) (u : nat) :
  finite (nth u (map Cfl.zero_nonfinite l) Cfl.czero).
Proof.
  revert u. induction l as [| z l IH]; intros [| u]; simpl;
    try reflexivity.
  - apply zero_nonfinite_finite.
  - apply IH.
Qed.

Lemma nan_to_num_fl_finite (fmax : R) (a : fl) :
  Fl.isfinite (nan_to_num_fl fmax a) = true.
Proof. destruct a; reflexivity. Qed.

Lemma nan_to_num_c_finite (fmax : R) (z : cfl) : finite (nan_to_num_c fmax z).
Proof.
  unfold finite, Cfl.cisfinite, nan_to_num_c. simpl.
  rewrite !nan_to_num_fl_finite. reflexivity.
Qed.

Lemma nan_to_num_finite (B : Reco.Backend) (a : arr) :
  all_entries finite (Reco.nan_to_num B a).
Proof.
  unfold all_entries, Reco.nan_to_num, amap.
  apply Forall_forall. intros rw Hrw.
  apply in_map_iff in Hrw. destruct Hrw as [rw0 [<- _]].
  apply Forall_forall. intros z Hz.
  apply in_map_iff in Hz. destruct Hz as [z0 [<- _]].
  apply nan_to_num_c_finite.
Qed.

Lemma gradient_LL_finite (m : DiffdirLL.Model) (x : arr) :
  Forall (all_entries finite) (DiffdirLL._execute_gradient_3D m x).
Proof.
  unfold DiffdirLL._execute_gradient_3D, DiffdirLL.gradient_with.
  apply Forall_forall. intros g Hg.
  apply in_map_iff in Hg. destruct Hg as [u [<- _]].
  apply (all_entries_map2 finite
           (fun n v =>
              nth u (DiffdirLL.gradient_elem (rget (DiffdirLL.uk_scale m))
                       (rget (DiffdirLL.b m) n) (DiffdirLL.dir0 m n)
                       (DiffdirLL.dir1 m n) (DiffdirLL.dir2 m n)
                       (at2 (DiffdirLL.phase m) n v) (fun k => at2 x k v))
                  Cfl.czero)).
  intros n v. apply nth_filtered_finite.
Qed.

Lemma gradient_lin_finite (m : Diffdir.Model) (x : arr) :
  Forall (all_entries finite) (Diffdir._execute_gradient_3D m x).
Proof.
  unfold Diffdir._execute_gradient_3D.
  apply Forall_forall. intros g Hg.
  apply in_map_iff in Hg. destruct Hg as [u [<- _]].
  apply (all_entries_map2 finite
           (fun n v =>
              nth u (Diffdir.gradient_elem (rget (Diffdir.uk_scale m))
                       (rget (Diffdir.b m) n) (Diffdir.dir0 m n)
                       (Diffdir.dir1 m n) (Diffdir.dir2 m n)
                       (at2 (Diffdir.phase m) n v) (fun k => at2 x k v))
                  Cfl.czero)).
  intros n v. apply nth_filtered_finite.
Qed.

(** C4 (amended).  For the two diffusion models and every input [x], the
    arrays returned by the forward and by the Jacobian evaluation have no
    non-finite entry: an entry of the signal is the computed value when
    that is finite and zero otherwise.  What [_execute_3D] obtains from any model it
    passes through [nan_to_num], which leaves no non-finite entry either
    (NaN becomes zero, an infinity the largest finite float of its sign). *)
Theorem diffusion_outputs_finite (mLL : DiffdirLL.Model) (m : Diffdir.Model)
  (B : Reco.Backend) (x a : arr) :
  all_entries finite (DiffdirLL._execute_forward_3D mLL x)
  /\ Forall (all_entries finite) (DiffdirLL._execute_gradient_3D mLL x)
  /\ all_entries finite (Diffdir._execute_forward_3D m x)
  /\ Forall (all_entries finite) (Diffdir._execute_gradient_3D m x)
  /\ (forall n v, (n < DiffdirLL.NScan mLL)%nat -> (v < DiffdirLL.nvox x)%nat ->
        let S := DiffdirLL.signal (rget (DiffdirLL.uk_scale mLL))
                   (rget (DiffdirLL.b mLL) n) (DiffdirLL.dir0 mLL n)
                   (DiffdirLL.dir1 mLL n) (DiffdirLL.dir2 mLL n)
                   (at2 (DiffdirLL.phase mLL) n v) (fun k => at2 x k v) in
        at2 (DiffdirLL._execute_forward_3D mLL x) n v =
        if Cfl.cisfinite S then S else Cfl.czero)
  /\ (forall n v, (n < Diffdir.NScan m)%nat -> (v < Diffdir.nvox x)%nat ->
        let S := Diffdir.signal (rget (Diffdir.uk_scale m))
                   (rget (Diffdir.b m) n) (Diffdir.dir0 m n)
                   (Diffdir.dir1 m n) (Diffdir.dir2 m n)
                   (at2 (Diffdir.phase m) n v) (fun k => at2 x k v) in
        at2 (Diffdir._execute_forward_3D m x) n v =
        if Cfl.cisfinite S then S else Cfl.czero)
  /\ all_entries finite (Reco.nan_to_num B a)
  /\ nan_to_num_c (Reco.fmax B) (mkC NaN PInf) = mkC (Fin 0%R) (Fin (Reco.fmax B)).
Proof.
  repeat split.
  - apply (all_entries_map2 finite
             (fun n v =>
                DiffdirLL.forward_elem (rget (DiffdirLL.uk_scale mLL))
                  (rget (DiffdirLL.b mLL) n) (DiffdirLL.dir0 mLL n)
                  (DiffdirLL.dir1 mLL n) (DiffdirLL.dir2 mLL n)
                  (at2 (DiffdirLL.phase mLL) n v) (fun k => at2 x k v))).
    intros n v. apply zero_nonfinite_finite.
  - apply gradient_LL_finite.
  - apply (all_entries_map2 finite
             (fun n v =>
                Diffdir.forward_elem (rget (Diffdir.uk_scale m))
                  (rget (Diffdir.b m) n) (Diffdir.dir0 m n)
                  (Diffdir.dir1 m n) (Diffdir.dir2 m n)
                  (at2 (Diffdir.phase m) n v) (fun k => at2 x k v))).
    intros n v. apply zero_nonfinite_finite.
  - apply gradient_lin_finite.
  - intros n v Hn Hv S.
    unfold DiffdirLL._execute_forward_3D, DiffdirLL.forward_with.
    rewrite (ArrFacts.at2_map_seq
               (fun i j =>
                  DiffdirLL.forward_elem (rget (DiffdirLL.uk_scale mLL))
                    (rget (DiffdirLL.b mLL) i) (DiffdirLL.dir0 mLL i)
                    (DiffdirLL.dir1 mLL i) (DiffdirLL.dir2 mLL i)
                    (at2 (DiffdirLL.phase mLL) i j) (fun k => at2 x k j)))
      by assumption.
    reflexivity.
  - intros n v Hn Hv S.
    unfold Diffdir._execute_forward_3D.
    rewrite (ArrFacts.at2_map_seq
               (fun i j =>
                  Diffdir.forward_elem (rget (Diffdir.uk_scale m))
                    (rget (Diffdir.b m) i) (Diffdir.dir0 m i)
                    (Diffdir.dir1 m i) (Diffdir.dir2 m i)
                    (at2 (Diffdir.phase m) i j) (fun k => at2 x k j)))
      by assumption.
    reflexivity.
  - apply nan_to_num_finite.
Qed.

End FilterFacts.

(** ** The Look-Locker model returns what it computed *)

Module IRLLFacts.

Import Arr Spec.
Local Open Scope R_scope.
Local Open Scope cfl_scope.

Lemma add_nan_l (a : fl) : Fl.add NaN a = NaN.
Proof. destruct a; reflexivity. Qed.

Lemma add_nan_r (a : fl) : Fl.add a NaN = NaN.
Proof. destruct a; reflexivity. Qed.

Lemma sub_nan_l (a : fl) : Fl.sub NaN a = NaN.
Proof. destruct a; reflexivity. Qed.

Lemma sub_nan_r (a : fl) : Fl.sub a NaN = NaN.
Proof. destruct a; reflexivity. Qed.

Lemma mul_nan_l (a : fl) : Fl.mul NaN a = NaN.
Proof. destruct a; reflexivity. Qed.

Lemma mul_nan_r (a : fl) : Fl.mul a NaN = NaN.
Proof. destruct a; reflexivity. Qed.

Lemma div_nan_l (a : fl) : Fl.div NaN a = NaN.
Proof. destruct a; reflexivity. Qed.

Definition cnan : cfl := mkC NaN NaN.

Lemma cadd_nan_r (z : cfl) : z +c cnan = cnan.
Proof. destruct z as [a b]. destruct a, b; reflexivity. Qed.

Lemma cadd_nan_l (z : cfl) : cnan +c z = cnan.
Proof. destruct z as [a b]. destruct a, b; reflexivity. Qed.

Lemma csub_nan_r (z : cfl) : z -c cnan = cnan.
Proof. destruct z as [a b]. destruct a, b; reflexivity. Qed.

Lemma cmul_nan_r (z : cfl) : z *c cnan = cnan.
Proof. destruct z as [a b]. destruct a, b; reflexivity. Qed.

Lemma cmul_nan_l (z : cfl) : cnan *c z = cnan.
Proof. destruct z as [a b]. destruct a, b; reflexivity. Qed.

Lemma cdiv_nan_l (w : cfl) : cnan /c w = cnan.
Proof.
  unfold Cfl.cdiv, cnan. cbn [cre cim].
  destruct (Fl.geb (Fl.abs (cre w)) (Fl.abs (cim w))).
  - destruct (Fl.eqb (Fl.abs (cre w)) (Fin 0) && Fl.eqb (Fl.abs (cim w)) (Fin 0)).
    + rewrite !div_nan_l. reflexivity.
    + rewrite ?mul_nan_l, ?add_nan_l, ?sub_nan_l, ?mul_nan_l. reflexivity.
  - rewrite ?mul_nan_l, ?add_nan_r, ?sub_nan_l, ?mul_nan_l. reflexivity.
Qed.

(** [0 / 0] of NumPy's complex quotient. *)
Lemma cdiv_zero_zero : Cfl.czero /c Cfl.czero = cnan.
Proof.
  unfold Cfl.cdiv, Cfl.czero, cnan, Fl.geb, Fl.leb, Fl.eqb. simpl.
  destruct (Rle_dec (Rabs 0) (Rabs 0)) as [_ | H]; [| exfalso; apply H; lra].
  destruct (Req_dec_T (Rabs 0) 0) as [_ | H]; [| exfalso; apply H; apply Rabs_R0].
  simpl. unfold Fl.div. rewrite Rabs_R0, FlFacts.sgn_zero. reflexivity.
Qed.

(** A power of one is one. *)
Lemma cpow_real_one (e : R) :
  e <> 0 -> Cfl.cpow_real (mkC (Fin 1) (Fin 0)) (Fin e) = mkC (Fin 1) (Fin 0).
Proof.
  intros He. unfold Cfl.cpow_real. simpl.
  destruct (Fl.sgn e) eqn:E.
  - apply FlFacts.sgn_Eq in E. contradiction.
  - rewrite (FlFacts.sgn_pos 1) by lra.
    replace (1 * 1 + 0 * 0) with 1 by ring.
    unfold Cfl.arg. rewrite (FlFacts.sgn_pos 1) by lra.
    replace (0 / 1) with 0 by field.
    rewrite sqrt_1, atan_0. unfold Rpower. rewrite ln_1.
    replace (e * 0) with 0 by ring. replace (0 * e) with 0 by ring.
    rewrite exp_0, cos_0, sin_0.
    f_equal; f_equal; ring.
  - rewrite (FlFacts.sgn_pos 1) by lra.
    replace (1 * 1 + 0 * 0) with 1 by ring.
    unfold Cfl.arg. rewrite (FlFacts.sgn_pos 1) by lra.
    replace (0 / 1) with 0 by field.
    rewrite sqrt_1, atan_0. unfold Rpower. rewrite ln_1.
    replace (e * 0) with 0 by ring. replace (0 * e) with 0 by ring.
    rewrite exp_0, cos_0, sin_0.
    f_equal; f_equal; ring.
Qed.

(** A model with flip angle zero ([sin_phi = 0], [cos_phi = 1]), one scan
    of one projection and one voxel, and the finite input [M0 = 1],
    [x[1] = 1]. *)
Definition flat_model : IRLL.IRLL_Model :=
  IRLL.mkModel 1 1 1 (Fin 5) (Fin 30) (Fin 200) (Fin 100) (Fin 1) (Fin 1)
               [mkC (Fin 0) (Fin 0)] [mkC (Fin 1) (Fin 0)].

Definition unit_input : arr := [[mkC (Fin 1) (Fin 0)]; [mkC (Fin 1) (Fin 0)]].

Lemma flat_Etau :
  IRLL.Etau flat_model (mkC (Fin 1) (Fin 0)) = mkC (Fin 1) (Fin 0).
Proof.
  unfold IRLL.Etau, IRLL.Efit. cbn [IRLL.T1_sc IRLL.tau IRLL.scale flat_model].
  replace (Cfl.cmul (mkC (Fin 1) (Fin 0)) (rc (Fin 1))) with (mkC (Fin 1) (Fin 0)).
  - rewrite FlFacts.div_fin by lra. apply cpow_real_one. lra.
  - unfold Cfl.cmul. simpl. f_equal; f_equal; ring.
Qed.

Lemma flat_F :
  IRLL.F flat_model (mkC (Fin 1) (Fin 0)) (mkC (Fin 1) (Fin 0)) = cnan.
Proof.
  unfold IRLL.F. rewrite flat_Etau.
  replace (rc (Fin 1) -c mkC (Fin 1) (Fin 0)) with Cfl.czero.
  - replace (rc (Fin 1) -c mkC (Fin 1) (Fin 0) *c mkC (Fin 1) (Fin 0))
      with Cfl.czero.
    + apply cdiv_zero_zero.
    + unfold Cfl.csub, Cfl.cmul, Cfl.czero. simpl. f_equal; f_equal; ring.
  - unfold Cfl.csub, Cfl.czero. simpl. f_equal; f_equal; ring.
Qed.

(** C4, counterexample.  On a finite input [execute_forward_3D] of the
    Look-Locker model returns an array whose entry is NaN: the model has
    no non-finite filter. *)
Lemma irll_forward_returns_nan :
  arr_finite unit_input
  /\ IRLL.execute_forward_3D flat_model unit_input = [[mkC NaN NaN]]
  /\ Cfl.cisfinite (mkC NaN NaN) = false.
Proof.
  split; [| split; [| reflexivity]].
  - unfold arr_finite, unit_input. simpl.
    repeat constructor; exists 1, 0; reflexivity.
  - unfold IRLL.execute_forward_3D, unit_input, at2, row. simpl.
    unfold IRLL.mean_elem. simpl.
    unfold IRLL.S_elem, IRLL.Q_F.
    rewrite flat_F.
    rewrite ?csub_nan_r, ?cmul_nan_r, ?cadd_nan_r, ?cmul_nan_l.
    unfold csum. simpl. fold cnan.
    rewrite ?cadd_nan_r, ?cdiv_nan_l. reflexivity.
Qed.

End IRLLFacts.

(** ** What the Gauss-Newton loop leaves alone *)

Module FrameFacts.

Import Arr Reco.

Section Frame.

Context {M : Type} {SM : SignalModel M} (B : Backend).

(** The fields no step of the loop assigns: the step sizes set up by
    [_setup_reg_tmp_arrays], the values stored by [execute], and the
    entries of [irgn_par] other than [delta], [delta_max], [gamma] and
    [omega]. *)
Definition steps (st : ModelReco M) := (tau st, beta_line st, theta_line st).

Definition conf (st : ModelReco M) :=
  ((s_delta st, s_delta_max st, s_gamma st, s_omega st),
   (lambd (irgn_par st), delta_inc (irgn_par st), gamma_dec (irgn_par st),
    gamma_min (irgn_par st), omega_dec (irgn_par st), omega_min (irgn_par st)),
   (tol (irgn_par st), stag (irgn_par st), max_iters (irgn_par st),
    max_gn_it (irgn_par st), start_iters (irgn_par st)),
   (par st, imagespace st, data st, model st)).

Definition kept (st : ModelReco M) := (steps st, conf st).

Lemma conf_setup (st : ModelReco M) (TV : Z) :
  conf (_setup_reg_tmp_arrays st TV) = conf st.
Proof.
  unfold _setup_reg_tmp_arrays.
  destruct (Z.eqb TV 1); [reflexivity |].
  destruct (Z.eqb TV 0); reflexivity.
Qed.

Lemma kept_eval_const (st : ModelReco M) : kept (_eval_const st) = kept st.
Proof. reflexivity. Qed.

Lemma kept_update_reg_par (st : ModelReco M) (result : arr) (ign : nat) :
  kept (_update_reg_par st result ign) = kept st.
Proof. reflexivity. Qed.

Lemma kept_balance_uk (scale : list fl) (acc : ModelReco M * arr) (uk : nat) :
  kept (fst (balance_uk scale acc uk)) = kept (fst acc).
Proof. destruct acc as [st result]. reflexivity. Qed.

Lemma kept_balance_fold (scale : list fl) (us : list nat) (acc : ModelReco M * arr) :
  kept (fst (fold_left (balance_uk scale) us acc)) = kept (fst acc).
Proof.
  revert acc. induction us as [| u us IH]; intros acc; simpl.
  - reflexivity.
  - rewrite IH. apply kept_balance_uk.
Qed.

Lemma kept_balance (st : ModelReco M) (result : arr) (ind : nat) :
  kept (fst (_balance_model_gradients st result ind)) = kept st.
Proof.
  unfold _balance_model_gradients.
  destruct (Nat.eqb (ind mod 1) 0).
  - apply kept_balance_fold.
  - reflexivity.
Qed.

Lemma kept_calc_residual (st : ModelReco M) (x data : arr) (GN_it : nat) (TV : Z) :
  kept (calc_residual B st x data GN_it TV) = kept st.
Proof.
  unfold calc_residual, _calc_residual_imagespace, _calc_residual_kspace,
    store_fval.
  destruct (imagespace st); destruct (Nat.eqb GN_it 0); reflexivity.
Qed.

Lemma kept_calc_residual_kspace (st : ModelReco M) (x data : arr) (GN_it : nat)
  (TV : Z) : kept (_calc_residual_kspace B st x data GN_it TV) = kept st.
Proof.
  unfold _calc_residual_kspace, store_fval.
  destruct (Nat.eqb GN_it 0); reflexivity.
Qed.

Lemma kept_calc_residual_imagespace (st : ModelReco M) (x data : arr)
  (GN_it : nat) (TV : Z) :
  kept (_calc_residual_imagespace B st x data GN_it TV) = kept st.
Proof.
  unfold _calc_residual_imagespace, store_fval.
  destruct (Nat.eqb GN_it 0); reflexivity.
Qed.

Lemma kept_tgv_check (st : ModelReco M) (p : PD.t) (i : nat) (st' : ModelReco M)
  (x' : arr) : tgv_check st p i = inl (st', x') -> kept st' = kept st.
Proof.
  unfold tgv_check.
  repeat match goal with
         | |- context [if ?c then _ else _] => destruct c
         end;
    intros H; inversion H; reflexivity.
Qed.

Lemma kept_tv_check (st : ModelReco M) (p : PD.t) (i : nat) (st' : ModelReco M)
  (x' : arr) : tv_check st p i = inl (st', x') -> kept st' = kept st.
Proof.
  unfold tv_check.
  repeat match goal with
         | |- context [if ?c then _ else _] => destruct c
         end;
    intros H; inversion H; reflexivity.
Qed.

Lemma kept_tgv_loop (fuel : nat) (st : ModelReco M) (n : nat) :
  forall (p : PD.t) (i : nat) (st' : ModelReco M) (x' : arr),
    tgv_loop B fuel st p n i = Some (st', x') -> kept st' = kept st.
Proof.
  induction n as [| n IH]; intros p i st' x' H; cbn [tgv_loop] in H.
  - inversion H. reflexivity.
  - destruct (tgv_line_search B fuel st (tgv_pre B st p)) as [p1 |];
      [| discriminate].
    destruct (Nat.eqb (i mod 50) 0).
    + destruct (tgv_check st (tgv_swap p1) i) as [[st2 x2] | p3] eqn:E.
      * inversion H; subst. eapply kept_tgv_check. exact E.
      * eapply IH. exact H.
    + eapply IH. exact H.
Qed.

Lemma kept_tv_loop (fuel : nat) (st : ModelReco M) (n : nat) :
  forall (p : PD.t) (i : nat) (st' : ModelReco M) (x' : arr),
    tv_loop B fuel st p n i = Some (st', x') -> kept st' = kept st.
Proof.
  induction n as [| n IH]; intros p i st' x' H; cbn [tv_loop] in H.
  - inversion H. reflexivity.
  - destruct (tv_line_search B fuel st (tv_pre B st p)) as [p1 |];
      [| discriminate].
    destruct (Nat.eqb (i mod 50) 0).
    + destruct (tv_check st (tv_swap p1) i) as [[st2 x2] | p3] eqn:E.
      * inversion H; subst. eapply kept_tv_check. exact E.
      * eapply IH. exact H.
    + eapply IH. exact H.
Qed.

Lemma kept_irgn_solve (fuel : nat) (st : ModelReco M) (x : arr) (iters : nat)
  (data : arr) (GN_it : nat) (TV : Z) (st' : ModelReco M) (x' : arr) :
  irgn_solve_3D B fuel st x iters data GN_it TV = Returned (st', x') ->
  kept st' = kept st.
Proof.
  unfold irgn_solve_3D, _irgn_solve_3D_imagespace, _irgn_solve_3D_kspace,
    tv_solve_3D, tgv_solve_3D, of_solve.
  intros H.
  destruct (imagespace st).
  - destruct (Z.eqb TV 1).
    + destruct (tv_loop B fuel _ _ iters 0) as [[st2 x2] |] eqn:E;
        [| discriminate].
      inversion H; subst. apply kept_tv_loop in E. rewrite E.
      rewrite kept_eval_const. apply kept_calc_residual_imagespace.
    + destruct (Z.eqb TV 0).
      * destruct (tgv_loop B fuel _ _ iters 0) as [[st2 x2] |] eqn:E;
          [| discriminate].
        inversion H; subst. apply kept_tgv_loop in E. rewrite E.
        rewrite kept_eval_const. apply kept_calc_residual_imagespace.
      * inversion H; subst. apply kept_calc_residual_imagespace.
  - destruct (Z.eqb TV 1).
    + destruct (tv_loop B fuel _ _ iters 0) as [[st2 x2] |] eqn:E;
        [| discriminate].
      inversion H; subst. apply kept_tv_loop in E. rewrite E.
      rewrite kept_eval_const. apply kept_calc_residual_kspace.
    + destruct (Z.eqb TV 0).
      * destruct (tgv_loop B fuel _ _ iters 0) as [[st2 x2] |] eqn:E;
          [| discriminate].
        inversion H; subst. apply kept_tgv_loop in E. rewrite E.
        rewrite kept_eval_const. apply kept_calc_residual_kspace.
      * discriminate.
Qed.

Lemma kept_linearize (st : ModelReco M) (result : arr) (ign : nat) :
  kept (fst (gn_linearize B st result ign)) = kept st.
Proof.
  unfold gn_linearize.
  destruct (_balance_model_gradients _ result ign) as [st2 result2] eqn:E.
  simpl. rewrite kept_update_reg_par.
  change (kept st2 = kept st).
  replace st2 with (fst (_balance_model_gradients
                           (with_grad_x st
                              (map (nan_to_num B)
                                   (execute_gradient (model st) (uk_scale st) result)))
                           result ign)) by (rewrite E; reflexivity).
  rewrite kept_balance. reflexivity.
Qed.

Lemma kept_gn_body (fuel : nat) (st : ModelReco M) (result : arr) (iters ign : nat)
  (TV : Z) (st' : ModelReco M) (result' : arr) (iters' : nat) :
  gn_body B fuel st result iters ign TV = Continue st' result' iters' ->
  kept st' = kept st.
Proof.
  unfold gn_body.
  pose proof (kept_linearize st result ign) as HL.
  destruct (gn_linearize B st result ign) as [st1 result1]. simpl in HL.
  destruct (irgn_solve_3D B fuel st1 result1 iters (data st1) ign TV)
    as [[st2 result2] | e [st2 result2] |] eqn:E; try discriminate.
  apply kept_irgn_solve in E.
  match goal with
  | |- context [if ?c then _ else _] => destruct c
  end; intros H; inversion H; subst.
  unfold savetofile. simpl.
  change (kept st2 = kept st). rewrite E. exact HL.
Qed.

Lemma kept_irgn_solve_raised (fuel : nat) (st : ModelReco M) (x : arr)
  (iters : nat) (data : arr) (GN_it : nat) (TV : Z) (e : exn) (st' : ModelReco M)
  (x' : arr) :
  irgn_solve_3D B fuel st x iters data GN_it TV = Raised e (st', x') ->
  kept st' = kept st.
Proof.
  unfold irgn_solve_3D, _irgn_solve_3D_imagespace, _irgn_solve_3D_kspace, of_solve.
  intros H.
  destruct (imagespace st).
  - destruct (Z.eqb TV 1).
    + destruct (tv_solve_3D B fuel _ x _ iters); discriminate.
    + destruct (Z.eqb TV 0).
      * destruct (tgv_solve_3D B fuel _ x _ iters); discriminate.
      * discriminate.
  - destruct (Z.eqb TV 1).
    + destruct (tv_solve_3D B fuel _ x _ iters); discriminate.
    + destruct (Z.eqb TV 0).
      * destruct (tgv_solve_3D B fuel _ x _ iters); discriminate.
      * inversion H; subst. apply kept_calc_residual_kspace.
Qed.

(** However one iteration ends, with a state, that state has the kept
    fields of the state it started from. *)
Lemma kept_gn_body_any (fuel : nat) (st : ModelReco M) (result : arr)
  (iters ign : nat) (TV : Z) :
  match gn_body B fuel st result iters ign TV with
  | Continue st' _ _ => kept st' = kept st
  | Break st' _ => kept st' = kept st
  | StepRaised _ st' => kept st' = kept st
  | StepOutOfFuel => True
  end.
Proof.
  unfold gn_body.
  pose proof (kept_linearize st result ign) as HL.
  destruct (gn_linearize B st result ign) as [st1 result1]. simpl in HL.
  destruct (irgn_solve_3D B fuel st1 result1 iters (data st1) ign TV)
    as [[st2 result2] | e [st2 result2] |] eqn:E.
  - apply kept_irgn_solve in E.
    match goal with
    | |- context [if ?c then _ else _] => destruct c
    end.
    + unfold savetofile.
      change (kept (calc_residual B (with_gn_res st2 (gn_res st2 ++ [_fval st2]))
                      result2 (data st2) (ign + 1) TV) = kept st).
      rewrite kept_calc_residual. change (kept st2 = kept st).
      rewrite E. exact HL.
    + change (kept st2 = kept st). rewrite E. exact HL.
  - apply kept_irgn_solve_raised in E. rewrite E. exact HL.
  - exact I.
Qed.

Lemma kept_gn_loop (fuel : nat) (TV : Z) (n : nat) :
  forall (st : ModelReco M) (result : arr) (iters ign : nat),
    match gn_loop B fuel st result iters ign n TV with
    | Returned st' => kept st' = kept st
    | Raised _ st' => kept st' = kept st
    | OutOfFuel => True
    end.
Proof.
  induction n as [| n IH]; intros st result iters ign; cbn [gn_loop].
  - apply kept_calc_residual.
  - pose proof (kept_gn_body_any fuel st result iters ign TV) as Hb.
    destruct (gn_body B fuel st result iters ign TV)
      as [st' result' iters' | st' result' | e st' |].
    + specialize (IH st' result' iters' (S ign)).
      destruct (gn_loop B fuel st' result' iters' (S ign) n TV);
        try exact I; rewrite IH; exact Hb.
    + rewrite kept_calc_residual. exact Hb.
    + exact Hb.
    + exact I.
Qed.

Lemma kept_Reach (fuel : nat) (TV : Z) (st0 : ModelReco M) (result0 : arr)
  (iters0 k : nat) (st : ModelReco M) (result : arr) (iters : nat) :
  Reach B fuel TV st0 result0 iters0 k st result iters -> kept st = kept st0.
Proof.
  induction 1 as [| k st result iters st' result' iters' _ IH Hstep].
  - reflexivity.
  - apply kept_gn_body in Hstep. rewrite Hstep. exact IH.
Qed.

End Frame.

End FrameFacts.

(** ** Finite arrays and their norms *)

Module NormFacts.

Import Arr Spec.
Local Open Scope R_scope.
Local Open Scope cfl_scope.

Lemma is_cfin_emb (z : cfl) : is_cfin z -> z = emb (to_C z).
Proof. intros [a [b ->]]. reflexivity. Qed.

Lemma cmul_real_fin (a b s : R) :
  mkC (Fin a) (Fin b) *c rc (Fin s) = mkC (Fin (a * s)) (Fin (b * s)).
Proof. unfold Cfl.cmul. simpl. f_equal; f_equal; ring. Qed.

Lemma cdiv_real_fin (a b s : R) :
  s <> 0 -> mkC (Fin a) (Fin b) /c rc (Fin s) = mkC (Fin (a / s)) (Fin (b / s)).
Proof.
  intros Hs. unfold Cfl.cdiv. cbn [cre cim Cfl.of_real Fl.abs].
  assert (Hge : Fl.geb (Fin (Rabs s)) (Fin (Rabs 0)) = true).
  { unfold Fl.geb. apply FlFacts.leb_fin. rewrite Rabs_R0. apply Rabs_pos. }
  rewrite Hge.
  assert (Hz : Fl.eqb (Fin (Rabs s)) (Fin 0) = false).
  { unfold Fl.eqb. destruct (Req_dec_T (Rabs s) 0) as [E | _]; [| reflexivity].
    exfalso. apply (Rabs_no_R0 s Hs). exact E. }
  rewrite Hz. cbn [andb].
  rewrite (FlFacts.div_fin 0 s Hs).
  cbn [Fl.mul Fl.add Fl.sub Fl.opp].
  rewrite FlFacts.div_fin.
  - cbn [Fl.mul]. f_equal; f_equal; field; assumption.
  - replace (s + 0 * (0 / s)) with s by (field; assumption). assumption.
Qed.

Lemma sumsq_nonneg (l : list Cx) : 0 <= sumsq l.
Proof.
  induction l as [| [p q] l IH]; simpl.
  - lra.
  - pose proof (Rle_0_sqr p) as Hp. pose proof (Rle_0_sqr q) as Hq.
    unfold Rsqr in Hp, Hq. lra.
Qed.

Lemma sumsq_app (l1 l2 : list Cx) : sumsq (l1 ++ l2) = sumsq l1 + sumsq l2.
Proof.
  induction l1 as [| [p q] l1 IH]; simpl.
  - ring.
  - rewrite IH. ring.
Qed.

(** The sum of [(conj(z) * z).real] over a finite vector. *)
Lemma fsum_conj_fin (v : vec) (s : R) :
  vec_finite v ->
  fold_left Fl.add (map (fun z => cre (Cfl.cconj z *c z)) v) (Fin s) =
  Fin (s + sumsq (vec_C v)).
Proof.
  intros Hv. revert s.
  induction Hv as [| z v [p [q ->]] _ IH]; intros s; simpl.
  - f_equal. ring.
  - rewrite IH. f_equal. ring.
Qed.

Lemma norm_axis_fin (v : vec) :
  vec_finite v -> norm_axis v = Fin (sqrt (sumsq (vec_C v))).
Proof.
  intros Hv. unfold norm_axis, fsum.
  rewrite fsum_conj_fin by assumption.
  rewrite FlFacts.sqrt_fin.
  - f_equal. f_equal. ring.
  - pose proof (sumsq_nonneg (vec_C v)). lra.
Qed.

(** Sums of squares of the real parts and of the imaginary parts. *)
Lemma fsum_re_im_fin (v : vec) (s t : R) :
  vec_finite v ->
  exists sr si,
    fold_left Fl.add (map (fun z => Fl.mul (cre z) (cre z)) v) (Fin s) = Fin (s + sr)
    /\ fold_left Fl.add (map (fun z => Fl.mul (cim z) (cim z)) v) (Fin t) = Fin (t + si)
    /\ sr + si = sumsq (vec_C v).
Proof.
  intros Hv. revert s t.
  induction Hv as [| z v [p [q ->]] _ IH]; intros s t; simpl.
  - exists 0, 0. repeat split; first [f_equal; ring | ring].
  - destruct (IH (s + p * p) (t + q * q)) as [sr [si [E1 [E2 E3]]]].
    exists (p * p + sr), (q * q + si). repeat split.
    + rewrite E1. f_equal. ring.
    + rewrite E2. f_equal. ring.
    + unfold vec_C in *. simpl. rewrite <- E3. ring.
Qed.

Lemma norm_fin (a : arr) : arr_finite a -> norm a = Fin (norm2 (arr_C a)).
Proof.
  intros Ha. unfold norm, fsum, norm2.
  destruct (fsum_re_im_fin (flat a) 0 0 Ha) as [sr [si [E1 [E2 E3]]]].
  rewrite E1, E2. cbn [Fl.add].
  pose proof (sumsq_nonneg (vec_C (flat a))) as Hpos.
  rewrite FlFacts.sqrt_fin by lra.
  f_equal. f_equal. unfold arr_C, vec_C in *. lra.
Qed.

(** [vdot(d, d)] of a finite array is its squared norm. *)
Lemma csum_conj_fin (v : vec) (s t : R) :
  vec_finite v ->
  fold_left Cfl.cadd (vzip (fun x y => Cfl.cconj x *c y) v v) (mkC (Fin s) (Fin t)) =
  mkC (Fin (s + sumsq (vec_C v))) (Fin t).
Proof.
  intros Hv. revert s t.
  induction Hv as [| z v [p [q ->]] _ IH]; intros s t; simpl.
  - f_equal. f_equal. ring.
  - unfold Cfl.cadd at 2. simpl. rewrite IH. f_equal; f_equal; ring.
Qed.

Lemma vdot_self_fin (a : arr) :
  arr_finite a -> vdot a a = mkC (Fin (sumsq (arr_C a))) (Fin 0).
Proof.
  intros Ha. unfold vdot, csum, Cfl.czero.
  rewrite csum_conj_fin by exact Ha.
  f_equal. f_equal. unfold arr_C, vec_C. ring.
Qed.

(** Differences of finite arrays are finite. *)
Lemma vzip_csub_finite (u w : vec) :
  vec_finite u -> vec_finite w -> vec_finite (vzip Cfl.csub u w).
Proof.
  intros Hu. revert w.
  induction Hu as [| z u [p [q ->]] _ IH]; intros w Hw; simpl.
  - constructor.
  - destruct Hw as [| y w [p' [q' ->]] Hw].
    + constructor.
    + constructor.
      * exists (p - p'), (q - q'). reflexivity.
      * apply IH. assumption.
Qed.

Lemma arr_finite_cons (rw : vec) (a : arr) :
  arr_finite (rw :: a) <-> vec_finite rw /\ arr_finite a.
Proof.
  unfold arr_finite, vec_finite, flat. simpl. apply Forall_app.
Qed.

Lemma asub_finite (a b : arr) :
  arr_finite a -> arr_finite b -> arr_finite (asub a b).
Proof.
  revert b. induction a as [| ra a IH]; intros b Ha Hb; simpl.
  - constructor.
  - destruct b as [| rb b].
    + constructor.
    + apply arr_finite_cons in Ha. apply arr_finite_cons in Hb.
      destruct Ha as [Hra Ha]. destruct Hb as [Hrb Hb].
      unfold asub. simpl. apply arr_finite_cons. split.
      * apply vzip_csub_finite; assumption.
      * apply IH; assumption.
Qed.

(** [(z ** (1 / 2)).real] of a non-negative real is its square root. *)
Lemma sqrt_real_nonneg (S : R) :
  0 <= S -> Reco.sqrt_real (mkC (Fin S) (Fin 0)) = Fin (sqrt S).
Proof.
  intros HS. unfold Reco.sqrt_real, Cfl.cpow_real. cbn [cre cim].
  rewrite (FlFacts.sgn_pos (1 / 2)) by lra.
  destruct (Fl.sgn S) eqn:E.
  - apply FlFacts.sgn_Eq in E. subst S.
    rewrite FlFacts.sgn_zero. simpl. rewrite sqrt_0. reflexivity.
  - unfold Fl.sgn in E.
    destruct (total_order_T S 0) as [[Hlt | Heq] | Hgt]; try discriminate. lra.
  - assert (HSpos : 0 < S).
    { unfold Fl.sgn in E.
      destruct (total_order_T S 0) as [[Hlt | Heq] | Hgt]; try discriminate.
      exact Hgt. }
    cbn [cre]. f_equal.
    unfold Cfl.arg. rewrite E.
    replace (0 / S) with 0 by (field; lra).
    rewrite atan_0.
    replace (0 * (1 / 2)) with 0 by ring. rewrite cos_0.
    replace (S * S + 0 * 0) with (S * S) by ring.
    rewrite sqrt_square by lra.
    replace (1 / 2) with (/ 2) by lra.
    rewrite Rpower_sqrt by assumption. ring.
Qed.

End NormFacts.

(** ** Balancing of the model gradients *)

Module BalanceFacts.

Import Arr Spec Reco.
Local Open Scope R_scope.
Local Open Scope cfl_scope.

Lemma length_upd (A : Type) (l : list A) (i : nat) (x : A) :
  length (upd l i x) = length l.
Proof.
  revert i. induction l as [| y l IH]; intros [| i]; simpl; try reflexivity.
  rewrite IH. reflexivity.
Qed.

Lemma nth_upd_same (A : Type) (l : list A) (i : nat) (x d : A) :
  (i < length l)%nat -> nth i (upd l i x) d = x.
Proof.
  revert i. induction l as [| y l IH]; intros [| i] H; simpl in *; try lia.
  - reflexivity.
  - apply IH. lia.
Qed.

Lemma nth_upd_other (A : Type) (l : list A) (i j : nat) (x d : A) :
  i <> j -> nth i (upd l j x) d = nth i l d.
Proof.
  revert i j. induction l as [| y l IH]; intros [| i] [| j] H; simpl;
    try reflexivity; try congruence.
  apply IH. congruence.
Qed.

Section Balance.

Context {M : Type}.

(** What the loop holds for unknown [u]: its row of [result], its slice
    of the Jacobian and its scale. *)
Definition view (u : nat) (acc : ModelReco M * arr) : vec * arr * fl :=
  (nth u (snd acc) [], nth u (grad_x (fst acc)) [], rget (uk_scale (fst acc)) u).

Definition lens (acc : ModelReco M * arr) : nat * nat * nat :=
  (length (snd acc), length (grad_x (fst acc)), length (uk_scale (fst acc))).

(** The six assignments of the loop body, on the data of one unknown. *)
Definition rebalance (c : fl) (w : vec * arr * fl) : vec * arr * fl :=
  let '(rw, g, s) := w in
  let s' := Fl.mul s c in
  (vunscale (vscale rw s) s',
   map (fun q => vscale q s') (map (fun q => vunscale q s) g),
   s').

Lemma lens_balance_uk (scale : list fl) (acc : ModelReco M * arr) (uk : nat) :
  lens (balance_uk scale acc uk) = lens acc.
Proof.
  destruct acc as [st result]. unfold lens, balance_uk. simpl.
  rewrite !length_upd. reflexivity.
Qed.

Lemma view_balance_uk_other (scale : list fl) (acc : ModelReco M * arr) (u uk : nat) :
  u <> uk -> view u (balance_uk scale acc uk) = view u acc.
Proof.
  intros H. destruct acc as [st result]. unfold view, balance_uk, rget. simpl.
  rewrite !nth_upd_other by assumption. reflexivity.
Qed.

Lemma view_balance_uk_same (scale : list fl) (acc : ModelReco M * arr) (u : nat) :
  (u < length (snd acc))%nat -> (u < length (grad_x (fst acc)))%nat ->
  (u < length (uk_scale (fst acc)))%nat ->
  view u (balance_uk scale acc u) = rebalance (rget scale u) (view u acc).
Proof.
  intros H1 H2 H3. destruct acc as [st result].
  unfold view, balance_uk, rebalance, rget, row. simpl in *.
  rewrite !nth_upd_same by (rewrite ?length_upd; assumption).
  reflexivity.
Qed.

Lemma view_fold_other (scale : list fl) (u : nat) (us : list nat) :
  forall acc : ModelReco M * arr,
    ~ In u us -> view u (fold_left (balance_uk scale) us acc) = view u acc.
Proof.
  induction us as [| k us IH]; intros acc Hn; simpl.
  - reflexivity.
  - rewrite IH by (intros Hin; apply Hn; right; exact Hin).
    apply view_balance_uk_other. intros ->. apply Hn. left. reflexivity.
Qed.

Lemma view_fold_seq (scale : list fl) (u n : nat) :
  forall (a : nat) (acc : ModelReco M * arr),
    (a <= u < a + n)%nat ->
    (u < length (snd acc))%nat -> (u < length (grad_x (fst acc)))%nat ->
    (u < length (uk_scale (fst acc)))%nat ->
    view u (fold_left (balance_uk scale) (seq a n) acc) =
    rebalance (rget scale u) (view u acc).
Proof.
  induction n as [| n IH]; intros a acc Hu H1 H2 H3.
  - lia.
  - simpl. destruct (Nat.eq_dec a u) as [-> | Hneq].
    + rewrite view_fold_other.
      * apply view_balance_uk_same; assumption.
      * rewrite in_seq. lia.
    + pose proof (lens_balance_uk scale acc a) as HL.
      unfold lens in HL. inversion HL as [[L1 L2 L3]].
      rewrite IH.
      * rewrite view_balance_uk_other by congruence. reflexivity.
      * lia.
      * rewrite L1. assumption.
      * rewrite L2. assumption.
      * rewrite L3. assumption.
Qed.

(** Rescaling a finite number by [s] and then by [s * c]. *)
Lemma unscale_scale_fin (p q sr cr : R) :
  sr <> 0 -> cr <> 0 ->
  (mkC (Fin p) (Fin q) *c rc (Fin sr)) /c rc (Fin (sr * cr)) =
  mkC (Fin (p / cr)) (Fin (q / cr)).
Proof.
  intros Hs Hc. rewrite NormFacts.cmul_real_fin.
  rewrite NormFacts.cdiv_real_fin by (apply Rmult_integral_contrapositive; tauto).
  f_equal; f_equal; field; tauto.
Qed.





Lemma balance_scale_at (st : ModelReco M) (u : nat) :
  (u < unknowns (par st))%nat ->
  rget (balance_scale st) u =
  Fl.div (Fl.div (Fin 1000) (Fl.sqrt (Fl.of_nat (unknowns (par st)))))
         (norm_axis (flat (nth u (grad_x st) []))).
Proof.
  intros Hu. unfold rget, balance_scale, grad_norms. rewrite map_map.
  apply ArrFacts.nth_map_seq. assumption.
Qed.

End Balance.

(** The loop seen from a well-conditioned unknown: its data are
    rescaled by the finite positive factor [10^3 / sqrt U / norm]. *)
Lemma balance_view_fin (M : Type) (st : ModelReco M) (result : arr)
  (ind u : nat) (sr : R) :
  (u < unknowns (par st))%nat ->
  (u < length result)%nat ->
  (u < length (grad_x st))%nat ->
  (u < length (uk_scale st))%nat ->
  rget (uk_scale st) u = Fin sr ->
  arr_finite (nth u (grad_x st) []) ->
  sumsq (arr_C (nth u (grad_x st) [])) <> 0 ->
  exists cr,
    0 < cr
    /\ cr * sqrt (sumsq (arr_C (nth u (grad_x st) []))) =
       1000 / sqrt (INR (unknowns (par st)))
    /\ view u (_balance_model_gradients st result ind) =
       rebalance (Fin cr) (row result u, nth u (grad_x st) [], Fin sr).
Proof.
  intros Hu H1 H2 H3 Hs Hg Hnz.
  pose proof (NormFacts.sumsq_nonneg (arr_C (nth u (grad_x st) []))) as HS0.
  assert (HUpos : 0 < INR (unknowns (par st))) by (apply lt_0_INR; lia).
  assert (HsqU : 0 < sqrt (INR (unknowns (par st))))
    by (apply sqrt_lt_R0; assumption).
  assert (HsqS : 0 < sqrt (sumsq (arr_C (nth u (grad_x st) []))))
    by (apply sqrt_lt_R0; lra).
  exists (1000 / sqrt (INR (unknowns (par st))) /
          sqrt (sumsq (arr_C (nth u (grad_x st) [])))).
  split; [| split].
  - apply Rdiv_lt_0_compat; [apply Rdiv_lt_0_compat; lra | assumption].
  - field. split; lra.
  - unfold _balance_model_gradients. rewrite Nat.mod_1_r. simpl Nat.eqb. cbv iota.
    rewrite view_fold_seq by (simpl; assumption || lia).
    rewrite balance_scale_at by assumption.
    rewrite NormFacts.norm_axis_fin by exact Hg.
    unfold Fl.of_nat. rewrite (FlFacts.sqrt_fin (INR (unknowns (par st)))) by lra.
    rewrite FlFacts.div_fin by lra.
    change (vec_C (flat (nth u (grad_x st) [])))
      with (arr_C (nth u (grad_x st) [])).
    rewrite FlFacts.div_fin by lra.
    unfold view. cbn [fst snd]. rewrite Hs. reflexivity.
Qed.

Lemma row_rescaled_finite (rw : vec) (sr cr : R) :
  sr <> 0 -> cr <> 0 -> vec_finite rw ->
  vec_finite (vunscale (vscale rw (Fin sr)) (Fin (sr * cr))).
Proof.
  intros Hs Hc Hrw. unfold vscale, vunscale. rewrite map_map.
  induction Hrw as [| z rw [p [q ->]] _ IH]; cbn [map].
  - constructor.
  - rewrite unscale_scale_fin by assumption.
    constructor; [exists (p / cr), (q / cr); reflexivity | exact IH].
Qed.

(** The balanced row of a well-conditioned unknown is finite. *)
Lemma balanced_row_finite (M : Type) (st : ModelReco M) (result : arr)
  (ind u : nat) (sr : R) :
  (u < unknowns (par st))%nat ->
  (u < length result)%nat ->
  (u < length (grad_x st))%nat ->
  (u < length (uk_scale st))%nat ->
  rget (uk_scale st) u = Fin sr ->
  sr <> 0 ->
  vec_finite (row result u) ->
  arr_finite (nth u (grad_x st) []) ->
  sumsq (arr_C (nth u (grad_x st) [])) <> 0 ->
  vec_finite (row (snd (_balance_model_gradients st result ind)) u).
Proof.
  intros Hu H1 H2 H3 Hs Hsr Hrow Hg Hnz.
  destruct (balance_view_fin M st result ind u sr Hu H1 H2 H3 Hs Hg Hnz)
    as [cr [Hcr [_ Hview]]].
  pose proof (f_equal (fun t => fst (fst t)) Hview) as Erow.
  unfold view, rebalance in Erow. cbn [fst snd Fl.mul] in Erow.
  unfold row at 1. rewrite Erow.
  apply row_rescaled_finite; try assumption. lra.
Qed.

Lemma length_balance (M : Type) (st : ModelReco M) (result : arr) (ind : nat) :
  length (snd (_balance_model_gradients st result ind)) = length result.
Proof.
  unfold _balance_model_gradients.
  destruct (Nat.eqb (ind mod 1) 0); [| reflexivity].
  generalize (seq 0 (unknowns (par st))) as us.
  generalize (balance_scale st) as scale.
  intros scale us.
  change (length result) with (fst (fst (lens (st, result)))).
  generalize (st, result) as acc.
  induction us as [| k us IH]; intros acc; simpl.
  - reflexivity.
  - rewrite IH. rewrite lens_balance_uk. reflexivity.
Qed.



End BalanceFacts.

(** ** Concrete objects for the examples *)

Module Examples.

Import Arr Reco.
Local Open Scope R_scope.
Local Open Scope cfl_scope.

Definition c (a b : R) : cfl := mkC (Fin a) (Fin b).

(** One scan along the x axis with b value 1, one voxel, and the initial
    guess of [computeInitialGuess] with [M0 = 1]. *)
Definition ex_model : DiffdirLL.Model :=
  DiffdirLL.mkModel 1 [Fin 1] [(Fin 1, Fin 0, Fin 0)] DiffdirLL.init_uk_scale
    [[c 1 0]]
    [[c 1 0]; [c 1 0]; [c 0 0]; [c 1 0]; [c 0 0]; [c 1 0]; [c 0 0]]
    (DiffdirLL.init_constraints (rget DiffdirLL.init_uk_scale)).

Definition ex_irgn_par : irgn_par_t :=
  mkIrgn 1 2 1 (Fin (1 / 100)) (Fin 10) (Fin 1) (Fin 1) (Fin (1 / 10)) (Fin (1 / 2))
         (Fin 1) (Fin (1 / 10)) (Fin (1 / 2)) (Fin 1) (Fin 10) (Fin 2) false.

Definition ex_par (U : nat) : par_t :=
  mkPar U U 0 1 1 1 1 (Fin 1) (Fin 3) [[c 1 0]].

(** An object as [__init__] leaves it, for [U] unknowns in image space. *)
Definition blank_of {M : Type} (m : M) (U : nat) : ModelReco M :=
  mkReco (ex_par U) ex_irgn_par true m (repeat (Fin 1) U)
         (DiffdirLL.init_constraints (rget DiffdirLL.init_uk_scale))
         [[c 1 0]] (Fin 0) (Fin 0) (Fin 0)
         (repeat (Fin (1 / INR U)) U) (repeat (Fin (1 / INR U)) U)
         [] [] [] [] [] [] [] [] (Fin 0) (Fin 0) (Fin 0)
         (Fin 0) (Fin 0) (Fin 0) (Fin 0) [] [] [] [].

Definition blank (U : nat) : ModelReco DiffdirLL.Model := blank_of ex_model U.

(** A signal model of one unknown and one voxel whose Jacobian is the
    constant [3 + 4i] and whose signal is 1. *)
Definition const_model : SignalModel unit := {|
  model_guess := fun _ => [[c 2 0]];
  execute_forward := fun _ _ _ => [[c 1 0]];
  execute_gradient := fun _ _ _ => [[[c 3 4]]];
  model_rescale := fun _ _ x => x
|}.

(** A backend on arrays of any shape: all linear operators are the
    identity ([K^* (r, z1) = r + z1], [Kyk2 = z2]), a dual update adds
    [sigma] times its first image ([z + sigma * G x]), a primal update
    leaves [x] as it is, and a new buffer holds zeros. *)
Definition step_by (sigma : fl) (z g : arr) : arr :=
  azip (fun a d => a +c rc sigma *c d) z g.

Definition toy : Backend :=
  mkBackend
    (fun x _ _ => x) (fun x _ _ => x) (fun r z1 _ _ _ => aadd r z1)
    (fun x _ _ => x)
    (fun _ x => x) (fun _ z => z) (fun ratio _ => ratio) (fun v => v) (fun a => a)
    (fun x _ _ _ _ _ _ _ _ _ => x)
    (fun v _ _ => v)
    (fun z gx _ _ _ sigma _ _ _ _ _ => step_by sigma z gx)
    (fun z gx _ sigma _ _ _ _ _ => step_by sigma z gx)
    (fun z gx _ sigma _ _ _ => step_by sigma z gx)
    (fun u _ _ _ => u)
    (fun r A _ _ sigma _ _ => step_by sigma r A)
    (fun x _ _ _ _ _ _ _ _ _ _ => x)
    zeros_like
    (340282346638528859811704183484516925440)%R.

End Examples.

(** ** Balancing: an instance and the case of a vanishing slice *)

Module BalanceExamples.

Import Arr Spec Reco Examples BalanceFacts.
Local Open Scope R_scope.
Local Open Scope cfl_scope.

(** One unknown with Jacobian slice [(3 + 4i)], of norm 5. *)
Definition st_w : ModelReco DiffdirLL.Model := with_grad_x (blank 1) [[[c 3 4]]].
Definition result_w : arr := [[c 2 0]].










End BalanceExamples.

(** ** The tensor of the initial guess *)

Module RescaleExamples.

Import Arr Spec Examples.
Local Open Scope R_scope.

Lemma rescale_witness :
  tensor_at (DiffdirLL.rescale ex_model (DiffdirLL.guess ex_model)) 0 =
  map (map (fun t => rc (Fin t)))
      (mul_transpose
         (cholesky_factor
            (fun u =>
               Fl.to_R (cre (at2 (DiffdirLL.guess ex_model) u 0)) *
               Fl.to_R (rget (DiffdirLL.uk_scale ex_model) u))))
  /\ psd3 (mul_transpose
             (cholesky_factor
                (fun u =>
                   Fl.to_R (cre (at2 (DiffdirLL.guess ex_model) u 0)) *
                   Fl.to_R (rget (DiffdirLL.uk_scale ex_model) u)))).
Proof.
  destruct (DiffdirLLFacts.rescale_is_cholesky_product
              ex_model (DiffdirLL.guess ex_model) 0) as [H1 [_ [H3 _]]].
  - unfold DiffdirLL.nvox, row. simpl. lia.
  - intros u Hu.
    destruct u as [| [| [| [| [| [| [| u]]]]]]]; try lia;
      eexists; reflexivity.
  - intros u Hu.
    destruct u as [| [| [| [| [| [| [| u]]]]]]]; try lia;
      eexists; reflexivity.
  - split; [exact H1 | exact H3].
Defined.

End RescaleExamples.

(** ** The driver: [execute], the schedule and the initial step sizes *)

Module DriverFacts.

Import Arr Spec Reco FrameFacts.
Local Open Scope R_scope.

Section Driver.

Context {M : Type} {SM : SignalModel M} (B : Backend).

Lemma conf_of_kept (st st' : ModelReco M) : kept st' = kept st -> conf st' = conf st.
Proof. intros H. exact (f_equal snd H). Qed.

Lemma steps_of_kept (st st' : ModelReco M) : kept st' = kept st -> steps st' = steps st.
Proof. intros H. exact (f_equal fst H). Qed.

Lemma lambd_of_conf (st st' : ModelReco M) :
  conf st' = conf st -> lambd (irgn_par st') = lambd (irgn_par st).
Proof.
  intros H. unfold conf in H.
  exact (f_equal (fun t => fst (fst (fst (fst (fst (snd (fst (fst t)))))))) H).
Qed.

Lemma par_of_conf (st st' : ModelReco M) : conf st' = conf st -> par st' = par st.
Proof.
  intros H. unfold conf in H.
  exact (f_equal (fun t => fst (fst (fst (snd t)))) H).
Qed.

Lemma conf_execute_3D (fuel : nat) (st : ModelReco M) (TV : Z) :
  match _execute_3D B fuel st TV with
  | Returned st' => conf st' = conf st
  | Raised _ st' => conf st' = conf st
  | OutOfFuel => True
  end.
Proof.
  unfold _execute_3D.
  destruct (max_gn_it (irgn_par (_setup_reg_tmp_arrays st TV))) eqn:E.
  - apply conf_setup.
  - rewrite <- E.
    pose proof (kept_gn_loop B fuel TV
                  (max_gn_it (irgn_par (_setup_reg_tmp_arrays st TV)))
                  (_setup_reg_tmp_arrays st TV) (model_guess (model st))
                  (start_iters (irgn_par st)) 0) as H.
    destruct (gn_loop B fuel (_setup_reg_tmp_arrays st TV) (model_guess (model st))
                (start_iters (irgn_par st)) 0
                (max_gn_it (irgn_par (_setup_reg_tmp_arrays st TV))) TV);
      try exact I;
      apply conf_of_kept in H; rewrite H; apply conf_setup.
Qed.

(** The call ended, by a return or by an exception, with the object in
    state [st']. *)
Definition ends_with (o : outcome (ModelReco M)) (st' : ModelReco M) : Prop :=
  o = Returned st' \/ exists e, o = Raised e st'.

Lemma lambd_after_execute (fuel : nat) (st st' : ModelReco M) (TV img : Z) :
  ends_with (execute B fuel st TV img 0) st' ->
  lambd (irgn_par st') = Fl.mul (lambd (irgn_par st)) (SNR_est (par st))
  /\ par st' = par st.
Proof.
  unfold execute. simpl. intros H.
  pose proof (conf_execute_3D fuel (execute_prologue st) TV) as Hc.
  assert (Hconf : conf st' = conf (execute_prologue st)).
  { destruct H as [H | [e H]]; rewrite H in Hc; exact Hc. }
  split.
  - rewrite (lambd_of_conf _ _ Hconf). reflexivity.
  - rewrite (par_of_conf _ _ Hconf). reflexivity.
Qed.

End Driver.

(** C10.  With [reco_2D] nonzero [execute] raises [NotImplementedError]
    and leaves the object as it was.  With [reco_2D = 0] it first
    multiplies [irgn_par['lambd']] by [par['SNR_est']] in place: every
    Gauss-Newton iteration starts, and every inner solve and objective is
    evaluated, on an object whose [lambd] is the scaled one, the object
    returned holds it, and a second call scales it again. *)
Theorem execute_scales_lambd (M : Type) (SM : SignalModel M) (B : Backend)
  (fuel : nat) (st : ModelReco M) (TV img reco_2D : Z) :
  (reco_2D <> 0%Z -> execute B fuel st TV img reco_2D = Raised NotImplementedError st)
  /\ execute B fuel st TV img 0 = _execute_3D B fuel (execute_prologue st) TV
  /\ lambd (irgn_par (execute_prologue st)) =
     Fl.mul (lambd (irgn_par st)) (SNR_est (par st))
  /\ (forall k st_k result_k iters_k,
        Reach B fuel TV (_setup_reg_tmp_arrays (execute_prologue st) TV)
              (model_guess (model (execute_prologue st)))
              (start_iters (irgn_par (execute_prologue st))) k st_k result_k iters_k ->
        lambd (irgn_par st_k) = Fl.mul (lambd (irgn_par st)) (SNR_est (par st))
        /\ lambd (irgn_par (fst (gn_linearize B st_k result_k k))) =
           Fl.mul (lambd (irgn_par st)) (SNR_est (par st)))
  /\ (forall st',
        ends_with (execute B fuel st TV img 0) st' ->
        lambd (irgn_par st') = Fl.mul (lambd (irgn_par st)) (SNR_est (par st))
        /\ forall fuel2 TV2 img2 st'',
             ends_with (execute B fuel2 st' TV2 img2 0) st'' ->
             lambd (irgn_par st'') =
             Fl.mul (Fl.mul (lambd (irgn_par st)) (SNR_est (par st)))
                    (SNR_est (par st))).
Proof.
  split; [| split; [| split; [| split]]].
  - intros H. unfold execute.
    destruct (Z.eqb reco_2D 0) eqn:E.
    + apply Z.eqb_eq in E. contradiction.
    + reflexivity.
  - reflexivity.
  - reflexivity.
  - intros k st_k result_k iters_k HR.
    apply kept_Reach in HR. apply conf_of_kept in HR.
    assert (Hk : conf st_k = conf (execute_prologue st)).
    { rewrite HR. apply conf_setup. }
    split.
    + rewrite (lambd_of_conf _ _ Hk). reflexivity.
    + pose proof (kept_linearize B st_k result_k k) as HL.
      apply conf_of_kept in HL.
      rewrite (lambd_of_conf _ _ HL), (lambd_of_conf _ _ Hk). reflexivity.
  - intros st' H1.
    destruct (lambd_after_execute B fuel st st' TV img H1) as [HL HP].
    split; [exact HL |].
    intros fuel2 TV2 img2 st'' H2.
    destruct (lambd_after_execute B fuel2 st' st'' TV2 img2 H2) as [HL2 _].
    rewrite HL2, HL, HP. reflexivity.
Qed.

(** The schedule computed by [_update_reg_par] from finite values. *)
Lemma update_reg_par_fin (M : Type) (st : ModelReco M) (result : arr) (ign : nat)
  (d0 dm0 g0 w0 inc gdec gmin wdec wmin : R) :
  s_delta st = Fin d0 -> s_delta_max st = Fin dm0 ->
  s_gamma st = Fin g0 -> s_omega st = Fin w0 ->
  delta_inc (irgn_par st) = Fin inc ->
  gamma_dec (irgn_par st) = Fin gdec -> gamma_min (irgn_par st) = Fin gmin ->
  omega_dec (irgn_par st) = Fin wdec -> omega_min (irgn_par st) = Fin wmin ->
  arr_finite result ->
  let p := irgn_par (_update_reg_par st result ign) in
  let nx := norm2 (arr_C result) in
  delta_max p = Fin (dm0 * nx / 1000)
  /\ delta p = Fin (Rmin (d0 * nx * inc ^ ign / 1000) (dm0 * nx / 1000))
  /\ gamma p = Fin (Rmax (g0 * gdec ^ ign) gmin)
  /\ omega p = Fin (Rmax (w0 * wdec ^ ign) wmin).
Proof.
  intros Hd Hdm Hg Hw Hinc Hgd Hgm Hwd Hwm Hfin p nx. subst p nx.
  unfold _update_reg_par. simpl.
  rewrite Hd, Hdm, Hg, Hw, Hinc, Hgd, Hgm, Hwd, Hwm.
  rewrite (NormFacts.norm_fin result Hfin).
  rewrite !FlFacts.pow_fin.
  rewrite !FlFacts.div_fin by lra.
  cbn [Fl.mul].
  rewrite FlFacts.minimum_fin, !FlFacts.maximum_fin.
  repeat split; f_equal; try (f_equal; field); field.
Qed.

(** C2.  In the run started by [execute], at the start of the [k]-th
    Gauss-Newton iteration [_update_reg_par] sets [delta_max], [delta],
    [gamma] and [omega] to the scheduled values, computed from the
    configuration values the object held when [execute] was called and
    from the norm of the current estimate (all of them finite). *)
Theorem reg_par_schedule (M : Type) (SM : SignalModel M) (B : Backend)
  (fuel : nat) (TV : Z) (st0 : ModelReco M) (k : nat) (st : ModelReco M)
  (result : arr) (iters : nat) (d0 dm0 g0 w0 inc gdec gmin wdec wmin : R) :
  Reach B fuel TV (_setup_reg_tmp_arrays (execute_prologue st0) TV)
        (model_guess (model (execute_prologue st0)))
        (start_iters (irgn_par (execute_prologue st0))) k st result iters ->
  delta (irgn_par st0) = Fin d0 -> delta_max (irgn_par st0) = Fin dm0 ->
  gamma (irgn_par st0) = Fin g0 -> omega (irgn_par st0) = Fin w0 ->
  delta_inc (irgn_par st0) = Fin inc ->
  gamma_dec (irgn_par st0) = Fin gdec -> gamma_min (irgn_par st0) = Fin gmin ->
  omega_dec (irgn_par st0) = Fin wdec -> omega_min (irgn_par st0) = Fin wmin ->
  arr_finite (snd (gn_linearize B st result k)) ->
  let p := irgn_par (fst (gn_linearize B st result k)) in
  let nx := norm2 (arr_C (snd (gn_linearize B st result k))) in
  delta_max p = Fin (dm0 * nx / 1000)
  /\ delta p = Fin (Rmin (d0 * nx * inc ^ k / 1000) (dm0 * nx / 1000))
  /\ gamma p = Fin (Rmax (g0 * gdec ^ k) gmin)
  /\ omega p = Fin (Rmax (w0 * wdec ^ k) wmin).
Proof.
  intros HR Hd Hdm Hg Hw Hinc Hgd Hgm Hwd Hwm Hfin.
  apply kept_Reach in HR. apply conf_of_kept in HR.
  rewrite conf_setup in HR.
  unfold gn_linearize in *.
  destruct (_balance_model_gradients
              (with_grad_x st
                 (map (nan_to_num B)
                      (execute_gradient (model st) (uk_scale st) result)))
              result k) as [st2 result2] eqn:E.
  cbn [fst snd] in *.
  assert (H2 : conf st2 = conf st).
  { pose proof (kept_balance
                  (with_grad_x st
                     (map (nan_to_num B)
                          (execute_gradient (model st) (uk_scale st) result)))
                  result k) as Hb.
    rewrite E in Hb. apply conf_of_kept in Hb. exact Hb. }
  rewrite HR in H2. unfold conf in H2.
  inversion H2 as [[E1 E2 E3 E4 E5 E6 E7 E8 E9 E10]].
  apply update_reg_par_fin; cbn; try assumption; congruence.
Qed.

Lemma tau_tv : Fl.div (Fin 1) (Fl.sqrt (Fin 8)) = Fin (1 / sqrt 8).
Proof.
  rewrite FlFacts.sqrt_fin by lra.
  apply FlFacts.div_fin.
  pose proof (sqrt_lt_R0 8 ltac:(lra)). lra.
Qed.

Lemma tau_tgv :
  Fl.div (Fin 1) (Fl.sqrt L_tgv) = Fin (1 / sqrt ((18 + sqrt 33) / 2)).
Proof.
  unfold L_tgv. rewrite FlFacts.sqrt_fin by lra. cbn [Fl.add Fl.mul].
  pose proof (sqrt_pos 33) as H33.
  rewrite FlFacts.sqrt_fin by lra.
  replace (1 / 2 * (18 + sqrt 33)) with ((18 + sqrt 33) / 2) by field.
  apply FlFacts.div_fin.
  pose proof (sqrt_lt_R0 ((18 + sqrt 33) / 2) ltac:(lra)). lra.
Qed.

Lemma steps_setup (M : Type) (st : ModelReco M) (TV : Z) :
  steps (_setup_reg_tmp_arrays st TV) =
  if Z.eqb TV 1 then (Fin (1 / sqrt 8), Fin 400, Fin 1)
  else if Z.eqb TV 0 then (Fin (1 / sqrt ((18 + sqrt 33) / 2)), Fin 400, Fin 1)
  else (Fin (1 / sqrt ((18 + sqrt 33) / 2)), Fin 1, Fin 1).
Proof.
  unfold _setup_reg_tmp_arrays, steps.
  destruct (Z.eqb TV 1).
  - cbv [with_theta_line with_beta_line with_tau with_v with_z2 with_r with_z1
         tau beta_line theta_line].
    rewrite tau_tv. reflexivity.
  - destruct (Z.eqb TV 0);
      cbv [with_theta_line with_beta_line with_tau with_v with_z2 with_r with_z1
           tau beta_line theta_line];
      rewrite tau_tgv; reflexivity.
Qed.

(** C6.  In every Gauss-Newton iteration of a run set up for [TV], the
    inner solver is entered with [tau = 1/sqrt(L)], where [L = 8] for the
    TV variant and [L = (18 + sqrt 33)/2] for the TGV and the
    explicit-adjoint variant, with [theta_line = 1], and with
    [beta_line = 400] for TGV and [beta_line = 1] for the explicit-adjoint
    variant (whose local variables take these values from the object
    whatever gradient ratio it holds). *)
Theorem initial_step_sizes (M : Type) (SM : SignalModel M) (B : Backend)
  (fuel : nat) (TV : Z) (st0 : ModelReco M) (result0 : arr) (iters0 k : nat)
  (st : ModelReco M) (result : arr) (iters : nat) (x res : arr) :
  Reach B fuel TV (_setup_reg_tmp_arrays st0 TV) result0 iters0 k st result iters ->
  let st_in :=
    calc_residual B (fst (gn_linearize B st result k))
                  (snd (gn_linearize B st result k))
                  (data (fst (gn_linearize B st result k))) k TV in
  (TV = 1%Z ->
     PD.tau (tv_init B (_eval_const st_in) x res) = Fin (1 / sqrt 8)
     /\ PD.theta_line (tv_init B (_eval_const st_in) x res) = Fin 1)
  /\ (TV = 0%Z ->
        PD.tau (tgv_init B (_eval_const st_in) x res) =
        Fin (1 / sqrt ((18 + sqrt 33) / 2))
        /\ PD.theta_line (tgv_init B (_eval_const st_in) x res) = Fin 1
        /\ PD.beta_line (tgv_init B (_eval_const st_in) x res) = Fin 400)
  /\ (TV <> 0%Z -> TV <> 1%Z ->
        forall ratio : list fl,
          PD.tau (explicit_init B (_eval_const (with_op_ratio st_in ratio)) x res) =
          Fin (1 / sqrt ((18 + sqrt 33) / 2))
          /\ PD.theta_line
               (explicit_init B (_eval_const (with_op_ratio st_in ratio)) x res) =
             Fin 1
          /\ PD.beta_line
               (explicit_init B (_eval_const (with_op_ratio st_in ratio)) x res) =
             Fin 1).
Proof.
  intros HR st_in.
  apply kept_Reach in HR. apply steps_of_kept in HR.
  assert (Hin : steps st_in = steps (_setup_reg_tmp_arrays st0 TV)).
  { subst st_in.
    rewrite (steps_of_kept _ _ (kept_calc_residual B _ _ _ _ _)).
    rewrite (steps_of_kept _ _ (kept_linearize B st result k)).
    exact HR. }
  rewrite steps_setup in Hin. unfold steps in Hin.
  pose proof (f_equal (fun t => fst (fst t)) Hin) as E1.
  pose proof (f_equal (fun t => snd (fst t)) Hin) as E2.
  pose proof (f_equal snd Hin) as E3.
  cbn [fst snd] in E1, E2, E3. clear Hin HR.
  split; [| split].
  - intros HTV. rewrite HTV in E1, E3. split; [exact E1 | exact E3].
  - intros HTV. rewrite HTV in E1, E2, E3.
    split; [exact E1 | split; [exact E3 | exact E2]].
  - intros H0 H1 ratio.
    destruct (Z.eqb TV 1) eqn:T1; [apply Z.eqb_eq in T1; contradiction |].
    destruct (Z.eqb TV 0) eqn:T0; [apply Z.eqb_eq in T0; contradiction |].
    split; [exact E1 | split; [exact E3 | exact E2]].
Qed.

End DriverFacts.

(** ** Instances of the driver properties *)

Module DriverExamples.

Import Arr Spec Reco Examples.
Local Open Scope R_scope.

(** [execute(reco_2D=1)] on a fresh object. *)
Lemma execute_witness :
  execute toy 0 (blank 1) 0 0 1 = Raised NotImplementedError (blank 1).
Proof.
  apply (proj1 (DriverFacts.execute_scales_lambd
                  _ DiffdirLL.signal_model toy 0 (blank 1) 0 0 1)).
  lia.
Defined.

(** The first iteration of a TV run on a fresh object. *)
Definition st_in_tv : ModelReco DiffdirLL.Model :=
  calc_residual toy
    (fst (gn_linearize toy (_setup_reg_tmp_arrays (blank 1) 1)
                       (DiffdirLL.guess ex_model) 0))
    (snd (gn_linearize toy (_setup_reg_tmp_arrays (blank 1) 1)
                       (DiffdirLL.guess ex_model) 0))
    (data (fst (gn_linearize toy (_setup_reg_tmp_arrays (blank 1) 1)
                             (DiffdirLL.guess ex_model) 0))) 0 1.

Lemma initial_step_sizes_witness :
  PD.tau (tv_init toy (_eval_const st_in_tv) [[c 1 0]] [[c 1 0]]) = Fin (1 / sqrt 8)
  /\ PD.theta_line (tv_init toy (_eval_const st_in_tv) [[c 1 0]] [[c 1 0]]) = Fin 1.
Proof.
  apply (proj1 (DriverFacts.initial_step_sizes
                  _ DiffdirLL.signal_model toy 0 1 (blank 1)
                  (DiffdirLL.guess ex_model) 1 0
                  (_setup_reg_tmp_arrays (blank 1) 1) (DiffdirLL.guess ex_model) 1
                  [[c 1 0]] [[c 1 0]]
                  (Reach_first toy 0 1 (_setup_reg_tmp_arrays (blank 1) 1)
                               (DiffdirLL.guess ex_model) 1))).
  reflexivity.
Defined.

(** A TGV run on the constant model: the state and the estimate at the
    start of iteration 0. *)
Definition st_c : ModelReco unit :=
  _setup_reg_tmp_arrays (execute_prologue (blank_of tt 1)) 0.

Lemma linearized_estimate_finite :
  arr_finite (snd (@gn_linearize unit const_model toy st_c [[c 2 0]] 0)).
Proof.
  unfold gn_linearize.
  change (execute_gradient (model st_c) (uk_scale st_c) [[c 2 0]])
    with [[[c 3 4]]].
  change (map (nan_to_num toy) [[[c 3 4]]]) with [[[c 3 4]]].
  pose proof (BalanceFacts.length_balance unit
                (with_grad_x st_c [[[c 3 4]]]) [[c 2 0]] 0) as HL.
  pose proof (BalanceFacts.balanced_row_finite unit
                (with_grad_x st_c [[[c 3 4]]]) [[c 2 0]] 0 0 1) as HF.
  destruct (_balance_model_gradients (with_grad_x st_c [[[c 3 4]]]) [[c 2 0]] 0)
    as [st2 result2].
  cbn [fst snd] in *.
  destruct result2 as [| rw [| rw' rest]]; simpl in HL; try discriminate.
  unfold arr_finite, flat. simpl. rewrite app_nil_r.
  apply HF.
  - simpl. lia.
  - simpl. lia.
  - simpl. lia.
  - simpl. lia.
  - reflexivity.
  - lra.
  - constructor; [exists 2, 0; reflexivity | constructor].
  - constructor; [exists 3, 4; reflexivity | constructor].
  - simpl. lra.
Qed.

Lemma reg_par_schedule_witness :
  delta_max (irgn_par (fst (@gn_linearize unit const_model toy st_c [[c 2 0]] 0))) =
  Fin (10 * norm2 (arr_C (snd (@gn_linearize unit const_model toy st_c [[c 2 0]] 0)))
       / 1000)
  /\ gamma (irgn_par (fst (@gn_linearize unit const_model toy st_c [[c 2 0]] 0))) =
     Fin (Rmax (1 * (1 / 2) ^ 0) (1 / 10)).
Proof.
  destruct (DriverFacts.reg_par_schedule
              unit const_model toy 0 0 (blank_of tt 1) 0 st_c [[c 2 0]] 1
              1 10 1 1 2 (1 / 2) (1 / 10) (1 / 2) (1 / 10))
    as [H1 [_ [H3 _]]]; try reflexivity.
  - apply Reach_first.
  - apply linearized_estimate_finite.
  - split; [exact H1 | exact H3].
Defined.

End DriverExamples.

(** ** The inner solvers: the state at entry *)

Module EntryFacts.

Import Arr Spec Reco Examples.
Local Open Scope R_scope.

Definition all_zero (a : arr) : Prop := Forall (Forall (fun z => z = Cfl.czero)) a.

Lemma zeros_like_all_zero (a : arr) : all_zero (zeros_like a).
Proof.
  unfold all_zero, zeros_like, amap.
  apply Forall_forall. intros rw Hrw.
  apply in_map_iff in Hrw. destruct Hrw as [rw0 [<- _]].
  apply Forall_forall. intros z Hz.
  apply in_map_iff in Hz. destruct Hz as [z0 [<- _]]. reflexivity.
Qed.

Lemma zeros_all_zero (rows cols : nat) : all_zero (zeros rows cols).
Proof.
  unfold all_zero, zeros.
  apply Forall_forall. intros rw Hrw. apply repeat_spec in Hrw. subst rw.
  apply Forall_forall. intros z Hz. apply repeat_spec in Hz. exact Hz.
Qed.

(** C7.  An inner solve starts from the incoming [x] and from zero
    duals.  [tgv_solve_3D] runs its loop from a state with [x = xk] the
    incoming [x], with [r], [z1], [z2] and [v] zero whatever the object
    holds, and with [Axold], [gradx_xold] and [symgrad_v_vold] computed
    from that [x] and [v]; the iterations do not compute these three
    again, they exchange them with the new buffers.  [tv_solve_3D], which
    has no [z2], [v] and [symgrad_v_vold], runs its loop from [x = xk] the
    incoming [x] and zero [r] and [z1], with [Axold] computed from that
    [x] and not computed again; its [gradx_xold] is assigned at the head
    of every iteration from the current [x], which in the first
    iteration is the incoming one.  [tgv_solve_3D_explicit] raises at its
    first call and starts no solve. *)
Theorem saddle_point_entry (M : Type) (B : Backend) (fuel : nat) (st : ModelReco M)
  (x res : arr) (iters : nat) (q : PD.t) :
  (tgv_solve_3D B fuel st x res iters =
   tgv_loop B fuel (_eval_const st) (tgv_init B (_eval_const st) x res) iters 0
   /\ PD.x (tgv_init B (_eval_const st) x res) = x
   /\ PD.xk (tgv_init B (_eval_const st) x res) = x
   /\ all_zero (PD.r (tgv_init B (_eval_const st) x res))
   /\ all_zero (PD.z1 (tgv_init B (_eval_const st) x res))
   /\ all_zero (PD.z2 (tgv_init B (_eval_const st) x res))
   /\ all_zero (PD.v (tgv_init B (_eval_const st) x res))
   /\ PD.Axold (tgv_init B (_eval_const st) x res) =
      op_fwd B x (coil_buf st) (grad_buf st)
   /\ PD.gradx_xold (tgv_init B (_eval_const st) x res) =
      grad_op_fwd B (op_ratio st) x
   /\ PD.symgrad_v_vold (tgv_init B (_eval_const st) x res) =
      symgrad_op_fwd B (PD.v (tgv_init B (_eval_const st) x res))
   /\ PD.Axold (tgv_pre B (_eval_const st) q) = PD.Axold q
   /\ PD.gradx_xold (tgv_pre B (_eval_const st) q) = PD.gradx_xold q
   /\ PD.symgrad_v_vold (tgv_pre B (_eval_const st) q) = PD.symgrad_v_vold q)
  /\ (tv_solve_3D B fuel st x res iters =
      tv_loop B fuel (_eval_const st) (tv_init B (_eval_const st) x res) iters 0
      /\ PD.x (tv_init B (_eval_const st) x res) = x
      /\ PD.xk (tv_init B (_eval_const st) x res) = x
      /\ all_zero (PD.r (tv_init B (_eval_const st) x res))
      /\ all_zero (PD.z1 (tv_init B (_eval_const st) x res))
      /\ PD.Axold (tv_init B (_eval_const st) x res) =
         op_fwd B x (coil_buf st) (grad_buf st)
      /\ PD.Axold (tv_pre B (_eval_const st) q) = PD.Axold q
      /\ PD.gradx_xold (tv_pre B (_eval_const st) q) =
         grad_op_fwd B (op_ratio st) (PD.x q)
      /\ PD.gradx_xold (tv_pre B (_eval_const st) (tv_init B (_eval_const st) x res)) =
         grad_op_fwd B (op_ratio st) x)
  /\ tgv_solve_3D_explicit B fuel st x res iters = Raised AttributeError (st, x).
Proof.
  split; [| split].
  - repeat split; try reflexivity; apply zeros_like_all_zero.
  - repeat split; try reflexivity; apply zeros_like_all_zero.
  - reflexivity.
Qed.

(** An object whose [z1] was left by an earlier solve, and an incoming
    estimate. *)
Definition st_warm : ModelReco DiffdirLL.Model :=
  with_z1 (_setup_reg_tmp_arrays (blank 1) 0) [[c 1 0]].

(** The duals an object holds from an earlier solve are not taken
    over. *)
Lemma saddle_point_entry_witness :
  z1 st_warm = [[c 1 0]]
  /\ all_zero (PD.z1 (tgv_init toy (_eval_const st_warm) [[c 1 0]] [[c 0 0]]))
  /\ all_zero (PD.z1 (tv_init toy (_eval_const st_warm) [[c 1 0]] [[c 0 0]])).
Proof.
  pose proof (saddle_point_entry _ toy 0 st_warm [[c 1 0]] [[c 0 0]] 0
                (tgv_init toy (_eval_const st_warm) [[c 1 0]] [[c 0 0]])) as H.
  split; [reflexivity | split].
  - apply H.
  - apply H.
Defined.

End EntryFacts.

(** ** The inner solvers: the line search *)

Module LineSearchFacts.

Import Arr Spec Reco NormFacts.
Local Open Scope R_scope.
Local Open Scope cfl_scope.

(** The differences the two norms of the test are taken of. *)
Definition diff (a b : arr) : list Cx := arr_C (asub a b).

Definition finite_all (l : list arr) : Prop := Forall arr_finite l.

Lemma vdot_diff_fin (a b : arr) :
  arr_finite a -> arr_finite b ->
  vdot_diff a b = mkC (Fin (sumsq (diff a b))) (Fin 0).
Proof.
  intros Ha Hb. unfold vdot_diff, diff.
  apply vdot_self_fin. apply asub_finite; assumption.
Qed.

Lemma sqrt_real_one (a b : arr) :
  arr_finite a -> arr_finite b ->
  sqrt_real (vdot_diff a b) = Fin (norm2 (diff a b)).
Proof.
  intros Ha Hb. rewrite vdot_diff_fin by assumption.
  apply sqrt_real_nonneg. apply sumsq_nonneg.
Qed.

Lemma sqrt_real_two (a b a' b' : arr) :
  arr_finite a -> arr_finite b -> arr_finite a' -> arr_finite b' ->
  sqrt_real (vdot_diff a b +c vdot_diff a' b') =
  Fin (norm2 (diff a b ++ diff a' b')).
Proof.
  intros Ha Hb Ha' Hb'. rewrite !vdot_diff_fin by assumption.
  unfold Cfl.cadd. cbn [cre cim Fl.add]. rewrite Rplus_0_l.
  rewrite sqrt_real_nonneg.
  - unfold norm2. rewrite sumsq_app. reflexivity.
  - pose proof (sumsq_nonneg (diff a b)). pose proof (sumsq_nonneg (diff a' b')). lra.
Qed.

Lemma sqrt_real_three (a b a' b' a'' b'' : arr) :
  arr_finite a -> arr_finite b -> arr_finite a' -> arr_finite b' ->
  arr_finite a'' -> arr_finite b'' ->
  sqrt_real (vdot_diff a b +c vdot_diff a' b' +c vdot_diff a'' b'') =
  Fin (norm2 (diff a b ++ diff a' b' ++ diff a'' b'')).
Proof.
  intros Ha Hb Ha' Hb' Ha'' Hb''. rewrite !vdot_diff_fin by assumption.
  unfold Cfl.cadd. cbn [cre cim Fl.add]. rewrite !Rplus_0_l.
  rewrite sqrt_real_nonneg.
  - unfold norm2. rewrite !sumsq_app. f_equal. f_equal. ring.
  - pose proof (sumsq_nonneg (diff a b)). pose proof (sumsq_nonneg (diff a' b')).
    pose proof (sumsq_nonneg (diff a'' b'')). lra.
Qed.

(** The test on a state whose two norms are known. *)
Lemma accepted_fin (p : PD.t) (l y : R) :
  PD.lhs p = Fin l -> PD.ynorm p = Fin y ->
  (accepted p = true <-> l <= 1 * y).
Proof.
  intros Hl Hy. unfold accepted, delta_line. rewrite Hl, Hy.
  cbn [Fl.mul]. rewrite FlFacts.leb_fin. split; intros H; lra.
Qed.

Ltac split_finite :=
  repeat match goal with
         | H : finite_all _ |- _ => unfold finite_all in H
         | H : Forall _ (_ :: _) |- _ =>
             let H1 := fresh "Hf" in
             pose proof (Forall_inv H) as H1; apply Forall_inv_tail in H
         end.

Section Trials.

Context {M : Type} (B : Backend) (st : ModelReco M).

Lemma tgv_trial_test (p : PD.t) (beta t : R) :
  PD.beta_line p = Fin beta -> 0 <= beta -> PD.tau_new p = Fin t ->
  finite_all [PD.r_new (tgv_trial B st p); PD.r p;
              PD.z1_new (tgv_trial B st p); PD.z1 p;
              PD.z2_new (tgv_trial B st p); PD.z2 p;
              PD.Kyk1_new (tgv_trial B st p); PD.Kyk1 p;
              PD.Kyk2_new (tgv_trial B st p); PD.Kyk2 p] ->
  (accepted (tgv_trial B st p) = true <->
   sqrt beta * t *
     norm2 (diff (PD.Kyk1_new (tgv_trial B st p)) (PD.Kyk1 p) ++
            diff (PD.Kyk2_new (tgv_trial B st p)) (PD.Kyk2 p))
   <= 1 * norm2 (diff (PD.r_new (tgv_trial B st p)) (PD.r p) ++
                 diff (PD.z1_new (tgv_trial B st p)) (PD.z1 p) ++
                 diff (PD.z2_new (tgv_trial B st p)) (PD.z2 p))).
Proof.
  intros Hb Hb0 Ht Hfin.
  split_finite.
  apply accepted_fin.
  - change (PD.lhs (tgv_trial B st p)) with
      (Fl.mul (Fl.mul (Fl.sqrt (PD.beta_line p)) (PD.tau_new p))
         (sqrt_real (vdot_diff (PD.Kyk1_new (tgv_trial B st p)) (PD.Kyk1 p) +c
                     vdot_diff (PD.Kyk2_new (tgv_trial B st p)) (PD.Kyk2 p)))).
    rewrite Hb, Ht, sqrt_real_two by assumption.
    rewrite FlFacts.sqrt_fin by assumption. reflexivity.
  - change (PD.ynorm (tgv_trial B st p)) with
      (sqrt_real (vdot_diff (PD.r_new (tgv_trial B st p)) (PD.r p) +c
                  vdot_diff (PD.z1_new (tgv_trial B st p)) (PD.z1 p) +c
                  vdot_diff (PD.z2_new (tgv_trial B st p)) (PD.z2 p))).
    apply sqrt_real_three; assumption.
Qed.

Lemma tv_trial_test (p : PD.t) (beta t : R) :
  PD.beta_line p = Fin beta -> 0 <= beta -> PD.tau_new p = Fin t ->
  finite_all [PD.r_new (tv_trial B st p); PD.r p;
              PD.z1_new (tv_trial B st p); PD.z1 p;
              PD.Kyk1_new (tv_trial B st p); PD.Kyk1 p] ->
  (accepted (tv_trial B st p) = true <->
   sqrt beta * t * norm2 (diff (PD.Kyk1_new (tv_trial B st p)) (PD.Kyk1 p))
   <= 1 * norm2 (diff (PD.r_new (tv_trial B st p)) (PD.r p) ++
                 diff (PD.z1_new (tv_trial B st p)) (PD.z1 p))).
Proof.
  intros Hb Hb0 Ht Hfin. split_finite.
  apply accepted_fin.
  - change (PD.lhs (tv_trial B st p)) with
      (Fl.mul (Fl.mul (Fl.sqrt (PD.beta_line p)) (PD.tau_new p))
         (sqrt_real (vdot_diff (PD.Kyk1_new (tv_trial B st p)) (PD.Kyk1 p)))).
    rewrite Hb, Ht, sqrt_real_one by assumption.
    rewrite FlFacts.sqrt_fin by assumption. reflexivity.
  - change (PD.ynorm (tv_trial B st p)) with
      (sqrt_real (vdot_diff (PD.r_new (tv_trial B st p)) (PD.r p) +c
                  vdot_diff (PD.z1_new (tv_trial B st p)) (PD.z1 p))).
    apply sqrt_real_two; assumption.
Qed.

(** What a trial leaves as it is, and the dual step it takes. *)
Lemma tgv_trial_tau_new (p : PD.t) : PD.tau_new (tgv_trial B st p) = PD.tau_new p.
Proof. destruct p; reflexivity. Qed.

Lemma tv_trial_tau_new (p : PD.t) : PD.tau_new (tv_trial B st p) = PD.tau_new p.
Proof. destruct p; reflexivity. Qed.

Lemma tgv_trial_beta_line (p : PD.t) :
  PD.beta_line (tgv_trial B st p) = PD.beta_line p.
Proof. destruct p; reflexivity. Qed.

Lemma tv_trial_beta_line (p : PD.t) : PD.beta_line (tv_trial B st p) = PD.beta_line p.
Proof. destruct p; reflexivity. Qed.

Lemma halve_tau_new (p : PD.t) :
  PD.tau_new (halve p) = Fl.mul (PD.tau_new p) (Fin (1 / 2)).
Proof. destruct p; reflexivity. Qed.

Lemma halve_beta_line (p : PD.t) : PD.beta_line (halve p) = PD.beta_line p.
Proof. destruct p; reflexivity. Qed.

Lemma tgv_trial_z1_new (p : PD.t) :
  PD.z1_new (tgv_trial B st p) =
  update_z1 B st (PD.z1 p) (PD.gradx p) (PD.gradx_xold p) (PD.v_new p) (PD.v p)
    (Fl.mul (PD.beta_line p) (PD.tau_new p)) (Fl.div (PD.tau_new p) (PD.tau p))
    (alpha_of st) (omega (irgn_par st)).
Proof. destruct p; reflexivity. Qed.

Lemma tv_trial_z1_new (p : PD.t) :
  PD.z1_new (tv_trial B st p) =
  update_z1_tv B st (PD.z1 p) (PD.gradx p) (PD.gradx_xold p)
    (Fl.mul (PD.beta_line p) (PD.tau_new p)) (Fl.div (PD.tau_new p) (PD.tau p))
    (alpha_of st) (omega (irgn_par st)).
Proof. destruct p; reflexivity. Qed.

(** C5.  With a finite [beta_line = beta >= 0], a finite [tau_new = t]
    and finite buffers, a trial of the line search, made with the dual
    step [beta_line * tau_new], is accepted exactly when
    [sqrt beta * t * ||K^T y_new - K^T y|| <= 1 * ||y_new - y||], where
    in [tgv_solve_3D] [y = (r, z1, z2)] and [K^T y = (Kyk1, Kyk2)], and in
    [tv_solve_3D], which has no [z2] and no [Kyk2], [y = (r, z1)] and
    [K^T y = Kyk1].  A rejected trial is followed by a trial with
    [tau_new] multiplied by [1 / 2] and [beta_line] unchanged.  The
    explicit-adjoint variant performs no iteration: every call of
    [tgv_solve_3D_explicit] raises at its first statement. *)
Theorem line_search_acceptance (p : PD.t) (beta t : R) (fuel : nat) (x res : arr)
  (iters : nat) :
  PD.beta_line p = Fin beta -> 0 <= beta -> PD.tau_new p = Fin t ->
  (finite_all [PD.r_new (tgv_trial B st p); PD.r p;
               PD.z1_new (tgv_trial B st p); PD.z1 p;
               PD.z2_new (tgv_trial B st p); PD.z2 p;
               PD.Kyk1_new (tgv_trial B st p); PD.Kyk1 p;
               PD.Kyk2_new (tgv_trial B st p); PD.Kyk2 p] ->
   (accepted (tgv_trial B st p) = true <->
    sqrt beta * t *
      norm2 (diff (PD.Kyk1_new (tgv_trial B st p)) (PD.Kyk1 p) ++
             diff (PD.Kyk2_new (tgv_trial B st p)) (PD.Kyk2 p))
    <= 1 * norm2 (diff (PD.r_new (tgv_trial B st p)) (PD.r p) ++
                  diff (PD.z1_new (tgv_trial B st p)) (PD.z1 p) ++
                  diff (PD.z2_new (tgv_trial B st p)) (PD.z2 p))))
  /\ (finite_all [PD.r_new (tv_trial B st p); PD.r p;
                  PD.z1_new (tv_trial B st p); PD.z1 p;
                  PD.Kyk1_new (tv_trial B st p); PD.Kyk1 p] ->
      (accepted (tv_trial B st p) = true <->
       sqrt beta * t * norm2 (diff (PD.Kyk1_new (tv_trial B st p)) (PD.Kyk1 p))
       <= 1 * norm2 (diff (PD.r_new (tv_trial B st p)) (PD.r p) ++
                     diff (PD.z1_new (tv_trial B st p)) (PD.z1 p))))
  /\ (tgv_line_search B (S fuel) st p =
        (if accepted (tgv_trial B st p) then Some (tgv_trial B st p)
         else tgv_line_search B fuel st (halve (tgv_trial B st p)))
      /\ tv_line_search B (S fuel) st p =
        (if accepted (tv_trial B st p) then Some (tv_trial B st p)
         else tv_line_search B fuel st (halve (tv_trial B st p))))
  /\ (PD.tau_new (halve (tgv_trial B st p)) = Fin (t * (1 / 2))
      /\ PD.tau_new (halve (tv_trial B st p)) = Fin (t * (1 / 2))
      /\ PD.beta_line (halve (tgv_trial B st p)) = Fin beta
      /\ PD.beta_line (halve (tv_trial B st p)) = Fin beta)
  /\ (PD.z1_new (tgv_trial B st p) =
        update_z1 B st (PD.z1 p) (PD.gradx p) (PD.gradx_xold p) (PD.v_new p) (PD.v p)
                  (Fin (beta * t)) (Fl.div (Fin t) (PD.tau p)) (alpha_of st)
                  (omega (irgn_par st))
      /\ PD.z1_new (tv_trial B st p) =
        update_z1_tv B st (PD.z1 p) (PD.gradx p) (PD.gradx_xold p)
                  (Fin (beta * t)) (Fl.div (Fin t) (PD.tau p)) (alpha_of st)
                  (omega (irgn_par st)))
  /\ tgv_solve_3D_explicit B fuel st x res iters = Raised AttributeError (st, x).
Proof.
  intros Hb Hb0 Ht.
  split; [intros Hf; apply tgv_trial_test; assumption |].
  split; [intros Hf; apply tv_trial_test; assumption |].
  split; [repeat split |].
  split; [| split; [| reflexivity]].
  - rewrite !halve_tau_new, !halve_beta_line.
    rewrite tgv_trial_tau_new, tv_trial_tau_new.
    rewrite tgv_trial_beta_line, tv_trial_beta_line.
    rewrite Ht, Hb. repeat split.
  - rewrite tgv_trial_z1_new, tv_trial_z1_new.
    rewrite Ht, Hb. repeat split.
Qed.

(** A rejected trial followed by the halving of [tau_new]. *)
Definition retry (trial : PD.t -> PD.t) (p : PD.t) : PD.t := halve (trial p).

Section Search.

Variable trial : PD.t -> PD.t.
Variable search : nat -> PD.t -> option PD.t.
Hypothesis search_O : forall p, search O p = None.
Hypothesis search_S : forall f p,
  search (S f) p =
  if accepted (trial p) then Some (trial p) else search f (halve (trial p)).
Hypothesis trial_tau_new : forall p, PD.tau_new (trial p) = PD.tau_new p.

Lemma search_continues (k f : nat) (p : PD.t) :
  (forall j, (j < k)%nat -> accepted (trial (Nat.iter j (retry trial) p)) = false) ->
  search (k + f) p = search f (Nat.iter k (retry trial) p).
Proof.
  revert p. induction k as [| k IH]; intros p Hrej.
  - reflexivity.
  - change (S k + f)%nat with (S (k + f)). rewrite search_S.
    pose proof (Hrej O ltac:(lia)) as H0. simpl in H0. rewrite H0.
    rewrite Nat.iter_succ_r. apply IH.
    intros j Hj. rewrite <- Nat.iter_succ_r. apply Hrej. lia.
Qed.

Lemma retry_tau_new (k : nat) (p : PD.t) (t : R) :
  PD.tau_new p = Fin t ->
  PD.tau_new (Nat.iter k (retry trial) p) = Fin (t * (1 / 2) ^ k).
Proof.
  intros Ht. induction k as [| k IH].
  - simpl. rewrite Ht. f_equal. ring.
  - rewrite Nat.iter_succ. unfold retry at 1.
    rewrite halve_tau_new, trial_tau_new, IH. cbn [Fl.mul]. f_equal. simpl. ring.
Qed.

Lemma search_ends_accepted (f : nat) (p q : PD.t) :
  search f p = Some q -> accepted q = true.
Proof.
  revert p. induction f as [| f IH]; intros p H.
  - rewrite search_O in H. discriminate.
  - rewrite search_S in H. destruct (accepted (trial p)) eqn:E.
    + injection H as <-. exact E.
    + apply (IH _ H).
Qed.

End Search.

(** C8 (amended).  The line searches of [tgv_solve_3D] and
    [tv_solve_3D] compare [tau_new] with no threshold: while the trials
    are rejected, the search goes on with [tau_new] halved once more,
    whatever its size, and the only way it ends is an accepted trial; no
    error is raised. *)
Theorem line_search_has_no_floor (p : PD.t) (t : R) (k f : nat) :
  PD.tau_new p = Fin t ->
  ((forall j, (j < k)%nat ->
      accepted (tgv_trial B st (Nat.iter j (retry (tgv_trial B st)) p)) = false) ->
   tgv_line_search B (k + f) st p =
   tgv_line_search B f st (Nat.iter k (retry (tgv_trial B st)) p))
  /\ ((forall j, (j < k)%nat ->
         accepted (tv_trial B st (Nat.iter j (retry (tv_trial B st)) p)) = false) ->
      tv_line_search B (k + f) st p =
      tv_line_search B f st (Nat.iter k (retry (tv_trial B st)) p))
  /\ PD.tau_new (Nat.iter k (retry (tgv_trial B st)) p) = Fin (t * (1 / 2) ^ k)
  /\ PD.tau_new (Nat.iter k (retry (tv_trial B st)) p) = Fin (t * (1 / 2) ^ k)
  /\ (forall q, tgv_line_search B f st p = Some q -> accepted q = true)
  /\ (forall q, tv_line_search B f st p = Some q -> accepted q = true).
Proof.
  intros Ht.
  split; [| split; [| split; [| split; [| split]]]].
  - apply (search_continues (tgv_trial B st) (fun n q => tgv_line_search B n st q)).
    intros; reflexivity.
  - apply (search_continues (tv_trial B st) (fun n q => tv_line_search B n st q)).
    intros; reflexivity.
  - apply retry_tau_new; [apply tgv_trial_tau_new | exact Ht].
  - apply retry_tau_new; [apply tv_trial_tau_new | exact Ht].
  - intros q. apply (search_ends_accepted (tgv_trial B st)
                       (fun n q => tgv_line_search B n st q));
      intros; reflexivity.
  - intros q. apply (search_ends_accepted (tv_trial B st)
                       (fun n q => tv_line_search B n st q));
      intros; reflexivity.
Qed.

End Trials.
End LineSearchFacts.

(** ** The line search on a small instance *)

Module LineSearchExamples.

Import Arr Spec Reco Examples NormFacts LineSearchFacts.
Local Open Scope R_scope.
Local Open Scope cfl_scope.

Definition st0 : ModelReco DiffdirLL.Model := blank 1.

(** A state of the line search on one unknown and one voxel: all duals
    and adjoints are zero, the gradient of the new iterate is 1. *)
Definition at_rest (beta : R) (p : PD.t) : Prop :=
  PD.beta_line p = Fin beta
  /\ PD.r p = [[c 0 0]] /\ PD.z1 p = [[c 0 0]] /\ PD.z2 p = [[c 0 0]]
  /\ PD.Kyk1 p = [[c 0 0]] /\ PD.Kyk2 p = [[c 0 0]]
  /\ PD.gradx p = [[c 1 0]] /\ PD.symgrad_v p = [[c 0 0]] /\ PD.Ax p = [[c 0 0]].

Definition p_rest (beta t : R) : PD.t :=
  PD.mk [[c 1 0]] [[c 1 0]] [[c 1 0]]
        [[c 0 0]] [[c 0 0]] [[c 0 0]] [[c 0 0]] [[c 0 0]] [[c 0 0]]
        [[c 0 0]] [[c 0 0]] [[c 0 0]]
        [[c 0 0]] [[c 0 0]] [[c 0 0]] [[c 0 0]]
        [[c 1 0]] [[c 1 0]] [[c 0 0]] [[c 0 0]]
        [[c 0 0]] [[c 0 0]] [] []
        (Fin 1) (Fin t) (Fin 1) (Fin beta)
        (Fin 0) (Fin 0) (Fin 0) (Fin 0) (Fin 0) (Fin 0) (Fin 0) (Fin 0) (Fin 0).

Lemma p_rest_at_rest (beta t : R) : at_rest beta (p_rest beta t).
Proof. repeat split. Qed.

Lemma at_rest_retry_tgv (beta : R) (p : PD.t) :
  at_rest beta p -> at_rest beta (retry (tgv_trial toy st0) p).
Proof. destruct p. intros H. exact H. Qed.

Lemma norm2_sq (l : list Cx) (s : R) : 0 <= s -> sumsq l = s * s -> norm2 l = s.
Proof. intros Hs Hl. unfold norm2. rewrite Hl. apply sqrt_square. exact Hs. Qed.

Ltac at_rest_fields :=
  match goal with
  | p : PD.t |- _ =>
      destruct p;
      cbn [PD.beta_line PD.r PD.z1 PD.z2 PD.Kyk1 PD.Kyk2 PD.gradx PD.symgrad_v
           PD.Ax PD.tau_new] in *;
      subst
  end.

Ltac toy_norms H :=
  cbn in H;
  unfold c, Cfl.of_real, Cfl.cadd, Cfl.cmul, Cfl.csub, to_C in H; cbn in H.

Lemma toy_tgv_test (beta t : R) (p : PD.t) :
  at_rest beta p -> PD.tau_new p = Fin t -> 0 < beta -> 0 < t ->
  (accepted (tgv_trial toy st0 p) = true <-> sqrt beta * t <= 1).
Proof.
  intros (Hb & Hr & Hz1 & Hz2 & HK1 & HK2 & Hg & Hs & HA) Ht Hb0 Ht0.
  at_rest_fields.
  match goal with |- (accepted (tgv_trial _ _ ?p) = true <-> _) => set (p0 := p) end.
  assert (Hfin : finite_all
            [PD.r_new (tgv_trial toy st0 p0); PD.r p0;
             PD.z1_new (tgv_trial toy st0 p0); PD.z1 p0;
             PD.z2_new (tgv_trial toy st0 p0); PD.z2 p0;
             PD.Kyk1_new (tgv_trial toy st0 p0); PD.Kyk1 p0;
             PD.Kyk2_new (tgv_trial toy st0 p0); PD.Kyk2 p0]).
  { unfold finite_all. repeat constructor; eexists; eexists; reflexivity. }
  pose proof (tgv_trial_test toy st0 p0 beta t eq_refl (Rlt_le _ _ Hb0) eq_refl Hfin)
    as H.
  toy_norms H.
  assert (Hbt : 0 < beta * t) by (apply Rmult_lt_0_compat; assumption).
  match type of H with
  | _ <-> _ * norm2 ?l1 <= _ * norm2 ?l2 =>
      rewrite (norm2_sq l1 (beta * t)), (norm2_sq l2 (beta * t)) in H;
      [| lra | simpl; ring | lra | simpl; ring]
  end.
  rewrite H. split; intros Hle.
  - apply (Rmult_le_reg_r (beta * t)); [exact Hbt | lra].
  - apply (Rmult_le_compat_r (beta * t)) in Hle; lra.
Qed.

Lemma line_search_acceptance_witness :
  accepted (tgv_trial toy st0 (p_rest 1 (1 / 2))) = true <->
  sqrt 1 * (1 / 2) *
    norm2 (diff (PD.Kyk1_new (tgv_trial toy st0 (p_rest 1 (1 / 2))))
                (PD.Kyk1 (p_rest 1 (1 / 2))) ++
           diff (PD.Kyk2_new (tgv_trial toy st0 (p_rest 1 (1 / 2))))
                (PD.Kyk2 (p_rest 1 (1 / 2))))
  <= 1 * norm2 (diff (PD.r_new (tgv_trial toy st0 (p_rest 1 (1 / 2))))
                     (PD.r (p_rest 1 (1 / 2))) ++
                diff (PD.z1_new (tgv_trial toy st0 (p_rest 1 (1 / 2))))
                     (PD.z1 (p_rest 1 (1 / 2))) ++
                diff (PD.z2_new (tgv_trial toy st0 (p_rest 1 (1 / 2))))
                     (PD.z2 (p_rest 1 (1 / 2)))).
Proof.
  apply (proj1 (line_search_acceptance toy st0 (p_rest 1 (1 / 2)) 1 (1 / 2) 0
                  [[c 1 0]] [[c 0 0]] 1 eq_refl Rle_0_1 eq_refl)).
  unfold finite_all. repeat constructor; eexists; eexists; reflexivity.
Defined.

Lemma line_search_has_no_floor_witness :
  PD.tau_new (Nat.iter 2 (retry (tgv_trial toy st0)) (p_rest 1 1)) =
  Fin (1 * (1 / 2) ^ 2).
Proof.
  apply (line_search_has_no_floor toy st0 (p_rest 1 1) 1 2 0 eq_refl).
Defined.

End LineSearchExamples.

(** ** A line search that never accepts *)

Module FloorExamples.

Import Arr Spec Reco Examples NormFacts LineSearchFacts IRLLFacts.
Local Open Scope R_scope.
Local Open Scope cfl_scope.

(** The backend of the examples with a dual update of [r] that reads
    the residual: [r_new = (r + sigma ((1 + theta) A - theta A_ - res)) *
    lambdainv]. *)
Definition update_r_res (r A A_ res : arr) (sigma theta linv : fl) : arr :=
  amap (fun z => z *c rc linv)
       (step_by sigma r
          (asub (asub (step_by theta A A) (amap (fun z => rc theta *c z) A_)) res)).

Definition toy_data : Backend :=
  mkBackend (op_fwd toy) (op_adj toy) (op_adjKyk1 toy) (op_fwdoop toy)
            (grad_op_fwd toy) (grad_op_adj toy) (grad_op_updateRatio toy)
            (symgrad_op_fwd toy) (FT toy)
            (prg_update_primal toy) (prg_update_v toy) (prg_update_z1 toy)
            (prg_update_z1_tv toy) (prg_update_z2 toy) (prg_update_Kyk2 toy)
            update_r_res
            (prg_update_primal_explicit toy) (empty_like toy) (fmax toy).

(** A TGV solve on the object [_setup_reg_tmp_arrays] makes, entered
    with a finite estimate and a residual that holds a NaN, as data with
    a NaN give it. *)
Definition st_setup : ModelReco DiffdirLL.Model := _setup_reg_tmp_arrays (blank 1) 0.
Definition st_run : ModelReco DiffdirLL.Model := _eval_const st_setup.
Definition x_fin : arr := [[c 1 0]].
Definition res_nan : arr := [[cnan]].
Definition p_nan : PD.t :=
  tgv_pre toy_data st_run (tgv_init toy_data st_run x_fin res_nan).

Lemma leb_nan_r (a : fl) : Fl.leb a NaN = false.
Proof. destruct a; reflexivity. Qed.

Lemma csub_nan_l (z : cfl) : cnan -c z = cnan.
Proof. destruct z as [a b]. destruct a, b; reflexivity. Qed.

Lemma vdot_diff_nan (a : cfl) : vdot_diff [[cnan]] [[a]] = cnan.
Proof.
  unfold vdot_diff, vdot, asub, csum. cbn [azip vzip flat List.concat app fold_left].
  rewrite csub_nan_l, cmul_nan_r, cadd_nan_r. reflexivity.
Qed.

Lemma sqrt_real_nan : sqrt_real cnan = NaN.
Proof. reflexivity. Qed.

(** The dual update of [r] on one entry with a NaN residual. *)
Lemma update_r_nan (a b e : cfl) (sigma theta linv : fl) :
  update_r_res [[a]] [[b]] [[e]] [[cnan]] sigma theta linv = [[cnan]].
Proof.
  unfold update_r_res, step_by, asub, amap. cbn [azip vzip map].
  rewrite csub_nan_r, cmul_nan_r, cadd_nan_r, cmul_nan_l. reflexivity.
Qed.

(** The fields a rejected trial and the halving leave alone. *)
Definition waiting (p : PD.t) : Prop :=
  PD.r p = [[c 0 0]] /\ PD.Ax p = [[c 1 0]] /\ PD.Axold p = [[c 1 0]]
  /\ PD.res p = [[cnan]].

Lemma waiting_retry (p : PD.t) :
  waiting p -> waiting (retry (tgv_trial toy_data st_run) p).
Proof. destruct p. intros H. exact H. Qed.

Lemma waiting_iter (k : nat) :
  waiting (Nat.iter k (retry (tgv_trial toy_data st_run)) p_nan).
Proof.
  induction k as [| k IH].
  - repeat split.
  - rewrite Nat.iter_succ. apply waiting_retry. exact IH.
Qed.

Lemma trial_ynorm (p : PD.t) :
  PD.ynorm (tgv_trial toy_data st_run p) =
  sqrt_real
    (vdot_diff (update_r_res (PD.r p) (PD.Ax p) (PD.Axold p) (PD.res p)
                  (Fl.mul (PD.beta_line p) (PD.tau_new p))
                  (Fl.div (PD.tau_new p) (PD.tau p))
                  (Fl.div (Fin 1)
                     (Fl.add (Fin 1)
                        (Fl.div (Fl.mul (PD.beta_line p) (PD.tau_new p))
                                (lambd (irgn_par st_run))))))
               (PD.r p) +c
     vdot_diff (PD.z1_new (tgv_trial toy_data st_run p)) (PD.z1 p) +c
     vdot_diff (PD.z2_new (tgv_trial toy_data st_run p)) (PD.z2 p)).
Proof. destruct p. reflexivity. Qed.

(** With a NaN in the residual the norm of the dual change is NaN and
    the test fails. *)
Lemma nan_trial_rejected (p : PD.t) :
  waiting p -> accepted (tgv_trial toy_data st_run p) = false.
Proof.
  intros (Hr & HA & HAo & Hres). unfold accepted.
  rewrite trial_ynorm, Hr, HA, HAo, Hres.
  rewrite update_r_nan, vdot_diff_nan, !cadd_nan_l, sqrt_real_nan.
  cbn [Fl.mul delta_line]. apply leb_nan_r.
Qed.

(** The step sizes [propose_steps] computes from finite values. *)
Lemma propose_steps_values (M : Type) (st : ModelReco M) (p : PD.t) (t b th d : R) :
  PD.tau p = Fin t -> PD.beta_line p = Fin b -> PD.theta_line p = Fin th ->
  delta (irgn_par st) = Fin d ->
  0 < t -> 0 < b -> 0 <= th -> 0 < d ->
  PD.tau_new (propose_steps st p) =
  Fin (t * sqrt (b / (b * (1 + 1 / d * t)) * (1 + th)))
  /\ 0 < t * sqrt (b / (b * (1 + 1 / d * t)) * (1 + th)) <= t * sqrt (1 + th).
Proof.
  intros Ht Hb Hth Hd Pt Pb Pth Pd.
  assert (Htd : 0 < t / d) by (apply Rdiv_lt_0_compat; assumption).
  assert (Hbn : 0 < b * (1 + 1 / d * t)).
  { replace (1 / d * t) with (t / d) by (field; lra). nra. }
  assert (Hq : 0 < b / (b * (1 + 1 / d * t)))
    by (apply Rdiv_lt_0_compat; assumption).
  assert (Harg : 0 < b / (b * (1 + 1 / d * t)) * (1 + th)) by nra.
  split.
  - unfold propose_steps, mu_of.
    destruct p. cbn in Ht, Hb, Hth. subst.
    unfold PD.with_beta_line, PD.with_tau_new.
    cbn [PD.beta_line PD.tau_new PD.tau PD.theta_line].
    rewrite Hd, FlFacts.div_fin by lra. cbn [Fl.mul Fl.add].
    rewrite FlFacts.div_fin by lra. cbn [Fl.mul].
    rewrite FlFacts.sqrt_fin by lra. reflexivity.
  - split.
    + apply Rmult_lt_0_compat; [exact Pt | apply sqrt_lt_R0; exact Harg].
    + apply Rmult_le_compat_l; [lra |].
      apply sqrt_le_1_alt.
      assert (Hq1 : b / (b * (1 + 1 / d * t)) <= 1).
      { apply (Rmult_le_reg_r (b * (1 + 1 / d * t))); [exact Hbn |].
        replace (b / (b * (1 + 1 / d * t)) * (b * (1 + 1 / d * t))) with b
          by (field; split; lra).
        replace (1 / d * t) with (t / d) by (field; lra). nra. }
      nra.
Qed.

(** The step size with which the first line search of a solve is
    entered. *)
Lemma entry_tau_new (M : Type) (B : Backend) (st : ModelReco M) (x res : arr) :
  PD.tau_new (tgv_pre B st (tgv_init B st x res)) =
  PD.tau_new (propose_steps st
                (PD.mk x x x x x x x x x x x x x x x x x x x x x x [] []
                       (tau st) (Fin 0) (theta_line st) (beta_line st)
                       (Fin 0) (Fin 0) (Fin 0) (Fin 0) (Fin 0) (Fin 0) (Fin 0)
                       (Fin 0) (Fin 0))).
Proof. reflexivity. Qed.

Lemma delta_eval_const (M : Type) (st : ModelReco M) :
  delta (irgn_par (_eval_const st)) = delta (irgn_par st).
Proof. reflexivity. Qed.

Lemma delta_setup (M : Type) (st : ModelReco M) (TV : Z) :
  delta (irgn_par (_setup_reg_tmp_arrays st TV)) = delta (irgn_par st).
Proof.
  unfold _setup_reg_tmp_arrays.
  destruct (Z.eqb TV 1); [reflexivity |].
  destruct (Z.eqb TV 0); reflexivity.
Qed.

Lemma run_steps (M : Type) (st0 : ModelReco M) :
  tau (_eval_const (_setup_reg_tmp_arrays st0 0)) =
    Fin (1 / sqrt ((18 + sqrt 33) / 2))
  /\ beta_line (_eval_const (_setup_reg_tmp_arrays st0 0)) = Fin 400
  /\ theta_line (_eval_const (_setup_reg_tmp_arrays st0 0)) = Fin 1
  /\ delta (irgn_par (_eval_const (_setup_reg_tmp_arrays st0 0))) =
     delta (irgn_par st0).
Proof.
  pose proof (DriverFacts.steps_setup M st0 0) as H.
  cbn [Z.eqb] in H.
  pose proof (f_equal fst (FrameFacts.kept_eval_const (_setup_reg_tmp_arrays st0 0)))
    as K.
  unfold FrameFacts.kept in K. cbn [fst] in K. rewrite H in K.
  unfold FrameFacts.steps in K.
  pose proof (f_equal (fun t => fst (fst t)) K) as K1.
  pose proof (f_equal (fun t => snd (fst t)) K) as K2.
  pose proof (f_equal snd K) as K3.
  cbn [fst snd] in K1, K2, K3.
  rewrite K1, K2, K3, delta_eval_const, delta_setup.
  repeat split.
Qed.

Lemma first_tau_new :
  exists t0, 0 < t0 <= 1 /\ PD.tau_new p_nan = Fin t0.
Proof.
  set (L := (18 + sqrt 33) / 2).
  assert (HL : 9 <= L) by (unfold L; pose proof (sqrt_pos 33); lra).
  assert (Hs3 : 3 <= sqrt L).
  { replace 3 with (sqrt (3 * 3)) by (apply sqrt_square; lra).
    apply sqrt_le_1_alt. lra. }
  assert (Ht : 0 < 1 / sqrt L <= 1 / 3).
  { split.
    - apply Rdiv_lt_0_compat; lra.
    - unfold Rdiv. rewrite !Rmult_1_l. apply Rinv_le_contravar; lra. }
  assert (Hs2 : sqrt (1 + 1) <= 2).
  { apply Rle_trans with (sqrt (2 * 2)).
    - apply sqrt_le_1_alt. lra.
    - rewrite sqrt_square; lra. }
  pose proof (sqrt_pos (1 + 1)) as Hs2p.
  destruct (run_steps _ (blank 1)) as (E1 & E2 & E3 & E4).
  fold st_setup in E1, E2, E3, E4. fold st_run in E1, E2, E3, E4. fold L in E1.
  unfold p_nan. rewrite entry_tau_new.
  destruct (propose_steps_values _ st_run
              (PD.mk x_fin x_fin x_fin x_fin x_fin x_fin x_fin x_fin x_fin x_fin
                     x_fin x_fin x_fin x_fin x_fin x_fin x_fin x_fin x_fin x_fin
                     x_fin x_fin [] []
                     (tau st_run) (Fin 0) (theta_line st_run) (beta_line st_run)
                     (Fin 0) (Fin 0) (Fin 0) (Fin 0) (Fin 0) (Fin 0) (Fin 0)
                     (Fin 0) (Fin 0))
              (1 / sqrt L) 400 1 1) as (E & P1 & P2); try lra.
  - exact E1.
  - exact E2.
  - exact E3.
  - rewrite E4. reflexivity.
  - eexists. split; [| exact E]. split; [exact P1 | nra].
Qed.

(** C8, counterexample.  [tgv_solve_3D] entered with a finite
    estimate and a residual that holds a NaN, as data with a NaN give it:
    the norm of the dual change is NaN in every trial, the test
    [lhs <= ynorm * delta_line] is false every time, and [tau_new], at
    most 1 at the first trial, is halved again and again; from the 70th
    halving on it is below [1e-20], the trials go on all the same, and
    for no bound on their number does the search or the solve return. *)
Lemma line_search_halves_without_bound :
  exists t0 : R,
    0 < t0 <= 1
    /\ PD.tau_new p_nan = Fin t0
    /\ (forall k,
          accepted (tgv_trial toy_data st_run
                      (Nat.iter k (retry (tgv_trial toy_data st_run)) p_nan)) = false)
    /\ (forall k, (k <= 100)%nat ->
          PD.tau_new (Nat.iter k (retry (tgv_trial toy_data st_run)) p_nan) =
          Fin (t0 * (1 / 2) ^ k))
    /\ t0 * (1 / 2) ^ 70 < / 100000000000000000000
    /\ (forall fuel, tgv_line_search toy_data fuel st_run p_nan = None)
    /\ (forall fuel, tgv_solve_3D toy_data fuel st_setup x_fin res_nan 1 = None).
Proof.
  destruct first_tau_new as (t0 & Ht0 & E0).
  assert (Hrej : forall k,
             accepted (tgv_trial toy_data st_run
                         (Nat.iter k (retry (tgv_trial toy_data st_run)) p_nan))
             = false).
  { intros k. apply nan_trial_rejected. apply waiting_iter. }
  assert (Hnone : forall fuel, tgv_line_search toy_data fuel st_run p_nan = None).
  { intros fuel. replace fuel with (fuel + 0)%nat by lia.
    rewrite (search_continues (tgv_trial toy_data st_run)
               (fun n q => tgv_line_search toy_data n st_run q)).
    - reflexivity.
    - intros; reflexivity.
    - intros j _. apply Hrej. }
  exists t0.
  split; [exact Ht0 | split; [exact E0 | split; [exact Hrej | split; [| split; [| split]]]]].
  - intros k _.
    apply (retry_tau_new (tgv_trial toy_data st_run)).
    + apply tgv_trial_tau_new.
    + exact E0.
  - assert (Hp : (1 / 2) ^ 70 < / 100000000000000000000).
    { replace ((1 / 2) ^ 70) with (/ (2 ^ 70))
        by (rewrite <- pow_inv; f_equal; lra).
      apply Rinv_lt_contravar; [| ].
      - apply Rmult_lt_0_compat; [lra | apply pow_lt; lra].
      - replace (2 ^ 70) with (IZR (2 ^ 70)) by (rewrite pow_IZR; reflexivity).
        apply IZR_lt. reflexivity. }
    assert (Hpos : 0 < (1 / 2) ^ 70) by (apply pow_lt; lra). nra.
  - exact Hnone.
  - intros fuel. unfold tgv_solve_3D. fold st_run. cbn [tgv_loop].
    fold p_nan. rewrite Hnone. reflexivity.
Qed.

End FloorExamples.

(** ** First-order expansions: the rules *)

Module CalculusFacts.

Import Spec.
Local Open Scope R_scope.

Lemma Cx_ring : ring_theory C0 C1 Cadd Cmul Csub Cneg (@eq Cx).
Proof.
  constructor; intros;
    repeat match goal with z : Cx |- _ => destruct z end;
    unfold C0, C1, Cadd, Cmul, Csub, Cneg; simpl; f_equal; ring.
Qed.

Add Ring CxRing : Cx_ring.

Lemma m1_nonneg (z : Cx) : 0 <= m1 z.
Proof.
  unfold m1. pose proof (Rabs_pos (fst z)). pose proof (Rabs_pos (snd z)). lra.
Qed.

Lemma m1_C0 : m1 C0 = 0.
Proof. unfold m1, C0. simpl. rewrite Rabs_R0. ring. Qed.

Lemma m1_add (a b : Cx) : m1 (Cadd a b) <= m1 a + m1 b.
Proof.
  unfold m1, Cadd. simpl.
  pose proof (Rabs_triang (fst a) (fst b)).
  pose proof (Rabs_triang (snd a) (snd b)). lra.
Qed.

Lemma m1_neg (a : Cx) : m1 (Cneg a) = m1 a.
Proof. unfold m1, Cneg. simpl. rewrite !Rabs_Ropp. reflexivity. Qed.

Lemma m1_sub (a b : Cx) : m1 (Csub a b) <= m1 a + m1 b.
Proof.
  replace (Csub a b) with (Cadd a (Cneg b)) by ring.
  rewrite <- (m1_neg b). apply m1_add.
Qed.

Lemma m1_mul (a b : Cx) : m1 (Cmul a b) <= m1 a * m1 b.
Proof.
  destruct a as [a1 a2], b as [b1 b2]. unfold m1, Cmul. simpl.
  pose proof (Rabs_triang (a1 * b1) (- (a2 * b2))) as H1.
  pose proof (Rabs_triang (a1 * b2) (a2 * b1)) as H2.
  rewrite Rabs_Ropp in H1. rewrite !Rabs_mult in H1, H2.
  unfold Rminus. lra.
Qed.

Lemma M1_nonneg (n : nat) (d : nat -> Cx) : 0 <= M1 n d.
Proof.
  induction n as [| n IH]; simpl; [lra |].
  pose proof (m1_nonneg (d n)). lra.
Qed.

Lemma m1_le_M1 (n u : nat) (d : nat -> Cx) : (u < n)%nat -> m1 (d u) <= M1 n d.
Proof.
  induction n as [| n IH]; intros Hu; [lia |]. simpl.
  pose proof (m1_nonneg (d n)). pose proof (M1_nonneg n d).
  destruct (Nat.eq_dec u n) as [-> | Hne]; [lra |].
  assert (u < n)%nat by lia. specialize (IH H1). lra.
Qed.

Lemma Csum_ext (n : nat) (f f' : nat -> Cx) :
  (forall u, (u < n)%nat -> f u = f' u) -> Csum n f = Csum n f'.
Proof.
  induction n as [| n IH]; intros H; simpl; [reflexivity |].
  rewrite IH, (H n) by (intros; try apply H; lia). reflexivity.
Qed.

Lemma Csum_add (n : nat) (g h d : nat -> Cx) :
  Csum n (fun u => Cmul (Cadd (g u) (h u)) (d u)) =
  Cadd (Csum n (fun u => Cmul (g u) (d u))) (Csum n (fun u => Cmul (h u) (d u))).
Proof.
  induction n as [| n IH]; simpl; [unfold C0, Cadd; simpl; f_equal; ring |].
  rewrite IH. ring.
Qed.

Lemma Csum_scal (n : nat) (c : Cx) (g d : nat -> Cx) :
  Csum n (fun u => Cmul (Cmul c (g u)) (d u)) =
  Cmul c (Csum n (fun u => Cmul (g u) (d u))).
Proof.
  induction n as [| n IH]; simpl; [ring |]. rewrite IH. ring.
Qed.

Lemma Csum_zero (n : nat) (d : nat -> Cx) : Csum n (fun u => Cmul C0 (d u)) = C0.
Proof. induction n as [| n IH]; simpl; [reflexivity |]. rewrite IH. ring. Qed.

Lemma Csum_delta (n u : nat) (d : nat -> Cx) :
  (u < n)%nat ->
  Csum n (fun k => Cmul (if Nat.eqb k u then C1 else C0) (d k)) = d u.
Proof.
  induction n as [| n IH]; intros Hu; [lia |]. simpl.
  destruct (Nat.eq_dec u n) as [-> | Hne].
  - rewrite Nat.eqb_refl.
    rewrite (Csum_ext n _ (fun k => Cmul C0 (d k))).
    + rewrite Csum_zero. ring.
    + intros k Hk. destruct (Nat.eqb_spec k n); [lia | reflexivity].
  - rewrite IH by lia. destruct (Nat.eqb_spec n u); [lia |]. ring.
Qed.

Lemma Csum_bound (n : nat) (g d : nat -> Cx) :
  m1 (Csum n (fun u => Cmul (g u) (d u))) <= M1 n g * M1 n d.
Proof.
  induction n as [| n IH]; simpl.
  - rewrite m1_C0. lra.
  - pose proof (m1_add (Csum n (fun u => Cmul (g u) (d u))) (Cmul (g n) (d n))).
    pose proof (m1_mul (g n) (d n)).
    pose proof (m1_nonneg (g n)). pose proof (m1_nonneg (d n)).
    pose proof (M1_nonneg n g). pose proof (M1_nonneg n d).
    nra.
Qed.

(** A factor small enough for a given bound. *)
Lemma small (K eps : R) : 0 <= K -> 0 < eps -> exists eta, 0 < eta /\ K * eta <= eps.
Proof.
  intros HK He. exists (eps / (K + 1)).
  assert (Hpos : 0 < eps / (K + 1)) by (apply Rdiv_lt_0_compat; lra).
  split; [exact Hpos |].
  replace eps with ((K + 1) * (eps / (K + 1))) at 2 by (field; lra).
  nra.
Qed.

Lemma lt_min (a b m : R) : m < Rmin a b -> m < a /\ m < b.
Proof.
  intros H. pose proof (Rmin_l a b). pose proof (Rmin_r a b). lra.
Qed.

Lemma min_pos (a b : R) : 0 < a -> 0 < b -> 0 < Rmin a b.
Proof. intros Ha Hb. apply Rmin_glb_lt; assumption. Qed.

(** The exponential near zero. *)
Lemma Cexp_add (a b : Cx) : Cexp (Cadd a b) = Cmul (Cexp a) (Cexp b).
Proof.
  unfold Cexp, Cadd, Cmul. simpl.
  rewrite exp_plus, cos_plus, sin_plus. f_equal; ring.
Qed.

Lemma lim_to_o (f : R -> R) (l : R) :
  derivable_pt_lim f 0 l ->
  forall eps, 0 < eps ->
  exists delta, 0 < delta /\
    forall h, Rabs h < delta -> Rabs (f h - f 0 - l * h) <= eps * Rabs h.
Proof.
  intros Hf eps He. destruct (Hf eps He) as [delta Hd].
  exists delta. split; [apply cond_pos |]. intros h Hh.
  destruct (Req_dec h 0) as [-> | Hne].
  - replace (f 0 - f 0 - l * 0) with 0 by ring. rewrite Rabs_R0. lra.
  - specialize (Hd h Hne Hh). rewrite Rplus_0_l in Hd.
    replace (f h - f 0 - l * h) with (((f h - f 0) / h - l) * h) by (field; exact Hne).
    rewrite Rabs_mult. apply Rmult_le_compat_r; [apply Rabs_pos | lra].
Qed.

Lemma Rabs_prod_le (p q P Q : R) :
  Rabs p <= P -> Rabs q <= Q -> Rabs (p * q) <= P * Q.
Proof.
  intros Hp Hq. rewrite Rabs_mult.
  apply Rmult_le_compat; try apply Rabs_pos; assumption.
Qed.

Lemma Cexp_near_zero (eps : R) :
  0 < eps ->
  exists delta, 0 < delta /\
    forall k, m1 k < delta -> m1 (Csub (Csub (Cexp k) C1) k) <= eps * m1 k.
Proof.
  intros He.
  set (e' := Rmin 1 (eps / 8)).
  assert (He' : 0 < e') by (apply min_pos; lra).
  assert (He1 : e' <= 1) by apply Rmin_l.
  assert (He8 : e' <= eps / 8) by apply Rmin_r.
  destruct (lim_to_o exp 1 derivable_pt_lim_exp_0 e' He') as (de & Hde & Le).
  destruct (lim_to_o cos 0 derivable_pt_lim_cos_0 e' He') as (dc & Hdc & Lc).
  destruct (lim_to_o sin 1 derivable_pt_lim_sin_0 e' He') as (ds & Hds & Ls).
  exists (Rmin (Rmin de (Rmin dc ds)) (Rmin 1 (eps / 8))).
  split; [repeat apply min_pos; lra |].
  intros [a b] Hk. unfold m1 in Hk. simpl in Hk.
  apply lt_min in Hk. destruct Hk as [Hk1 Hk2].
  apply lt_min in Hk1. destruct Hk1 as [Hke Hk1].
  apply lt_min in Hk1. destruct Hk1 as [Hkc Hks].
  apply lt_min in Hk2. destruct Hk2 as [Hk2 Hk8].
  pose proof (Rabs_pos a) as HA. pose proof (Rabs_pos b) as HB.
  specialize (Le a ltac:(lra)). specialize (Lc b ltac:(lra)).
  specialize (Ls b ltac:(lra)).
  rewrite exp_0 in Le. rewrite cos_0 in Lc. rewrite sin_0 in Ls.
  set (u := exp a - 1 - 1 * a) in *.
  set (v := cos b - 1 - 0 * b) in *.
  set (w := sin b - 0 - 1 * b) in *.
  unfold m1, Csub, Cexp, C1. simpl.
  replace (exp a * cos b - 1 - a) with (v + a * v + u + u * v)
    by (unfold u, v; ring).
  replace (exp a * sin b - 0 - b) with (w + a * b + a * w + u * b + u * w)
    by (unfold u, w; ring).
  pose proof (Rabs_triang (v + a * v + u) (u * v)) as T1.
  pose proof (Rabs_triang (v + a * v) u) as T2.
  pose proof (Rabs_triang v (a * v)) as T3.
  pose proof (Rabs_triang (w + a * b + a * w + u * b) (u * w)) as T4.
  pose proof (Rabs_triang (w + a * b + a * w) (u * b)) as T5.
  pose proof (Rabs_triang (w + a * b) (a * w)) as T6.
  pose proof (Rabs_triang w (a * b)) as T7.
  pose proof (Rabs_prod_le a v _ _ (Rle_refl _) Lc) as P1.
  pose proof (Rabs_prod_le u v _ _ Le Lc) as P2.
  pose proof (Rabs_prod_le a b _ _ (Rle_refl _) (Rle_refl _)) as P3.
  pose proof (Rabs_prod_le a w _ _ (Rle_refl _) Ls) as P4.
  pose proof (Rabs_prod_le u b _ _ Le (Rle_refl _)) as P5.
  pose proof (Rabs_prod_le u w _ _ Le Ls) as P6.
  set (A := Rabs a) in *. set (Bv := Rabs b) in *.
  clearbody u v w A Bv e'.
  assert (HA1 : A <= 1) by lra.
  assert (HB1 : Bv <= 1) by lra.
  assert (HA8 : A <= eps / 8) by lra.
  assert (HeB : 0 <= e' * Bv) by (apply Rmult_le_pos; lra).
  assert (HeA : 0 <= e' * A) by (apply Rmult_le_pos; lra).
  assert (X1 : A * (e' * Bv) <= 1 * (e' * Bv))
    by (apply Rmult_le_compat_r; assumption).
  assert (X0 : e' * Bv <= 1 * 1) by (apply Rmult_le_compat; lra).
  assert (X2 : e' * A * (e' * Bv) <= e' * A * (1 * 1))
    by (apply Rmult_le_compat_l; assumption).
  assert (X3 : A * Bv <= eps / 8 * Bv) by (apply Rmult_le_compat_r; assumption).
  assert (X4 : e' * A * Bv <= 1 * 1 * Bv).
  { apply Rmult_le_compat_r; [assumption |]. apply Rmult_le_compat; lra. }
  assert (X5 : e' * A <= eps / 8 * A) by (apply Rmult_le_compat_r; assumption).
  assert (X6 : e' * Bv <= eps / 8 * Bv) by (apply Rmult_le_compat_r; assumption).
  lra.
Qed.

Section Rules.

Variable n : nat.
Variable x : nat -> Cx.

Lemma dif_ext (f f' : (nat -> Cx) -> Cx) (g g' : nat -> Cx) :
  (forall e, f e = f' e) -> (forall u, (u < n)%nat -> g u = g' u) ->
  differential n f x g -> differential n f' x g'.
Proof.
  intros Hf Hg H eps He. destruct (H eps He) as (delta & Hdelta & Hd).
  exists delta. split; [exact Hdelta |]. intros d Hdm.
  unfold remainder. rewrite <- !Hf.
  rewrite (Csum_ext n _ (fun u => Cmul (g u) (d u))).
  - apply Hd. exact Hdm.
  - intros u Hu. rewrite Hg by exact Hu. reflexivity.
Qed.

Lemma dif_const (c : Cx) : differential n (fun _ => c) x (fun _ => C0).
Proof.
  intros eps He. exists 1. split; [lra |]. intros d _.
  unfold remainder. rewrite Csum_zero.
  replace (Csub (Csub c c) C0) with C0 by ring.
  rewrite m1_C0. pose proof (M1_nonneg n d). nra.
Qed.

Lemma dif_var (u : nat) :
  (u < n)%nat ->
  differential n (fun e => e u) x (fun k => if Nat.eqb k u then C1 else C0).
Proof.
  intros Hu eps He. exists 1. split; [lra |]. intros d _.
  unfold remainder. rewrite Csum_delta by exact Hu. unfold shift.
  replace (Csub (Csub (Cadd (x u) (d u)) (x u)) (d u)) with C0 by ring.
  rewrite m1_C0. pose proof (M1_nonneg n d). nra.
Qed.

Lemma dif_add (f h : (nat -> Cx) -> Cx) (gf gh : nat -> Cx) :
  differential n f x gf -> differential n h x gh ->
  differential n (fun e => Cadd (f e) (h e)) x (fun u => Cadd (gf u) (gh u)).
Proof.
  intros Hf Hh eps He.
  destruct (Hf (eps / 2) ltac:(lra)) as (d1 & Hd1 & Rf).
  destruct (Hh (eps / 2) ltac:(lra)) as (d2 & Hd2 & Rh).
  exists (Rmin d1 d2). split; [apply min_pos; assumption |].
  intros d Hd. apply lt_min in Hd. destruct Hd as [Hda Hdb].
  specialize (Rf d Hda). specialize (Rh d Hdb).
  replace (remainder n (fun e => Cadd (f e) (h e)) x
             (fun u => Cadd (gf u) (gh u)) d)
    with (Cadd (remainder n f x gf d) (remainder n h x gh d)).
  - pose proof (m1_add (remainder n f x gf d) (remainder n h x gh d)). lra.
  - unfold remainder. rewrite Csum_add. ring.
Qed.

(** A function with a first-order expansion is locally Lipschitz. *)
Lemma dif_lipschitz (f : (nat -> Cx) -> Cx) (g : nat -> Cx) :
  differential n f x g ->
  exists delta C, 0 < delta /\ 0 <= C /\
    forall d, M1 n d < delta -> m1 (Csub (f (shift x d)) (f x)) <= C * M1 n d.
Proof.
  intros Hf. destruct (Hf 1 Rlt_0_1) as (delta & Hdelta & Rf).
  exists delta, (1 + M1 n g). pose proof (M1_nonneg n g) as Hg.
  split; [exact Hdelta | split; [lra |]]. intros d Hd.
  specialize (Rf d Hd).
  replace (Csub (f (shift x d)) (f x))
    with (Cadd (remainder n f x g d) (Csum n (fun u => Cmul (g u) (d u))))
    by (unfold remainder; ring).
  pose proof (m1_add (remainder n f x g d) (Csum n (fun u => Cmul (g u) (d u)))).
  pose proof (Csum_bound n g d). lra.
Qed.

Lemma dif_mul (f h : (nat -> Cx) -> Cx) (gf gh : nat -> Cx) :
  differential n f x gf -> differential n h x gh ->
  differential n (fun e => Cmul (f e) (h e)) x
    (fun u => Cadd (Cmul (f x) (gh u)) (Cmul (h x) (gf u))).
Proof.
  intros Hf Hh eps He.
  destruct (dif_lipschitz f gf Hf) as (d1 & Cf & Hd1 & HCf & Lf).
  destruct (dif_lipschitz h gh Hh) as (d2 & Ch & Hd2 & HCh & Lh).
  pose proof (m1_nonneg (f x)) as Hfx. pose proof (m1_nonneg (h x)) as Hhx.
  destruct (small (m1 (f x) + m1 (h x)) (eps / 2) ltac:(lra) ltac:(lra))
    as (eta & Heta & HK).
  destruct (Hf eta Heta) as (d3 & Hd3 & Rf).
  destruct (Hh eta Heta) as (d4 & Hd4 & Rh).
  destruct (small (Cf * Ch) (eps / 2) ltac:(nra) ltac:(lra)) as (d5 & Hd5 & HK5).
  exists (Rmin d1 (Rmin d2 (Rmin d3 (Rmin d4 d5)))).
  split; [repeat apply min_pos; assumption |].
  intros d Hd.
  apply lt_min in Hd. destruct Hd as [Ha Hd].
  apply lt_min in Hd. destruct Hd as [Hb Hd].
  apply lt_min in Hd. destruct Hd as [Hc Hd].
  apply lt_min in Hd. destruct Hd as [Hd He5].
  specialize (Lf d Ha). specialize (Lh d Hb).
  specialize (Rf d Hc). specialize (Rh d Hd).
  pose proof (M1_nonneg n d) as HM.
  set (df := Csub (f (shift x d)) (f x)) in *.
  set (dh := Csub (h (shift x d)) (h x)) in *.
  replace (remainder n (fun e => Cmul (f e) (h e)) x
             (fun u => Cadd (Cmul (f x) (gh u)) (Cmul (h x) (gf u))) d)
    with (Cadd (Cadd (Cmul (f x) (remainder n h x gh d))
                     (Cmul (h x) (remainder n f x gf d)))
               (Cmul df dh)).
  - pose proof (m1_add (Cadd (Cmul (f x) (remainder n h x gh d))
                             (Cmul (h x) (remainder n f x gf d))) (Cmul df dh)) as T1.
    pose proof (m1_add (Cmul (f x) (remainder n h x gh d))
                       (Cmul (h x) (remainder n f x gf d))) as T2.
    pose proof (m1_mul (f x) (remainder n h x gh d)) as P1.
    pose proof (m1_mul (h x) (remainder n f x gf d)) as P2.
    pose proof (m1_mul df dh) as P3.
    pose proof (m1_nonneg (remainder n h x gh d)) as N1.
    pose proof (m1_nonneg (remainder n f x gf d)) as N2.
    pose proof (m1_nonneg df) as N3. pose proof (m1_nonneg dh) as N4.
    assert (Q1 : m1 (f x) * m1 (remainder n h x gh d) <= m1 (f x) * (eta * M1 n d))
      by (apply Rmult_le_compat_l; assumption).
    assert (Q2 : m1 (h x) * m1 (remainder n f x gf d) <= m1 (h x) * (eta * M1 n d))
      by (apply Rmult_le_compat_l; assumption).
    assert (Q3 : m1 df * m1 dh <= (Cf * M1 n d) * (Ch * M1 n d))
      by (apply Rmult_le_compat; assumption).
    assert (Q4 : (Cf * M1 n d) * (Ch * M1 n d) <= (Cf * Ch * d5) * M1 n d).
    { replace (Cf * M1 n d * (Ch * M1 n d)) with (Cf * Ch * M1 n d * M1 n d) by ring.
      apply Rmult_le_compat_r; [exact HM |].
      apply Rmult_le_compat_l; [nra | lra]. }
    assert (Q5 : (Cf * Ch * d5) * M1 n d <= eps / 2 * M1 n d)
      by (apply Rmult_le_compat_r; assumption).
    assert (Q6 : (m1 (f x) + m1 (h x)) * eta * M1 n d <= eps / 2 * M1 n d)
      by (apply Rmult_le_compat_r; assumption).
    lra.
  - unfold remainder, df, dh. rewrite Csum_add, !Csum_scal. ring.
Qed.

Lemma dif_exp (f : (nat -> Cx) -> Cx) (gf : nat -> Cx) :
  differential n f x gf ->
  differential n (fun e => Cexp (f e)) x (fun u => Cmul (Cexp (f x)) (gf u)).
Proof.
  intros Hf eps He.
  destruct (dif_lipschitz f gf Hf) as (d1 & Cf & Hd1 & HCf & Lf).
  pose proof (m1_nonneg (Cexp (f x))) as HE.
  destruct (small (m1 (Cexp (f x))) (eps / 2) HE ltac:(lra)) as (eta & Heta & HK).
  destruct (Hf eta Heta) as (d2 & Hd2 & Rf).
  destruct (small Cf eta HCf Heta) as (eta' & Heta' & HK').
  destruct (Cexp_near_zero eta' Heta') as (d3 & Hd3 & Ex).
  destruct (small Cf (d3 / 2) HCf ltac:(lra)) as (d4 & Hd4 & HK4).
  exists (Rmin d1 (Rmin d2 d4)). split; [repeat apply min_pos; assumption |].
  intros d Hd.
  apply lt_min in Hd. destruct Hd as [Ha Hd].
  apply lt_min in Hd. destruct Hd as [Hb Hc].
  specialize (Lf d Ha). specialize (Rf d Hb).
  pose proof (M1_nonneg n d) as HM.
  set (df := Csub (f (shift x d)) (f x)) in *.
  assert (Hdf : m1 df < d3).
  { assert (Cf * M1 n d <= Cf * d4) by (apply Rmult_le_compat_l; lra). lra. }
  specialize (Ex df Hdf).
  replace (remainder n (fun e => Cexp (f e)) x
             (fun u => Cmul (Cexp (f x)) (gf u)) d)
    with (Cmul (Cexp (f x))
               (Cadd (Csub (Csub (Cexp df) C1) df) (remainder n f x gf d))).
  - pose proof (m1_mul (Cexp (f x))
                  (Cadd (Csub (Csub (Cexp df) C1) df) (remainder n f x gf d))) as P1.
    pose proof (m1_add (Csub (Csub (Cexp df) C1) df) (remainder n f x gf d)) as T1.
    pose proof (m1_nonneg df) as N1.
    assert (Q1 : eta' * m1 df <= eta' * (Cf * M1 n d))
      by (apply Rmult_le_compat_l; lra).
    assert (Q2 : eta' * (Cf * M1 n d) <= eta * M1 n d).
    { replace (eta' * (Cf * M1 n d)) with (Cf * eta' * M1 n d) by ring.
      apply Rmult_le_compat_r; assumption. }
    assert (Q3 : m1 (Cadd (Csub (Csub (Cexp df) C1) df) (remainder n f x gf d))
                 <= 2 * eta * M1 n d) by lra.
    assert (Q4 : m1 (Cexp (f x)) *
                 m1 (Cadd (Csub (Csub (Cexp df) C1) df) (remainder n f x gf d))
                 <= m1 (Cexp (f x)) * (2 * eta * M1 n d))
      by (apply Rmult_le_compat_l; assumption).
    assert (Q5 : m1 (Cexp (f x)) * eta * M1 n d <= eps / 2 * M1 n d)
      by (apply Rmult_le_compat_r; assumption).
    lra.
  - unfold remainder. rewrite Csum_scal.
    replace (f (shift x d)) with (Cadd (f x) df) by (unfold df; ring).
    rewrite Cexp_add. ring.
Qed.

End Rules.

(** From the sum norm to the Euclidean norm. *)
Lemma Cabs_le_m1 (z : Cx) : Cabs z <= m1 z.
Proof.
  destruct z as [a b]. unfold Cabs, m1. simpl.
  pose proof (Rabs_pos a) as Ha. pose proof (Rabs_pos b) as Hb.
  rewrite <- (sqrt_square (Rabs a + Rabs b)) by lra.
  apply sqrt_le_1_alt.
  assert (Hsa : a * a = Rabs a * Rabs a).
  { rewrite <- Rabs_mult. symmetry. apply Rabs_right. nra. }
  assert (Hsb : b * b = Rabs b * Rabs b).
  { rewrite <- Rabs_mult. symmetry. apply Rabs_right. nra. }
  nra.
Qed.

Lemma In_sumsq (z : Cx) (l : list Cx) :
  In z l -> fst z * fst z + snd z * snd z <= sumsq l.
Proof.
  induction l as [| y l IH]; intros H; [contradiction |]. simpl.
  pose proof (NormFacts.sumsq_nonneg l) as Hl.
  destruct H as [-> | H].
  - lra.
  - specialize (IH H). nra.
Qed.

Lemma m1_le_norm2 (z : Cx) (l : list Cx) : In z l -> m1 z <= 2 * norm2 l.
Proof.
  intros H. apply In_sumsq in H. destruct z as [a b]. simpl in H.
  unfold m1, norm2. simpl.
  assert (Ha : Rabs a <= sqrt (sumsq l)).
  { rewrite <- sqrt_Rsqr_abs. apply sqrt_le_1_alt. unfold Rsqr. nra. }
  assert (Hb : Rabs b <= sqrt (sumsq l)).
  { rewrite <- sqrt_Rsqr_abs. apply sqrt_le_1_alt. unfold Rsqr. nra. }
  lra.
Qed.

Lemma M1_le_norm2 (n : nat) (d : nat -> Cx) :
  M1 n d <= 2 * INR n * norm2 (map d (seq 0 n)).
Proof.
  assert (H : forall k, (k <= n)%nat ->
                        M1 k d <= 2 * INR k * norm2 (map d (seq 0 n))).
  { induction k as [| k IH]; intros Hk.
    - simpl. lra.
    - cbn [M1]. rewrite S_INR.
      assert (Hin : In (d k) (map d (seq 0 n))).
      { apply in_map. apply in_seq. lia. }
      apply m1_le_norm2 in Hin. specialize (IH ltac:(lia)). lra. }
  apply H. lia.
Qed.

Lemma differential_first_order (n : nat) (f : (nat -> Cx) -> Cx) (x g : nat -> Cx) :
  differential n f x g -> first_order n f x g.
Proof.
  intros Hf eps He.
  assert (Hn : 0 <= 2 * INR n) by (pose proof (pos_INR n); lra).
  destruct (small (2 * INR n) eps Hn He) as (eta & Heta & HK).
  destruct (Hf eta Heta) as (d1 & Hd1 & Rf).
  destruct (small (2 * INR n) (d1 / 2) Hn ltac:(lra)) as (d2 & Hd2 & HK2).
  exists d2. split; [exact Hd2 |]. intros d Hd.
  pose proof (M1_le_norm2 n d) as HM.
  assert (HN : 0 <= norm2 (map d (seq 0 n))) by apply sqrt_pos.
  assert (HM1 : M1 n d < d1).
  { assert (2 * INR n * norm2 (map d (seq 0 n)) <= 2 * INR n * d2)
      by (apply Rmult_le_compat_l; lra). lra. }
  specialize (Rf d HM1).
  pose proof (Cabs_le_m1 (remainder n f x g d)) as HC.
  assert (Q1 : eta * M1 n d <= eta * (2 * INR n * norm2 (map d (seq 0 n))))
    by (apply Rmult_le_compat_l; lra).
  assert (Q2 : 2 * INR n * eta * norm2 (map d (seq 0 n))
               <= eps * norm2 (map d (seq 0 n)))
    by (apply Rmult_le_compat_r; assumption).
  lra.
Qed.

End CalculusFacts.

(** ** The Jacobians of the diffusion models *)

Module JacobianFacts.

Import Arr Spec CalculusFacts.
Local Open Scope R_scope.
Local Open Scope cfl_scope.

(** A real number as a complex one. *)
Definition re (a : R) : Cx := (a, 0).

Lemma hom_rc (r : R) : rc (Fin r) = emb (re r).
Proof. reflexivity. Qed.

Lemma hom_mul (a b : Cx) : emb a *c emb b = emb (Cmul a b).
Proof. reflexivity. Qed.

Lemma hom_add (a b : Cx) : emb a +c emb b = emb (Cadd a b).
Proof. reflexivity. Qed.

Lemma hom_neg (a : Cx) : -c emb a = emb (Cneg a).
Proof. reflexivity. Qed.

Lemma hom_sq (a : Cx) : Cfl.csq (emb a) = emb (Cmul a a).
Proof. reflexivity. Qed.

Lemma hom_exp (a : Cx) : Cfl.cexp (emb a) = emb (Cexp a).
Proof. reflexivity. Qed.

Lemma hom_filter (a : Cx) : Cfl.zero_nonfinite (emb a) = emb a.
Proof. reflexivity. Qed.

Lemma to_C_emb (a : Cx) : to_C (emb a) = a.
Proof. destruct a; reflexivity. Qed.

Lemma re_mul (a b : R) : re (a * b) = Cmul (re a) (re b).
Proof. unfold re, Cmul. simpl. f_equal; ring. Qed.

Lemma re_opp (a : R) : re (- a) = Cneg (re a).
Proof. unfold re, Cneg. simpl. f_equal; ring. Qed.

Lemma re_2 : re 2 = Cadd C1 C1.
Proof. unfold re, Cadd, C1. simpl. f_equal; ring. Qed.

Lemma re_m2 : re (-2) = Cneg (Cadd C1 C1).
Proof. unfold re, Cadd, Cneg, C1. simpl. f_equal; ring. Qed.

Create Rewrite HintDb hom.
#[local] Hint Rewrite hom_rc hom_mul hom_add hom_neg hom_sq hom_exp hom_filter
  to_C_emb : hom.
#[local] Hint Rewrite re_mul re_opp re_2 re_m2 : hom.

Section Rules.

Variable n : nat.
Variable x : nat -> Cx.

Lemma dif_neg (f : (nat -> Cx) -> Cx) (gf : nat -> Cx) :
  differential n f x gf ->
  differential n (fun e => Cneg (f e)) x (fun u => Cneg (gf u)).
Proof.
  intros Hf.
  apply (dif_ext n x (fun e => Cmul (Cneg C1) (f e)) _
           (fun u => Cadd (Cmul (Cneg C1) (gf u)) (Cmul (f x) C0))).
  - intros e. ring.
  - intros u _. ring.
  - apply dif_mul; [apply dif_const | exact Hf].
Qed.

End Rules.

Ltac dif_rules :=
  repeat first
    [ apply dif_const
    | apply dif_var; lia
    | eapply dif_neg
    | eapply dif_exp
    | eapply dif_add
    | eapply dif_mul ].

Section LL.

Variable s : nat -> fl.
Variable sigma : nat -> R.
Hypothesis Hs : forall u, (u < 7)%nat -> s u = Fin (sigma u).
Variables beta d0 d1 d2 : R.
Variable phi : Cx.

(** The signal and its Jacobian at one voxel, as functions of the seven
    complex unknowns. *)
Definition F_LL (e : nat -> Cx) : Cx :=
  to_C (DiffdirLL.forward_elem s (Fin beta) (Fin d0) (Fin d1) (Fin d2) (emb phi)
          (fun u => emb (e u))).

Definition G_LL (e : nat -> Cx) (u : nat) : Cx :=
  to_C (nth u (DiffdirLL.gradient_elem s (Fin beta) (Fin d0) (Fin d1) (Fin d2)
                 (emb phi) (fun u => emb (e u))) Cfl.czero).

Ltac scales :=
  rewrite ?(Hs 0), ?(Hs 1), ?(Hs 2), ?(Hs 3), ?(Hs 4), ?(Hs 5), ?(Hs 6) by lia.

Lemma LL_differential (X : nat -> Cx) : differential 7 F_LL X (G_LL X).
Proof.
  eapply dif_ext.
  1: { intros e. unfold F_LL, DiffdirLL.forward_elem, DiffdirLL.signal, DiffdirLL.ADC,
         DiffdirLL.sq.
       scales. cbn [Fl.mul Fl.opp]. autorewrite with hom. reflexivity. }
  2: { dif_rules. }
  intros u Hu. unfold G_LL, DiffdirLL.gradient_elem, DiffdirLL.grad_raw.
  do 7 (destruct u as [| u]; [shelve |]). lia.
  Unshelve.
  all: cbn [nth map Nat.eqb];
    unfold DiffdirLL.grad_M0, DiffdirLL.grad_ADC_x, DiffdirLL.grad_ADC_xy,
      DiffdirLL.grad_ADC_y, DiffdirLL.grad_ADC_xz, DiffdirLL.grad_ADC_z,
      DiffdirLL.grad_ADC_yz, DiffdirLL.grad_M0, DiffdirLL.ADC, DiffdirLL.sq;
    scales; cbn [Fl.mul Fl.opp]; autorewrite with hom;
    match goal with
    | |- context [Cexp ?a] => generalize (Cexp a); intros E
    end;
    ring.
Qed.

End LL.

Section Lin.

Variable s : nat -> fl.
Variable sigma : nat -> R.
Hypothesis Hs : forall u, (u < 7)%nat -> s u = Fin (sigma u).
Variables beta d0 d1 d2 : R.
Variable phi : Cx.

Definition F_lin (e : nat -> Cx) : Cx :=
  to_C (Diffdir.forward_elem s (Fin beta) (Fin d0) (Fin d1) (Fin d2) (emb phi)
          (fun u => emb (e u))).

Definition G_lin (e : nat -> Cx) (u : nat) : Cx :=
  to_C (nth u (Diffdir.gradient_elem s (Fin beta) (Fin d0) (Fin d1) (Fin d2)
                 (emb phi) (fun u => emb (e u))) Cfl.czero).

Ltac scales :=
  rewrite ?(Hs 0), ?(Hs 1), ?(Hs 2), ?(Hs 3), ?(Hs 4), ?(Hs 5), ?(Hs 6) by lia.

Lemma lin_differential (X : nat -> Cx) : differential 7 F_lin X (G_lin X).
Proof.
  eapply dif_ext.
  1: { intros e. unfold F_lin, Diffdir.forward_elem, Diffdir.signal, Diffdir.ADC,
         Diffdir.sq.
       scales. cbn [Fl.mul Fl.opp]. autorewrite with hom. reflexivity. }
  2: { dif_rules. }
  intros u Hu. unfold G_lin, Diffdir.gradient_elem, Diffdir.grad_raw.
  do 7 (destruct u as [| u]; [shelve |]). lia.
  Unshelve.
  all: cbn [nth map Nat.eqb];
    unfold Diffdir.grad_M0, Diffdir.grad_ADC_x, Diffdir.grad_ADC_xy,
      Diffdir.grad_ADC_y, Diffdir.grad_ADC_xz, Diffdir.grad_ADC_z,
      Diffdir.grad_ADC_yz, Diffdir.grad_M0, Diffdir.ADC, Diffdir.sq;
    scales; cbn [Fl.mul Fl.opp]; autorewrite with hom;
    match goal with
    | |- context [Cexp ?a] => generalize (Cexp a); intros E
    end;
    ring.
Qed.

End Lin.

(** Only the seven unknowns of the voxel are read. *)
Ltac seven H :=
  rewrite ?(H 0%nat), ?(H 1%nat), ?(H 2%nat), ?(H 3%nat), ?(H 4%nat), ?(H 5%nat),
    ?(H 6%nat) by lia.

Lemma LL_forward_ext (s : nat -> fl) (bn d0 d1 d2 : fl) (ph : cfl) (a a' : nat -> cfl) :
  (forall u, (u < 7)%nat -> a u = a' u) ->
  DiffdirLL.forward_elem s bn d0 d1 d2 ph a = DiffdirLL.forward_elem s bn d0 d1 d2 ph a'.
Proof.
  intros H. unfold DiffdirLL.forward_elem, DiffdirLL.signal, DiffdirLL.ADC.
  seven H. reflexivity.
Qed.

Lemma LL_gradient_ext (s : nat -> fl) (bn d0 d1 d2 : fl) (ph : cfl) (a a' : nat -> cfl) :
  (forall u, (u < 7)%nat -> a u = a' u) ->
  DiffdirLL.gradient_elem s bn d0 d1 d2 ph a =
  DiffdirLL.gradient_elem s bn d0 d1 d2 ph a'.
Proof.
  intros H.
  unfold DiffdirLL.gradient_elem, DiffdirLL.grad_raw, DiffdirLL.grad_ADC_x,
    DiffdirLL.grad_ADC_xy, DiffdirLL.grad_ADC_y, DiffdirLL.grad_ADC_xz,
    DiffdirLL.grad_ADC_z, DiffdirLL.grad_ADC_yz, DiffdirLL.grad_M0, DiffdirLL.ADC.
  seven H. reflexivity.
Qed.

Lemma lin_forward_ext (s : nat -> fl) (bn d0 d1 d2 : fl) (ph : cfl) (a a' : nat -> cfl) :
  (forall u, (u < 7)%nat -> a u = a' u) ->
  Diffdir.forward_elem s bn d0 d1 d2 ph a = Diffdir.forward_elem s bn d0 d1 d2 ph a'.
Proof.
  intros H. unfold Diffdir.forward_elem, Diffdir.signal, Diffdir.ADC.
  seven H. reflexivity.
Qed.

Lemma lin_gradient_ext (s : nat -> fl) (bn d0 d1 d2 : fl) (ph : cfl) (a a' : nat -> cfl) :
  (forall u, (u < 7)%nat -> a u = a' u) ->
  Diffdir.gradient_elem s bn d0 d1 d2 ph a = Diffdir.gradient_elem s bn d0 d1 d2 ph a'.
Proof.
  intros H.
  unfold Diffdir.gradient_elem, Diffdir.grad_raw, Diffdir.grad_ADC_x,
    Diffdir.grad_ADC_xy, Diffdir.grad_ADC_y, Diffdir.grad_ADC_xz,
    Diffdir.grad_ADC_z, Diffdir.grad_ADC_yz, Diffdir.grad_M0, Diffdir.ADC.
  seven H. reflexivity.
Qed.

(** ** From one voxel to the arrays *)

(** The first-order expansion of an element function of the seven
    unknowns of a voxel, all values being finite floats. *)
Definition expansion (felem : (nat -> cfl) -> cfl) (gelem : (nat -> cfl) -> list cfl)
  (a : nat -> cfl) : Prop :=
  forall eps, 0 < eps ->
  exists delta, 0 < delta /\
    forall a' : nat -> cfl,
      (forall u, (u < 7)%nat -> is_cfin (a' u)) ->
      norm2 (map (fun u => Csub (to_C (a' u)) (to_C (a u))) (seq 0 7)) < delta ->
      Cabs (Csub (Csub (to_C (felem a')) (to_C (felem a)))
                 (Csum 7 (fun u => Cmul (to_C (nth u (gelem a) Cfl.czero))
                                        (Csub (to_C (a' u)) (to_C (a u))))))
      <= eps * norm2 (map (fun u => Csub (to_C (a' u)) (to_C (a u))) (seq 0 7)).

Lemma is_cfin_emb_to_C (z : cfl) : is_cfin z -> z = emb (to_C z).
Proof. intros (p & q & ->). reflexivity. Qed.

Lemma is_fin_to_R (a : fl) : is_fin a -> a = Fin (Fl.to_R a).
Proof. intros (r & ->). reflexivity. Qed.

Section Lift.

Variable felem : (nat -> cfl) -> cfl.
Variable gelem : (nat -> cfl) -> list cfl.
Hypothesis felem_ext :
  forall a a', (forall u, (u < 7)%nat -> a u = a' u) -> felem a = felem a'.
Hypothesis gelem_ext :
  forall a a', (forall u, (u < 7)%nat -> a u = a' u) -> gelem a = gelem a'.
Hypothesis Hdif :
  forall X, differential 7 (fun e => to_C (felem (fun u => emb (e u)))) X
              (fun u => to_C (nth u (gelem (fun k => emb (X k))) Cfl.czero)).

Lemma expansion_lift (a : nat -> cfl) :
  (forall u, (u < 7)%nat -> is_cfin (a u)) -> expansion felem gelem a.
Proof.
  intros Ha eps He.
  destruct (differential_first_order 7 _ _ _ (Hdif (fun u => to_C (a u))) eps He)
    as (delta & Hdelta & Hd).
  exists delta. split; [exact Hdelta |]. intros a' Ha' Hn.
  specialize (Hd (fun u => Csub (to_C (a' u)) (to_C (a u))) Hn).
  unfold remainder in Hd.
  rewrite (felem_ext (fun u => emb (shift (fun u0 => to_C (a u0))
                                      (fun u0 => Csub (to_C (a' u0)) (to_C (a u0))) u))
             a') in Hd.
  - rewrite (felem_ext (fun u => emb (to_C (a u))) a) in Hd
      by (intros u Hu; symmetry; apply is_cfin_emb_to_C; apply Ha; exact Hu).
    rewrite (gelem_ext (fun k => emb (to_C (a k))) a) in Hd
      by (intros u Hu; symmetry; apply is_cfin_emb_to_C; apply Ha; exact Hu).
    exact Hd.
  - intros u Hu. unfold shift.
    replace (Cadd (to_C (a u)) (Csub (to_C (a' u)) (to_C (a u)))) with (to_C (a' u))
      by ring.
    symmetry. apply is_cfin_emb_to_C. apply Ha'. exact Hu.
Qed.

End Lift.

End JacobianFacts.

(** ** The Jacobians of the diffusion models, on the arrays *)

Module JacobianArrays.

Import Arr Spec CalculusFacts JacobianFacts.
Local Open Scope R_scope.
Local Open Scope cfl_scope.

(** The first-order expansion of entry [(n, v)] of [F] at [x], the
    perturbed arrays [x'] having finite unknowns at voxel [v]; [J x] holds
    the partial derivatives, unknown by unknown. *)
Definition expansion_at (F : arr -> arr) (J : arr -> list arr) (x : arr)
  (n v : nat) : Prop :=
  forall eps, 0 < eps ->
  exists delta, 0 < delta /\
    forall x' : arr,
      (v < length (row x' 0))%nat ->
      (forall u, (u < 7)%nat -> is_cfin (at2 x' u v)) ->
      norm2 (map (fun u => Csub (to_C (at2 x' u v)) (to_C (at2 x u v))) (seq 0 7))
      < delta ->
      Cabs (Csub (Csub (to_C (at2 (F x') n v)) (to_C (at2 (F x) n v)))
                 (Csum 7 (fun u => Cmul (to_C (at2 (nth u (J x) []) n v))
                                        (Csub (to_C (at2 x' u v))
                                              (to_C (at2 x u v))))))
      <= eps *
         norm2 (map (fun u => Csub (to_C (at2 x' u v)) (to_C (at2 x u v))) (seq 0 7)).

(** The parameters of scan [n] at voxel [v] are finite. *)
Definition scan_finite (uk_scale b : list fl) (d0 d1 d2 : fl) (phase : arr)
  (n v : nat) : Prop :=
  (forall u, (u < 7)%nat -> is_fin (rget uk_scale u))
  /\ is_fin (rget b n) /\ is_fin d0 /\ is_fin d1 /\ is_fin d2
  /\ is_cfin (at2 phase n v).

Lemma LL_expansion_at (m : DiffdirLL.Model) (x : arr) (n v : nat) :
  scan_finite (DiffdirLL.uk_scale m) (DiffdirLL.b m) (DiffdirLL.dir0 m n)
              (DiffdirLL.dir1 m n) (DiffdirLL.dir2 m n) (DiffdirLL.phase m) n v ->
  (n < DiffdirLL.NScan m)%nat -> (v < length (row x 0))%nat ->
  (forall u, (u < 7)%nat -> is_cfin (at2 x u v)) ->
  expansion_at (DiffdirLL._execute_forward_3D m) (DiffdirLL._execute_gradient_3D m)
               x n v.
Proof.
  intros (Hs & [beta Hb] & [d0 Hd0] & [d1 Hd1] & [d2 Hd2] & Hph) Hn Hv Hx eps He.
  apply is_cfin_emb_to_C in Hph.
  assert (Hs' : forall u, (u < 7)%nat ->
                  rget (DiffdirLL.uk_scale m) u =
                  Fin (Fl.to_R (rget (DiffdirLL.uk_scale m) u)))
    by (intros u Hu; apply is_fin_to_R; apply Hs; exact Hu).
  destruct (expansion_lift _ _
              (LL_forward_ext (rget (DiffdirLL.uk_scale m)) (Fin beta) (Fin d0)
                 (Fin d1) (Fin d2) (emb (to_C (at2 (DiffdirLL.phase m) n v))))
              (LL_gradient_ext (rget (DiffdirLL.uk_scale m)) (Fin beta) (Fin d0)
                 (Fin d1) (Fin d2) (emb (to_C (at2 (DiffdirLL.phase m) n v))))
              (LL_differential _ _ Hs' beta d0 d1 d2 _)
              (fun u => at2 x u v) Hx eps He) as (delta & Hdelta & Hd).
  exists delta. split; [exact Hdelta |]. intros x' Hv' Hx' Hnorm.
  specialize (Hd (fun u => at2 x' u v) Hx' Hnorm).
  unfold DiffdirLL._execute_forward_3D, DiffdirLL._execute_gradient_3D,
    DiffdirLL.forward_with, DiffdirLL.gradient_with, DiffdirLL.nvox.
  rewrite !ArrFacts.at2_map_seq by assumption.
  rewrite Hb, Hd0, Hd1, Hd2, Hph.
  rewrite (Csum_ext 7 _
             (fun u => Cmul
                (to_C (nth u (DiffdirLL.gradient_elem (rget (DiffdirLL.uk_scale m))
                                (Fin beta) (Fin d0) (Fin d1) (Fin d2)
                                (emb (to_C (at2 (DiffdirLL.phase m) n v)))
                                (fun k => at2 x k v)) Cfl.czero))
                (Csub (to_C (at2 x' u v)) (to_C (at2 x u v))))).
  - exact Hd.
  - intros u Hu. cbv beta.
    rewrite ArrFacts.nth_map_seq by exact Hu.
    rewrite ArrFacts.at2_map_seq by assumption.
    rewrite Hb, Hd0, Hd1, Hd2, Hph. reflexivity.
Qed.

Lemma lin_expansion_at (m : Diffdir.Model) (x : arr) (n v : nat) :
  scan_finite (Diffdir.uk_scale m) (Diffdir.b m) (Diffdir.dir0 m n)
              (Diffdir.dir1 m n) (Diffdir.dir2 m n) (Diffdir.phase m) n v ->
  (n < Diffdir.NScan m)%nat -> (v < length (row x 0))%nat ->
  (forall u, (u < 7)%nat -> is_cfin (at2 x u v)) ->
  expansion_at (Diffdir._execute_forward_3D m) (Diffdir._execute_gradient_3D m)
               x n v.
Proof.
  intros (Hs & [beta Hb] & [d0 Hd0] & [d1 Hd1] & [d2 Hd2] & Hph) Hn Hv Hx eps He.
  apply is_cfin_emb_to_C in Hph.
  assert (Hs' : forall u, (u < 7)%nat ->
                  rget (Diffdir.uk_scale m) u =
                  Fin (Fl.to_R (rget (Diffdir.uk_scale m) u)))
    by (intros u Hu; apply is_fin_to_R; apply Hs; exact Hu).
  destruct (expansion_lift _ _
              (lin_forward_ext (rget (Diffdir.uk_scale m)) (Fin beta) (Fin d0)
                 (Fin d1) (Fin d2) (emb (to_C (at2 (Diffdir.phase m) n v))))
              (lin_gradient_ext (rget (Diffdir.uk_scale m)) (Fin beta) (Fin d0)
                 (Fin d1) (Fin d2) (emb (to_C (at2 (Diffdir.phase m) n v))))
              (lin_differential _ _ Hs' beta d0 d1 d2 _)
              (fun u => at2 x u v) Hx eps He) as (delta & Hdelta & Hd).
  exists delta. split; [exact Hdelta |]. intros x' Hv' Hx' Hnorm.
  specialize (Hd (fun u => at2 x' u v) Hx' Hnorm).
  unfold Diffdir._execute_forward_3D, Diffdir._execute_gradient_3D,
    Diffdir.nvox.
  rewrite !ArrFacts.at2_map_seq by assumption.
  rewrite Hb, Hd0, Hd1, Hd2, Hph.
  rewrite (Csum_ext 7 _
             (fun u => Cmul
                (to_C (nth u (Diffdir.gradient_elem (rget (Diffdir.uk_scale m))
                                (Fin beta) (Fin d0) (Fin d1) (Fin d2)
                                (emb (to_C (at2 (Diffdir.phase m) n v)))
                                (fun k => at2 x k v)) Cfl.czero))
                (Csub (to_C (at2 x' u v)) (to_C (at2 x u v))))).
  - exact Hd.
  - intros u Hu. cbv beta.
    rewrite ArrFacts.nth_map_seq by exact Hu.
    rewrite ArrFacts.at2_map_seq by assumption.
    rewrite Hb, Hd0, Hd1, Hd2, Hph. reflexivity.
Qed.

(** C3.  For both diffusion models, at every input [x] whose unknowns at
    a voxel [v] are finite (the parameters of the scan being finite, so
    that the signal is finite), entry [(n, v)] of [_execute_forward_3D] has
    the first-order expansion
    [forward (x') = forward (x) + sum_u grad_x[u] * (x'[u] - x[u]) + o(|x' - x|)]
    whose coefficients are the entries [(u, n, v)] of
    [_execute_gradient_3D (x)]: the Jacobian holds the partial
    derivatives of the signal with respect to the seven unknowns. *)
Theorem jacobian_is_derivative :
  (forall (m : DiffdirLL.Model) (x : arr) (n v : nat),
     scan_finite (DiffdirLL.uk_scale m) (DiffdirLL.b m) (DiffdirLL.dir0 m n)
                 (DiffdirLL.dir1 m n) (DiffdirLL.dir2 m n) (DiffdirLL.phase m) n v ->
     (n < DiffdirLL.NScan m)%nat -> (v < length (row x 0))%nat ->
     (forall u, (u < 7)%nat -> is_cfin (at2 x u v)) ->
     expansion_at (DiffdirLL._execute_forward_3D m)
                  (DiffdirLL._execute_gradient_3D m) x n v)
  /\ (forall (m : Diffdir.Model) (x : arr) (n v : nat),
        scan_finite (Diffdir.uk_scale m) (Diffdir.b m) (Diffdir.dir0 m n)
                    (Diffdir.dir1 m n) (Diffdir.dir2 m n) (Diffdir.phase m) n v ->
        (n < Diffdir.NScan m)%nat -> (v < length (row x 0))%nat ->
        (forall u, (u < 7)%nat -> is_cfin (at2 x u v)) ->
        expansion_at (Diffdir._execute_forward_3D m)
                     (Diffdir._execute_gradient_3D m) x n v).
Proof.
  split.
  - intros m x n v. apply LL_expansion_at.
  - intros m x n v. apply lin_expansion_at.
Qed.

(** The model of the examples at its initial guess. *)
Lemma jacobian_witness :
  expansion_at (DiffdirLL._execute_forward_3D Examples.ex_model)
               (DiffdirLL._execute_gradient_3D Examples.ex_model)
               (DiffdirLL.guess Examples.ex_model) 0 0.
Proof.
  apply (proj1 jacobian_is_derivative Examples.ex_model
           (DiffdirLL.guess Examples.ex_model) 0%nat 0%nat).
  - repeat split; try (eexists; reflexivity); try (eexists; eexists; reflexivity).
    intros u Hu.
    do 7 (destruct u as [| u]; [eexists; reflexivity |]). lia.
  - simpl. lia.
  - simpl. lia.
  - intros u Hu.
    do 7 (destruct u as [| u]; [eexists; eexists; reflexivity |]). lia.
Defined.

End JacobianArrays.

(** ** The diffusion models: what the signal formulas entail *)

Module ModelFacts.

Import Arr Spec CalculusFacts JacobianFacts JacobianArrays.
Local Open Scope R_scope.
Local Open Scope cfl_scope.

#[local] Hint Rewrite hom_rc hom_mul hom_add hom_neg hom_sq hom_exp hom_filter
  to_C_emb : hom.
#[local] Hint Rewrite re_mul re_opp re_2 re_m2 : hom.

Lemma re_0 : re 0 = C0.
Proof. reflexivity. Qed.

Lemma re_1 : re 1 = C1.
Proof. reflexivity. Qed.

Lemma Cexp_C0 : Cexp C0 = C1.
Proof.
  unfold Cexp, C0, C1. simpl. rewrite exp_0, cos_0, sin_0. f_equal; ring.
Qed.

(** Entry [(n, v)] of the signal and entry [(u, n, v)] of the Jacobian, the
    parameters of the scan and the unknowns of the voxel being finite. *)
Lemma LL_forward_at (m : DiffdirLL.Model) (x : arr) (n v : nat) :
  scan_finite (DiffdirLL.uk_scale m) (DiffdirLL.b m) (DiffdirLL.dir0 m n)
              (DiffdirLL.dir1 m n) (DiffdirLL.dir2 m n) (DiffdirLL.phase m) n v ->
  (n < DiffdirLL.NScan m)%nat -> (v < length (row x 0))%nat ->
  forall X : nat -> Cx, (forall u, (u < 7)%nat -> at2 x u v = emb (X u)) ->
  at2 (DiffdirLL._execute_forward_3D m x) n v =
  DiffdirLL.forward_elem (rget (DiffdirLL.uk_scale m))
    (Fin (Fl.to_R (rget (DiffdirLL.b m) n)))
    (Fin (Fl.to_R (DiffdirLL.dir0 m n))) (Fin (Fl.to_R (DiffdirLL.dir1 m n)))
    (Fin (Fl.to_R (DiffdirLL.dir2 m n)))
    (emb (to_C (at2 (DiffdirLL.phase m) n v)))
    (fun u => emb (X u)).
Proof.
  intros (Hs & Hb & Hd0 & Hd1 & Hd2 & Hph) Hn Hv X Hx.
  unfold DiffdirLL._execute_forward_3D, DiffdirLL.forward_with, DiffdirLL.nvox.
  rewrite ArrFacts.at2_map_seq by assumption.
  rewrite <- (is_fin_to_R _ Hb), <- (is_fin_to_R _ Hd0), <- (is_fin_to_R _ Hd1),
    <- (is_fin_to_R _ Hd2), <- (is_cfin_emb_to_C _ Hph).
  apply LL_forward_ext. intros u Hu. apply Hx. exact Hu.
Qed.

Lemma LL_gradient_at (m : DiffdirLL.Model) (x : arr) (u n v : nat) :
  scan_finite (DiffdirLL.uk_scale m) (DiffdirLL.b m) (DiffdirLL.dir0 m n)
              (DiffdirLL.dir1 m n) (DiffdirLL.dir2 m n) (DiffdirLL.phase m) n v ->
  (u < 7)%nat -> (n < DiffdirLL.NScan m)%nat -> (v < length (row x 0))%nat ->
  forall X : nat -> Cx, (forall u, (u < 7)%nat -> at2 x u v = emb (X u)) ->
  at2 (nth u (DiffdirLL._execute_gradient_3D m x) []) n v =
  nth u (DiffdirLL.gradient_elem (rget (DiffdirLL.uk_scale m))
           (Fin (Fl.to_R (rget (DiffdirLL.b m) n)))
           (Fin (Fl.to_R (DiffdirLL.dir0 m n))) (Fin (Fl.to_R (DiffdirLL.dir1 m n)))
           (Fin (Fl.to_R (DiffdirLL.dir2 m n)))
           (emb (to_C (at2 (DiffdirLL.phase m) n v)))
           (fun k => emb (X k))) Cfl.czero.
Proof.
  intros (Hs & Hb & Hd0 & Hd1 & Hd2 & Hph) Hu Hn Hv X Hx.
  unfold DiffdirLL._execute_gradient_3D, DiffdirLL.gradient_with, DiffdirLL.nvox.
  rewrite ArrFacts.nth_map_seq by exact Hu.
  rewrite ArrFacts.at2_map_seq by assumption.
  rewrite <- (is_fin_to_R _ Hb), <- (is_fin_to_R _ Hd0), <- (is_fin_to_R _ Hd1),
    <- (is_fin_to_R _ Hd2), <- (is_cfin_emb_to_C _ Hph).
  f_equal. apply LL_gradient_ext. intros k Hk. apply Hx. exact Hk.
Qed.

Lemma lin_forward_at (m : Diffdir.Model) (x : arr) (n v : nat) :
  scan_finite (Diffdir.uk_scale m) (Diffdir.b m) (Diffdir.dir0 m n)
              (Diffdir.dir1 m n) (Diffdir.dir2 m n) (Diffdir.phase m) n v ->
  (n < Diffdir.NScan m)%nat -> (v < length (row x 0))%nat ->
  forall X : nat -> Cx, (forall u, (u < 7)%nat -> at2 x u v = emb (X u)) ->
  at2 (Diffdir._execute_forward_3D m x) n v =
  Diffdir.forward_elem (rget (Diffdir.uk_scale m))
    (Fin (Fl.to_R (rget (Diffdir.b m) n)))
    (Fin (Fl.to_R (Diffdir.dir0 m n))) (Fin (Fl.to_R (Diffdir.dir1 m n)))
    (Fin (Fl.to_R (Diffdir.dir2 m n)))
    (emb (to_C (at2 (Diffdir.phase m) n v)))
    (fun u => emb (X u)).
Proof.
  intros (Hs & Hb & Hd0 & Hd1 & Hd2 & Hph) Hn Hv X Hx.
  unfold Diffdir._execute_forward_3D, Diffdir.nvox.
  rewrite ArrFacts.at2_map_seq by assumption.
  rewrite <- (is_fin_to_R _ Hb), <- (is_fin_to_R _ Hd0), <- (is_fin_to_R _ Hd1),
    <- (is_fin_to_R _ Hd2), <- (is_cfin_emb_to_C _ Hph).
  apply lin_forward_ext. intros u Hu. apply Hx. exact Hu.
Qed.

Lemma lin_gradient_at (m : Diffdir.Model) (x : arr) (u n v : nat) :
  scan_finite (Diffdir.uk_scale m) (Diffdir.b m) (Diffdir.dir0 m n)
              (Diffdir.dir1 m n) (Diffdir.dir2 m n) (Diffdir.phase m) n v ->
  (u < 7)%nat -> (n < Diffdir.NScan m)%nat -> (v < length (row x 0))%nat ->
  forall X : nat -> Cx, (forall u, (u < 7)%nat -> at2 x u v = emb (X u)) ->
  at2 (nth u (Diffdir._execute_gradient_3D m x) []) n v =
  nth u (Diffdir.gradient_elem (rget (Diffdir.uk_scale m))
           (Fin (Fl.to_R (rget (Diffdir.b m) n)))
           (Fin (Fl.to_R (Diffdir.dir0 m n))) (Fin (Fl.to_R (Diffdir.dir1 m n)))
           (Fin (Fl.to_R (Diffdir.dir2 m n)))
           (emb (to_C (at2 (Diffdir.phase m) n v)))
           (fun k => emb (X k))) Cfl.czero.
Proof.
  intros (Hs & Hb & Hd0 & Hd1 & Hd2 & Hph) Hu Hn Hv X Hx.
  unfold Diffdir._execute_gradient_3D, Diffdir.nvox.
  rewrite ArrFacts.nth_map_seq by exact Hu.
  rewrite ArrFacts.at2_map_seq by assumption.
  rewrite <- (is_fin_to_R _ Hb), <- (is_fin_to_R _ Hd0), <- (is_fin_to_R _ Hd1),
    <- (is_fin_to_R _ Hd2), <- (is_cfin_emb_to_C _ Hph).
  f_equal. apply lin_gradient_ext. intros k Hk. apply Hx. exact Hk.
Qed.

(** The scales of the seven unknowns as real numbers. *)
Lemma scales_fin (s : list fl) :
  (forall u, (u < 7)%nat -> is_fin (rget s u)) ->
  exists sigma : nat -> R, forall u, (u < 7)%nat -> rget s u = Fin (sigma u).
Proof.
  intros H. exists (fun u => Fl.to_R (rget s u)).
  intros u Hu. apply is_fin_to_R. apply H. exact Hu.
Qed.

Lemma unknowns_fin (x : arr) (v : nat) :
  (forall u, (u < 7)%nat -> is_cfin (at2 x u v)) ->
  exists X : nat -> Cx, forall u, (u < 7)%nat -> at2 x u v = emb (X u).
Proof.
  intros H. exists (fun u => to_C (at2 x u v)).
  intros u Hu. apply is_cfin_emb_to_C. apply H. exact Hu.
Qed.

Ltac normal_LL Hs :=
  unfold DiffdirLL.forward_elem, DiffdirLL.gradient_elem, DiffdirLL.grad_raw;
  cbn [nth map];
  unfold DiffdirLL.signal, DiffdirLL.grad_M0, DiffdirLL.grad_ADC_x,
    DiffdirLL.grad_ADC_xy, DiffdirLL.grad_ADC_y, DiffdirLL.grad_ADC_xz,
    DiffdirLL.grad_ADC_z, DiffdirLL.grad_ADC_yz, DiffdirLL.grad_M0, DiffdirLL.ADC,
    DiffdirLL.sq;
  rewrite ?(Hs 0%nat), ?(Hs 1%nat), ?(Hs 2%nat), ?(Hs 3%nat), ?(Hs 4%nat),
    ?(Hs 5%nat), ?(Hs 6%nat) by lia;
  cbn [Fl.mul Fl.opp]; autorewrite with hom.

Ltac normal_lin Hs :=
  unfold Diffdir.forward_elem, Diffdir.gradient_elem, Diffdir.grad_raw;
  cbn [nth map];
  unfold Diffdir.signal, Diffdir.grad_M0, Diffdir.grad_ADC_x,
    Diffdir.grad_ADC_xy, Diffdir.grad_ADC_y, Diffdir.grad_ADC_xz,
    Diffdir.grad_ADC_z, Diffdir.grad_ADC_yz, Diffdir.grad_M0, Diffdir.ADC,
    Diffdir.sq;
  rewrite ?(Hs 0%nat), ?(Hs 1%nat), ?(Hs 2%nat), ?(Hs 3%nat), ?(Hs 4%nat),
    ?(Hs 5%nat), ?(Hs 6%nat) by lia;
  cbn [Fl.mul Fl.opp]; autorewrite with hom.

(** In both diffusion models the signal is the equilibrium magnetization
    [x[0]] times its own partial derivative: entry [(n, v)] of
    [_execute_forward_3D (x)] is [x[0, v]] times entry [(0, n, v)] of
    [_execute_gradient_3D (x)], where the unknowns of the voxel and the
    parameters of the scan are finite. *)
Theorem signal_is_M0_times_its_derivative :
  (forall (m : DiffdirLL.Model) (x : arr) (n v : nat),
     scan_finite (DiffdirLL.uk_scale m) (DiffdirLL.b m) (DiffdirLL.dir0 m n)
                 (DiffdirLL.dir1 m n) (DiffdirLL.dir2 m n) (DiffdirLL.phase m) n v ->
     (n < DiffdirLL.NScan m)%nat -> (v < length (row x 0))%nat ->
     (forall u, (u < 7)%nat -> is_cfin (at2 x u v)) ->
     at2 (DiffdirLL._execute_forward_3D m x) n v =
     at2 x 0 v *c at2 (nth 0 (DiffdirLL._execute_gradient_3D m x) []) n v)
  /\ (forall (m : Diffdir.Model) (x : arr) (n v : nat),
        scan_finite (Diffdir.uk_scale m) (Diffdir.b m) (Diffdir.dir0 m n)
                    (Diffdir.dir1 m n) (Diffdir.dir2 m n) (Diffdir.phase m) n v ->
        (n < Diffdir.NScan m)%nat -> (v < length (row x 0))%nat ->
        (forall u, (u < 7)%nat -> is_cfin (at2 x u v)) ->
        at2 (Diffdir._execute_forward_3D m x) n v =
        at2 x 0 v *c at2 (nth 0 (Diffdir._execute_gradient_3D m x) []) n v).
Proof.
  split; intros m x n v Hfin Hn Hv Hx.
  - destruct (scales_fin _ (proj1 Hfin)) as [sigma Hs].
    destruct (unknowns_fin x v Hx) as [X HX].
    rewrite (LL_forward_at m x n v Hfin Hn Hv X HX).
    rewrite (LL_gradient_at m x 0 n v Hfin ltac:(lia) Hn Hv X HX).
    rewrite (HX 0%nat) by lia.
    normal_LL Hs.
    match goal with
    | |- context [Cexp ?a] => generalize (Cexp a); intros E
    end.
    f_equal. ring.
  - destruct (scales_fin _ (proj1 Hfin)) as [sigma Hs].
    destruct (unknowns_fin x v Hx) as [X HX].
    rewrite (lin_forward_at m x n v Hfin Hn Hv X HX).
    rewrite (lin_gradient_at m x 0 n v Hfin ltac:(lia) Hn Hv X HX).
    rewrite (HX 0%nat) by lia.
    normal_lin Hs.
    match goal with
    | |- context [Cexp ?a] => generalize (Cexp a); intros E
    end.
    f_equal. ring.
Qed.

Lemma phase_fin (ph : arr) (n v : nat) :
  is_cfin (at2 ph n v) -> at2 ph n v = emb (to_C (at2 ph n v)).
Proof. apply is_cfin_emb_to_C. Qed.

(** A scan without diffusion weighting ([b = 0]) does not see the
    tensor: in both models its signal is [x[0] * uk_scale[0] * phase] and
    the six partial derivatives with respect to the tensor unknowns are
    zero, where the unknowns of the voxel and the parameters of the scan
    are finite. *)
Theorem unweighted_scan_ignores_tensor :
  (forall (m : DiffdirLL.Model) (x : arr) (n v : nat),
     scan_finite (DiffdirLL.uk_scale m) (DiffdirLL.b m) (DiffdirLL.dir0 m n)
                 (DiffdirLL.dir1 m n) (DiffdirLL.dir2 m n) (DiffdirLL.phase m) n v ->
     (n < DiffdirLL.NScan m)%nat -> (v < length (row x 0))%nat ->
     (forall u, (u < 7)%nat -> is_cfin (at2 x u v)) ->
     rget (DiffdirLL.b m) n = Fin 0 ->
     at2 (DiffdirLL._execute_forward_3D m x) n v =
     at2 x 0 v *c rc (rget (DiffdirLL.uk_scale m) 0) *c at2 (DiffdirLL.phase m) n v
     /\ forall u, (1 <= u < 7)%nat ->
          at2 (nth u (DiffdirLL._execute_gradient_3D m x) []) n v = Cfl.czero)
  /\ (forall (m : Diffdir.Model) (x : arr) (n v : nat),
        scan_finite (Diffdir.uk_scale m) (Diffdir.b m) (Diffdir.dir0 m n)
                    (Diffdir.dir1 m n) (Diffdir.dir2 m n) (Diffdir.phase m) n v ->
        (n < Diffdir.NScan m)%nat -> (v < length (row x 0))%nat ->
        (forall u, (u < 7)%nat -> is_cfin (at2 x u v)) ->
        rget (Diffdir.b m) n = Fin 0 ->
        at2 (Diffdir._execute_forward_3D m x) n v =
        at2 x 0 v *c rc (rget (Diffdir.uk_scale m) 0) *c at2 (Diffdir.phase m) n v
        /\ forall u, (1 <= u < 7)%nat ->
             at2 (nth u (Diffdir._execute_gradient_3D m x) []) n v = Cfl.czero).
Proof.
  split; intros m x n v Hfin Hn Hv Hx Hb0.
  - destruct (scales_fin _ (proj1 Hfin)) as [sigma Hs].
    destruct (unknowns_fin x v Hx) as [X HX].
    pose proof (phase_fin _ _ _ (proj2 (proj2 (proj2 (proj2 (proj2 Hfin)))))) as Hph.
    split.
    + rewrite (LL_forward_at m x n v Hfin Hn Hv X HX).
      rewrite (HX 0%nat), Hph, Hb0 by lia. cbn [Fl.to_R].
      normal_LL Hs. rewrite re_0.
      match goal with
      | |- context [Cexp ?a] => replace a with C0 by ring
      end.
      rewrite Cexp_C0. f_equal. ring.
    + intros u Hu.
      rewrite (LL_gradient_at m x u n v Hfin ltac:(lia) Hn Hv X HX).
      rewrite Hb0. cbn [Fl.to_R].
      destruct u as [| u]; [lia |].
      do 6 (destruct u as [| u]; [normal_LL Hs; rewrite re_0;
                                   match goal with
                                   | |- emb ?z = _ => replace z with C0 by ring
                                   end; reflexivity |]).
      lia.
  - destruct (scales_fin _ (proj1 Hfin)) as [sigma Hs].
    destruct (unknowns_fin x v Hx) as [X HX].
    pose proof (phase_fin _ _ _ (proj2 (proj2 (proj2 (proj2 (proj2 Hfin)))))) as Hph.
    split.
    + rewrite (lin_forward_at m x n v Hfin Hn Hv X HX).
      rewrite (HX 0%nat), Hph, Hb0 by lia. cbn [Fl.to_R].
      normal_lin Hs. rewrite re_0.
      match goal with
      | |- context [Cexp ?a] => replace a with C0 by ring
      end.
      rewrite Cexp_C0. f_equal. ring.
    + intros u Hu.
      rewrite (lin_gradient_at m x u n v Hfin ltac:(lia) Hn Hv X HX).
      rewrite Hb0. cbn [Fl.to_R].
      destruct u as [| u]; [lia |].
      do 6 (destruct u as [| u]; [normal_lin Hs; rewrite ?re_0;
                                   match goal with
                                   | |- emb ?z = _ => replace z with C0 by ring
                                   end; reflexivity |]).
      lia.
Qed.

Ltac same_exponent :=
  match goal with
  | |- emb ?l = emb ?r =>
      match l with
      | context [Cexp ?a1] =>
          match r with
          | context [Cexp ?a2] => replace a1 with a2 by ring
          end
      end
  end.

(** The Cholesky-parametrized model sees its six factors only up to a
    common sign: negating [x[1..6]] at a voxel leaves the signal and the
    derivative with respect to [x[0]] as they are and negates the six
    other partial derivatives (unknowns and scan parameters finite). *)
Theorem cholesky_factors_up_to_sign (m : DiffdirLL.Model) (x x' : arr) (n v : nat) :
  scan_finite (DiffdirLL.uk_scale m) (DiffdirLL.b m) (DiffdirLL.dir0 m n)
              (DiffdirLL.dir1 m n) (DiffdirLL.dir2 m n) (DiffdirLL.phase m) n v ->
  (n < DiffdirLL.NScan m)%nat ->
  (v < length (row x 0))%nat -> (v < length (row x' 0))%nat ->
  (forall u, (u < 7)%nat -> is_cfin (at2 x u v)) ->
  at2 x' 0 v = at2 x 0 v ->
  (forall u, (1 <= u < 7)%nat -> at2 x' u v = -c at2 x u v) ->
  at2 (DiffdirLL._execute_forward_3D m x') n v =
  at2 (DiffdirLL._execute_forward_3D m x) n v
  /\ at2 (nth 0 (DiffdirLL._execute_gradient_3D m x') []) n v =
     at2 (nth 0 (DiffdirLL._execute_gradient_3D m x) []) n v
  /\ forall u, (1 <= u < 7)%nat ->
       at2 (nth u (DiffdirLL._execute_gradient_3D m x') []) n v =
       -c at2 (nth u (DiffdirLL._execute_gradient_3D m x) []) n v.
Proof.
  intros Hfin Hn Hv Hv' Hx H0 Hneg.
  destruct (scales_fin _ (proj1 Hfin)) as [sigma Hs].
  destruct (unknowns_fin x v Hx) as [X HX].
  assert (HX' : forall u, (u < 7)%nat ->
                  at2 x' u v = emb (if Nat.eqb u 0 then X 0%nat else Cneg (X u))).
  { intros u Hu. destruct u as [| u].
    - rewrite H0. apply HX. lia.
    - rewrite Hneg by lia. rewrite HX by lia. reflexivity. }
  split; [| split].
  - rewrite (LL_forward_at m x' n v Hfin Hn Hv' _ HX').
    rewrite (LL_forward_at m x n v Hfin Hn Hv X HX).
    normal_LL Hs. cbn [Nat.eqb]. same_exponent. reflexivity.
  - rewrite (LL_gradient_at m x' 0 n v Hfin ltac:(lia) Hn Hv' _ HX').
    rewrite (LL_gradient_at m x 0 n v Hfin ltac:(lia) Hn Hv X HX).
    normal_LL Hs. cbn [Nat.eqb]. same_exponent. reflexivity.
  - intros u Hu.
    rewrite (LL_gradient_at m x' u n v Hfin ltac:(lia) Hn Hv' _ HX').
    rewrite (LL_gradient_at m x u n v Hfin ltac:(lia) Hn Hv X HX).
    destruct u as [| u]; [lia |].
    do 6 (destruct u as [| u];
          [normal_LL Hs; cbn [Nat.eqb]; same_exponent;
           match goal with
           | |- context [Cexp ?a] => generalize (Cexp a); intros E
           end;
           f_equal; ring |]).
    lia.
Qed.

Lemma re_add (a b : R) : re (a + b) = Cadd (re a) (re b).
Proof. unfold re, Cadd. simpl. f_equal. ring. Qed.

Lemma cre_emb (z : Cx) : cre (emb z) = Fin (fst z).
Proof. reflexivity. Qed.

Lemma rescale_voxels (s : list fl) (x : arr) :
  length (row (DiffdirLL.rescale_with s x) 0) = length (row x 0).
Proof.
  unfold DiffdirLL.rescale_with, row. cbn [seq map nth].
  rewrite length_map, length_seq. reflexivity.
Qed.

(** The tensor a voxel of [rescale] holds, the factors being real. *)
Definition tensor_of (X0 : Cx) (A : nat -> R) (u : nat) : Cx :=
  match u with
  | 0 => X0
  | 1 => re (A 1 * A 1)
  | 2 => re (A 2 * A 1)
  | 3 => re (A 2 * A 2 + A 3 * A 3)
  | 4 => re (A 4 * A 1)
  | 5 => re (A 4 * A 4 + A 5 * A 5 + A 6 * A 6)
  | _ => re (A 2 * A 4 + A 6 * A 3)
  end%nat.

Lemma rescale_voxel (s : list fl) (sigma : nat -> R) (x : arr) (v : nat) (X0 : Cx)
  (a : nat -> R) :
  (forall u, (u < 7)%nat -> rget s u = Fin (sigma u)) ->
  (v < length (row x 0))%nat ->
  at2 x 0 v = emb X0 ->
  (forall u, (1 <= u < 7)%nat -> at2 x u v = emb (re (a u))) ->
  forall u, (u < 7)%nat ->
    at2 (DiffdirLL.rescale_with s x) u v =
    emb (tensor_of (Cmul X0 (re (sigma 0%nat))) (fun k => a k * sigma k) u).
Proof.
  intros Hs Hv H0 Ha u Hu.
  rewrite DiffdirLLFacts.rescale_at by assumption.
  unfold DiffdirLL.rescale_elem, DiffdirLL.sq.
  rewrite H0, (Ha 1%nat), (Ha 2%nat), (Ha 3%nat), (Ha 4%nat), (Ha 5%nat), (Ha 6%nat)
    by lia.
  rewrite (Hs 0%nat), (Hs 1%nat), (Hs 2%nat), (Hs 3%nat), (Hs 4%nat), (Hs 5%nat),
    (Hs 6%nat) by lia.
  do 7 (destruct u as [| u];
        [cbn [nth]; unfold Cfl.csq; cbn [Fl.mul];
         rewrite ?hom_rc, ?hom_mul, ?hom_add, ?cre_emb; cbn [Fl.mul];
         rewrite ?hom_rc;
         apply (f_equal emb);
         unfold tensor_of, re, Cmul, Cadd; cbn [fst snd]; f_equal; ring |]).
  lia.
Qed.

(** The two models agree through [rescale]: the tensor model of
    [Diffdir.py], with unit scales and the scan parameters of the
    Cholesky model, gives on [rescale (x)] the signal the Cholesky model
    gives on [x], at every voxel whose six factors are real and finite. *)
Theorem tensor_model_on_rescaled_factors (m : DiffdirLL.Model) (ml : Diffdir.Model)
  (x : arr) (n v : nat) :
  scan_finite (DiffdirLL.uk_scale m) (DiffdirLL.b m) (DiffdirLL.dir0 m n)
              (DiffdirLL.dir1 m n) (DiffdirLL.dir2 m n) (DiffdirLL.phase m) n v ->
  (n < DiffdirLL.NScan m)%nat -> (n < Diffdir.NScan ml)%nat ->
  (v < length (row x 0))%nat ->
  is_cfin (at2 x 0 v) ->
  (forall u, (1 <= u < 7)%nat -> is_real (at2 x u v)) ->
  (forall u, (u < 7)%nat -> rget (Diffdir.uk_scale ml) u = Fin 1) ->
  rget (Diffdir.b ml) n = rget (DiffdirLL.b m) n ->
  Diffdir.dir0 ml n = DiffdirLL.dir0 m n ->
  Diffdir.dir1 ml n = DiffdirLL.dir1 m n ->
  Diffdir.dir2 ml n = DiffdirLL.dir2 m n ->
  at2 (Diffdir.phase ml) n v = at2 (DiffdirLL.phase m) n v ->
  at2 (Diffdir._execute_forward_3D ml (DiffdirLL.rescale m x)) n v =
  at2 (DiffdirLL._execute_forward_3D m x) n v.
Proof.
  intros Hfin Hn Hnl Hv Hx0 Hreal Hone Hb Hd0 Hd1 Hd2 Hph.
  destruct (scales_fin _ (proj1 Hfin)) as [sigma Hs].
  destruct Hx0 as (p & q & E0).
  assert (Ha : forall u, (1 <= u < 7)%nat ->
                 at2 x u v = emb (re (Fl.to_R (cre (at2 x u v))))).
  { intros u Hu. destruct (Hreal u Hu) as [r ->]. reflexivity. }
  set (a := fun u => Fl.to_R (cre (at2 x u v))) in *.
  assert (HX : forall u, (u < 7)%nat ->
                 at2 x u v = emb (if Nat.eqb u 0 then (p, q) else re (a u))).
  { intros [| u] Hu; [exact E0 | apply Ha; lia]. }
  assert (Hfinl : scan_finite (Diffdir.uk_scale ml) (Diffdir.b ml) (Diffdir.dir0 ml n)
                    (Diffdir.dir1 ml n) (Diffdir.dir2 ml n) (Diffdir.phase ml) n v).
  { destruct Hfin as (_ & F1 & F2 & F3 & F4 & F5).
    unfold scan_finite. rewrite Hb, Hd0, Hd1, Hd2, Hph.
    repeat split; try assumption.
    intros u Hu. rewrite Hone by exact Hu. exists 1. reflexivity. }
  rewrite (lin_forward_at ml (DiffdirLL.rescale m x) n v Hfinl Hnl
             ltac:(unfold DiffdirLL.rescale; rewrite rescale_voxels; exact Hv) _
             (rescale_voxel _ sigma x v (p, q) a Hs Hv E0 Ha)).
  rewrite (LL_forward_at m x n v Hfin Hn Hv _ HX).
  rewrite Hb, Hd0, Hd1, Hd2, Hph.
  normal_lin Hone. normal_LL Hs. cbn [Nat.eqb tensor_of].
  rewrite ?re_add, ?re_mul, re_1.
  same_exponent.
  match goal with
  | |- context [Cexp ?e] => generalize (Cexp e); intros E
  end.
  f_equal. ring.
Qed.

End ModelFacts.

(** ** The models on the example of one scan and one voxel *)

Module ModelExamples.

Import Arr Spec Examples JacobianArrays ModelFacts.
Local Open Scope R_scope.
Local Open Scope cfl_scope.

Lemma ex_scan_finite :
  scan_finite (DiffdirLL.uk_scale ex_model) (DiffdirLL.b ex_model)
    (DiffdirLL.dir0 ex_model 0) (DiffdirLL.dir1 ex_model 0) (DiffdirLL.dir2 ex_model 0)
    (DiffdirLL.phase ex_model) 0 0.
Proof.
  repeat split; try (eexists; reflexivity); try (eexists; eexists; reflexivity).
  intros u Hu.
  do 7 (destruct u as [| u]; [eexists; reflexivity |]). lia.
Qed.

Lemma ex_guess_finite :
  forall u, (u < 7)%nat -> is_cfin (at2 (DiffdirLL.guess ex_model) u 0).
Proof.
  intros u Hu.
  do 7 (destruct u as [| u]; [eexists; eexists; reflexivity |]). lia.
Qed.

Lemma signal_is_M0_times_its_derivative_witness :
  at2 (DiffdirLL._execute_forward_3D ex_model (DiffdirLL.guess ex_model)) 0 0 =
  at2 (DiffdirLL.guess ex_model) 0 0 *c
  at2 (nth 0 (DiffdirLL._execute_gradient_3D ex_model (DiffdirLL.guess ex_model)) [])
      0 0.
Proof.
  apply (proj1 signal_is_M0_times_its_derivative ex_model (DiffdirLL.guess ex_model)
           0%nat 0%nat ex_scan_finite).
  - simpl. lia.
  - simpl. lia.
  - exact ex_guess_finite.
Defined.

(** The example without diffusion weighting. *)
Definition ex_model_b0 : DiffdirLL.Model :=
  DiffdirLL.mkModel 1 [Fin 0] [(Fin 1, Fin 0, Fin 0)] DiffdirLL.init_uk_scale
    [[c 1 0]] (DiffdirLL.guess ex_model)
    (DiffdirLL.init_constraints (rget DiffdirLL.init_uk_scale)).

Lemma unweighted_scan_witness :
  at2 (DiffdirLL._execute_forward_3D ex_model_b0 (DiffdirLL.guess ex_model)) 0 0 =
  at2 (DiffdirLL.guess ex_model) 0 0 *c rc (rget (DiffdirLL.uk_scale ex_model_b0) 0) *c
  at2 (DiffdirLL.phase ex_model_b0) 0 0
  /\ forall u, (1 <= u < 7)%nat ->
       at2 (nth u (DiffdirLL._execute_gradient_3D ex_model_b0
                     (DiffdirLL.guess ex_model)) []) 0 0 = Cfl.czero.
Proof.
  apply (proj1 unweighted_scan_ignores_tensor ex_model_b0 (DiffdirLL.guess ex_model)
           0%nat 0%nat).
  - repeat split; try (eexists; reflexivity); try (eexists; eexists; reflexivity).
    intros u Hu.
    do 7 (destruct u as [| u]; [eexists; reflexivity |]). lia.
  - simpl. lia.
  - simpl. lia.
  - exact ex_guess_finite.
  - reflexivity.
Defined.

(** The guess with its six factors negated. *)
Definition ex_negated : arr :=
  row (DiffdirLL.guess ex_model) 0 ::
  map (map Cfl.cneg) (tl (DiffdirLL.guess ex_model)).

Lemma cholesky_factors_up_to_sign_witness :
  at2 (DiffdirLL._execute_forward_3D ex_model ex_negated) 0 0 =
  at2 (DiffdirLL._execute_forward_3D ex_model (DiffdirLL.guess ex_model)) 0 0.
Proof.
  apply (cholesky_factors_up_to_sign ex_model (DiffdirLL.guess ex_model) ex_negated
           0%nat 0%nat ex_scan_finite).
  - simpl. lia.
  - simpl. lia.
  - simpl. lia.
  - exact ex_guess_finite.
  - reflexivity.
  - intros u Hu.
    destruct u as [| u]; [lia |].
    do 6 (destruct u as [| u]; [reflexivity |]). lia.
Defined.

(** The tensor model with the same scan and unit scales. *)
Definition ex_tensor_model : Diffdir.Model :=
  Diffdir.mkModel 1 [Fin 1] [(Fin 1, Fin 0, Fin 0)] (repeat (Fin 1) 7)
    [[c 1 0]] (DiffdirLL.guess ex_model) [].

Lemma tensor_model_on_rescaled_factors_witness :
  at2 (Diffdir._execute_forward_3D ex_tensor_model
         (DiffdirLL.rescale ex_model (DiffdirLL.guess ex_model))) 0 0 =
  at2 (DiffdirLL._execute_forward_3D ex_model (DiffdirLL.guess ex_model)) 0 0.
Proof.
  apply (tensor_model_on_rescaled_factors ex_model ex_tensor_model
           (DiffdirLL.guess ex_model) 0%nat 0%nat ex_scan_finite).
  - simpl. lia.
  - simpl. lia.
  - simpl. lia.
  - eexists; eexists; reflexivity.
  - intros u Hu.
    destruct u as [| u]; [lia |].
    do 6 (destruct u as [| u]; [eexists; reflexivity |]). lia.
  - intros u Hu.
    do 7 (destruct u as [| u]; [reflexivity |]). lia.
  - reflexivity.
  - reflexivity.
  - reflexivity.
  - reflexivity.
  - reflexivity.
Defined.

End ModelExamples.

(** ** [computeInitialGuess]: the phase and the first tensor *)

Module GuessFacts.

Import Arr Spec.
Local Open Scope R_scope.
Local Open Scope cfl_scope.

Lemma angle_fin (z : cfl) : is_cfin z -> is_fin (DiffdirLL.angle z).
Proof. intros (a & b & ->). eexists. reflexivity. Qed.

Lemma phase_elem_fin (images : arr) (n v : nat) :
  is_cfin (at2 images n v) -> is_cfin (at2 images 0 v) ->
  exists t, DiffdirLL.phase_elem images n v = mkC (Fin (cos t)) (Fin (sin t)).
Proof.
  intros Hn H0. unfold DiffdirLL.phase_elem.
  destruct (angle_fin _ Hn) as [tn ->]. destruct (angle_fin _ H0) as [t0 ->].
  exists (tn - t0).
  unfold DiffdirLL.imag_unit, Cfl.of_real, Cfl.cmul, Cfl.cexp.
  cbn [cre cim Fl.sub Fl.add Fl.opp Fl.mul Fl.exp Fl.cos Fl.sin].
  replace (0 * (tn + - t0) + - (1 * 0)) with 0 by ring.
  replace (0 * 0 + 1 * (tn + - t0)) with (tn - t0) by ring.
  rewrite exp_0. f_equal; f_equal; ring.
Qed.

Lemma phase_elem_first (images : arr) (v : nat) :
  is_cfin (at2 images 0 v) ->
  DiffdirLL.phase_elem images 0 v = mkC (Fin 1) (Fin 0).
Proof.
  intros H0. unfold DiffdirLL.phase_elem.
  destruct (angle_fin _ H0) as [t0 ->].
  unfold DiffdirLL.imag_unit, Cfl.of_real, Cfl.cmul, Cfl.cexp.
  cbn [cre cim Fl.sub Fl.add Fl.opp Fl.mul Fl.exp Fl.cos Fl.sin].
  replace (0 * (t0 + - t0) + - (1 * 0)) with 0 by ring.
  replace (0 * 0 + 1 * (t0 + - t0)) with 0 by ring.
  rewrite exp_0, cos_0, sin_0. f_equal; f_equal; ring.
Qed.

(** [computeInitialGuess] corrects every scan by a pure phase: where the
    images are finite, each entry of the phase it stores has modulus 1,
    and the phase of the first scan is 1. *)
Theorem phase_correction_is_unimodular (m m' : DiffdirLL.Model) (b0 : option vec)
  (images : arr) (n v : nat) :
  DiffdirLL.computeInitialGuess m b0 images = Some m' ->
  (n < length images)%nat -> (v < length (row images 0))%nat ->
  is_cfin (at2 images n v) -> is_cfin (at2 images 0 v) ->
  is_cfin (at2 (DiffdirLL.phase m') n v)
  /\ Cabs (to_C (at2 (DiffdirLL.phase m') n v)) = 1
  /\ at2 (DiffdirLL.phase m') 0 v = mkC (Fin 1) (Fin 0).
Proof.
  intros Hg Hn Hv Fn F0. unfold DiffdirLL.computeInitialGuess in Hg.
  destruct (Nat.eqb _ _); [| discriminate]. injection Hg as <-.
  cbn [DiffdirLL.phase].
  rewrite !ArrFacts.at2_map_seq by (assumption || lia).
  destruct (phase_elem_fin images n v Fn F0) as [t ->].
  split; [| split].
  - eexists; eexists; reflexivity.
  - unfold Cabs, to_C. cbn [cre cim Fl.to_R fst snd].
    replace (cos t * cos t + sin t * sin t) with 1.
    + apply sqrt_1.
    + pose proof (sin2_cos2 t) as H. unfold Rsqr in H. lra.
  - apply phase_elem_first. exact F0.
Qed.

Lemma nth_map_lt (A B : Type) (f : A -> B) (l : list A) (i : nat) (d : B) (d' : A) :
  (i < length l)%nat -> nth i (map f l) d = f (nth i l d').
Proof.
  intros H. rewrite (nth_indep (map f l) d (f d')) by (rewrite length_map; exact H).
  apply map_nth.
Qed.

Lemma nth_repeat_lt (A : Type) (a d : A) (k i : nat) :
  (i < k)%nat -> nth i (repeat a k) d = a.
Proof.
  revert i. induction k as [| k IH]; intros [| i] H; simpl; try lia.
  - reflexivity.
  - apply IH. lia.
Qed.

(** The rows of the guess at a voxel. *)
Lemma guess_rows (m m' : DiffdirLL.Model) (b0 : option vec) (images : arr) (v : nat) :
  DiffdirLL.computeInitialGuess m b0 images = Some m' ->
  (v < length (row images 0))%nat ->
  let test_M0 := match b0 with Some w => w | None => row images 0 end in
  let one := rc (Fin 1) *c mkC (Fin 1) (Fin 0) in
  DiffdirLL.uk_scale m' = DiffdirLL.uk_scale m
  /\ length (row (DiffdirLL.guess m') 0) = length (row images 0)
  /\ at2 (DiffdirLL.guess m') 0 v =
     nth v test_M0 Cfl.czero /c rc (rget (DiffdirLL.uk_scale m) 0)
  /\ (forall u, u = 1%nat \/ u = 3%nat \/ u = 5%nat -> at2 (DiffdirLL.guess m') u v = one)
  /\ (forall u, u = 2%nat \/ u = 4%nat \/ u = 6%nat ->
        at2 (DiffdirLL.guess m') u v = rc (Fin 0) *c one).
Proof.
  intros Hg Hv test_M0 one. unfold DiffdirLL.computeInitialGuess in Hg.
  fold test_M0 in Hg.
  destruct (Nat.eqb (length test_M0) (length (row images 0))) eqn:E; [| discriminate].
  apply Nat.eqb_eq in E. injection Hg as <-.
  cbn [DiffdirLL.uk_scale DiffdirLL.guess].
  assert (H1 : nth v (DiffdirLL.ones (length (row images 0))) Cfl.czero = one)
    by (apply nth_repeat_lt; exact Hv).
  assert (H0 : nth v (DiffdirLL.zero_times (DiffdirLL.ones (length (row images 0))))
                 Cfl.czero = rc (Fin 0) *c one).
  { unfold DiffdirLL.zero_times.
    rewrite (nth_map_lt _ _ _ _ _ _ Cfl.czero)
      by (unfold DiffdirLL.ones; rewrite repeat_length; exact Hv).
    rewrite H1. reflexivity. }
  split; [reflexivity | split; [| split; [| split]]].
  - unfold row. cbn [nth]. unfold vunscale. rewrite length_map. exact E.
  - unfold at2, row. cbn [nth]. unfold vunscale.
    apply (nth_map_lt _ _ (fun z => z /c rc (rget (DiffdirLL.uk_scale m) 0)) test_M0 v
             Cfl.czero Cfl.czero).
    rewrite E. exact Hv.
  - intros u [-> | [-> | ->]]; exact H1.
  - intros u [-> | [-> | ->]]; exact H0.
Qed.

(** With the unit scales of [__init__] and no b0 image,
    [computeInitialGuess] succeeds, and what [rescale] makes of its guess
    at a voxel is the first image as [M0] and the unit tensor: diagonal
    1, off-diagonal 0. *)
Theorem first_guess_is_unit_tensor (m : DiffdirLL.Model) (images : arr) (v : nat) :
  DiffdirLL.uk_scale m = DiffdirLL.init_uk_scale ->
  (v < length (row images 0))%nat ->
  is_cfin (at2 images 0 v) ->
  exists m',
    DiffdirLL.computeInitialGuess m None images = Some m'
    /\ at2 (DiffdirLL.rescale m' (DiffdirLL.guess m')) 0 v = at2 images 0 v
    /\ tensor_at (DiffdirLL.rescale m' (DiffdirLL.guess m')) v =
       map (map (fun t => rc (Fin t))) [[1; 0; 0]; [0; 1; 0]; [0; 0; 1]].
Proof.
  intros Hs Hv (p & q & E0).
  destruct (DiffdirLL.computeInitialGuess m None images) as [m' |] eqn:Hg.
  2: { unfold DiffdirLL.computeInitialGuess in Hg.
       rewrite Nat.eqb_refl in Hg. discriminate. }
  exists m'. split; [reflexivity |].
  destruct (guess_rows m m' None images v Hg Hv) as (Hk & Hlen & G0 & G1 & G2).
  fold (at2 images 0 v) in G0. rewrite E0, Hs in G0.
  assert (Hv' : (v < DiffdirLL.nvox (DiffdirLL.guess m'))%nat)
    by (unfold DiffdirLL.nvox; rewrite Hlen; exact Hv).
  unfold tensor_at, DiffdirLL.rescale.
  rewrite !DiffdirLLFacts.rescale_at by (assumption || lia).
  rewrite Hk, Hs. unfold DiffdirLL.rescale_elem. cbn [nth].
  rewrite G0, (G1 1%nat), (G1 3%nat), (G1 5%nat), (G2 2%nat), (G2 4%nat), (G2 6%nat)
    by tauto.
  unfold rget, DiffdirLL.init_uk_scale. cbn [repeat nth].
  rewrite NormFacts.cdiv_real_fin by lra.
  unfold DiffdirLL.sq, Cfl.csq, Cfl.cmul, Cfl.cadd, Cfl.of_real.
  cbn [cre cim Fl.mul Fl.add Fl.sub Fl.opp map].
  split.
  - rewrite E0. f_equal; f_equal; field.
  - repeat (f_equal; try (f_equal; f_equal; ring)).
Qed.

Lemma first_guess_witness :
  exists m',
    DiffdirLL.computeInitialGuess Examples.ex_model None [[Examples.c 2 1]] = Some m'
    /\ at2 (DiffdirLL.rescale m' (DiffdirLL.guess m')) 0 0 = Examples.c 2 1
    /\ tensor_at (DiffdirLL.rescale m' (DiffdirLL.guess m')) 0 =
       map (map (fun t => rc (Fin t))) [[1; 0; 0]; [0; 1; 0]; [0; 0; 1]].
Proof.
  apply (first_guess_is_unit_tensor Examples.ex_model [[Examples.c 2 1]] 0%nat).
  - reflexivity.
  - simpl. lia.
  - eexists; eexists; reflexivity.
Defined.

(** The model after [computeInitialGuess] on one scan of one voxel. *)
Definition ex_guessed : DiffdirLL.Model :=
  match DiffdirLL.computeInitialGuess Examples.ex_model None [[Examples.c 2 1]] with
  | Some m' => m'
  | None => Examples.ex_model
  end.

Lemma phase_correction_witness :
  is_cfin (at2 (DiffdirLL.phase ex_guessed) 0 0)
  /\ Cabs (to_C (at2 (DiffdirLL.phase ex_guessed) 0 0)) = 1
  /\ at2 (DiffdirLL.phase ex_guessed) 0 0 = mkC (Fin 1) (Fin 0).
Proof.
  apply (phase_correction_is_unimodular Examples.ex_model ex_guessed None
           [[Examples.c 2 1]] 0%nat 0%nat).
  - reflexivity.
  - simpl. lia.
  - simpl. lia.
  - eexists; eexists; reflexivity.
  - eexists; eexists; reflexivity.
Defined.

End GuessFacts.

(** ** The Gauss-Newton loop: iteration counts, what is logged, what is
    raised *)

Module LoopFacts.

Import Arr Reco FrameFacts.

Section Loop.

Context {M : Type} {SM : SignalModel M} (B : Backend).

Lemma max_iters_of_kept (st st' : ModelReco M) :
  kept st' = kept st -> max_iters (irgn_par st') = max_iters (irgn_par st).
Proof.
  intros H. exact (f_equal (fun t => snd (fst (fst (snd (fst (snd t)))))) H).
Qed.

Lemma max_gn_it_of_kept (st st' : ModelReco M) :
  kept st' = kept st -> max_gn_it (irgn_par st') = max_gn_it (irgn_par st).
Proof.
  intros H. exact (f_equal (fun t => snd (fst (snd (fst (snd t))))) H).
Qed.

Lemma imagespace_of_kept (st st' : ModelReco M) :
  kept st' = kept st -> imagespace st' = imagespace st.
Proof.
  intros H. exact (f_equal (fun t => snd (fst (fst (snd (snd t))))) H).
Qed.

(** The number of inner iterations one Gauss-Newton iteration hands to
    the next. *)
Lemma gn_body_iters (fuel : nat) (st : ModelReco M) (result : arr) (iters ign : nat)
  (TV : Z) (st' : ModelReco M) (result' : arr) (iters' : nat) :
  gn_body B fuel st result iters ign TV = Continue st' result' iters' ->
  iters' = Nat.min (iters * 2) (max_iters (irgn_par st)).
Proof.
  unfold gn_body.
  pose proof (kept_linearize B st result ign) as HL.
  destruct (gn_linearize B st result ign) as [st1 result1]. simpl in HL.
  destruct (irgn_solve_3D B fuel st1 result1 iters (data st1) ign TV)
    as [[st2 result2] | e [st2 result2] |] eqn:E; try discriminate.
  apply kept_irgn_solve in E.
  match goal with
  | |- context [if ?c then _ else _] => destruct c
  end; intros H; inversion H; subst.
  change (max_iters (irgn_par (with_gn_res st2 (gn_res st2 ++ [_fval st2]))))
    with (max_iters (irgn_par st2)).
  rewrite (max_iters_of_kept _ _ E), (max_iters_of_kept _ _ HL). reflexivity.
Qed.

(** [iters = np.fmin(iters * 2, max_iters)]: Gauss-Newton iteration [k]
    of a run that started with [iters0] inner iterations is given
    [iters0] of them when [k = 0] and [min (iters0 * 2^k, max_iters)]
    afterwards, [max_iters] being the one the run started with. *)
Theorem inner_iterations_double (fuel : nat) (TV : Z) (st0 : ModelReco M)
  (result0 : arr) (iters0 k : nat) (st : ModelReco M) (result : arr) (iters : nat) :
  Reach B fuel TV st0 result0 iters0 k st result iters ->
  iters = match k with
          | O => iters0
          | S _ => Nat.min (iters0 * 2 ^ k) (max_iters (irgn_par st0))
          end.
Proof.
  induction 1 as [| k st result iters st' result' iters' HR IH Hstep].
  - reflexivity.
  - pose proof (kept_Reach B _ _ _ _ _ _ _ _ _ HR) as HK.
    apply gn_body_iters in Hstep.
    rewrite (max_iters_of_kept _ _ HK) in Hstep. subst iters'.
    destruct k as [| k].
    + subst iters. simpl; f_equal; lia.
    + rewrite IH. change (2 ^ S (S k)) with (2 * 2 ^ S k). lia.
Qed.

(** What a run writes down: the function values of [gn_res] and the
    datasets of the output file. *)
Definition logs (st : ModelReco M) := (gn_res st, h5file st).

Lemma logs_eval_const (st : ModelReco M) : logs (_eval_const st) = logs st.
Proof. reflexivity. Qed.

Lemma logs_update_reg_par (st : ModelReco M) (result : arr) (ign : nat) :
  logs (_update_reg_par st result ign) = logs st.
Proof. reflexivity. Qed.

Lemma logs_balance_uk (scale : list fl) (acc : ModelReco M * arr) (uk : nat) :
  logs (fst (balance_uk scale acc uk)) = logs (fst acc).
Proof. destruct acc as [st result]. reflexivity. Qed.

Lemma logs_balance_fold (scale : list fl) (us : list nat) (acc : ModelReco M * arr) :
  logs (fst (fold_left (balance_uk scale) us acc)) = logs (fst acc).
Proof.
  revert acc. induction us as [| u us IH]; intros acc; simpl.
  - reflexivity.
  - rewrite IH. apply logs_balance_uk.
Qed.

Lemma logs_balance (st : ModelReco M) (result : arr) (ind : nat) :
  logs (fst (_balance_model_gradients st result ind)) = logs st.
Proof.
  unfold _balance_model_gradients.
  destruct (Nat.eqb (ind mod 1) 0).
  - apply logs_balance_fold.
  - reflexivity.
Qed.

Lemma logs_calc_residual (st : ModelReco M) (x data : arr) (GN_it : nat) (TV : Z) :
  logs (calc_residual B st x data GN_it TV) = logs st.
Proof.
  unfold calc_residual, _calc_residual_imagespace, _calc_residual_kspace,
    store_fval.
  destruct (imagespace st); destruct (Nat.eqb GN_it 0); reflexivity.
Qed.

Lemma logs_calc_residual_kspace (st : ModelReco M) (x data : arr) (GN_it : nat)
  (TV : Z) : logs (_calc_residual_kspace B st x data GN_it TV) = logs st.
Proof.
  unfold _calc_residual_kspace, store_fval.
  destruct (Nat.eqb GN_it 0); reflexivity.
Qed.

Lemma logs_calc_residual_imagespace (st : ModelReco M) (x data : arr)
  (GN_it : nat) (TV : Z) :
  logs (_calc_residual_imagespace B st x data GN_it TV) = logs st.
Proof.
  unfold _calc_residual_imagespace, store_fval.
  destruct (Nat.eqb GN_it 0); reflexivity.
Qed.

Lemma logs_tgv_check (st : ModelReco M) (p : PD.t) (i : nat) (st' : ModelReco M)
  (x' : arr) : tgv_check st p i = inl (st', x') -> logs st' = logs st.
Proof.
  unfold tgv_check.
  repeat match goal with
         | |- context [if ?c then _ else _] => destruct c
         end;
    intros H; inversion H; reflexivity.
Qed.

Lemma logs_tv_check (st : ModelReco M) (p : PD.t) (i : nat) (st' : ModelReco M)
  (x' : arr) : tv_check st p i = inl (st', x') -> logs st' = logs st.
Proof.
  unfold tv_check.
  repeat match goal with
         | |- context [if ?c then _ else _] => destruct c
         end;
    intros H; inversion H; reflexivity.
Qed.

Lemma logs_tgv_loop (fuel : nat) (st : ModelReco M) (n : nat) :
  forall (p : PD.t) (i : nat) (st' : ModelReco M) (x' : arr),
    tgv_loop B fuel st p n i = Some (st', x') -> logs st' = logs st.
Proof.
  induction n as [| n IH]; intros p i st' x' H; cbn [tgv_loop] in H.
  - inversion H. reflexivity.
  - destruct (tgv_line_search B fuel st (tgv_pre B st p)) as [p1 |];
      [| discriminate].
    destruct (Nat.eqb (i mod 50) 0).
    + destruct (tgv_check st (tgv_swap p1) i) as [[st2 x2] | p3] eqn:E.
      * inversion H; subst. eapply logs_tgv_check. exact E.
      * eapply IH. exact H.
    + eapply IH. exact H.
Qed.

Lemma logs_tv_loop (fuel : nat) (st : ModelReco M) (n : nat) :
  forall (p : PD.t) (i : nat) (st' : ModelReco M) (x' : arr),
    tv_loop B fuel st p n i = Some (st', x') -> logs st' = logs st.
Proof.
  induction n as [| n IH]; intros p i st' x' H; cbn [tv_loop] in H.
  - inversion H. reflexivity.
  - destruct (tv_line_search B fuel st (tv_pre B st p)) as [p1 |];
      [| discriminate].
    destruct (Nat.eqb (i mod 50) 0).
    + destruct (tv_check st (tv_swap p1) i) as [[st2 x2] | p3] eqn:E.
      * inversion H; subst. eapply logs_tv_check. exact E.
      * eapply IH. exact H.
    + eapply IH. exact H.
Qed.

Lemma logs_irgn_solve (fuel : nat) (st : ModelReco M) (x : arr) (iters : nat)
  (data : arr) (GN_it : nat) (TV : Z) (st' : ModelReco M) (x' : arr) :
  irgn_solve_3D B fuel st x iters data GN_it TV = Returned (st', x') ->
  logs st' = logs st.
Proof.
  unfold irgn_solve_3D, _irgn_solve_3D_imagespace, _irgn_solve_3D_kspace,
    tv_solve_3D, tgv_solve_3D, of_solve.
  intros H.
  destruct (imagespace st).
  - destruct (Z.eqb TV 1).
    + destruct (tv_loop B fuel _ _ iters 0) as [[st2 x2] |] eqn:E;
        [| discriminate].
      inversion H; subst. apply logs_tv_loop in E. rewrite E.
      rewrite logs_eval_const. apply logs_calc_residual_imagespace.
    + destruct (Z.eqb TV 0).
      * destruct (tgv_loop B fuel _ _ iters 0) as [[st2 x2] |] eqn:E;
          [| discriminate].
        inversion H; subst. apply logs_tgv_loop in E. rewrite E.
        rewrite logs_eval_const. apply logs_calc_residual_imagespace.
      * inversion H; subst. apply logs_calc_residual_imagespace.
  - destruct (Z.eqb TV 1).
    + destruct (tv_loop B fuel _ _ iters 0) as [[st2 x2] |] eqn:E;
        [| discriminate].
      inversion H; subst. apply logs_tv_loop in E. rewrite E.
      rewrite logs_eval_const. apply logs_calc_residual_kspace.
    + destruct (Z.eqb TV 0).
      * destruct (tgv_loop B fuel _ _ iters 0) as [[st2 x2] |] eqn:E;
          [| discriminate].
        inversion H; subst. apply logs_tgv_loop in E. rewrite E.
        rewrite logs_eval_const. apply logs_calc_residual_kspace.
      * discriminate.
Qed.

Lemma logs_linearize (st : ModelReco M) (result : arr) (ign : nat) :
  logs (fst (gn_linearize B st result ign)) = logs st.
Proof.
  unfold gn_linearize.
  destruct (_balance_model_gradients _ result ign) as [st2 result2] eqn:E.
  simpl. rewrite logs_update_reg_par.
  change (logs st2 = logs st).
  replace st2 with (fst (_balance_model_gradients
                           (with_grad_x st
                              (map (nan_to_num B)
                                   (execute_gradient (model st) (uk_scale st) result)))
                           result ign)) by (rewrite E; reflexivity).
  rewrite logs_balance. reflexivity.
Qed.

(** One full iteration appends one function value and one dataset. *)
Lemma logs_gn_body (fuel : nat) (st : ModelReco M) (result : arr) (iters ign : nat)
  (TV : Z) (st' : ModelReco M) (result' : arr) (iters' : nat) :
  gn_body B fuel st result iters ign TV = Continue st' result' iters' ->
  gn_res st' = gn_res st ++ [_fval st']
  /\ h5file st' =
     h5file st ++
     [mkEntry (negb (Z.eqb TV 0)) ign
              (model_rescale (model st') (uk_scale st') result') (_fval st')].
Proof.
  unfold gn_body.
  pose proof (logs_linearize st result ign) as HL.
  destruct (gn_linearize B st result ign) as [st1 result1]. simpl in HL.
  destruct (irgn_solve_3D B fuel st1 result1 iters (data st1) ign TV)
    as [[st2 result2] | e [st2 result2] |] eqn:E; try discriminate.
  apply logs_irgn_solve in E.
  match goal with
  | |- context [if ?c then _ else _] => destruct c
  end; intros H; inversion H; subst.
  unfold savetofile. cbn.
  pose proof (f_equal fst E) as E1. pose proof (f_equal snd E) as E2.
  pose proof (f_equal fst HL) as L1. pose proof (f_equal snd HL) as L2.
  cbn in E1, E2, L1, L2.
  rewrite E1, E2, L1, L2. split; reflexivity.
Qed.

(** A run that has completed [k] Gauss-Newton iterations has appended
    [k] datasets to the output file and [k] function values to [gn_res]:
    the datasets carry the iteration numbers [0 .. k-1] in order (so no
    two of them share a name), the kind of regularization of the run, and
    as attribute the function value appended to [gn_res] in the same
    iteration. *)
Theorem one_dataset_per_iteration (fuel : nat) (TV : Z) (st0 : ModelReco M)
  (result0 : arr) (iters0 k : nat) (st : ModelReco M) (result : arr) (iters : nat) :
  Reach B fuel TV st0 result0 iters0 k st result iters ->
  exists es : list h5_entry,
    h5file st = h5file st0 ++ es
    /\ gn_res st = gn_res st0 ++ map h5_attr es
    /\ map h5_it es = seq 0 k
    /\ NoDup (map h5_it es)
    /\ Forall (fun e => h5_tv e = negb (Z.eqb TV 0)) es.
Proof.
  induction 1 as [| k st result iters st' result' iters' HR IH Hstep].
  - exists []. rewrite !app_nil_r.
    repeat split; try reflexivity; constructor.
  - destruct IH as (es & H1 & H2 & H3 & H4 & H5).
    apply logs_gn_body in Hstep. destruct Hstep as [G1 G2].
    exists (es ++ [mkEntry (negb (Z.eqb TV 0)) k
                     (model_rescale (model st') (uk_scale st') result') (_fval st')]).
    rewrite G1, G2, H1, H2, !map_app, H3, !app_assoc. cbn [map h5_it h5_attr].
    rewrite seq_S. cbn [Nat.add].
    repeat split; try reflexivity.
    + replace (seq 0 k ++ [k]) with (seq 0 (S k)) by (rewrite seq_S; reflexivity).
      apply seq_NoDup.
    + apply Forall_app. split; [exact H5 |]. constructor; [reflexivity | constructor].
Qed.

(** ** Exceptions *)

(** The only inner solve that raises is the one of a k-space object asked
    for a regularization other than TV and TGV. *)
Definition unsupported (st : ModelReco M) (TV : Z) : bool :=
  negb (imagespace st) && negb (Z.eqb TV 1) && negb (Z.eqb TV 0).


Lemma irgn_solve_supported (fuel : nat) (st : ModelReco M) (x : arr) (iters : nat)
  (data : arr) (GN_it : nat) (TV : Z) (e : exn) (r : ModelReco M * arr) :
  unsupported st TV = false ->
  irgn_solve_3D B fuel st x iters data GN_it TV <> Raised e r.
Proof.
  unfold unsupported, irgn_solve_3D, _irgn_solve_3D_kspace,
    _irgn_solve_3D_imagespace, of_solve. intros H.
  destruct (imagespace st); destruct (Z.eqb TV 1); destruct (Z.eqb TV 0);
    try discriminate;
    try (destruct (tv_solve_3D B fuel _ x _ iters); discriminate);
    try (destruct (tgv_solve_3D B fuel _ x _ iters); discriminate).
Qed.

Lemma unsupported_of_kept (st st' : ModelReco M) (TV : Z) :
  kept st' = kept st -> unsupported st' TV = unsupported st TV.
Proof.
  intros H. unfold unsupported. rewrite (imagespace_of_kept _ _ H). reflexivity.
Qed.

Lemma gn_loop_supported (fuel : nat) (TV : Z) (n : nat) :
  forall (st : ModelReco M) (result : arr) (iters ign : nat) (e : exn)
         (st' : ModelReco M),
    unsupported st TV = false ->
    gn_loop B fuel st result iters ign n TV <> Raised e st'.
Proof.
  induction n as [| n IH]; intros st result iters ign e st' Hs; cbn [gn_loop].
  - discriminate.
  - pose proof (kept_gn_body_any B fuel st result iters ign TV) as Hk.
    destruct (gn_body B fuel st result iters ign TV)
      as [st1 result1 iters1 | st1 result1 | e1 st1 |] eqn:E; try discriminate.
    + apply IH. rewrite (unsupported_of_kept _ _ TV Hk). exact Hs.
    + exfalso. unfold gn_body in E.
      pose proof (kept_linearize B st result ign) as HL.
      destruct (gn_linearize B st result ign) as [st2 result2]. simpl in HL.
      destruct (irgn_solve_3D B fuel st2 result2 iters (data st2) ign TV)
        as [[st3 result3] | e3 [st3 result3] |] eqn:E3.
      * destruct (Fl.ltb _ _) in E; discriminate.
      * apply (irgn_solve_supported fuel st2 result2 iters (data st2) ign TV e3
                 (st3, result3)); [| exact E3].
        rewrite (unsupported_of_kept _ _ TV HL). exact Hs.
      * discriminate.
Qed.


End Loop.





End LoopFacts.

(** ** The function value of [calc_residual] *)

Module ResidualFacts.

Import Arr Spec Reco NormFacts.
Local Open Scope R_scope.

Lemma arr_finite_rows (a : arr) : arr_finite a <-> Forall vec_finite a.
Proof.
  induction a as [| rw a IH].
  - split; intros _; constructor.
  - rewrite arr_finite_cons, IH. split.
    + intros [H1 H2]. constructor; assumption.
    + intros H. inversion H; subst. split; assumption.
Qed.

Lemma firstn_finite (n : nat) (a : arr) : arr_finite a -> arr_finite (firstn n a).
Proof.
  rewrite !arr_finite_rows. revert n.
  induction a as [| rw a IH]; intros [| n] H; simpl; try constructor.
  - inversion H; assumption.
  - apply IH. inversion H; assumption.
Qed.

Lemma skipn_finite (n : nat) (a : arr) : arr_finite a -> arr_finite (skipn n a).
Proof.
  rewrite !arr_finite_rows. revert n.
  induction a as [| rw a IH]; intros [| n] H; simpl; try assumption.
  apply IH. inversion H; assumption.
Qed.

Lemma cabs_fin (p q : R) : Cfl.cabs (mkC (Fin p) (Fin q)) = Fin (sqrt (p * p + q * q)).
Proof.
  unfold Cfl.cabs. cbn [cre cim Fl.mul Fl.add].
  apply FlFacts.sqrt_fin. nra.
Qed.

Lemma fsum_abs_fin (v : vec) (s : R) :
  vec_finite v -> 0 <= s ->
  exists t, 0 <= t /\ fold_left Fl.add (map Cfl.cabs v) (Fin s) = Fin t.
Proof.
  intros Hv. revert s.
  induction Hv as [| z v [p [q ->]] _ IH]; intros s Hs; simpl.
  - exists s. split; [exact Hs | reflexivity].
  - rewrite cabs_fin. cbn [Fl.add]. apply IH.
    pose proof (sqrt_pos (p * p + q * q)). lra.
Qed.

Lemma asum_abs_fin (a : arr) :
  arr_finite a -> exists t, 0 <= t /\ asum_abs a = Fin t.
Proof. intros Ha. apply fsum_abs_fin; [exact Ha | lra]. Qed.

Lemma sq_norm_fin (a : arr) :
  arr_finite a -> exists t, 0 <= t /\ Reco.sq (norm a) = Fin t.
Proof.
  intros Ha. rewrite norm_fin by exact Ha. unfold Reco.sq. cbn [Fl.mul].
  eexists. split; [| reflexivity]. apply Rle_0_sqr.
Qed.

Section Residual.

Context {M : Type} (B : Backend).

Lemma fval_of_fin (st : ModelReco M) (resid grad : arr) (TV : Z) (l g w : R) :
  lambd (irgn_par st) = Fin l -> gamma (irgn_par st) = Fin g ->
  omega (irgn_par st) = Fin w -> 0 <= l -> 0 <= g -> 0 <= w ->
  arr_finite resid -> arr_finite grad ->
  (TV <> 1%Z -> arr_finite (v st) /\ arr_finite (symgrad_op_fwd B (v st))) ->
  exists f, 0 <= f /\ fval_of B st resid grad TV = Fin f.
Proof.
  intros Hl Hg Hw Pl Pg Pw Fr Fg Fv. unfold fval_of. rewrite Hl, Hg, Hw.
  destruct (sq_norm_fin resid Fr) as (a & Pa & ->).
  destruct (sq_norm_fin (skipn (unknowns_TGV (par st)) grad) (skipn_finite _ _ Fg))
    as (c & Pc & ->).
  rewrite !FlFacts.div_fin by lra.
  destruct (Z.eqb_spec TV 1) as [-> | Hne].
  - destruct (asum_abs_fin _ (firstn_finite (unknowns_TGV (par st)) _ Fg))
      as (b & Pb & ->).
    cbn [Fl.mul Fl.add]. eexists. split; [| reflexivity].
    assert (0 <= l / 2 * a) by (apply Rmult_le_pos; lra).
    assert (0 <= g * b) by (apply Rmult_le_pos; lra).
    assert (0 <= w / 2 * c) by (apply Rmult_le_pos; lra). lra.
  - destruct (Fv Hne) as [Fv1 Fv2].
    destruct (asum_abs_fin _ (asub_finite _ _
                (firstn_finite (unknowns_TGV (par st)) _ Fg) Fv1)) as (b & Pb & ->).
    destruct (asum_abs_fin _ Fv2) as (d & Pd & ->).
    cbn [Fl.mul Fl.add]. eexists. split; [| reflexivity].
    assert (0 <= l / 2 * a) by (apply Rmult_le_pos; lra).
    assert (0 <= g * b) by (apply Rmult_le_pos; lra).
    assert (0 <= g * 2 * d) by (apply Rmult_le_pos; lra).
    assert (0 <= w / 2 * c) by (apply Rmult_le_pos; lra). lra.
Qed.

(** The residual [calc_residual] takes the norm of. *)
Definition residual (st : ModelReco M) (data : arr) : arr :=
  if imagespace st then asub data (step_val st)
  else asub data (FT B (coil_mul (step_val st) (C (par st)))).

(** With non-negative finite weights [lambd], [gamma], [omega] and finite
    arrays, the function value [calc_residual] stores is a finite
    non-negative number; the initial value [_fval_init] is that same
    number when [GN_it = 0] and is left as it was otherwise. *)
Theorem function_value_is_nonnegative (st : ModelReco M) (x data : arr) (GN_it : nat)
  (TV : Z) (l g w : R) :
  lambd (irgn_par st) = Fin l -> gamma (irgn_par st) = Fin g ->
  omega (irgn_par st) = Fin w -> 0 <= l -> 0 <= g -> 0 <= w ->
  arr_finite (residual st data) -> arr_finite (grad_op_fwd B (op_ratio st) x) ->
  (TV <> 1%Z -> arr_finite (v st) /\ arr_finite (symgrad_op_fwd B (v st))) ->
  exists f,
    0 <= f
    /\ _fval (calc_residual B st x data GN_it TV) = Fin f
    /\ (GN_it = 0%nat -> _fval_init (calc_residual B st x data GN_it TV) = Fin f)
    /\ (GN_it <> 0%nat ->
        _fval_init (calc_residual B st x data GN_it TV) = _fval_init st).
Proof.
  intros Hl Hg Hw Pl Pg Pw Fr Fg Fv.
  unfold calc_residual, _calc_residual_imagespace, _calc_residual_kspace, residual
    in *.
  destruct (imagespace st);
    match goal with
    | |- context [store_fval st (fval_of B st ?r ?gd TV) GN_it] =>
        destruct (fval_of_fin st r gd TV l g w Hl Hg Hw Pl Pg Pw Fr Fg Fv)
          as (f & Pf & ->)
    end;
    exists f; unfold store_fval;
    (destruct (Nat.eqb_spec GN_it 0) as [-> | Hne];
     [repeat split; try assumption; try reflexivity; intros Hc; contradiction
     | repeat split; try assumption; try reflexivity; intros Hc; contradiction]).
Qed.

End Residual.

End ResidualFacts.

(** ** Balancing and the box constraints *)

Module BoundsFacts.

Import Arr Spec Reco BalanceFacts.
Local Open Scope R_scope.

(** The constraint the loop reads where the list has none. *)
Definition no_constraint : Constraint.constraint :=
  Constraint.mk (Fin 0) (Fin 0) false.

Section Bounds.

Context {M : Type}.

Definition bound (u : nat) (acc : ModelReco M * arr) : Constraint.constraint :=
  nth u (constraints (fst acc)) no_constraint.

Lemma bounds_length (scale : list fl) (acc : ModelReco M * arr) (uk : nat) :
  length (constraints (fst (balance_uk scale acc uk))) =
  length (constraints (fst acc)).
Proof.
  destruct acc as [st result]. unfold balance_uk. simpl.
  apply length_upd.
Qed.

Lemma bound_other (scale : list fl) (acc : ModelReco M * arr) (u uk : nat) :
  u <> uk -> bound u (balance_uk scale acc uk) = bound u acc.
Proof.
  intros H. destruct acc as [st result]. unfold bound, balance_uk. simpl.
  apply nth_upd_other. exact H.
Qed.

Lemma bound_same (scale : list fl) (acc : ModelReco M * arr) (u : nat) :
  (u < length (constraints (fst acc)))%nat ->
  bound u (balance_uk scale acc u) = Constraint.update (bound u acc) (rget scale u).
Proof.
  intros H. destruct acc as [st result]. unfold bound, balance_uk. simpl in *.
  apply nth_upd_same. exact H.
Qed.

Lemma bound_fold_other (scale : list fl) (u : nat) (us : list nat) :
  forall acc : ModelReco M * arr,
    ~ In u us -> bound u (fold_left (balance_uk scale) us acc) = bound u acc.
Proof.
  induction us as [| k us IH]; intros acc Hn; simpl.
  - reflexivity.
  - rewrite IH by (intros Hin; apply Hn; right; exact Hin).
    apply bound_other. intros ->. apply Hn. left. reflexivity.
Qed.

Lemma bound_fold_seq (scale : list fl) (u n : nat) :
  forall (a : nat) (acc : ModelReco M * arr),
    (a <= u < a + n)%nat ->
    (u < length (constraints (fst acc)))%nat ->
    bound u (fold_left (balance_uk scale) (seq a n) acc) =
    Constraint.update (bound u acc) (rget scale u).
Proof.
  induction n as [| n IH]; intros a acc Hu H1.
  - lia.
  - simpl. destruct (Nat.eq_dec a u) as [-> | Hneq].
    + rewrite bound_fold_other by (rewrite in_seq; lia).
      apply bound_same. exact H1.
    + rewrite IH by (rewrite ?bounds_length; lia || assumption).
      rewrite bound_other by congruence. reflexivity.
Qed.

End Bounds.

(** Balancing keeps the physical bounds.  For an unknown [u] as in the
    balancing itself (finite scale, finite Jacobian slice that is not
    identically zero), [_balance_model_gradients] replaces the constraint
    of [u] by its [update] with the positive factor [c = 10^3 / sqrt U /
    norm] by which it multiplies [uk_scale[u]]; the flag [real] is kept,
    and a finite bound times the scale is the same number before and
    after.  The constraints and scales of the other unknowns are those
    their own balancing gives. *)
Theorem balancing_keeps_physical_bounds (M : Type) (st : ModelReco M) (result : arr)
  (ind u : nat) (sr : R) :
  (u < unknowns (par st))%nat ->
  (u < length result)%nat ->
  (u < length (grad_x st))%nat ->
  (u < length (uk_scale st))%nat ->
  (u < length (constraints st))%nat ->
  rget (uk_scale st) u = Fin sr ->
  arr_finite (nth u (grad_x st) []) ->
  sumsq (arr_C (nth u (grad_x st) [])) <> 0 ->
  exists cr,
    0 < cr
    /\ cr * sqrt (sumsq (arr_C (nth u (grad_x st) []))) =
       1000 / sqrt (INR (unknowns (par st)))
    /\ nth u (constraints (fst (_balance_model_gradients st result ind))) no_constraint
       = Constraint.update (nth u (constraints st) no_constraint) (Fin cr)
    /\ rget (uk_scale (fst (_balance_model_gradients st result ind))) u = Fin (sr * cr)
    /\ (forall b, Constraint.min (nth u (constraints st) no_constraint) = Fin b ->
          Fl.mul (Constraint.min
                    (nth u (constraints (fst (_balance_model_gradients st result ind)))
                         no_constraint))
                 (rget (uk_scale (fst (_balance_model_gradients st result ind))) u) =
          Fin (b * sr))
    /\ (forall b, Constraint.max (nth u (constraints st) no_constraint) = Fin b ->
          Fl.mul (Constraint.max
                    (nth u (constraints (fst (_balance_model_gradients st result ind)))
                         no_constraint))
                 (rget (uk_scale (fst (_balance_model_gradients st result ind))) u) =
          Fin (b * sr)).
Proof.
  intros Hu H1 H2 H3 H4 Hs Hg Hnz.
  destruct (balance_view_fin M st result ind u sr Hu H1 H2 H3 Hs Hg Hnz)
    as [cr [Hcr [Ecr Hview]]].
  exists cr. split; [exact Hcr | split; [exact Ecr |]].
  pose proof (f_equal snd Hview) as Escale.
  unfold view, rebalance in Escale. cbn [fst snd Fl.mul] in Escale.
  assert (Eb : nth u (constraints (fst (_balance_model_gradients st result ind)))
                   no_constraint =
               Constraint.update (nth u (constraints st) no_constraint) (Fin cr)).
  { unfold _balance_model_gradients. rewrite Nat.mod_1_r. simpl Nat.eqb. cbv iota.
    change (nth u (constraints (fst ?a)) no_constraint) with (bound u a).
    rewrite bound_fold_seq by (simpl; assumption || lia).
    rewrite balance_scale_at by assumption.
    rewrite NormFacts.norm_axis_fin by exact Hg.
    pose proof (NormFacts.sumsq_nonneg (arr_C (nth u (grad_x st) []))) as HS0.
    assert (HUpos : 0 < INR (unknowns (par st))) by (apply lt_0_INR; lia).
    assert (HsqU : 0 < sqrt (INR (unknowns (par st))))
      by (apply sqrt_lt_R0; assumption).
    assert (HsqS : 0 < sqrt (sumsq (arr_C (nth u (grad_x st) []))))
      by (apply sqrt_lt_R0; lra).
    unfold Fl.of_nat. rewrite (FlFacts.sqrt_fin (INR (unknowns (par st)))) by lra.
    rewrite FlFacts.div_fin by lra.
    change (vec_C (flat (nth u (grad_x st) [])))
      with (arr_C (nth u (grad_x st) [])).
    rewrite FlFacts.div_fin by lra.
    unfold bound. cbn [fst]. f_equal. f_equal.
    apply (Rmult_eq_reg_r (sqrt (sumsq (arr_C (nth u (grad_x st) []))))); [| lra].
    rewrite Ecr. field. split; lra. }
  split; [exact Eb | split; [exact Escale |]].
  rewrite Eb, Escale. unfold Constraint.update. cbn [Constraint.min Constraint.max].
  split; intros b ->; rewrite FlFacts.div_fin by lra; cbn [Fl.mul];
    f_equal; field; lra.
Qed.

End BoundsFacts.

(** ** The inner solvers and the first Gauss-Newton step *)

Module SolveFacts.

Import Arr Spec Reco.
Local Open Scope R_scope.

Section Solve.

Context {M : Type} {SM : SignalModel M} (B : Backend).

(** Every return of a solver goes through its last assignments. *)
Lemma tgv_check_finish (st : ModelReco M) (p : PD.t) (i : nat)
  (ret : ModelReco M * arr) :
  tgv_check st p i = inl ret -> exists q a b, ret = tgv_finish st q a b.
Proof.
  unfold tgv_check.
  repeat match goal with
         | |- context [if ?c then _ else _] => destruct c
         end;
    intros H; inversion H; eauto.
Qed.

Lemma tv_check_finish (st : ModelReco M) (p : PD.t) (i : nat)
  (ret : ModelReco M * arr) :
  tv_check st p i = inl ret -> exists q a, ret = tv_finish st q a.
Proof.
  unfold tv_check.
  repeat match goal with
         | |- context [if ?c then _ else _] => destruct c
         end;
    intros H; inversion H; eauto.
Qed.

Lemma tgv_loop_finish (fuel : nat) (st : ModelReco M) (n : nat) :
  forall (p : PD.t) (i : nat) (ret : ModelReco M * arr),
    tgv_loop B fuel st p n i = Some ret -> exists q a b, ret = tgv_finish st q a b.
Proof.
  induction n as [| n IH]; intros p i ret H; cbn [tgv_loop] in H.
  - inversion H. eauto.
  - destruct (tgv_line_search B fuel st (tgv_pre B st p)) as [p1 |];
      [| discriminate].
    destruct (Nat.eqb (i mod 50) 0).
    + destruct (tgv_check st (tgv_swap p1) i) as [ret2 | p3] eqn:E.
      * inversion H; subst. eapply tgv_check_finish. exact E.
      * eapply IH. exact H.
    + eapply IH. exact H.
Qed.

Lemma tv_loop_finish (fuel : nat) (st : ModelReco M) (n : nat) :
  forall (p : PD.t) (i : nat) (ret : ModelReco M * arr),
    tv_loop B fuel st p n i = Some ret -> exists q a, ret = tv_finish st q a.
Proof.
  induction n as [| n IH]; intros p i ret H; cbn [tv_loop] in H.
  - inversion H. eauto.
  - destruct (tv_line_search B fuel st (tv_pre B st p)) as [p1 |];
      [| discriminate].
    destruct (Nat.eqb (i mod 50) 0).
    + destruct (tv_check st (tv_swap p1) i) as [ret2 | p3] eqn:E.
      * inversion H; subst. eapply tv_check_finish. exact E.
      * eapply IH. exact H.
    + eapply IH. exact H.
Qed.

(** What an inner solve that returns has done to the object. *)
Lemma irgn_solve_writes (fuel : nat) (st : ModelReco M) (x : arr) (iters : nat)
  (data : arr) (GN_it : nat) (TV : Z) (st' : ModelReco M) (x' : arr) :
  irgn_solve_3D B fuel st x iters data GN_it TV = Returned (st', x') ->
  exists v' r' z1' z2' mc xc rc,
    st' = with_z2 (with_z1 (with_r (with_v
            (with_real_const (with_max_const (with_min_const
               (calc_residual B st x data GN_it TV) mc) xc) rc) v') r') z1') z2'.
Proof.
  unfold irgn_solve_3D, calc_residual, _irgn_solve_3D_imagespace,
    _irgn_solve_3D_kspace, tv_solve_3D, tgv_solve_3D, of_solve.
  intros H.
  destruct (imagespace st).
  - remember (_calc_residual_imagespace B st x data GN_it TV) as s eqn:Es.
    clear Es.
    destruct (Z.eqb TV 1).
    + destruct (tv_loop B fuel _ _ iters 0) as [ret |] eqn:E; [| discriminate].
      inversion H; subst. apply tv_loop_finish in E.
      destruct E as (q & a & E). inversion E; subst.
      exists (v s), (PD.r q), (PD.z1 q), (z2 s),
        (map Constraint.min (constraints s)), (map Constraint.max (constraints s)),
        (map Constraint.real (constraints s)).
      destruct s. reflexivity.
    + destruct (Z.eqb TV 0).
      * destruct (tgv_loop B fuel _ _ iters 0) as [ret |] eqn:E; [| discriminate].
        inversion H; subst. apply tgv_loop_finish in E.
        destruct E as (q & a & b & E). inversion E; subst.
        exists a, (PD.r q), (PD.z1 q), (PD.z2 q),
          (map Constraint.min (constraints s)), (map Constraint.max (constraints s)),
          (map Constraint.real (constraints s)).
        reflexivity.
      * inversion H; subst.
        exists (v st'), (r st'), (z1 st'), (z2 st'), (min_const st'),
          (max_const st'), (real_const st').
        destruct st'. reflexivity.
  - remember (_calc_residual_kspace B st x data GN_it TV) as s eqn:Es.
    clear Es.
    destruct (Z.eqb TV 1).
    + destruct (tv_loop B fuel _ _ iters 0) as [ret |] eqn:E; [| discriminate].
      inversion H; subst. apply tv_loop_finish in E.
      destruct E as (q & a & E). inversion E; subst.
      exists (v s), (PD.r q), (PD.z1 q), (z2 s),
        (map Constraint.min (constraints s)), (map Constraint.max (constraints s)),
        (map Constraint.real (constraints s)).
      destruct s. reflexivity.
    + destruct (Z.eqb TV 0).
      * destruct (tgv_loop B fuel _ _ iters 0) as [ret |] eqn:E; [| discriminate].
        inversion H; subst. apply tgv_loop_finish in E.
        destruct E as (q & a & b & E). inversion E; subst.
        exists a, (PD.r q), (PD.z1 q), (PD.z2 q),
          (map Constraint.min (constraints s)), (map Constraint.max (constraints s)),
          (map Constraint.real (constraints s)).
        reflexivity.
      * discriminate.
Qed.

(** The solvers write only their own variables.  A call of
    [tgv_solve_3D] that returns leaves the object as [_eval_const] made
    it except for [v], [r], [z1], [z2]; [tv_solve_3D] writes only [r] and
    [z1].  With [iters = 0] each of them returns the incoming [x] itself
    with zero dual variables.  [tgv_solve_3D_explicit] returns nothing
    and writes nothing: it raises at its first call, with the object as
    it was. *)
Theorem solvers_write_only_their_variables (fuel : nat) (st : ModelReco M)
  (x res : arr) (iters : nat) (st' : ModelReco M) (x' : arr) :
  (tgv_solve_3D B fuel st x res iters = Some (st', x') ->
   exists v' r' z1' z2',
     st' = with_z2 (with_z1 (with_r (with_v (_eval_const st) v') r') z1') z2')
  /\ (tv_solve_3D B fuel st x res iters = Some (st', x') ->
      exists r' z1', st' = with_z1 (with_r (_eval_const st) r') z1')
  /\ tgv_solve_3D B fuel st x res 0 =
     Some (with_z2 (with_z1 (with_r (with_v (_eval_const st) (zeros_like (v st)))
                                    (zeros_like (r st)))
                            (zeros_like (z1 st)))
                   (zeros_like (z2 st)), x)
  /\ tv_solve_3D B fuel st x res 0 =
     Some (with_z1 (with_r (_eval_const st) (zeros_like (r st))) (zeros_like (z1 st)),
           x)
  /\ tgv_solve_3D_explicit B fuel st x res iters = Raised AttributeError (st, x).
Proof.
  repeat split; try reflexivity.
  - unfold tgv_solve_3D. intros H. apply tgv_loop_finish in H.
    destruct H as (q & a & b & H). inversion H. eauto.
  - unfold tv_solve_3D. intros H. apply tv_loop_finish in H.
    destruct H as (q & a & H). inversion H. eauto.
Qed.

(** *** Fields that linearizing leaves alone *)

Section Untouched.

Variable T : Type.
Variable f : ModelReco M -> T.
Hypothesis f_grad_x : forall st a, f (with_grad_x st a) = f st.
Hypothesis f_constraints : forall st a, f (with_constraints st a) = f st.
Hypothesis f_uk_scale : forall st a, f (with_uk_scale st a) = f st.
Hypothesis f_op_ratio : forall st a, f (with_op_ratio st a) = f st.
Hypothesis f_step_val : forall st a, f (with_step_val st a) = f st.
Hypothesis f_grad_buf : forall st a, f (with_grad_buf st a) = f st.
Hypothesis f_irgn_par : forall st a, f (with_irgn_par st a) = f st.

Lemma untouched_balance_uk (scale : list fl) (acc : ModelReco M * arr) (uk : nat) :
  f (fst (balance_uk scale acc uk)) = f (fst acc).
Proof.
  destruct acc as [st result]. unfold balance_uk. cbn [fst].
  rewrite f_grad_x, f_uk_scale, f_grad_x, f_constraints. reflexivity.
Qed.

Lemma untouched_balance_fold (scale : list fl) (us : list nat)
  (acc : ModelReco M * arr) :
  f (fst (fold_left (balance_uk scale) us acc)) = f (fst acc).
Proof.
  revert acc. induction us as [| u us IH]; intros acc; simpl.
  - reflexivity.
  - rewrite IH. apply untouched_balance_uk.
Qed.

Lemma untouched_balance (st : ModelReco M) (result : arr) (ind : nat) :
  f (fst (_balance_model_gradients st result ind)) = f st.
Proof.
  unfold _balance_model_gradients.
  destruct (Nat.eqb (ind mod 1) 0).
  - apply untouched_balance_fold.
  - reflexivity.
Qed.

Lemma untouched_linearize (st : ModelReco M) (result : arr) (ign : nat) :
  f (fst (gn_linearize B st result ign)) = f st.
Proof.
  unfold gn_linearize.
  pose proof (untouched_balance
                (with_grad_x st
                   (map (nan_to_num B)
                        (execute_gradient (model st) (uk_scale st) result)))
                result ign) as Hb.
  destruct (_balance_model_gradients _ result ign) as [st2 result2].
  cbn [fst] in *. unfold _update_reg_par.
  rewrite f_irgn_par, f_grad_buf, f_step_val, f_op_ratio, Hb, f_grad_x.
  reflexivity.
Qed.

End Untouched.

(** *** The first tolerance test *)

Lemma calc_residual_fvals (st : ModelReco M) (x data : arr) (TV : Z) :
  _fval_init (calc_residual B st x data 0 TV) = _fval (calc_residual B st x data 0 TV)
  /\ _fval_old (calc_residual B st x data 0 TV) = _fval_old st
  /\ tol (irgn_par (calc_residual B st x data 0 TV)) = tol (irgn_par st)
  /\ max_iters (irgn_par (calc_residual B st x data 0 TV)) = max_iters (irgn_par st).
Proof.
  unfold calc_residual, _calc_residual_imagespace, _calc_residual_kspace,
    store_fval.
  destruct (imagespace st); repeat split; reflexivity.
Qed.

(** [|0 - f| / f < t] fails for every [f] that is not a negative number
    when [t <= 1]. *)
Lemma change_from_zero (fv : fl) (t : R) :
  Fl.ltb fv (Fin 0) = false -> t <= 1 ->
  Fl.ltb (Fl.div (Fl.abs (Fl.sub (Fin 0) fv)) fv) (Fin t) = false.
Proof.
  intros Hf Ht. destruct fv as [f | | |]; try reflexivity.
  - unfold Fl.ltb in Hf. destruct (Rlt_dec f 0) as [| Hge]; [discriminate |].
    unfold Fl.sub. cbn [Fl.opp Fl.add Fl.abs]. unfold Fl.div.
    destruct (Fl.sgn f) eqn:E.
    + replace (0 + - f) with (- f) by ring.
      apply FlFacts.sgn_Eq in E. subst f. rewrite Ropp_0, Rabs_R0.
      unfold Fl.sgn. destruct (total_order_T 0 0) as [[H | H] | H]; try lra.
      reflexivity.
    + unfold Fl.sgn in E.
      destruct (total_order_T f 0) as [[H | H] | H]; try discriminate. lra.
    + unfold Fl.sgn in E.
      destruct (total_order_T f 0) as [[H | H] | H]; try discriminate.
      replace (Rabs (0 + - f) / f) with 1.
      * unfold Fl.ltb. destruct (Rlt_dec 1 t); [lra | reflexivity].
      * replace (0 + - f) with (- f) by ring.
        rewrite Rabs_Ropp, Rabs_right by lra. field. lra.
Qed.

(** The first pass through the body of the loop cannot take the
    [break]. *)
Lemma first_step_outcome (fuel : nat) (st : ModelReco M) (result : arr)
  (iters : nat) (TV : Z) (t : R) :
  _fval_old st = Fin 0 -> tol (irgn_par st) = Fin t -> t <= 1 ->
  Fl.ltb (_fval (calc_residual B (fst (gn_linearize B st result 0))
                               (snd (gn_linearize B st result 0))
                               (data (fst (gn_linearize B st result 0))) 0 TV))
         (Fin 0) = false ->
  gn_body B fuel st result iters 0 TV =
  match irgn_solve_3D B fuel (fst (gn_linearize B st result 0))
                      (snd (gn_linearize B st result 0)) iters
                      (data (fst (gn_linearize B st result 0))) 0 TV with
  | OutOfFuel => StepOutOfFuel
  | Raised e (st2, _) => StepRaised e st2
  | Returned (st2, result2) =>
      Continue
        (savetofile
           (with_fval_old (with_gn_res st2 (gn_res st2 ++ [_fval st2])) (_fval st2)) 0
           (model_rescale (model st2) (uk_scale st2) result2) TV)
        result2 (Nat.min (iters * 2) (max_iters (irgn_par st)))
  end.
Proof.
  intros H0 Ht Ht1 Hf. unfold gn_body.
  pose proof (untouched_linearize _ (@_fval_old M)
                (fun _ _ => eq_refl) (fun _ _ => eq_refl) (fun _ _ => eq_refl)
                (fun _ _ => eq_refl) (fun _ _ => eq_refl) (fun _ _ => eq_refl)
                (fun _ _ => eq_refl) st result 0) as Hold.
  pose proof (FrameFacts.kept_linearize B st result 0) as HK.
  destruct (gn_linearize B st result 0) as [st1 result1]. cbn [fst snd] in *.
  assert (Htol : tol (irgn_par st1) = tol (irgn_par st))
    by (unfold FrameFacts.kept, FrameFacts.conf in HK; congruence).
  assert (Hmax : max_iters (irgn_par st1) = max_iters (irgn_par st))
    by (unfold FrameFacts.kept, FrameFacts.conf in HK; congruence).
  destruct (irgn_solve_3D B fuel st1 result1 iters (data st1) 0 TV)
    as [[st2 result2] | e [st2 result2] |] eqn:Es; try reflexivity.
  apply irgn_solve_writes in Es.
  destruct (calc_residual_fvals st1 result1 (data st1) TV) as (E1 & E2 & E3 & E4).
  revert Hf Es E1 E2 E3 E4.
  generalize (calc_residual B st1 result1 (data st1) 0 TV). intros s Hf Es E1 E2 E3 E4.
  destruct Es as (v' & r' & z1' & z2' & mc & xc & rc & ->).
  destruct s. cbn in *.
  rewrite E1, E2, E3, E4, Hold, H0, Htol, Ht, Hmax.
  rewrite change_from_zero by assumption.
  reflexivity.
Qed.

(** The weights [_update_reg_par] leaves after linearizing. *)
Lemma linearize_weights (st : ModelReco M) (result : arr) (ign : nat) :
  lambd (irgn_par (fst (gn_linearize B st result ign))) = lambd (irgn_par st)
  /\ gamma (irgn_par (fst (gn_linearize B st result ign))) =
     Fl.maximum (Fl.mul (s_gamma st) (Fl.pow (gamma_dec (irgn_par st)) ign))
                (gamma_min (irgn_par st))
  /\ omega (irgn_par (fst (gn_linearize B st result ign))) =
     Fl.maximum (Fl.mul (s_omega st) (Fl.pow (omega_dec (irgn_par st)) ign))
                (omega_min (irgn_par st)).
Proof.
  unfold gn_linearize.
  pose proof (FrameFacts.kept_balance
                (with_grad_x st
                   (map (nan_to_num B)
                        (execute_gradient (model st) (uk_scale st) result)))
                result ign) as Hb.
  destruct (_balance_model_gradients _ result ign) as [st2 result2].
  cbn [fst] in *.
  unfold FrameFacts.kept, FrameFacts.conf in Hb. cbn in Hb.
  inversion Hb as [[E1 E2 E3 E4 E5 E6 E7 E8 E9 E10 E11 E12 E13]].
  unfold _update_reg_par. cbn.
  repeat split; congruence.
Qed.

Lemma calc_residual_fval (st : ModelReco M) (x data : arr) (GN_it : nat) (TV : Z) :
  _fval (calc_residual B st x data GN_it TV) =
  fval_of B st (ResidualFacts.residual B st data) (grad_op_fwd B (op_ratio st) x) TV.
Proof.
  unfold calc_residual, _calc_residual_imagespace, _calc_residual_kspace,
    ResidualFacts.residual, store_fval.
  destruct (imagespace st); destruct (Nat.eqb GN_it 0); reflexivity.
Qed.

(** The relative-change test cannot stop a run in its first Gauss-Newton
    iteration.  On an object whose [_fval_old] is the 0 of [__init__],
    with a tolerance of at most 1 and a first function value that is not
    a negative number, iteration 0 of the loop of [_execute_3D] never
    takes the [break]: it ends in the solver (an exception, or the bound
    on its line search) or goes on to iteration 1, having appended the
    function value to [gn_res], stored it as [_fval_old], written the
    dataset of iteration 0, and set the next inner iteration count to
    [min(2 iters, max_iters)]. *)
Theorem first_iteration_never_breaks (fuel : nat) (st : ModelReco M) (result : arr)
  (iters : nat) (TV : Z) (t : R) :
  _fval_old st = Fin 0 -> tol (irgn_par st) = Fin t -> t <= 1 ->
  Fl.ltb (_fval (calc_residual B (fst (gn_linearize B st result 0))
                               (snd (gn_linearize B st result 0))
                               (data (fst (gn_linearize B st result 0))) 0 TV))
         (Fin 0) = false ->
  (forall st' result', gn_body B fuel st result iters 0 TV <> Break st' result')
  /\ (forall st2 result2,
        irgn_solve_3D B fuel (fst (gn_linearize B st result 0))
                      (snd (gn_linearize B st result 0)) iters
                      (data (fst (gn_linearize B st result 0))) 0 TV =
        Returned (st2, result2) ->
        exists st',
          gn_body B fuel st result iters 0 TV =
          Continue st' result2 (Nat.min (iters * 2) (max_iters (irgn_par st)))
          /\ _fval_old st' = _fval st2
          /\ gn_res st' = gn_res st2 ++ [_fval st2]
          /\ h5file st' =
             h5file st2 ++ [mkEntry (negb (Z.eqb TV 0)) 0
                              (model_rescale (model st2) (uk_scale st2) result2)
                              (_fval st2)]).
Proof.
  intros H0 Ht Ht1 Hf.
  pose proof (first_step_outcome fuel st result iters TV t H0 Ht Ht1 Hf) as E.
  split.
  - intros st' result' Hb. rewrite Hb in E.
    destruct (irgn_solve_3D B fuel _ _ iters _ 0 TV) as [[s2 r2] | e [s2 r2] |];
      discriminate.
  - intros st2 result2 Hs. rewrite Hs in E.
    eexists. split; [exact E |].
    repeat split; reflexivity.
Qed.

End Solve.

End SolveFacts.

(** ** A run of two Gauss-Newton iterations *)

Module SolveExamples.

Import Arr Spec Reco Examples SolveFacts.
Local Open Scope R_scope.

(** An image-space object for the constant model, set up by [execute]
    for [TV = 2] with [max_gn_it = 2]. *)
Definition ex_irgn_par2 : irgn_par_t :=
  mkIrgn 1 2 2 (Fin (1 / 100)) (Fin 10) (Fin 1) (Fin 1) (Fin (1 / 10)) (Fin (1 / 2))
         (Fin 1) (Fin (1 / 10)) (Fin (1 / 2)) (Fin 1) (Fin 10) (Fin 2) false.

Definition st_two : ModelReco unit :=
  _setup_reg_tmp_arrays
    (execute_prologue (with_irgn_par (blank_of tt 1) ex_irgn_par2)) 2.

Definition lin : ModelReco unit * arr :=
  @gn_linearize unit const_model toy st_two [[c 2 0]] 0.

Definition solved : ModelReco unit :=
  _calc_residual_imagespace toy (fst lin) (snd lin) (data (fst lin)) 0 2.

Definition st_next : ModelReco unit :=
  savetofile
    (with_fval_old (with_gn_res solved (gn_res solved ++ [_fval solved]))
                   (_fval solved)) 0
    (snd lin) 2.

Lemma lin_estimate_finite : arr_finite (snd lin).
Proof.
  unfold lin, gn_linearize.
  change (execute_gradient (model st_two) (uk_scale st_two) [[c 2 0]])
    with [[[c 3 4]]].
  change (map (nan_to_num toy) [[[c 3 4]]]) with [[[c 3 4]]].
  pose proof (BalanceFacts.length_balance unit
                (with_grad_x st_two [[[c 3 4]]]) [[c 2 0]] 0) as HL.
  pose proof (BalanceFacts.balanced_row_finite unit
                (with_grad_x st_two [[[c 3 4]]]) [[c 2 0]] 0 0 1) as HF.
  destruct (_balance_model_gradients (with_grad_x st_two [[[c 3 4]]]) [[c 2 0]] 0)
    as [st2 result2].
  cbn [fst snd] in *.
  destruct result2 as [| rw [| rw' rest]]; simpl in HL; try discriminate.
  unfold arr_finite, flat. simpl. rewrite app_nil_r.
  apply HF.
  - simpl. lia.
  - simpl. lia.
  - simpl. lia.
  - simpl. lia.
  - reflexivity.
  - lra.
  - constructor; [exists 2, 0; reflexivity | constructor].
  - constructor; [exists 3, 4; reflexivity | constructor].
  - simpl. lra.
Qed.

Lemma lin_fields :
  imagespace (fst lin) = true
  /\ data (fst lin) = [[c 1 0]]
  /\ v (fst lin) = zeros 1 4
  /\ step_val (fst lin) = [[c 1 0]].
Proof.
  pose proof (untouched_linearize (SM := const_model) toy _
                (fun s : ModelReco unit => (imagespace s, data s, v s))
                (fun _ _ => eq_refl) (fun _ _ => eq_refl) (fun _ _ => eq_refl)
                (fun _ _ => eq_refl) (fun _ _ => eq_refl) (fun _ _ => eq_refl)
                (fun _ _ => eq_refl) st_two [[c 2 0]] 0) as H.
  cbv beta in H. inversion H as [[H1 H2 H3]].
  repeat split; reflexivity.
Qed.

Lemma first_value_not_negative :
  Fl.ltb (_fval (calc_residual toy (fst lin) (snd lin) (data (fst lin)) 0 2))
         (Fin 0) = false.
Proof.
  rewrite calc_residual_fval.
  destruct lin_fields as (Hi & Hd & Hv & Hs).
  destruct (linearize_weights (SM := const_model) toy st_two [[c 2 0]] 0)
    as (Hl & Hg & Hw).
  fold lin in Hl, Hg, Hw.
  change (lambd (irgn_par st_two)) with (Fin (1 * 3)) in Hl.
  change (Fl.mul (s_gamma st_two) (Fl.pow (gamma_dec (irgn_par st_two)) 0))
    with (Fin (1 * 1)) in Hg.
  change (gamma_min (irgn_par st_two)) with (Fin (1 / 10)) in Hg.
  change (Fl.mul (s_omega st_two) (Fl.pow (omega_dec (irgn_par st_two)) 0))
    with (Fin (1 * 1)) in Hw.
  change (omega_min (irgn_par st_two)) with (Fin (1 / 10)) in Hw.
  rewrite FlFacts.maximum_fin in Hg, Hw.
  destruct (ResidualFacts.fval_of_fin toy (fst lin)
              (ResidualFacts.residual toy (fst lin) (data (fst lin)))
              (grad_op_fwd toy (op_ratio (fst lin)) (snd lin)) 2
              (1 * 3) (Rmax (1 * 1) (1 / 10)) (Rmax (1 * 1) (1 / 10)) Hl Hg Hw)
    as (f & Pf & Ef).
  - lra.
  - pose proof (Rmax_l (1 * 1) (1 / 10)). lra.
  - pose proof (Rmax_l (1 * 1) (1 / 10)). lra.
  - unfold ResidualFacts.residual. rewrite Hi, Hd, Hs.
    constructor; [do 2 eexists; reflexivity | constructor].
  - exact lin_estimate_finite.
  - intros _. rewrite Hv. split.
    + repeat (constructor; [exists 0, 0; reflexivity |]). constructor.
    + repeat (constructor; [exists 0, 0; reflexivity |]). constructor.
  - rewrite Ef. unfold Fl.ltb. destruct (Rlt_dec f 0); [lra | reflexivity].
Qed.

Lemma first_solve_returns :
  @irgn_solve_3D unit toy 0 (fst lin) (snd lin) 1 (data (fst lin)) 0 2 =
  Returned (solved, snd lin).
Proof.
  unfold irgn_solve_3D. destruct lin_fields as (Hi & _). rewrite Hi.
  reflexivity.
Qed.

(** Iteration 0 of the run goes on to iteration 1. *)
Lemma first_step_continues :
  @gn_body unit const_model toy 0 st_two [[c 2 0]] 1 0 2 =
  Continue st_next (snd lin) 2.
Proof.
  rewrite (first_step_outcome (SM := const_model) toy 0 st_two [[c 2 0]] 1 2 (1 / 100));
    [| reflexivity | reflexivity | lra | exact first_value_not_negative].
  fold lin. rewrite first_solve_returns. reflexivity.
Qed.

Lemma reach_second :
  @Reach unit const_model toy 0 2 st_two [[c 2 0]] 1 1 st_next (snd lin) 2.
Proof.
  eapply Reach_next; [apply Reach_first | exact first_step_continues].
Qed.

Lemma first_iteration_never_breaks_witness :
  (forall st' result',
      @gn_body unit const_model toy 0 st_two [[c 2 0]] 1 0 2 <> Break st' result')
  /\ (forall st2 result2,
        @irgn_solve_3D unit toy 0
          (fst (@gn_linearize unit const_model toy st_two [[c 2 0]] 0))
          (snd (@gn_linearize unit const_model toy st_two [[c 2 0]] 0)) 1
          (data (fst (@gn_linearize unit const_model toy st_two [[c 2 0]] 0))) 0 2 =
        Returned (st2, result2) ->
        exists st',
          @gn_body unit const_model toy 0 st_two [[c 2 0]] 1 0 2 =
          Continue st' result2 (Nat.min (1 * 2) (max_iters (irgn_par st_two)))
          /\ _fval_old st' = _fval st2
          /\ gn_res st' = gn_res st2 ++ [_fval st2]
          /\ h5file st' =
             h5file st2 ++ [mkEntry (negb (Z.eqb 2 0)) 0
                              (@model_rescale unit const_model (model st2) (uk_scale st2)
                                 result2)
                              (_fval st2)]).
Proof.
  apply (first_iteration_never_breaks (SM := const_model) toy 0 st_two [[c 2 0]] 1 2
           (1 / 100)).
  - reflexivity.
  - reflexivity.
  - lra.
  - exact first_value_not_negative.
Defined.

Lemma inner_iterations_double_witness :
  2%nat = Nat.min (1 * 2 ^ 1) (max_iters (irgn_par st_two)).
Proof.
  exact (@LoopFacts.inner_iterations_double unit const_model toy 0 2 st_two
           [[c 2 0]] 1 1 st_next (snd lin) 2 reach_second).
Defined.

Lemma one_dataset_per_iteration_witness :
  exists es : list h5_entry,
    h5file st_next = h5file st_two ++ es
    /\ gn_res st_next = gn_res st_two ++ map h5_attr es
    /\ map h5_it es = seq 0 1
    /\ NoDup (map h5_it es)
    /\ Forall (fun e => h5_tv e = negb (Z.eqb 2 0)) es.
Proof.
  exact (@LoopFacts.one_dataset_per_iteration unit const_model toy 0 2 st_two
           [[c 2 0]] 1 1 st_next (snd lin) 2 reach_second).
Defined.

(** The function value of a fresh image-space object. *)
Lemma function_value_witness :
  exists f,
    0 <= f
    /\ _fval (calc_residual toy (with_step_val (blank 1) [[c 0 0]]) [[c 1 0]]
                            [[c 1 0]] 0 1) = Fin f
    /\ (0%nat = 0%nat ->
        _fval_init (calc_residual toy (with_step_val (blank 1) [[c 0 0]]) [[c 1 0]]
                                  [[c 1 0]] 0 1) = Fin f)
    /\ (0%nat <> 0%nat ->
        _fval_init (calc_residual toy (with_step_val (blank 1) [[c 0 0]]) [[c 1 0]]
                                  [[c 1 0]] 0 1) =
        _fval_init (with_step_val (blank 1) [[c 0 0]])).
Proof.
  apply (ResidualFacts.function_value_is_nonnegative toy
           (with_step_val (blank 1) [[c 0 0]]) [[c 1 0]] [[c 1 0]] 0 1 1 1 1).
  - reflexivity.
  - reflexivity.
  - reflexivity.
  - lra.
  - lra.
  - lra.
  - constructor; [do 2 eexists; reflexivity | constructor].
  - constructor; [exists 1, 0; reflexivity | constructor].
  - intros H. exfalso. apply H. reflexivity.
Defined.

(** Balancing the unknown whose Jacobian slice is [(3 + 4i)]. *)
Lemma balancing_keeps_physical_bounds_witness :
  exists cr,
    0 < cr
    /\ cr * sqrt (sumsq (arr_C (nth 0 (grad_x BalanceExamples.st_w) []))) =
       1000 / sqrt (INR (unknowns (par BalanceExamples.st_w)))
    /\ nth 0 (constraints (fst (_balance_model_gradients BalanceExamples.st_w
                                  BalanceExamples.result_w 0)))
           BoundsFacts.no_constraint
       = Constraint.update (nth 0 (constraints BalanceExamples.st_w)
                                BoundsFacts.no_constraint) (Fin cr)
    /\ rget (uk_scale (fst (_balance_model_gradients BalanceExamples.st_w
                              BalanceExamples.result_w 0))) 0 = Fin (1 * cr)
    /\ (forall b,
          Constraint.min (nth 0 (constraints BalanceExamples.st_w)
                              BoundsFacts.no_constraint) = Fin b ->
          Fl.mul (Constraint.min
                    (nth 0 (constraints (fst (_balance_model_gradients
                                                BalanceExamples.st_w
                                                BalanceExamples.result_w 0)))
                         BoundsFacts.no_constraint))
                 (rget (uk_scale (fst (_balance_model_gradients BalanceExamples.st_w
                                         BalanceExamples.result_w 0))) 0) =
          Fin (b * 1))
    /\ (forall b,
          Constraint.max (nth 0 (constraints BalanceExamples.st_w)
                              BoundsFacts.no_constraint) = Fin b ->
          Fl.mul (Constraint.max
                    (nth 0 (constraints (fst (_balance_model_gradients
                                                BalanceExamples.st_w
                                                BalanceExamples.result_w 0)))
                         BoundsFacts.no_constraint))
                 (rget (uk_scale (fst (_balance_model_gradients BalanceExamples.st_w
                                         BalanceExamples.result_w 0))) 0) =
          Fin (b * 1)).
Proof.
  apply (BoundsFacts.balancing_keeps_physical_bounds _ BalanceExamples.st_w
           BalanceExamples.result_w 0 0 1).
  - simpl. lia.
  - simpl. lia.
  - simpl. lia.
  - simpl. lia.
  - simpl. lia.
  - reflexivity.
  - constructor; [exists 3, 4; reflexivity | constructor].
  - simpl. lra.
Defined.

(** A TGV solve of no iteration on the object the set-up makes. *)
Definition st_tgv : ModelReco DiffdirLL.Model := _setup_reg_tmp_arrays (blank 1) 0.

Definition st_tgv_solved : ModelReco DiffdirLL.Model :=
  with_z2 (with_z1 (with_r (with_v (_eval_const st_tgv) (zeros_like (v st_tgv)))
                           (zeros_like (r st_tgv)))
                   (zeros_like (z1 st_tgv)))
          (zeros_like (z2 st_tgv)).

Lemma solvers_write_only_their_variables_witness :
  tgv_solve_3D toy 0 st_tgv [[c 1 0]] [[c 0 0]] 0 = Some (st_tgv_solved, [[c 1 0]])
  /\ (exists v' r' z1' z2',
        st_tgv_solved =
        with_z2 (with_z1 (with_r (with_v (_eval_const st_tgv) v') r') z1') z2')
  /\ tgv_solve_3D_explicit toy 0 st_tgv [[c 1 0]] [[c 0 0]] 0 =
     Raised AttributeError (st_tgv, [[c 1 0]]).
Proof.
  pose proof (solvers_write_only_their_variables toy 0 st_tgv [[c 1 0]] [[c 0 0]] 0
                st_tgv_solved [[c 1 0]]) as (H1 & _ & H3 & _ & H5).
  split; [exact H3 | split; [exact (H1 H3) | exact H5]].
Defined.
End SolveExamples.

(** ** Whole runs *)

Module RunFacts.

Import Arr Spec Reco FrameFacts LoopFacts SolveFacts.
Local Open Scope R_scope.

Section Run.

Context {M : Type} {SM : SignalModel M} (B : Backend).

(** What one pass through the body of the loop appends, whether it goes
    on or takes the [break]. *)
Definition appended (ign : nat) (TV : Z) (st st' : ModelReco M) : Prop :=
  exists e a,
    h5file st' = h5file st ++ [e]
    /\ h5_it e = ign
    /\ h5_tv e = negb (Z.eqb TV 0)
    /\ gn_res st' = gn_res st ++ [a].

Lemma gn_body_appends (fuel : nat) (st : ModelReco M) (result : arr)
  (iters ign : nat) (TV : Z) :
  match gn_body B fuel st result iters ign TV with
  | Continue st' _ _ => appended ign TV st st'
  | Break st' _ => appended ign TV st st'
  | _ => True
  end.
Proof.
  unfold gn_body.
  pose proof (logs_linearize B st result ign) as HL.
  destruct (gn_linearize B st result ign) as [st1 result1]. cbn [fst] in HL.
  destruct (irgn_solve_3D B fuel st1 result1 iters (data st1) ign TV)
    as [[st2 result2] | e [st2 result2] |] eqn:E; try exact I.
  apply logs_irgn_solve in E.
  pose proof (f_equal fst E) as E1. pose proof (f_equal snd E) as E2.
  pose proof (f_equal fst HL) as L1. pose proof (f_equal snd HL) as L2.
  cbn [logs fst snd] in E1, E2, L1, L2.
  match goal with
  | |- context [if ?c then _ else _] => destruct c
  end.
  - pose proof (logs_calc_residual B
                  (with_gn_res st2 (gn_res st2 ++ [_fval st2])) result2
                  (data (with_gn_res st2 (gn_res st2 ++ [_fval st2])))
                  (ign + 1) TV) as HC.
    pose proof (f_equal fst HC) as C1. pose proof (f_equal snd HC) as C2.
    cbn [logs fst snd] in C1, C2.
    unfold appended, savetofile. do 2 eexists.
    split; [cbn [h5file with_h5file]; rewrite C2; cbn [h5file with_gn_res];
            rewrite E2, L2; reflexivity |].
    split; [reflexivity | split; [reflexivity |]].
    cbn [gn_res with_h5file]. rewrite C1. cbn [gn_res with_gn_res].
    rewrite E1, L1. reflexivity.
  - unfold appended, savetofile. do 2 eexists.
    split; [cbn; rewrite E2, L2; reflexivity |].
    split; [reflexivity | split; [reflexivity |]].
    cbn. rewrite E1, L1. reflexivity.
Qed.

(** The datasets a loop that returns has written. *)
Definition written (first bound : nat) (TV : Z) (st st' : ModelReco M) : Prop :=
  exists es : list h5_entry,
    h5file st' = h5file st ++ es
    /\ map h5_it es = seq first (length es)
    /\ (length es <= bound)%nat
    /\ (bound <> 0%nat -> es <> [])
    /\ Forall (fun e => h5_tv e = negb (Z.eqb TV 0)) es
    /\ length (gn_res st') = (length (gn_res st) + length es)%nat.

Lemma gn_loop_written (fuel : nat) (TV : Z) (n : nat) :
  forall (st : ModelReco M) (result : arr) (iters ign : nat) (st' : ModelReco M),
    gn_loop B fuel st result iters ign n TV = Returned st' ->
    written ign n TV st st'.
Proof.
  induction n as [| n IH]; intros st result iters ign st' H; cbn [gn_loop] in H.
  - injection H as <-.
    pose proof (logs_calc_residual B st result (data st) ign TV) as HC.
    pose proof (f_equal fst HC) as C1. pose proof (f_equal snd HC) as C2.
    cbn [logs fst snd] in C1, C2.
    exists []. rewrite app_nil_r, C1, C2. cbn.
    repeat split; try reflexivity; try lia; try constructor.
  - pose proof (gn_body_appends fuel st result iters ign TV) as HA.
    destruct (gn_body B fuel st result iters ign TV)
      as [st1 result1 iters1 | st1 result1 | e1 st1 |]; try discriminate.
    + destruct HA as (e & a & A1 & A2 & A3 & A4).
      apply IH in H. destruct H as (es & W1 & W2 & W3 & _ & W5 & W6).
      exists (e :: es). rewrite W1, A1, <- app_assoc. cbn [app length map].
      rewrite A2, W2, W6, A4, length_app. cbn [length seq].
      repeat split; try reflexivity; try lia; try discriminate.
      constructor; assumption.
    + destruct HA as (e & a & A1 & A2 & A3 & A4).
      injection H as <-.
      pose proof (logs_calc_residual B st1 result1 (data st1) (ign + 1) TV) as HC.
      pose proof (f_equal fst HC) as C1. pose proof (f_equal snd HC) as C2.
      cbn [logs fst snd] in C1, C2.
      exists [e]. rewrite C1, C2, A1, A4, length_app. cbn [length map seq].
      rewrite A2.
      repeat split; try reflexivity; try lia; try discriminate.
      constructor; [exact A3 | constructor].
Qed.

(** The variables only the solvers assign. *)
Definition duals (st : ModelReco M) : arr * arr * arr * arr :=
  (r st, z1 st, z2 st, v st).

Lemma duals_calc_residual (st : ModelReco M) (x data : arr) (GN_it : nat) (TV : Z) :
  duals (calc_residual B st x data GN_it TV) = duals st.
Proof.
  unfold calc_residual, _calc_residual_imagespace, _calc_residual_kspace,
    store_fval.
  destruct (imagespace st); destruct (Nat.eqb GN_it 0); reflexivity.
Qed.

Lemma duals_calc_residual_imagespace (st : ModelReco M) (x data : arr)
  (GN_it : nat) (TV : Z) :
  duals (_calc_residual_imagespace B st x data GN_it TV) = duals st.
Proof.
  unfold _calc_residual_imagespace, store_fval.
  destruct (Nat.eqb GN_it 0); reflexivity.
Qed.

(** On an image-space object a [TV] other than 0 and 1 selects no
    solver: the loop returns whatever the bound on the line search. *)
Lemma gn_loop_without_solver (fuel : nat) (TV : Z) (n : nat) :
  TV <> 0%Z -> TV <> 1%Z ->
  forall (st : ModelReco M) (result : arr) (iters ign : nat),
    imagespace st = true ->
    exists st',
      gn_loop B fuel st result iters ign n TV = Returned st'
      /\ gn_loop B 0 st result iters ign n TV = Returned st'
      /\ duals st' = duals st.
Proof.
  intros H0 H1.
  assert (Hsolve : forall f' (s : ModelReco M) x it d g,
             imagespace s = true ->
             irgn_solve_3D B f' s x it d g TV =
             Returned (_calc_residual_imagespace B s x d g TV, x)).
  { intros f' s x it d g Hi. unfold irgn_solve_3D, _irgn_solve_3D_imagespace.
    rewrite Hi.
    destruct (Z.eqb_spec TV 1); [contradiction |].
    destruct (Z.eqb_spec TV 0); [contradiction |]. reflexivity. }
  assert (Hbody : forall f' (s : ModelReco M) res it g,
             imagespace s = true ->
             gn_body B f' s res it g TV = gn_body B 0 s res it g TV).
  { intros f' s res it g Hi. unfold gn_body.
    pose proof (kept_linearize B s res g) as HL.
    destruct (gn_linearize B s res g) as [s1 r1]. cbn [fst] in HL.
    rewrite !Hsolve by (rewrite (imagespace_of_kept _ _ HL); exact Hi).
    reflexivity. }
  induction n as [| n IH]; intros st result iters ign Hi; cbn [gn_loop].
  - eexists. split; [reflexivity | split; [reflexivity |]].
    apply duals_calc_residual.
  - rewrite (Hbody fuel st result iters ign Hi).
    pose proof (kept_gn_body_any B 0 st result iters ign TV) as Hk.
    assert (Hret : match gn_body B 0 st result iters ign TV with
                   | Continue s _ _ | Break s _ => duals s = duals st
                   | _ => False
                   end).
    { unfold gn_body.
      pose proof (kept_linearize B st result ign) as HL.
      pose proof (untouched_linearize B _ duals
                    (fun _ _ => eq_refl) (fun _ _ => eq_refl) (fun _ _ => eq_refl)
                    (fun _ _ => eq_refl) (fun _ _ => eq_refl) (fun _ _ => eq_refl)
                    (fun _ _ => eq_refl) st result ign) as HD.
      destruct (gn_linearize B st result ign) as [s1 r1]. cbn [fst] in HL, HD.
      rewrite Hsolve by (rewrite (imagespace_of_kept _ _ HL); exact Hi).
      pose proof (duals_calc_residual_imagespace s1 r1 (data s1) ign TV) as HS.
      revert HS.
      generalize (_calc_residual_imagespace B s1 r1 (data s1) ign TV).
      intros s2 HS.
      match goal with
      | |- context [if ?c then _ else _] => destruct c
      end.
      - unfold savetofile.
        change (duals (calc_residual B (with_gn_res s2 (gn_res s2 ++ [_fval s2]))
                         r1 (data s2) (ign + 1) TV) = duals st).
        rewrite duals_calc_residual.
        change (duals s2 = duals st). congruence.
      - change (duals s2 = duals st). congruence. }
    destruct (gn_body B 0 st result iters ign TV)
      as [st1 result1 iters1 | st1 result1 | e1 st1 |]; try contradiction.
    + destruct (IH st1 result1 iters1 (S ign)) as (st' & G1 & G2 & G3).
      * rewrite (imagespace_of_kept _ _ Hk). exact Hi.
      * exists st'. split; [exact G1 | split; [exact G2 | congruence]].
    + eexists. split; [reflexivity | split; [reflexivity |]].
      rewrite duals_calc_residual. exact Hret.
Qed.

Lemma logs_setup (st : ModelReco M) (TV : Z) :
  logs (_setup_reg_tmp_arrays (execute_prologue st) TV) = logs st.
Proof.
  unfold _setup_reg_tmp_arrays.
  destruct (Z.eqb TV 1); [reflexivity |].
  destruct (Z.eqb TV 0); reflexivity.
Qed.

End Run.

(** The datasets of a run.  A call of [execute] that returns has
    appended to the output file the datasets of the Gauss-Newton
    iterations it ran, numbered [0, 1, ...] without a gap: at least one
    and at most [max_gn_it] of them, all of the kind of regularization of
    the run, and [gn_res] has grown by one function value per dataset.
    This covers a run stopped by the tolerance test, whose last iteration
    writes its dataset before the [break]. *)
Theorem execute_writes_consecutive_datasets (M : Type) (SM : SignalModel M)
  (B : Backend) (fuel : nat) (st : ModelReco M) (TV img reco_2D : Z)
  (st' : ModelReco M) :
  execute B fuel st TV img reco_2D = Returned st' ->
  exists es : list h5_entry,
    h5file st' = h5file st ++ es
    /\ map h5_it es = seq 0 (length es)
    /\ (1 <= length es <= max_gn_it (irgn_par st))%nat
    /\ Forall (fun e => h5_tv e = negb (Z.eqb TV 0)) es
    /\ length (gn_res st') = (length (gn_res st) + length es)%nat.
Proof.
  unfold execute, _execute_3D. intros H.
  destruct (negb (Z.eqb reco_2D 0)); [discriminate |].
  pose proof (conf_setup (M := M) (execute_prologue st) TV) as Hc.
  assert (Hm : max_gn_it (irgn_par (_setup_reg_tmp_arrays (execute_prologue st) TV)) =
               max_gn_it (irgn_par st))
    by exact (f_equal (fun t => snd (fst (snd (fst t)))) Hc).
  pose proof (logs_setup st TV) as HL.
  pose proof (f_equal fst HL) as L1. pose proof (f_equal snd HL) as L2.
  cbn [logs fst snd] in L1, L2.
  rewrite Hm in H.
  destruct (max_gn_it (irgn_par st)) as [| n] eqn:En; [discriminate |].
  apply gn_loop_written in H.
  destruct H as (es & W1 & W2 & W3 & W4 & W5 & W6).
  exists es. rewrite W1, W6, L1, L2.
  repeat split; try assumption; try reflexivity.
  destruct es; [exfalso; apply W4; [discriminate | reflexivity] | simpl; lia].
Qed.

Lemma execute_returns_without_solver (M : Type) (SM : SignalModel M) (B : Backend)
  (fuel : nat) (st : ModelReco M) (TV img : Z) :
  imagespace st = true -> TV <> 0%Z -> TV <> 1%Z ->
  max_gn_it (irgn_par st) <> 0%nat ->
  exists st', execute B fuel st TV img 0 = Returned st'.
Proof.
  intros Hi H0 H1 Hn. unfold execute, _execute_3D. cbn [Z.eqb negb].
  pose proof (conf_setup (M := M) (execute_prologue st) TV) as Hc.
  assert (Hm : max_gn_it (irgn_par (_setup_reg_tmp_arrays (execute_prologue st) TV)) =
               max_gn_it (irgn_par st))
    by exact (f_equal (fun t => snd (fst (snd (fst t)))) Hc).
  assert (Him : imagespace (_setup_reg_tmp_arrays (execute_prologue st) TV) = true).
  { rewrite <- Hi. exact (f_equal (fun t => snd (fst (fst (snd t)))) Hc). }
  rewrite Hm.
  destruct (max_gn_it (irgn_par st)) as [| n]; [contradiction |].
  destruct (gn_loop_without_solver B fuel TV (S n) H0 H1 _
              (model_guess (model (execute_prologue st)))
              (start_iters (irgn_par (execute_prologue st))) 0 Him)
    as (st' & Hs & _).
  exists st'. exact Hs.
Qed.


End RunFacts.

(** ** A run that returns *)

Module RunExamples.

Import Arr Spec Reco Examples SolveExamples RunFacts.
Local Open Scope R_scope.

(** The image-space object of the constant model with [max_gn_it = 2],
    before [execute]. *)
Definition st_init : ModelReco unit := with_irgn_par (blank_of tt 1) ex_irgn_par2.

Definition ran : ModelReco unit :=
  match @execute unit const_model toy 0 st_init 2 0 0 with
  | Returned s => s
  | _ => st_init
  end.

Lemma execute_ran : @execute unit const_model toy 0 st_init 2 0 0 = Returned ran.
Proof.
  unfold ran.
  destruct (execute_returns_without_solver unit const_model toy 0 st_init 2 0)
    as [s Hs].
  - reflexivity.
  - discriminate.
  - discriminate.
  - simpl. discriminate.
  - rewrite Hs. reflexivity.
Qed.

Lemma execute_writes_consecutive_datasets_witness :
  exists es : list h5_entry,
    h5file ran = h5file st_init ++ es
    /\ map h5_it es = seq 0 (length es)
    /\ (1 <= length es <= max_gn_it (irgn_par st_init))%nat
    /\ Forall (fun e => h5_tv e = negb (Z.eqb 2 0)) es
    /\ length (gn_res ran) = (length (gn_res st_init) + length es)%nat.
Proof.
  exact (execute_writes_consecutive_datasets unit const_model toy 0 st_init 2 0 0
           ran execute_ran).
Defined.


End RunExamples.

(** ** The box constraints and the proposed step sizes *)

Module StepFacts.

Import Arr Spec Reco.
Local Open Scope R_scope.

(** [constraint.update] on a box with finite bounds [lo <= hi] and a
    finite scale [s <> 0] divides both bounds by [s] and keeps the flag
    [real].  For [s > 0] the new bounds are in order and [x] lies in the
    old box exactly when [x / s] lies in the new one.  For [s < 0] the
    bounds are not exchanged: the new [min] is at least the new [max], and
    a box with [lo < hi] becomes empty.  Two updates amount to one update
    with the product of the scales. *)
Theorem update_divides_the_bounds (c : constraint) (lo hi s : R) :
  Constraint.min c = Fin lo -> Constraint.max c = Fin hi -> lo <= hi -> s <> 0 ->
  Constraint.update c (Fin s) = Constraint.mk (Fin (lo / s)) (Fin (hi / s))
                                              (Constraint.real c)
  /\ (0 < s -> lo / s <= hi / s
               /\ forall x, lo <= x <= hi <-> lo / s <= x / s <= hi / s)
  /\ (s < 0 -> hi / s <= lo / s
               /\ (lo < hi -> forall y, ~ (lo / s <= y <= hi / s)))
  /\ (forall s2, s2 <> 0 ->
        Constraint.update (Constraint.update c (Fin s)) (Fin s2) =
        Constraint.update c (Fin (s * s2))).
Proof.
  intros Hlo Hhi Hle Hs.
  assert (E : Constraint.update c (Fin s) =
              Constraint.mk (Fin (lo / s)) (Fin (hi / s)) (Constraint.real c)).
  { unfold Constraint.update. rewrite Hlo, Hhi, !FlFacts.div_fin by exact Hs.
    reflexivity. }
  split; [exact E |]. split; [| split].
  - intros Hpos.
    assert (Hinv : 0 < / s) by (apply Rinv_0_lt_compat; exact Hpos).
    unfold Rdiv. split; [nra |].
    intros x. split.
    + intros [H1 H2]. split; nra.
    + intros [H1 H2].
      assert (Hx : forall a, a = a * / s * s) by (intros a; field; lra).
      rewrite (Hx lo), (Hx x), (Hx hi). split; nra.
  - intros Hneg.
    assert (Hinv : / s < 0) by (apply Rinv_lt_0_compat; exact Hneg).
    unfold Rdiv. split; [nra |].
    intros Hlt y [H1 H2]. nra.
  - intros s2 Hs2. rewrite E. unfold Constraint.update.
    cbn [Constraint.min Constraint.max Constraint.real].
    rewrite Hlo, Hhi, !FlFacts.div_fin by (try assumption; nra).
    f_equal; f_equal; field; split; assumption.
Qed.

Lemma update_divides_the_bounds_witness :
  Constraint.update (Constraint.mk (Fin 0) (Fin 10) false) (Fin (-2)) =
  Constraint.mk (Fin (0 / -2)) (Fin (10 / -2)) false
  /\ (0 < -2 -> 0 / -2 <= 10 / -2
                /\ forall x, 0 <= x <= 10 <-> 0 / -2 <= x / -2 <= 10 / -2)
  /\ (-2 < 0 -> 10 / -2 <= 0 / -2
                /\ (0 < 10 -> forall y, ~ (0 / -2 <= y <= 10 / -2)))
  /\ (forall s2, s2 <> 0 ->
        Constraint.update
          (Constraint.update (Constraint.mk (Fin 0) (Fin 10) false) (Fin (-2)))
          (Fin s2) =
        Constraint.update (Constraint.mk (Fin 0) (Fin 10) false) (Fin (-2 * s2))).
Proof.
  apply (update_divides_the_bounds (Constraint.mk (Fin 0) (Fin 10) false) 0 10 (-2)).
  - reflexivity.
  - reflexivity.
  - lra.
  - lra.
Defined.

Section Steps.

Context {M : Type}.

(** The step sizes proposed at the start of an inner iteration.  From
    finite [tau > 0], [beta_line > 0], [theta_line >= 0] and [delta > 0],
    [beta_line] grows strictly, to [beta_line (1 + tau / delta)]; the
    proposed [tau_new] is positive and at most [tau sqrt(1 + theta_line)];
    and the two are coupled by [beta_new tau_new^2 = beta_line tau^2
    (1 + theta_line)]. *)
Theorem proposed_steps_are_coupled (st : ModelReco M) (p : PD.t) (t b th d : R) :
  PD.tau p = Fin t -> PD.beta_line p = Fin b -> PD.theta_line p = Fin th ->
  delta (irgn_par st) = Fin d ->
  0 < t -> 0 < b -> 0 <= th -> 0 < d ->
  exists bn tn,
    PD.beta_line (propose_steps st p) = Fin bn
    /\ PD.tau_new (propose_steps st p) = Fin tn
    /\ bn = b * (1 + t / d)
    /\ b < bn
    /\ 0 < tn
    /\ tn <= t * sqrt (1 + th)
    /\ bn * (tn * tn) = b * (t * t) * (1 + th).
Proof.
  intros Ht Hb Hth Hd Pt Pb Pth Pd.
  assert (Htd : 0 < t / d) by (apply Rdiv_lt_0_compat; assumption).
  assert (Hbn : 0 < b * (1 + 1 / d * t)).
  { replace (1 / d * t) with (t / d) by (field; lra). nra. }
  assert (Hq : 0 < b / (b * (1 + 1 / d * t)))
    by (apply Rdiv_lt_0_compat; assumption).
  assert (Harg : 0 < b / (b * (1 + 1 / d * t)) * (1 + th)) by nra.
  exists (b * (1 + t / d)), (t * sqrt (b / (b * (1 + 1 / d * t)) * (1 + th))).
  unfold propose_steps, mu_of.
  destruct p. cbn in Ht, Hb, Hth. subst.
  unfold PD.with_beta_line, PD.with_tau_new.
  cbn [PD.beta_line PD.tau_new PD.tau PD.theta_line].
  rewrite Hd, FlFacts.div_fin by lra. cbn [Fl.mul Fl.add].
  rewrite FlFacts.div_fin by lra. cbn [Fl.mul].
  rewrite FlFacts.sqrt_fin by lra. cbn [Fl.mul].
  split; [f_equal; field; lra |].
  split; [reflexivity |].
  split; [reflexivity |].
  split; [nra |].
  split; [apply Rmult_lt_0_compat; [exact Pt | apply sqrt_lt_R0; exact Harg] |].
  split.
  - apply Rmult_le_compat_l; [lra |].
    apply sqrt_le_1_alt.
    assert (Hq1 : b / (b * (1 + 1 / d * t)) <= 1).
    { apply (Rmult_le_reg_r (b * (1 + 1 / d * t))); [exact Hbn |].
      replace (b / (b * (1 + 1 / d * t)) * (b * (1 + 1 / d * t))) with b
        by (field; split; lra).
      replace (1 / d * t) with (t / d) by (field; lra). nra. }
    nra.
  - replace (t * sqrt (b / (b * (1 + 1 / d * t)) * (1 + th)) *
             (t * sqrt (b / (b * (1 + 1 / d * t)) * (1 + th))))
      with (t * t * (sqrt (b / (b * (1 + 1 / d * t)) * (1 + th)) *
                     sqrt (b / (b * (1 + 1 / d * t)) * (1 + th)))) by ring.
    rewrite sqrt_sqrt by lra. field. split; lra.
Qed.

End Steps.

(** Local variables of a solve with unit step sizes. *)
Definition ex_steps : PD.t :=
  PD.with_theta_line
    (PD.with_beta_line
       (PD.with_tau (tv_init Examples.toy (Examples.blank 1) [] []) (Fin 1)) (Fin 1))
    (Fin 1).

Lemma proposed_steps_witness :
  exists bn tn,
    PD.beta_line (propose_steps (Examples.blank 1)
                    ex_steps) = Fin bn
    /\ PD.tau_new (propose_steps (Examples.blank 1)
                     ex_steps) = Fin tn
    /\ bn = 1 * (1 + 1 / 1)
    /\ 1 < bn
    /\ 0 < tn
    /\ tn <= 1 * sqrt (1 + 1)
    /\ bn * (tn * tn) = 1 * (1 * 1) * (1 + 1).
Proof.
  apply (proposed_steps_are_coupled (Examples.blank 1)
           ex_steps 1 1 1 1).
  - reflexivity.
  - reflexivity.
  - reflexivity.
  - reflexivity.
  - lra.
  - lra.
  - lra.
  - lra.
Defined.

End StepFacts.

(** ** The Look-Locker signal as a function of [M0] *)

Module IRLLLinear.

Import Arr Spec CalculusFacts JacobianFacts IRLLFacts.
Local Open Scope R_scope.
Local Open Scope cfl_scope.

(** The factor of [S[i, j]] that does not contain [M0], [M0_sc] and
    [sin_phi]. *)
Definition kernel (m : IRLL.IRLL_Model) (cosp x1 : cfl) (i j : nat) : cfl :=
  let n := (Z.of_nat i * Z.of_nat (IRLL.Nproj m) + Z.of_nat j + 1)%Z in
  IRLL.cpow_int (IRLL.Etau m x1 *c cosp) (n - 1) *c IRLL.Q_F m cosp x1
  +c IRLL.F m cosp x1.

(** The input with [M0 = 1] in every voxel. *)
Definition unit_M0 (x : arr) : arr :=
  match x with
  | [] => []
  | r0 :: rest => map (fun _ => emb (1, 0)%R) r0 :: rest
  end.

Lemma hom_sub (a b : Cx) : emb a -c emb b = emb (Csub a b).
Proof. reflexivity. Qed.

Lemma S_elem_kernel (m : IRLL.IRLL_Model) (sinp cosp x0 x1 : cfl) (i j : nat) :
  IRLL.S_elem m sinp cosp x0 x1 i j =
  x0 *c rc (IRLL.M0_sc m) *c kernel m cosp x1 i j *c sinp.
Proof. reflexivity. Qed.

Lemma csum_from (g : nat -> Cx) (l : list nat) :
  forall acc : Cx,
    fold_left Cfl.cadd (map (fun j => emb (g j)) l) (emb acc) =
    emb (fold_left Cadd (map g l) acc).
Proof.
  induction l as [| j l IH]; intros acc; simpl.
  - reflexivity.
  - rewrite hom_add. apply IH.
Qed.

Lemma Csum_scaled (a : Cx) (g : nat -> Cx) (l : list nat) :
  forall acc : Cx,
    fold_left Cadd (map (fun j => Cmul a (g j)) l) (Cmul a acc) =
    Cmul a (fold_left Cadd (map g l) acc).
Proof.
  induction l as [| j l IH]; intros acc; simpl.
  - reflexivity.
  - replace (Cadd (Cmul a acc) (Cmul a (g j))) with (Cmul a (Cadd acc (g j)))
      by ring.
    apply IH.
Qed.

(** The mean over the projections for a finite [M0]. *)
Lemma mean_elem_fin (m : IRLL.IRLL_Model) (sinp cosp x1 : cfl) (i : nat)
  (a sp : Cx) (s : R) :
  (0 < IRLL.Nproj m)%nat ->
  IRLL.M0_sc m = Fin s -> sinp = emb sp ->
  (forall j, (j < IRLL.Nproj m)%nat -> is_cfin (kernel m cosp x1 i j)) ->
  IRLL.mean_elem m sinp cosp (emb a) x1 i =
  emb (Cmul a
         (fst (fold_left Cadd
                 (map (fun j => Cmul (Cmul (re s) (to_C (kernel m cosp x1 i j))) sp)
                      (seq 0 (IRLL.Nproj m))) (0, 0)%R) / INR (IRLL.Nproj m),
          snd (fold_left Cadd
                 (map (fun j => Cmul (Cmul (re s) (to_C (kernel m cosp x1 i j))) sp)
                      (seq 0 (IRLL.Nproj m))) (0, 0)%R) / INR (IRLL.Nproj m))%R).
Proof.
  intros HN Hs Hsp HK.
  assert (HN0 : INR (IRLL.Nproj m) <> 0%R) by (apply not_0_INR; lia).
  unfold IRLL.mean_elem, csum.
  rewrite (map_ext_in _
             (fun j => emb (Cmul a (Cmul (Cmul (re s) (to_C (kernel m cosp x1 i j)))
                                         sp)))).
  - change Cfl.czero with (emb (0, 0)%R).
    rewrite (csum_from (fun j => Cmul a (Cmul (Cmul (re s)
                                                 (to_C (kernel m cosp x1 i j))) sp))).
    replace (0, 0)%R with (Cmul a (0, 0)%R) at 1
      by (unfold Cmul; cbn [fst snd]; f_equal; ring).
    rewrite (Csum_scaled a
               (fun j => Cmul (Cmul (re s) (to_C (kernel m cosp x1 i j))) sp)).
    set (T := fold_left Cadd _ (0, 0)%R).
    unfold Fl.of_nat, emb at 1.
    rewrite NormFacts.cdiv_real_fin by exact HN0.
    unfold emb, Cmul. cbn [fst snd]. f_equal; f_equal; field; exact HN0.
  - intros j Hj. apply in_seq in Hj.
    rewrite S_elem_kernel, Hs, Hsp.
    rewrite (NormFacts.is_cfin_emb _ (HK j ltac:(lia))) at 1.
    rewrite hom_rc, !hom_mul. f_equal. ring.
Qed.

(** The Look-Locker signal is linear in [M0].  For a scan [i] and a
    voxel [v] with a finite [M0 = x[0, v]], finite [M0_sc] and [sin_phi],
    at least one projection, and a finite factor [((Etau cos_phi)^(n-1)
    Q_F + F)] for each projection, the value of [execute_forward_3D] is
    finite and equals [x[0, v]] times the value the function gives for
    the input with [M0 = 1]. *)
Theorem irll_signal_is_linear_in_M0 (m : IRLL.IRLL_Model) (x : arr) (i v : nat)
  (a sp : Cx) (s : R) :
  (i < IRLL.NLL m)%nat ->
  (v < length (row x 0))%nat ->
  (0 < IRLL.Nproj m)%nat ->
  at2 x 0 v = emb a ->
  IRLL.M0_sc m = Fin s ->
  nth v (IRLL.sin_phi m) Cfl.czero = emb sp ->
  (forall j, (j < IRLL.Nproj m)%nat ->
             is_cfin (kernel m (nth v (IRLL.cos_phi m) Cfl.czero) (at2 x 1 v) i j)) ->
  is_cfin (at2 (IRLL.execute_forward_3D m x) i v)
  /\ at2 (IRLL.execute_forward_3D m x) i v =
     at2 x 0 v *c at2 (IRLL.execute_forward_3D m (unit_M0 x)) i v.
Proof.
  intros Hi Hv HN Ha Hs Hsp HK.
  assert (Hlen : length (row (unit_M0 x) 0) = length (row x 0)).
  { destruct x as [| r0 rest]; [reflexivity |].
    unfold unit_M0, row. cbn [nth]. apply length_map. }
  assert (H0 : at2 (unit_M0 x) 0 v = emb (1, 0)%R).
  { destruct x as [| r0 rest]; [simpl in Hv; lia |].
    unfold unit_M0, at2, row in *. cbn [nth] in *.
    rewrite (nth_indep _ Cfl.czero (emb (1, 0)%R)) by (rewrite length_map; exact Hv).
    apply (map_nth (fun _ => emb (1, 0)%R) r0 Cfl.czero v). }
  assert (H1 : at2 (unit_M0 x) 1 v = at2 x 1 v).
  { destruct x as [| r0 rest]; reflexivity. }
  assert (E : forall y : arr,
             (v < length (row y 0))%nat ->
             at2 (IRLL.execute_forward_3D m y) i v =
             IRLL.mean_elem m (nth v (IRLL.sin_phi m) Cfl.czero)
                            (nth v (IRLL.cos_phi m) Cfl.czero)
                            (at2 y 0 v) (at2 y 1 v) i).
  { intros y Hy. unfold IRLL.execute_forward_3D, at2 at 1, row at 1.
    rewrite ArrFacts.nth_map_seq by exact Hi. cbv beta.
    rewrite ArrFacts.nth_map_seq by exact Hy.
    reflexivity. }
  rewrite (E x Hv), (E (unit_M0 x)) by (rewrite Hlen; exact Hv).
  rewrite H0, H1, Ha.
  rewrite (mean_elem_fin m _ _ _ i a sp s HN Hs Hsp HK).
  rewrite (mean_elem_fin m _ _ _ i (1, 0)%R sp s HN Hs Hsp HK).
  split; [do 2 eexists; reflexivity |].
  rewrite hom_mul. apply (f_equal emb).
  unfold Cmul. cbn [fst snd]. f_equal; ring.
Qed.

(** A model with flip angle [pi / 2] ([sin_phi = 1], [cos_phi = 0]), one
    scan of one projection and one voxel, at [M0 = 2], [x[1] = 1]. *)
Definition right_model : IRLL.IRLL_Model :=
  IRLL.mkModel 1 1 1 (Fin 5) (Fin 30) (Fin 200) (Fin 100) (Fin 1) (Fin 1)
               [mkC (Fin 1) (Fin 0)] [mkC (Fin 0) (Fin 0)].

Definition right_input : arr := [[mkC (Fin 2) (Fin 0)]; [mkC (Fin 1) (Fin 0)]].

Lemma right_powers :
  IRLL.Etau right_model (mkC (Fin 1) (Fin 0)) = mkC (Fin 1) (Fin 0)
  /\ IRLL.Etr right_model (mkC (Fin 1) (Fin 0)) = mkC (Fin 1) (Fin 0)
  /\ IRLL.Etd right_model (mkC (Fin 1) (Fin 0)) = mkC (Fin 1) (Fin 0).
Proof.
  unfold IRLL.Etau, IRLL.Etr, IRLL.Etd, IRLL.Efit.
  cbn [IRLL.T1_sc IRLL.tau IRLL.TR IRLL.td IRLL.scale right_model].
  replace (Cfl.cmul (mkC (Fin 1) (Fin 0)) (rc (Fin 1))) with (mkC (Fin 1) (Fin 0))
    by (unfold Cfl.cmul; simpl; f_equal; f_equal; ring).
  rewrite !FlFacts.div_fin by lra.
  repeat split; apply cpow_real_one; lra.
Qed.

Lemma right_kernel_finite :
  forall j, (j < IRLL.Nproj right_model)%nat ->
            is_cfin (kernel right_model
                            (nth 0 (IRLL.cos_phi right_model) Cfl.czero)
                            (at2 right_input 1 0) 0 j).
Proof.
  intros j Hj. cbn [IRLL.Nproj right_model] in Hj.
  assert (j = 0)%nat as -> by lia.
  unfold kernel, IRLL.Q_F, IRLL.Q, IRLL.F.
  change (at2 right_input 1 0) with (mkC (Fin 1) (Fin 0)).
  change (nth 0 (IRLL.cos_phi right_model) Cfl.czero) with (mkC (Fin 0) (Fin 0)).
  destruct right_powers as (-> & -> & ->).
  cbn [IRLL.Nproj IRLL.Nproj_measured right_model Z.of_nat Z.mul Z.add Z.sub
       Z.opp Z.pos_sub IRLL.cpow_int Z.to_nat Cfl.cpow_nat].
  change (Cfl.of_real (Fin 1)) with (emb (1, 0)%R).
  change (rc (Fin 1)) with (emb (1, 0)%R).
  change (rc (Fin 2)) with (emb (2, 0)%R).
  change (mkC (Fin 1) (Fin 0)) with (emb (1, 0)%R).
  change (mkC (Fin 0) (Fin 0)) with (emb (0, 0)%R).
  rewrite ?hom_neg, ?hom_mul, ?hom_add, ?hom_sub.
  assert (D : forall p q : Cx, q = (1, 0)%R -> emb p /c emb q = emb p).
  { intros [p1 p2] q ->. change (emb (1, 0)%R) with (rc (Fin 1)).
    unfold emb. cbn [fst snd]. rewrite NormFacts.cdiv_real_fin by lra.
    f_equal; f_equal; field. }
  repeat first
    [ rewrite hom_neg | rewrite hom_mul | rewrite hom_add | rewrite hom_sub
    | rewrite D by (unfold Cmul, Cadd, Csub, Cneg; cbn [fst snd]; f_equal; ring) ].
  do 2 eexists. reflexivity.
Qed.

Lemma irll_signal_is_linear_in_M0_witness :
  is_cfin (at2 (IRLL.execute_forward_3D right_model right_input) 0 0)
  /\ at2 (IRLL.execute_forward_3D right_model right_input) 0 0 =
     at2 right_input 0 0 *c
     at2 (IRLL.execute_forward_3D right_model (unit_M0 right_input)) 0 0.
Proof.
  apply (irll_signal_is_linear_in_M0 right_model right_input 0 0 (2, 0)%R (1, 0)%R 1).
  - simpl. lia.
  - simpl. lia.
  - simpl. lia.
  - reflexivity.
  - reflexivity.
  - reflexivity.
  - exact right_kernel_finite.
Defined.

End IRLLLinear.
